(** * Subnetio address-planning core: a shallow embedding and its checked properties

    The Go sources embedded here are [cmd/subnetio/vlsm.go], [ipmath.go],
    [allocator.go], [analysis.go], the what-if planner and the capacity
    reporter.  Machine integers are [Z] with their wrap-around written
    out; Go maps are [gmap]s; the standard-library calls the code makes
    ([net/netip], [strings], [sort], [math/big]) are modelled in
    [Module netip] and in the [GoLib] interface. *)

From Stdlib Require Import ZArith Lia Bool List String Ascii Permutation Sorted.
From stdpp Require Import gmap strings list fin_maps.

Local Open Scope Z_scope.

(** ** Machine integers *)

(** Go's [uint32], [uint64] and (64-bit) [int]/[int64] conversions. *)
Definition u32 (z : Z) : Z := z mod 2 ^ 32.
Definition u64 (z : Z) : Z := z mod 2 ^ 64.
Definition i64 (z : Z) : Z := (z + 2 ^ 63) mod 2 ^ 64 - 2 ^ 63.

(** ** vlsm.go: hostsToPrefixIPv4 *)

(** [for p := 32; p >= 1; p--]: the counter [n] is [p]. *)
Fixpoint hostsToPrefixIPv4_loop (n : nat) (need : Z) : Z :=
  match n with
  | O => 1
  | S n' =>
      let p := Z.of_nat n in
      let size := i64 (Z.shiftl 1 (32 - p)) in
      if need <=? size then p else hostsToPrefixIPv4_loop n' need
  end.

Definition hostsToPrefixIPv4 (hosts : Z) : Z :=
  let need := i64 (hosts + 3) in
  hostsToPrefixIPv4_loop 32 need.

(** ** The standard library the code calls *)

(** Go's [net/netip], read arithmetically.  An address is its family and
    its value as an unsigned integer (32 or 128 bits); a prefix is an
    address and a length.  Only valid prefixes are represented (the ones
    [ParsePrefix] and [PrefixFrom] return without error); a failed result
    is an [option].  [Contains] compares the top [Bits] bits (netip xors
    the two addresses and shifts or masks the host bits away); [Masked]
    clears the host bits. *)
Module netip.

Inductive Addr : Type :=
| Addr4 (a : Z)
| Addr6 (a : Z).

Definition Is4 (a : Addr) : bool := match a with Addr4 _ => true | Addr6 _ => false end.
Definition Is6 (a : Addr) : bool := match a with Addr4 _ => false | Addr6 _ => true end.
Definition BitLen (a : Addr) : Z := match a with Addr4 _ => 32 | Addr6 _ => 128 end.
Definition value (a : Addr) : Z := match a with Addr4 v => v | Addr6 v => v end.
Definition with_value (a : Addr) (v : Z) : Addr :=
  match a with Addr4 _ => Addr4 v | Addr6 _ => Addr6 v end.

Record Prefix : Type := PrefixFrom { PAddr : Addr; Bits : Z }.

Definition host_bits (p : Prefix) : Z := BitLen (PAddr p) - Bits p.

Definition Contains (p : Prefix) (ip : Addr) : bool :=
  Bool.eqb (Is4 (PAddr p)) (Is4 ip) &&
  (Z.shiftr (Z.lxor (value ip) (value (PAddr p))) (host_bits p) =? 0).

Definition Masked (p : Prefix) : Prefix :=
  PrefixFrom
    (with_value (PAddr p) (Z.shiftl (Z.shiftr (value (PAddr p)) (host_bits p)) (host_bits p)))
    (Bits p).

(** The prefixes netip builds: value and length within the family's width. *)
Definition valid (p : Prefix) : Prop :=
  0 <= value (PAddr p) < 2 ^ BitLen (PAddr p) /\ 0 <= Bits p <= BitLen (PAddr p).

End netip.
Import netip.

(** [sql.NullString] and [sql.NullInt64]: [None] is [Valid = false]. *)
Abbreviation NullString := (option string).
Abbreviation NullInt64 := (option Z).
Definition Valid {A : Type} (o : option A) : bool :=
  match o with Some _ => true | None => false end.

(** ** Data model (main.go, vlsm.go, analysis.go) *)

Record Site : Type := mkSite {
  site_ID : Z;
  site_Name : string;
  ReservedRanges : NullString
}.

Record Pool : Type := mkPool {
  pool_ID : Z;
  pool_SiteID : Z;
  pool_Site : string;
  pool_CIDR : string;
  Family : string;
  Tier : NullString;
  Priority : Z
}.

Record Segment : Type := mkSegment {
  ID : Z;
  SiteID : Z;
  Site_ : string;
  VRF : string;
  VLAN : Z;
  Name : string;
  Hosts : NullInt64;
  Prefix_ : NullInt64;
  CIDR : NullString;
  PrefixV6 : NullInt64;
  CIDRV6 : NullString;
  Locked : bool;
  Tags : NullString;
  PoolTier : NullString
}.

Record ProjectRules : Type := mkRules {
  VLANScope : string;
  RequireInPool : bool;
  AllowReservedOverlap : bool;
  OversizeThreshold : Z;
  PoolStrategy : string;
  PoolTierFallback : bool
}.

Record Conflict : Type := mkConflict {
  Kind : string;
  Detail : string;
  Level : string
}.

Inductive statusLevel : Type := statusOK | statusWarning | statusConflict.

Record SegmentStatus : Type := mkStatus {
  st_Level : statusLevel;
  Details : list string
}.

Record ipv4Range : Type := mkRange { r_start : Z; r_end : Z }.
Record bigRange : Type := mkBig { b_start : Z; b_end : Z }.

Record poolItem : Type := mkItem {
  item_Pool : Pool;
  item_Prefix : Prefix;
  item_Tier : string
}.

(** What the code takes from the Go runtime and standard library and this
    development takes as given: text parsing and printing of prefixes,
    Unicode-aware [strings] functions, the unstable [sort.Slice], the
    order in which [range] visits a map, and the float64 arithmetic of
    the percentage and forecast texts. *)
Class GoLib : Type := {
  ParsePrefix : string -> option Prefix;
  PrefixString : Prefix -> string;
  TrimSpace : string -> string;
  ToLower : string -> string;
  sort_Slice : forall A : Type, (A -> A -> bool) -> list A -> list A;
  range_order : forall A : Type, list A -> list A;
  float64 : Type;
  ratFloat100 : Z -> Z -> Z;
  ratioPercentText : Z -> Z -> string;
  forecastSummary : Z -> Z -> float64 -> Z -> string
}.
Arguments sort_Slice {_ _} _ _.
Arguments range_order {_ _} _.

(** A loop that may not end: [body] maps the loop state to the next state
    or to the value returned.  [bound] rounds are run; the bounds used
    below are the number of states the loop has, so a loop still running
    after them repeats a state and never leaves. *)
Inductive outcome (A : Type) : Type :=
| Ret (a : A)
| Diverge
| Panic.
Arguments Ret {A} a.
Arguments Diverge {A}.
Arguments Panic {A}.

Definition bind {A B : Type} (m : outcome A) (k : A -> outcome B) : outcome B :=
  match m with
  | Ret a => k a
  | Diverge => Diverge
  | Panic => Panic
  end.

Notation "'do' x <- m ; k" := (bind m (fun x => k))
  (at level 10, x pattern, m at level 100, k at level 200).

Fixpoint loop_rounds {S R : Type} (bound : positive) (body : S -> S + R) (s : S) : S + R :=
  match bound with
  | xH => body s
  | xO b =>
      match loop_rounds b body s with
      | inl s' => loop_rounds b body s'
      | inr r => inr r
      end
  | xI b =>
      match body s with
      | inl s1 =>
          match loop_rounds b body s1 with
          | inl s2 => loop_rounds b body s2
          | inr r => inr r
          end
      | inr r => inr r
      end
  end.

Definition go_loop {S R : Type} (bound : positive) (body : S -> S + R) (s : S) : outcome R :=
  match loop_rounds bound body s with
  | inr r => Ret r
  | inl _ => Diverge
  end.

(** [sort.SliceStable]: insertion sort, stable. *)
Fixpoint insert_sorted {A : Type} (less : A -> A -> bool) (x : A) (l : list A) : list A :=
  match l with
  | [] => [x]
  | y :: l' => if less y x then y :: insert_sorted less x l' else x :: y :: l'
  end.

Definition sort_SliceStable {A : Type} (less : A -> A -> bool) (l : list A) : list A :=
  foldr (insert_sorted less) [] l.

(** ** ipmath.go *)

Definition addrBitLen (a : Addr) : Z := if Is4 a then 32 else 128.

Definition addrToBig (a : Addr) : Z := value a.

Definition bigToAddr (i : Z) (bits : Z) : option Addr :=
  if bits =? 32 then
    if (i <? 0) || (2 ^ 32 <=? i) then None else Some (Addr4 i)
  else
    if (i <? 0) || (2 ^ 128 <=? i) then None else Some (Addr6 i).

Definition prefixSize (p : Prefix) : Z :=
  let bits := addrBitLen (PAddr p) in
  let sizeBits := bits - Bits p in
  if sizeBits <=? 0 then 1 else Z.shiftl 1 sizeBits.

Definition prefixLastAddr (p : Prefix) : option Addr :=
  let masked := Masked p in
  let start := addrToBig (PAddr masked) in
  let size := prefixSize masked in
  let last := start + size - 1 in
  bigToAddr last (addrBitLen (PAddr masked)).

Definition prefixWithin (pool p : Prefix) : bool :=
  if negb (Contains pool (PAddr p)) then false
  else match prefixLastAddr p with
       | None => false
       | Some last => Contains pool last
       end.

(** [big.Int.QuoRem] truncates towards zero. *)
Definition alignUp (n step : Z) : Z :=
  if step =? 0 then n
  else
    let q := Z.quot n step in
    let r := Z.rem n step in
    (if r =? 0 then q else q + 1) * step.

(** ** Strings ([strings] on byte strings) *)

Definition HasPrefix (s pre : string) : bool := String.prefix pre s.

Definition TrimPrefix (s pre : string) : string :=
  if HasPrefix s pre
  then String.substring (String.length pre) (String.length s - String.length pre) s
  else s.

(** [strings.Split(s, sep)] for a one-byte separator. *)
Fixpoint Split (s : string) (sep : ascii) : list string :=
  match s with
  | EmptyString => [EmptyString]
  | String c s' =>
      if Ascii.eqb c sep then EmptyString :: Split s' sep
      else match Split s' sep with
           | [] => [String c EmptyString]
           | part :: parts => String c part :: parts
           end
  end.

(** [strings.Join]. *)
Fixpoint Join (parts : list string) (sep : string) : string :=
  match parts with
  | [] => EmptyString
  | [x] => x
  | x :: rest => x +:+ sep +:+ Join rest sep
  end.

Definition isEmpty (s : string) : bool := String.eqb s EmptyString.

(** ** vlsm.go *)

Definition prefixesOverlap (a b : Prefix) : bool :=
  Contains a (PAddr b) || Contains b (PAddr a).

Definition desiredPrefix (s : Segment) : Z :=
  match Prefix_ s with
  | Some v => v
  | None =>
      match Hosts s with
      | Some h => hostsToPrefixIPv4 h
      | None => 0
      end
  end.

Fixpoint overlapsAny (p : Prefix) (used : list Prefix) : bool :=
  match used with
  | [] => false
  | u :: used' => if prefixesOverlap u p then true else overlapsAny p used'
  end.

(** [As4] of a 4-byte address, reassembled big-endian (callers test
    [Is4] first; [As4] panics otherwise). *)
Definition ipv4ToU32 (a : Addr) : Z := u32 (value a).
Definition u32ToIPv4 (v : Z) : Addr := Addr4 (u32 v).

(** The sweep [for cur := start; cur+step <= end; cur += step] over
    [uint32] values; the cursor is the whole loop state. *)
Definition allocateInPoolIPv4 (pool : Prefix) (want : Z) (used : list Prefix)
  : outcome (option Prefix) :=
  if (want <? 1) || (32 <? want) then Ret None
  else
    let step := u32 (Z.shiftl 1 (32 - want)) in
    let start := ipv4ToU32 (PAddr (Masked pool)) in
    let end_ := u32 (start + u32 (Z.shiftl 1 (32 - Bits pool))) in
    go_loop (2 ^ 32)%positive
      (fun cur =>
         if u32 (cur + step) <=? end_ then
           let cand := Masked (PrefixFrom (u32ToIPv4 cur) want) in
           if negb (Contains pool (PAddr cand)) then inl (u32 (cur + step))
           else if overlapsAny cand used then inl (u32 (cur + step))
           else inr (Some cand)
         else inr None)
      start.

Fixpoint itoa_digits (n : nat) (i : Z) (buf : string) : string :=
  match n with
  | O => buf
  | S n' =>
      if 0 <? i
      then itoa_digits n' (i / 10) (String (ascii_of_N (Z.to_N (48 + i mod 10))) buf)
      else buf
  end.

Definition itoa64 (i : Z) : string :=
  if i =? 0 then "0"%string
  else
    let neg := i <? 0 in
    let i := if neg then i64 (- i) else i in
    let buf := itoa_digits 32 i EmptyString in
    if neg then String "-"%char buf else buf.

Definition itoa (i : Z) : string := itoa64 i.

Definition VlanScopeSiteVRF : string := "site_vrf".
Definition VlanScopeSite : string := "site".
Definition VlanScopeGlobal : string := "global".

Definition PoolStrategySpillover : string := "spillover".
Definition PoolStrategyContig : string := "contiguous".
Definition PoolStrategyTiered : string := "tiered".

Definition defaultProjectRules : ProjectRules :=
  {| VLANScope := VlanScopeSiteVRF;
     RequireInPool := true;
     AllowReservedOverlap := false;
     OversizeThreshold := 50;
     PoolStrategy := PoolStrategySpillover;
     PoolTierFallback := true |}.

Definition normalizeRules (rules : ProjectRules) : ProjectRules :=
  let scope :=
    if String.eqb (VLANScope rules) VlanScopeSite || String.eqb (VLANScope rules) VlanScopeGlobal
    then VLANScope rules else VlanScopeSiteVRF in
  let t1 := if OversizeThreshold rules <=? 0 then 50 else OversizeThreshold rules in
  let t2 := if 95 <? t1 then 95 else t1 in
  let strategy :=
    if String.eqb (PoolStrategy rules) PoolStrategyContig || String.eqb (PoolStrategy rules) PoolStrategyTiered
    then PoolStrategy rules else PoolStrategySpillover in
  {| VLANScope := scope;
     RequireInPool := RequireInPool rules;
     AllowReservedOverlap := AllowReservedOverlap rules;
     OversizeThreshold := t2;
     PoolStrategy := strategy;
     PoolTierFallback := PoolTierFallback rules |}.

Definition vlanKey (s : Segment) (rules : ProjectRules) : string :=
  if String.eqb (VLANScope rules) VlanScopeGlobal then itoa (VLAN s)
  else if String.eqb (VLANScope rules) VlanScopeSite then Site_ s +:+ "|" +:+ itoa (VLAN s)
  else Site_ s +:+ "|" +:+ VRF s +:+ "|" +:+ itoa (VLAN s).

(** ** analysis.go: status levels *)

Definition Label (s : statusLevel) : string :=
  match s with
  | statusWarning => "Warning"
  | statusConflict => "Conflict"
  | statusOK => "OK"
  end.

(** [iota] values of the [statusLevel] constants. *)
Definition level_rank (s : statusLevel) : Z :=
  match s with
  | statusOK => 0
  | statusWarning => 1
  | statusConflict => 2
  end.

(** ** allocator.go *)

Definition ALLOCATE_FAIL (s : Segment) (family : string) : Conflict :=
  {| Kind := "ALLOCATE_FAIL";
     Detail := "segment " +:+ Name s +:+ " could not be allocated (" +:+ family +:+ ")";
     Level := Label statusWarning |}.

Definition poolTierMatches (pool : poolItem) (tier : string) (fallback : bool) : bool :=
  if negb (isEmpty tier) then
    if String.eqb (item_Tier pool) tier then true else fallback
  else if isEmpty (item_Tier pool) then true
  else fallback.

Definition filterPoolsByTier (items : list poolItem) (tier : string) (fallback : bool)
  : list poolItem :=
  if isEmpty tier then
    let empty := List.filter (fun p => isEmpty (item_Tier p)) items in
    if 0 <? Z.of_nat (length empty) then empty
    else if fallback then items
    else []
  else
    let out := List.filter (fun p => String.eqb (item_Tier p) tier) items in
    if (Z.of_nat (length out) =? 0) && fallback then items else out.

Fixpoint mergeBig_from (last : bigRange) (rest : list bigRange) : list bigRange :=
  match rest with
  | [] => [last]
  | r :: rest' =>
      if b_start r <=? b_end last + 1 then
        mergeBig_from (if b_end last <? b_end r then mkBig (b_start last) (b_end r) else last) rest'
      else last :: mergeBig_from r rest'
  end.

(** [out] is the ranges already closed followed by [last], the one still
    growing. *)
Definition mergeBigRanges (ranges : list bigRange) : list bigRange :=
  match ranges with
  | [] => []
  | r0 :: rest => mergeBig_from r0 rest
  end.

Definition desiredPrefixByFamily (s : Segment) (family : string) : Z :=
  if String.eqb family "ipv6" then
    match PrefixV6 s with
    | Some v => v
    | None => 0
    end
  else desiredPrefix s.

Definition segmentCIDRByFamily (s : Segment) (family : string) : NullString :=
  if String.eqb family "ipv6" then CIDRV6 s else CIDR s.

Fixpoint segmentsNeedFamily (segs : list Segment) (family : string) : bool :=
  match segs with
  | [] => false
  | s :: segs' =>
      if String.eqb family "ipv6" then
        if Valid (PrefixV6 s) || Valid (CIDRV6 s) then true
        else segmentsNeedFamily segs' family
      else if Valid (Prefix_ s) || Valid (Hosts s) || Valid (CIDR s) then true
      else segmentsNeedFamily segs' family
  end.

(** The writes [allocateFamily] sends to the store through [Exec]. *)
Inductive StoreOp : Type :=
| ClearCIDRs (siteID : Z) (family : string)
| UpdateCIDR (segmentID : Z) (family : string) (cidr : string).

Section Allocator.
Context {L : GoLib}.

Definition normalizePoolFamily (raw : string) : string :=
  if String.eqb (ToLower (TrimSpace raw)) "ipv6" then "ipv6"%string else "ipv4"%string.

Definition poolTierValue (p : Pool) : string :=
  match Tier p with
  | Some t => ToLower (TrimSpace t)
  | None => EmptyString
  end.

Fixpoint tierFromTags (parts : list string) : string :=
  match parts with
  | [] => EmptyString
  | part :: parts' =>
      let part := TrimSpace part in
      if isEmpty part then tierFromTags parts'
      else if HasPrefix (ToLower part) "tier:" then TrimSpace (TrimPrefix (ToLower part) "tier:")
      else if HasPrefix (ToLower part) "tier=" then TrimSpace (TrimPrefix (ToLower part) "tier=")
      else tierFromTags parts'
  end.

Definition segmentTierValue (s : Segment) : string :=
  let fromTags :=
    match Tags s with
    | None => EmptyString
    | Some tags => tierFromTags (Split tags ","%char)
    end in
  match PoolTier s with
  | Some t =>
      let v := TrimSpace t in
      if negb (isEmpty v) then ToLower v else fromTags
  | None => fromTags
  end.

Definition poolItem_less (a b : poolItem) : bool :=
  if negb (Priority (item_Pool a) =? Priority (item_Pool b))
  then Priority (item_Pool a) <? Priority (item_Pool b)
  else if negb (String.eqb (item_Tier a) (item_Tier b))
  then String.ltb (item_Tier a) (item_Tier b)
  else String.ltb (PrefixString (item_Prefix a)) (PrefixString (item_Prefix b)).

Fixpoint poolItems_collect (pools : list Pool) (family : string) : list poolItem :=
  match pools with
  | [] => []
  | p :: pools' =>
      if negb (String.eqb (normalizePoolFamily (Family p)) family)
      then poolItems_collect pools' family
      else match ParsePrefix (TrimSpace (pool_CIDR p)) with
           | None => poolItems_collect pools' family
           | Some prefix =>
               if String.eqb family "ipv4" && negb (Is4 (PAddr prefix))
               then poolItems_collect pools' family
               else if String.eqb family "ipv6" && negb (Is6 (PAddr prefix))
               then poolItems_collect pools' family
               else mkItem p prefix (poolTierValue p) :: poolItems_collect pools' family
           end
  end.

Definition poolItemsForFamily (pools : list Pool) (family : string) : list poolItem :=
  sort_SliceStable poolItem_less (poolItems_collect pools family).

Fixpoint usedBig_collect (poolStart poolEnd : Z) (used : list Prefix) : list bigRange :=
  match used with
  | [] => []
  | p :: used' =>
      let p := Masked p in
      let start := addrToBig (PAddr p) in
      let size := prefixSize p in
      let end_ := start + size - 1 in
      if (end_ <? poolStart) || (poolEnd <? start) then usedBig_collect poolStart poolEnd used'
      else
        let start := if start <? poolStart then poolStart else start in
        let end_ := if poolEnd <? end_ then poolEnd else end_ in
        mkBig start end_ :: usedBig_collect poolStart poolEnd used'
  end.

Definition buildUsedRangesBig (pool : Prefix) (used : list Prefix) : list bigRange :=
  if (Z.of_nat (length used) =? 0) then []
  else
    let poolStart := addrToBig (PAddr pool) in
    let poolSize := prefixSize pool in
    let poolEnd := poolStart + poolSize - 1 in
    let out := usedBig_collect poolStart poolEnd used in
    mergeBigRanges (sort_Slice (fun a b => b_start a <? b_start b) out).

(** [for idx < len(usedRanges) && usedRanges[idx].end.Cmp(cur) < 0]:
    the index is kept as the ranges from [idx] on. *)
Fixpoint skipUsed (cur : Z) (rest : list bigRange) : list bigRange :=
  match rest with
  | [] => []
  | r :: rest' => if b_end r <? cur then skipUsed cur rest' else rest
  end.

(** [big.Int.Lsh] by [uint(128 - want)] for [want > 128] asks for about
    2^58 words and panics; every round of the sweep passes a used range
    or returns, which bounds the rounds. *)
Definition allocateInPoolIPv6 (pool : Prefix) (want : Z) (used : list Prefix)
  : outcome (option Prefix) :=
  if negb (Is6 (PAddr pool)) then Ret None
  else
    let pool := Masked pool in
    if want <? Bits pool then Ret None
    else if 128 <? want then Panic
    else
      let step := Z.shiftl 1 (128 - want) in
      let poolStart := addrToBig (PAddr pool) in
      let poolSize := prefixSize pool in
      let poolEnd := poolStart + poolSize - 1 in
      let usedRanges := buildUsedRangesBig pool used in
      let cur := alignUp poolStart step in
      go_loop (Pos.of_succ_nat (S (length usedRanges)))
        (fun '(cur, rest) =>
           let candEnd := cur + step - 1 in
           if poolEnd <? candEnd then inr None
           else
             let rest := skipUsed cur rest in
             let found :=
               match bigToAddr cur 128 with
               | None => None
               | Some addr => Some (Masked (PrefixFrom addr want))
               end in
             match rest with
             | [] => inr found
             | r :: _ =>
                 if candEnd <? b_start r then inr found
                 else inl (alignUp (b_end r + 1) step, rest)
             end)
        (cur, usedRanges).

Definition allocateInPool (pool : Prefix) (want : Z) (used : list Prefix)
  : outcome (option Prefix) :=
  if Is4 (PAddr pool) then allocateInPoolIPv4 pool want used
  else allocateInPoolIPv6 pool want used.

(** [for _, pool := range poolList]: the first pool that has room. *)
Fixpoint firstFit (poolList : list poolItem) (want : Z) (used : list Prefix)
  : outcome (option Prefix) :=
  match poolList with
  | [] => Ret None
  | pool :: poolList' =>
      do r <- allocateInPool (item_Prefix pool) want used;
      match r with
      | Some p => Ret (Some p)
      | None => firstFit poolList' want used
      end
  end.

Fixpoint allocateSpillover_from (items : list poolItem) (segments : list Segment)
    (alloc : gmap Z Prefix) (conflicts : list Conflict) (used : list Prefix)
    (rules : ProjectRules) (family : string) (strict : bool)
  : outcome (gmap Z Prefix * list Conflict) :=
  match segments with
  | [] => Ret (alloc, conflicts)
  | s :: segments' =>
      let want := desiredPrefixByFamily s family in
      if want =? 0 then
        allocateSpillover_from items segments' alloc conflicts used rules family strict
      else
        let poolList :=
          if String.eqb (PoolStrategy rules) PoolStrategyTiered
          then filterPoolsByTier items (segmentTierValue s) (PoolTierFallback rules)
          else items in
        do allocated <- firstFit poolList want used;
        match allocated with
        | None =>
            let conflicts := conflicts ++ [ALLOCATE_FAIL s family] in
            if strict then Ret (alloc, conflicts)
            else allocateSpillover_from items segments' alloc conflicts used rules family strict
        | Some p =>
            allocateSpillover_from items segments' (<[ID s := p]> alloc) conflicts
              (used ++ [p]) rules family strict
        end
  end.

Definition allocateSpillover (items : list poolItem) (segments : list Segment)
    (used : list Prefix) (rules : ProjectRules) (family : string) (strict : bool)
  : outcome (gmap Z Prefix * list Conflict) :=
  allocateSpillover_from items segments ∅ [] used rules family strict.

(** One pool of [allocateContiguous]: the segments of [pending] it takes
    in, and the ones left for the next pool. *)
Fixpoint contiguous_pool (pool : poolItem) (pending : list Segment)
    (alloc : gmap Z Prefix) (used : list Prefix) (nextPending : list Segment)
    (rules : ProjectRules) (family : string)
  : outcome (gmap Z Prefix * list Prefix * list Segment) :=
  match pending with
  | [] => Ret (alloc, used, nextPending)
  | s :: pending' =>
      let want := desiredPrefixByFamily s family in
      if want =? 0 then contiguous_pool pool pending' alloc used nextPending rules family
      else if String.eqb (PoolStrategy rules) PoolStrategyTiered
              && negb (poolTierMatches pool (segmentTierValue s) (PoolTierFallback rules))
      then contiguous_pool pool pending' alloc used (nextPending ++ [s]) rules family
      else
        do r <- allocateInPool (item_Prefix pool) want used;
        match r with
        | Some p =>
            contiguous_pool pool pending' (<[ID s := p]> alloc) (used ++ [p]) nextPending
              rules family
        | None =>
            contiguous_pool pool pending' alloc used (nextPending ++ [s]) rules family
        end
  end.

Fixpoint contiguous_pools (items : list poolItem) (pending : list Segment)
    (alloc : gmap Z Prefix) (used : list Prefix) (rules : ProjectRules) (family : string)
  : outcome (gmap Z Prefix * list Segment) :=
  match items with
  | [] => Ret (alloc, pending)
  | pool :: items' =>
      if Z.of_nat (length pending) =? 0 then Ret (alloc, pending)
      else
        do (alloc, used, nextPending) <- contiguous_pool pool pending alloc used [] rules family;
        contiguous_pools items' nextPending alloc used rules family
  end.

Fixpoint contiguous_conflicts (pending : list Segment) (family : string) (strict : bool)
  : list Conflict :=
  match pending with
  | [] => []
  | s :: pending' =>
      ALLOCATE_FAIL s family
      :: (if strict then [] else contiguous_conflicts pending' family strict)
  end.

Definition allocateContiguous (items : list poolItem) (segments : list Segment)
    (used : list Prefix) (rules : ProjectRules) (family : string) (strict : bool)
  : outcome (gmap Z Prefix * list Conflict) :=
  do (alloc, pending) <- contiguous_pools items segments ∅ used rules family;
  Ret (alloc, contiguous_conflicts pending family strict).

End Allocator.

(** ** allocator.go: persistent and planning allocation *)

(** [sqlExecer]: the store behind [Exec], as a state and the effect of one
    write on it; [Some msg] is a non-nil error. *)
Class sqlExecer (Store : Type) : Type := {
  Exec : StoreOp -> Store -> Store * option string
}.

Section Planning.
Context {L : GoLib}.

(** [locked] segments whose CIDR of the family parses. *)
Fixpoint lockedPrefixes (segs : list Segment) (family : string) : list Prefix :=
  match segs with
  | [] => []
  | s :: segs' =>
      if negb (Locked s) then lockedPrefixes segs' family
      else match segmentCIDRByFamily s family with
           | None => lockedPrefixes segs' family
           | Some cidr =>
               match ParsePrefix cidr with
               | Some p => p :: lockedPrefixes segs' family
               | None => lockedPrefixes segs' family
               end
           end
  end.

Definition strictCandidates (segs : list Segment) (family : string) : list Segment :=
  List.filter (fun s => negb (Locked s) && negb (desiredPrefixByFamily s family =? 0)) segs.

Definition candidate_less (family : string) (a b : Segment) : bool :=
  desiredPrefixByFamily a family <? desiredPrefixByFamily b family.

Definition runStrategy (items : list poolItem) (candidates : list Segment)
    (used : list Prefix) (rules : ProjectRules) (family : string) (strict : bool)
  : outcome (gmap Z Prefix * list Conflict) :=
  if String.eqb (PoolStrategy rules) PoolStrategyContig
  then allocateContiguous items candidates used rules family strict
  else if String.eqb (PoolStrategy rules) PoolStrategyTiered
  then allocateSpillover items candidates used rules family strict
  else allocateSpillover items candidates used rules family strict.

Definition clearCIDRsByFamily {Store} {E : sqlExecer Store} (siteID : Z) (family : string)
    (db : Store) : Store * option string :=
  Exec (ClearCIDRs siteID family) db.

Definition updateSegmentCIDRByFamily {Store} {E : sqlExecer Store} (segmentID : Z)
    (family : string) (cidr : string) (db : Store) : Store * option string :=
  Exec (UpdateCIDR segmentID family cidr) db.

(** [for id, p := range allocations], left at the first error. *)
Fixpoint updateAll {Store} {E : sqlExecer Store} (entries : list (Z * Prefix)) (family : string)
    (db : Store) : Store * option string :=
  match entries with
  | [] => (db, None)
  | (id, p) :: entries' =>
      match updateSegmentCIDRByFamily id family (PrefixString p) db with
      | (db', Some err) => (db', Some err)
      | (db', None) => updateAll entries' family db'
      end
  end.

Definition allocateFamily {Store} {E : sqlExecer Store} (db : Store) (siteID : Z)
    (segs : list Segment) (pools : list Pool) (reserved : list Prefix)
    (rules : ProjectRules) (family : string) : outcome (Store * option string) :=
  let items := poolItemsForFamily pools family in
  if Z.of_nat (length items) =? 0 then Ret (db, None)
  else
    let used := lockedPrefixes segs family ++ reserved in
    let candidates := strictCandidates segs family in
    if Z.of_nat (length candidates) =? 0 then Ret (db, None)
    else
      let candidates := sort_SliceStable (candidate_less family) candidates in
      do (allocations, conflicts) <- runStrategy items candidates used rules family true;
      match conflicts with
      | c :: _ => Ret (db, Some (Detail c))
      | [] =>
          match clearCIDRsByFamily siteID family db with
          | (db', Some err) => Ret (db', Some err)
          | (db', None) =>
              Ret (updateAll (range_order (map_to_list allocations)) family db')
          end
      end.

Definition LOCKED_NO_CIDR (s : Segment) (family : string) : Conflict :=
  {| Kind := "LOCKED_NO_CIDR";
     Detail := "segment " +:+ Name s +:+ " is locked without CIDR (" +:+ family +:+ ")";
     Level := Label statusWarning |}.

Definition SIZE_MISSING (s : Segment) (family : string) : Conflict :=
  {| Kind := "SIZE_MISSING";
     Detail := "segment " +:+ Name s +:+ " has no size request (" +:+ family +:+ ")";
     Level := Label statusWarning |}.

Definition POOL_MISSING (family : string) : Conflict :=
  {| Kind := "POOL_MISSING";
     Detail := "no pools for family " +:+ family;
     Level := Label statusWarning |}.

(** First loop of [planAllocateFamily]: locked segments enter [used] and
    the plan. *)
Fixpoint planLocked (segs : list Segment) (family : string)
    (used : list Prefix) (plan : gmap Z Prefix) (conflicts : list Conflict)
  : list Prefix * gmap Z Prefix * list Conflict :=
  match segs with
  | [] => (used, plan, conflicts)
  | s :: segs' =>
      if negb (Locked s) then planLocked segs' family used plan conflicts
      else match segmentCIDRByFamily s family with
           | None =>
               planLocked segs' family used plan (conflicts ++ [LOCKED_NO_CIDR s family])
           | Some cidr =>
               match ParsePrefix cidr with
               | Some p => planLocked segs' family (used ++ [p]) (<[ID s := p]> plan) conflicts
               | None => planLocked segs' family used plan conflicts
               end
           end
  end.

(** Second loop: the segments to place. *)
Fixpoint planCandidates (segs : list Segment) (family : string)
    (candidates : list Segment) (conflicts : list Conflict)
  : list Segment * list Conflict :=
  match segs with
  | [] => (candidates, conflicts)
  | s :: segs' =>
      if Locked s then planCandidates segs' family candidates conflicts
      else if desiredPrefixByFamily s family =? 0
      then planCandidates segs' family candidates (conflicts ++ [SIZE_MISSING s family])
      else planCandidates segs' family (candidates ++ [s]) conflicts
  end.

(** [for id, p := range alloc { plan[id] = p }]. *)
Definition mergePlan (plan : gmap Z Prefix) (entries : list (Z * Prefix)) : gmap Z Prefix :=
  foldl (fun plan '(id, p) => <[id := p]> plan) plan entries.

(** A nil map reads like an empty one. *)
Definition planAllocateFamily (segs : list Segment) (pools : list Pool)
    (reserved : list Prefix) (rules : ProjectRules) (family : string)
  : outcome (gmap Z Prefix * list Conflict) :=
  let items := poolItemsForFamily pools family in
  if Z.of_nat (length items) =? 0 then
    if negb (segmentsNeedFamily segs family) then Ret (∅, [])
    else Ret (∅, [POOL_MISSING family])
  else
    let '(used, plan, conflicts) := planLocked segs family [] ∅ [] in
    let used := used ++ reserved in
    let '(candidates, conflicts) := planCandidates segs family [] conflicts in
    let candidates := sort_SliceStable (candidate_less family) candidates in
    do (alloc, cf) <- runStrategy items candidates used rules family false;
    let conflicts := conflicts ++ cf in
    Ret (mergePlan plan (range_order (map_to_list alloc)), conflicts).

(** [m[k] = append(m[k], x)]. *)
Definition appendAt {A : Type} (m : gmap Z (list A)) (k : Z) (x : A) : gmap Z (list A) :=
  <[k := default [] (m !! k) ++ [x]]> m.

Definition segmentsBySiteID (segs : list Segment) : gmap Z (list Segment) :=
  foldl (fun m s => appendAt m (SiteID s) s) ∅ segs.

Definition poolsBySiteID (pools : list Pool) : gmap Z (list Pool) :=
  foldl (fun m p => appendAt m (pool_SiteID p) p) ∅ pools.

Fixpoint planSites (sites : list (Z * list Segment)) (poolsBySite : gmap Z (list Pool))
    (reservedV4 reservedV6 : gmap Z (list Prefix)) (rules : ProjectRules)
    (planV4 planV6 : gmap Z Prefix) (conflicts : list Conflict)
  : outcome (gmap Z Prefix * gmap Z Prefix * list Conflict) :=
  match sites with
  | [] => Ret (planV4, planV6, conflicts)
  | (siteID, siteSegs) :: sites' =>
      let sitePools := default [] (poolsBySite !! siteID) in
      do (allocV4, cfV4) <-
        planAllocateFamily siteSegs sitePools (default [] (reservedV4 !! siteID)) rules "ipv4";
      do (allocV6, cfV6) <-
        planAllocateFamily siteSegs sitePools (default [] (reservedV6 !! siteID)) rules "ipv6";
      planSites sites' poolsBySite reservedV4 reservedV6 rules
        (mergePlan planV4 (range_order (map_to_list allocV4)))
        (mergePlan planV6 (range_order (map_to_list allocV6)))
        ((conflicts ++ cfV4) ++ cfV6)
  end.

Definition planAllocations (segs : list Segment) (pools : list Pool)
    (reservedV4 reservedV6 : gmap Z (list Prefix)) (rules : ProjectRules)
  : outcome (gmap Z Prefix * gmap Z Prefix * list Conflict) :=
  planSites (range_order (map_to_list (segmentsBySiteID segs))) (poolsBySiteID pools)
    reservedV4 reservedV6 rules ∅ ∅ [].

(** what-if planner: [applyPlan]. *)
Definition applyPlan_one (planV4 planV6 : gmap Z Prefix) (s : Segment) : Segment :=
  {| ID := ID s; SiteID := SiteID s; Site_ := Site_ s; VRF := VRF s; VLAN := VLAN s;
     Name := Name s; Hosts := Hosts s; Prefix_ := Prefix_ s;
     CIDR := match planV4 !! ID s with
             | Some p => Some (PrefixString p)
             | None => None
             end;
     PrefixV6 := PrefixV6 s;
     CIDRV6 := match planV6 !! ID s with
               | Some p => Some (PrefixString p)
               | None => None
               end;
     Locked := Locked s; Tags := Tags s; PoolTier := PoolTier s |}.

Definition applyPlan (segs : list Segment) (planV4 planV6 : gmap Z Prefix) : list Segment :=
  map (applyPlan_one planV4 planV6) segs.

End Planning.

(** ** analysis.go: used and free ranges *)

(** [poolStart + uint32((1<<(32-bits))-1)], all in [uint32]. *)
Definition lastOfBlock (start bits : Z) : Z :=
  u32 (start + u32 (u32 (Z.shiftl 1 (32 - bits)) - 1)).

Definition prefixRangeWithin (pool p : Prefix) : option ipv4Range :=
  let poolStart := ipv4ToU32 (PAddr (Masked pool)) in
  let poolEnd := lastOfBlock poolStart (Bits pool) in
  let pStart := ipv4ToU32 (PAddr (Masked p)) in
  let pEnd := lastOfBlock pStart (Bits p) in
  if (pEnd <? poolStart) || (poolEnd <? pStart) then None
  else
    let pStart := if pStart <? poolStart then poolStart else pStart in
    let pEnd := if poolEnd <? pEnd then poolEnd else pEnd in
    Some (mkRange pStart pEnd).

Fixpoint merge_from (last : ipv4Range) (rest : list ipv4Range) : list ipv4Range :=
  match rest with
  | [] => [last]
  | r :: rest' =>
      if r_start r <=? u32 (r_end last + 1) then
        merge_from (if r_end last <? r_end r then mkRange (r_start last) (r_end r) else last) rest'
      else last :: merge_from r rest'
  end.

Definition mergeRanges (ranges : list ipv4Range) : list ipv4Range :=
  match ranges with
  | [] => []
  | r0 :: rest => merge_from r0 rest
  end.

(** The loop of [freeRanges]: the gaps found and the cursor it ends with. *)
Fixpoint freeRanges_loop (poolEnd cur : Z) (used : list ipv4Range) : list ipv4Range * Z :=
  match used with
  | [] => ([], cur)
  | r :: used' =>
      let gap := if cur <? r_start r then [mkRange cur (u32 (r_start r - 1))] else [] in
      let cur := if cur <? u32 (r_end r + 1) then u32 (r_end r + 1) else cur in
      if poolEnd <? cur then (gap, cur)
      else
        let '(gaps, cur') := freeRanges_loop poolEnd cur used' in
        (gap ++ gaps, cur')
  end.

Definition freeRanges (pool : Prefix) (used : list ipv4Range) : list ipv4Range :=
  let poolStart := ipv4ToU32 (PAddr (Masked pool)) in
  let poolEnd := lastOfBlock poolStart (Bits pool) in
  if Z.of_nat (length used) =? 0 then [mkRange poolStart poolEnd]
  else
    let '(gaps, cur) := freeRanges_loop poolEnd poolStart used in
    if cur <=? poolEnd then gaps ++ [mkRange cur poolEnd] else gaps.

Fixpoint freeRangesBig_loop (poolEnd cur : Z) (used : list bigRange) : list bigRange * Z :=
  match used with
  | [] => ([], cur)
  | r :: used' =>
      let gap := if cur <? b_start r then [mkBig cur (b_start r - 1)] else [] in
      let next := b_end r + 1 in
      let cur := if cur <? next then next else cur in
      if poolEnd <? cur then (gap, cur)
      else
        let '(gaps, cur') := freeRangesBig_loop poolEnd cur used' in
        (gap ++ gaps, cur')
  end.

Definition freeRangesBig (pool : Prefix) (used : list bigRange) : list bigRange :=
  let masked := Masked pool in
  let poolStart := addrToBig (PAddr masked) in
  let poolSize := prefixSize masked in
  let poolEnd := poolStart + poolSize - 1 in
  if Z.of_nat (length used) =? 0 then [mkBig poolStart poolEnd]
  else
    let '(gaps, cur) := freeRangesBig_loop poolEnd poolStart used in
    if cur <=? poolEnd then gaps ++ [mkBig cur poolEnd] else gaps.

(** [bits.TrailingZeros32]. *)
Fixpoint trailingZeros (n : nat) (x : Z) : Z :=
  match n with
  | O => 0
  | S n' => if Z.odd x then 0 else 1 + trailingZeros n' (x / 2)
  end.

Definition TrailingZeros32 (x : Z) : Z :=
  if x =? 0 then 32 else trailingZeros 32 x.

(** [for maxPref < 32 { ...; maxPref++ }]. *)
Fixpoint shrinkBlock (n : nat) (maxPref remaining : Z) : Z :=
  match n with
  | O => maxPref
  | S n' =>
      if maxPref <? 32 then
        let block := u64 (Z.shiftl 1 (32 - maxPref)) in
        if block <=? remaining then maxPref
        else shrinkBlock n' (maxPref + 1) remaining
      else maxPref
  end.

Definition rangeToPrefixes (r : ipv4Range) : outcome (list Prefix) :=
  let end_ := r_end r in
  go_loop (2 ^ 33)%positive
    (fun '(start, out) =>
       if start <=? end_ then
         let maxPref := 32 - TrailingZeros32 start in
         let remaining := u64 (u32 (end_ - start) + 1) in
         let maxPref := shrinkBlock 33 maxPref remaining in
         let p := Masked (PrefixFrom (u32ToIPv4 start) maxPref) in
         let out := out ++ [p] in
         let blockSize := u64 (Z.shiftl 1 (32 - maxPref)) in
         if maxPref =? 0 then inr out
         else inl (u32 (start + u32 blockSize), out)
       else inr out)
    (r_start r, []).

(** [for len(out) < limit]: at most [limit] rounds. *)
Fixpoint bigRangeToPrefixes_loop (n : nat) (start step end_ unitPrefix : Z) : list Prefix :=
  match n with
  | O => []
  | S n' =>
      let blockEnd := start + step - 1 in
      if end_ <? blockEnd then []
      else match bigToAddr start 128 with
           | None => []
           | Some addr =>
               Masked (PrefixFrom addr unitPrefix)
               :: bigRangeToPrefixes_loop n' (start + step) step end_ unitPrefix
           end
  end.

Definition bigRangeToPrefixes (r : bigRange) (unitPrefix limit : Z) : list Prefix :=
  if (unitPrefix <=? 0) || (128 <? unitPrefix) || (limit <=? 0) then []
  else
    let step := Z.shiftl 1 (128 - unitPrefix) in
    let start := alignUp (b_start r) step in
    bigRangeToPrefixes_loop (Z.to_nat limit) start step (b_end r) unitPrefix.

Definition fragmentationScore (total largest : Z) : Z :=
  if total =? 0 then 0
  else
    let frag := i64 (u64 (u64 (total - largest) * 100) / total) in
    if frag <? 0 then 0 else if 100 <? frag then 100 else frag.

Definition bigRangeSize (r : bigRange) : Z := b_end r - b_start r + 1.

(** ** analysis.go: the analyzer *)

Definition addStatus (statuses : gmap Z SegmentStatus) (id : Z) (level : statusLevel)
    (detail : string) : gmap Z SegmentStatus :=
  let st := match statuses !! id with
            | Some st => st
            | None => mkStatus level []
            end in
  let st := if level_rank (st_Level st) <? level_rank level
            then mkStatus level (Details st) else st in
  let st := if negb (isEmpty detail) then mkStatus (st_Level st) (Details st ++ [detail]) else st in
  <[id := st]> statuses.

(** The index pairs [i < j] of the two nested loops, in their order. *)
Fixpoint pairsOf {A : Type} (ids : list A) : list (A * A) :=
  match ids with
  | [] => []
  | a :: ids' => map (fun b => (a, b)) ids' ++ pairsOf ids'
  end.

(** Zero value of [Segment], what a map returns for a key it lacks. *)
Definition zeroSegment : Segment :=
  {| ID := 0; SiteID := 0; Site_ := ""; VRF := ""; VLAN := 0; Name := "";
     Hosts := None; Prefix_ := None; CIDR := None; PrefixV6 := None; CIDRV6 := None;
     Locked := false; Tags := None; PoolTier := None |}.

(** [val.String()] of a [big.Int]. *)
Definition bigString (z : Z) : string :=
  if z =? 0 then "0"%string
  else
    let digits := itoa_digits (S (Z.to_nat (Z.log2 (Z.abs z)))) (Z.abs z) EmptyString in
    if z <? 0 then String "-"%char digits else digits.

Fixpoint groupThousands (n : nat) (text : string) (parts : list string) : list string :=
  match n with
  | O => text :: parts
  | S n' =>
      if (3 <? String.length text)%nat then
        groupThousands n'
          (String.substring 0 (String.length text - 3) text)
          (String.substring (String.length text - 3) 3 text :: parts)
      else text :: parts
  end.

(** capacity reporter: [formatBigInt]; [parts] is kept already reversed. *)
Definition formatBigInt (val : Z) : string :=
  let text := bigString val in
  if (String.length text <=? 3)%nat then text
  else Join (groupThousands (String.length text) text []) "_".

Section Analysis.
Context {L : GoLib}.

Fixpoint prefixInAnyPool (p : Prefix) (pools : list Prefix) : bool :=
  match pools with
  | [] => false
  | pool :: pools' => if prefixWithin pool p then true else prefixInAnyPool p pools'
  end.

Definition joinPrefixes (pools : list Prefix) : string :=
  Join (map PrefixString pools) ", ".

Definition appendP (m : gmap Z (list Prefix)) (k : Z) (x : Prefix) : gmap Z (list Prefix) :=
  <[k := default [] (m !! k) ++ [x]]> m.

Definition buildPoolIndex (pools : list Pool)
  : gmap Z (list Prefix) * gmap Z (list Prefix) :=
  foldl
    (fun '(outV4, outV6) p =>
       match ParsePrefix (pool_CIDR p) with
       | None => (outV4, outV6)
       | Some prefix =>
           let family := normalizePoolFamily (Family p) in
           if String.eqb family "ipv6" && Is6 (PAddr prefix)
           then (outV4, appendP outV6 (pool_SiteID p) prefix)
           else if Is4 (PAddr prefix)
           then (appendP outV4 (pool_SiteID p) prefix, outV6)
           else (outV4, outV6)
       end)
    (∅, ∅) pools.

Definition RESERVED_PARSE (s : Site) (part : string) : Conflict :=
  {| Kind := "RESERVED_PARSE";
     Detail := "site=" +:+ site_Name s +:+ " bad reserved range: " +:+ part;
     Level := Label statusWarning |}.

Definition reservedPart (s : Site)
    (acc : gmap Z (list Prefix) * gmap Z (list Prefix) * list Conflict) (part : string)
  : gmap Z (list Prefix) * gmap Z (list Prefix) * list Conflict :=
  let '(outV4, outV6, conflicts) := acc in
  let part := TrimSpace part in
  if isEmpty part then acc
  else match ParsePrefix part with
       | None => (outV4, outV6, conflicts ++ [RESERVED_PARSE s part])
       | Some prefix =>
           if Is4 (PAddr prefix) then (appendP outV4 (site_ID s) prefix, outV6, conflicts)
           else if Is6 (PAddr prefix) then (outV4, appendP outV6 (site_ID s) prefix, conflicts)
           else acc
       end.

Definition buildReservedIndex (sites : list Site)
  : gmap Z (list Prefix) * gmap Z (list Prefix) * list Conflict :=
  foldl
    (fun acc s =>
       match ReservedRanges s with
       | None => acc
       | Some ranges =>
           let raw := TrimSpace ranges in
           if isEmpty raw then acc
           else foldl (reservedPart s) acc (Split raw ","%char)
       end)
    (∅, ∅, []) sites.

(** The texts by which the IPv4 and the IPv6 branch of the per-segment
    checks differ; the two branches are the same code otherwise. *)
Record familyTexts : Type := mkTexts {
  t_cidr : string;
  t_noPool : string;
  t_outStatus : string;
  t_outKind : string;
  t_outside : string;
  t_resStatus : string;
  t_resKind : string
}.

Definition textsV4 : familyTexts :=
  mkTexts " cidr=" "no pool defined for site" "out of pool" "OUT_OF_POOL"
    " outside pools: " "overlaps reserved range" "RESERVED_OVERLAP".

Definition textsV6 : familyTexts :=
  mkTexts " cidr_v6=" "no v6 pool defined for site" "v6 out of pool" "OUT_OF_POOL_V6"
    " outside v6 pools: " "overlaps v6 reserved range" "RESERVED_OVERLAP_V6".

(** [for _, r := range ranges { if prefixesOverlap(r, p) { ...; break } }] *)
Fixpoint firstReservedOverlap (ranges : list Prefix) (p : Prefix) : option Prefix :=
  match ranges with
  | [] => None
  | r :: ranges' => if prefixesOverlap r p then Some r else firstReservedOverlap ranges' p
  end.

(** The checks on a CIDR that parsed: pool membership, reserved overlap. *)
Definition checkParsed (t : familyTexts) (s : Segment) (p : Prefix)
    (pools ranges : list Prefix) (rules : ProjectRules)
    (statuses : gmap Z SegmentStatus) (conflicts : list Conflict)
  : gmap Z SegmentStatus * list Conflict :=
  let '(statuses, conflicts) :=
    if Z.of_nat (length pools) =? 0 then
      (addStatus statuses (ID s) statusWarning (t_noPool t), conflicts)
    else if negb (prefixInAnyPool p pools) then
      let level := if RequireInPool rules then statusConflict else statusWarning in
      (addStatus statuses (ID s) level (t_outStatus t),
       conflicts ++ [ {| Kind := t_outKind t;
                         Detail := "segment " +:+ Name s +:+ " site=" +:+ Site_ s +:+ t_cidr t
                                   +:+ PrefixString p +:+ t_outside t +:+ joinPrefixes pools;
                         Level := Label level |} ])
    else (statuses, conflicts) in
  match firstReservedOverlap ranges p with
  | Some r =>
      let level := if negb (AllowReservedOverlap rules) then statusConflict else statusWarning in
      (addStatus statuses (ID s) level (t_resStatus t),
       conflicts ++ [ {| Kind := t_resKind t;
                         Detail := "segment " +:+ Name s +:+ " site=" +:+ Site_ s +:+ t_cidr t
                                   +:+ PrefixString p +:+ " overlaps reserved " +:+ PrefixString r;
                         Level := Label level |} ])
  | None => (statuses, conflicts)
  end.

(** State of [analyzeSegments] across its loops. *)
Record analysis : Type := mkAnalysis {
  statuses : gmap Z SegmentStatus;
  conflicts : list Conflict;
  prefixByID : gmap Z Prefix;
  prefixByIDV6 : gmap Z Prefix;
  prefixOK : gmap Z bool;
  prefixOKV6 : gmap Z bool
}.

(** Body of the per-segment loop. *)
Definition checkSegment (poolsV4 poolsV6 reservedV4 reservedV6 : gmap Z (list Prefix))
    (rules : ProjectRules) (a : analysis) (s : Segment) : analysis :=
  let st := statuses a in
  let cf := conflicts a in
  let st := if negb (Valid (Prefix_ s)) && negb (Valid (Hosts s))
            then addStatus st (ID s) statusWarning "size request missing" else st in
  let st := if Valid (PrefixV6 s) && negb (Valid (CIDRV6 s))
            then addStatus st (ID s) statusWarning "v6 not allocated" else st in
  let '(st, cf, byID, ok) :=
    match CIDR s with
    | None => (addStatus st (ID s) statusWarning "not allocated", cf, prefixByID a, prefixOK a)
    | Some cidr =>
        match ParsePrefix cidr with
        | None =>
            (addStatus st (ID s) statusConflict "invalid CIDR",
             cf ++ [ {| Kind := "CIDR_PARSE";
                        Detail := "segment " +:+ Name s +:+ " site=" +:+ Site_ s +:+ " cidr="
                                  +:+ cidr +:+ " parse error";
                        Level := Label statusConflict |} ],
             prefixByID a, prefixOK a)
        | Some p =>
            let '(st, cf) :=
              checkParsed textsV4 s p (default [] (poolsV4 !! SiteID s))
                (default [] (reservedV4 !! SiteID s)) rules st cf in
            (st, cf, <[ID s := p]> (prefixByID a), <[ID s := true]> (prefixOK a))
        end
    end in
  let '(st, cf, byID6, ok6) :=
    match CIDRV6 s with
    | None => (st, cf, prefixByIDV6 a, prefixOKV6 a)
    | Some cidr =>
        match ParsePrefix cidr with
        | None =>
            (addStatus st (ID s) statusConflict "invalid CIDR v6",
             cf ++ [ {| Kind := "CIDR6_PARSE";
                        Detail := "segment " +:+ Name s +:+ " site=" +:+ Site_ s +:+ " cidr_v6="
                                  +:+ cidr +:+ " parse error";
                        Level := Label statusConflict |} ],
             prefixByIDV6 a, prefixOKV6 a)
        | Some p6 =>
            let '(st, cf) :=
              checkParsed textsV6 s p6 (default [] (poolsV6 !! SiteID s))
                (default [] (reservedV6 !! SiteID s)) rules st cf in
            (st, cf, <[ID s := p6]> (prefixByIDV6 a), <[ID s := true]> (prefixOKV6 a))
        end
    end in
  mkAnalysis st cf byID byID6 ok ok6.

(** [group[key{s.Site, s.VRF}] = append(..., s.ID)] over the segments
    whose id is marked in [ok]. *)
Definition groupBySiteVRF (segs : list Segment) (ok : gmap Z bool)
  : gmap (string * string) (list Z) :=
  foldl
    (fun group s =>
       if default false (ok !! ID s)
       then <[(Site_ s, VRF s) := default [] (group !! (Site_ s, VRF s)) ++ [ID s]]> group
       else group)
    ∅ segs.

(** One pair of the overlap loops; [v6] selects the texts. *)
Definition checkPair (v6 : bool) (segByID : gmap Z Segment) (byID : gmap Z Prefix)
    (k : string * string) (sc : gmap Z SegmentStatus * list Conflict) (ab : Z * Z)
  : gmap Z SegmentStatus * list Conflict :=
  let '(st, cf) := sc in
  let '(a, b) := ab in
  match byID !! a, byID !! b with
  | Some p1, Some p2 =>
      if prefixesOverlap p1 p2 then
        let s1 := default zeroSegment (segByID !! a) in
        let s2 := default zeroSegment (segByID !! b) in
        let word := if v6 then "v6 overlap with "%string else "overlap with "%string in
        let st := addStatus st (ID s1) statusConflict (word +:+ Name s2) in
        let st := addStatus st (ID s2) statusConflict (word +:+ Name s1) in
        (st,
         cf ++ [ {| Kind := if v6 then "OVERLAP_V6" else "OVERLAP";
                    Detail := "site=" +:+ fst k +:+ " vrf=" +:+ snd k +:+ ": " +:+ Name s1
                              +:+ " " +:+ PrefixString p1 +:+ " overlaps " +:+ Name s2
                              +:+ " " +:+ PrefixString p2;
                    Level := Label statusConflict |} ])
      else (st, cf)
  | _, _ => (st, cf)
  end.

(** [for k, ids := range group]: the groups in the order the runtime
    visits the map. *)
Definition checkOverlaps (v6 : bool) (segByID : gmap Z Segment) (byID : gmap Z Prefix)
    (group : gmap (string * string) (list Z))
    (sc : gmap Z SegmentStatus * list Conflict) : gmap Z SegmentStatus * list Conflict :=
  foldl
    (fun sc '(k, ids) => foldl (checkPair v6 segByID byID k) sc (pairsOf ids))
    sc (range_order (map_to_list group)).

Definition VLAN_DUP (first s : Segment) : Conflict :=
  {| Kind := "VLAN_DUP";
     Detail := "site=" +:+ Site_ s +:+ " vrf=" +:+ VRF s +:+ " vlan=" +:+ itoa (VLAN s)
               +:+ " duplicated: " +:+ Name first +:+ ", " +:+ Name s;
     Level := Label statusConflict |}.

(** Body of the VLAN loop. *)
Definition checkVLAN (segByID : gmap Z Segment) (rules : ProjectRules)
    (acc : gmap string Z * gmap Z SegmentStatus * list Conflict) (s : Segment)
  : gmap string Z * gmap Z SegmentStatus * list Conflict :=
  let '(seenVLAN, st, cf) := acc in
  let k := vlanKey s rules in
  match seenVLAN !! k with
  | Some firstID =>
      let first := default zeroSegment (segByID !! firstID) in
      let st := addStatus st (ID s) statusConflict "duplicate VLAN" in
      let st := addStatus st firstID statusConflict "duplicate VLAN" in
      (seenVLAN, st, cf ++ [VLAN_DUP first s])
  | None => (<[k := ID s]> seenVLAN, st, cf)
  end.

Definition analyzeSegments (segs : list Segment)
    (poolsV4 poolsV6 reservedV4 reservedV6 : gmap Z (list Prefix)) (rules : ProjectRules)
  : gmap Z SegmentStatus * list Conflict :=
  let segByID : gmap Z Segment := foldl (fun m s => <[ID s := s]> m) ∅ segs in
  let a := foldl (checkSegment poolsV4 poolsV6 reservedV4 reservedV6 rules)
             (mkAnalysis ∅ [] ∅ ∅ ∅ ∅) segs in
  let sc := checkOverlaps false segByID (prefixByID a)
              (groupBySiteVRF segs (prefixOK a)) (statuses a, conflicts a) in
  let sc := checkOverlaps true segByID (prefixByIDV6 a)
              (groupBySiteVRF segs (prefixOKV6 a)) sc in
  let '(_, st, cf) := foldl (checkVLAN segByID rules) (∅, fst sc, snd sc) segs in
  let out : gmap Z SegmentStatus :=
    foldl (fun out s => <[ID s := default (mkStatus statusOK []) (st !! ID s)]> out) ∅ segs in
  (out, cf).

End Analysis.

(** ** analysis.go: efficiency hints; the capacity reporter *)

Definition range_less (a b : ipv4Range) : bool :=
  if r_start a =? r_start b then r_end a <? r_end b else r_start a <? r_start b.

Definition hint (kind detail : string) : Conflict :=
  {| Kind := kind; Detail := detail; Level := Label statusWarning |}.

Section Efficiency.
Context {L : GoLib}.

Fixpoint usedOfSegments (pool : Prefix) (segs : list Segment) : list ipv4Range :=
  match segs with
  | [] => []
  | s :: segs' =>
      match CIDR s with
      | None => usedOfSegments pool segs'
      | Some cidr =>
          match ParsePrefix cidr with
          | None => usedOfSegments pool segs'
          | Some p =>
              if negb (Is4 (PAddr p)) then usedOfSegments pool segs'
              else match prefixRangeWithin pool p with
                   | Some r => r :: usedOfSegments pool segs'
                   | None => usedOfSegments pool segs'
                   end
          end
      end
  end.

Fixpoint usedOfReserved (pool : Prefix) (reserved : list Prefix) : list ipv4Range :=
  match reserved with
  | [] => []
  | r :: reserved' =>
      if negb (Is4 (PAddr r)) then usedOfReserved pool reserved'
      else match prefixRangeWithin pool r with
           | Some rr => rr :: usedOfReserved pool reserved'
           | None => usedOfReserved pool reserved'
           end
  end.

Definition buildUsedRanges (pool : Prefix) (segs : list Segment) (reserved : list Prefix)
  : list ipv4Range :=
  let ranges := usedOfSegments pool segs ++ usedOfReserved pool reserved in
  mergeRanges (sort_Slice range_less ranges).

Fixpoint usedV6OfSegments (segs : list Segment) : list Prefix :=
  match segs with
  | [] => []
  | s :: segs' =>
      match CIDRV6 s with
      | None => usedV6OfSegments segs'
      | Some cidr =>
          match ParsePrefix cidr with
          | None => usedV6OfSegments segs'
          | Some p => if Is6 (PAddr p) then p :: usedV6OfSegments segs' else usedV6OfSegments segs'
          end
      end
  end.

Definition collectUsedPrefixesV6 (segs : list Segment) (reserved : list Prefix) : list Prefix :=
  usedV6OfSegments segs ++ List.filter (fun r => Is6 (PAddr r)) reserved.

Definition fragmentationScoreBig (total largest : Z) : Z :=
  if total =? 0 then 0
  else
    let remaining := total - largest in
    if remaining <? 0 then 0
    else
      let frag := ratFloat100 remaining total in
      if frag <? 0 then 0 else if 100 <? frag then 100 else frag.

Definition percentBig (num denom : Z) : Z :=
  if denom =? 0 then 0
  else
    let pct := ratFloat100 num denom in
    if pct <? 0 then 0 else if 100 <? pct then 100 else pct.

(** The [limit]-bounded double loop that emits [POOL_GAP]. *)
Fixpoint gapHints (pool : Prefix) (gaps : list ipv4Range) (limit : Z)
  : outcome (list Conflict) :=
  match gaps with
  | [] => Ret []
  | g :: gaps' =>
      if limit =? 0 then Ret []
      else
        do ps <- rangeToPrefixes g;
        let shown := take (Z.to_nat limit) ps in
        do more <- gapHints pool gaps' (limit - Z.of_nat (length shown));
        Ret (map (fun p => hint "POOL_GAP"
                                ("pool " +:+ PrefixString pool +:+ " free block " +:+ PrefixString p))
                 shown ++ more)
  end.

Fixpoint gapHintsV6 (pool : Prefix) (gaps : list bigRange) (unitPrefix limit : Z)
  : list Conflict :=
  match gaps with
  | [] => []
  | g :: gaps' =>
      if limit =? 0 then []
      else
        let shown := take (Z.to_nat limit) (bigRangeToPrefixes g unitPrefix limit) in
        map (fun p => hint "POOL_GAP_V6"
                        ("pool " +:+ PrefixString pool +:+ " free block " +:+ PrefixString p))
            shown
        ++ gapHintsV6 pool gaps' unitPrefix (limit - Z.of_nat (length shown))
  end.

Definition sizeV4 (g : ipv4Range) : Z := u64 (u32 (r_end g - r_start g) + 1).

(** Hints of one IPv4 pool. *)
Definition poolHintsV4 (pool : Prefix) (segments : list Segment) (reserved : list Prefix)
  : outcome (list Conflict) :=
  if negb (Is4 (PAddr pool)) then Ret []
  else
    let used := buildUsedRanges pool segments reserved in
    let gaps := freeRanges pool used in
    if Z.of_nat (length gaps) =? 0 then Ret []
    else
      let totalFree := foldl (fun t g => u64 (t + sizeV4 g)) 0 gaps in
      let largest := foldl (fun l g => if l <? sizeV4 g then sizeV4 g else l) 0 gaps in
      let fragScore := fragmentationScore totalFree largest in
      do gapsOut <- gapHints pool gaps 3;
      Ret (hint "POOL_FRAGMENTATION"
             ("pool " +:+ PrefixString pool +:+ ": free " +:+ itoa64 (i64 totalFree)
              +:+ " addrs, gaps=" +:+ itoa (Z.of_nat (length gaps))
              +:+ ", fragmentation=" +:+ itoa fragScore +:+ "%")
           :: gapsOut).

(** Hints of one IPv6 pool. *)
Definition poolHintsV6 (pool : Prefix) (segments : list Segment) (reserved : list Prefix)
  : list Conflict :=
  if negb (Is6 (PAddr pool)) then []
  else
    let usedPrefixes := collectUsedPrefixesV6 segments reserved in
    let used := buildUsedRangesBig pool usedPrefixes in
    let gaps := freeRangesBig pool used in
    if Z.of_nat (length gaps) =? 0 then []
    else
      let totalFree := foldl (fun t g => t + bigRangeSize g) 0 gaps in
      let largest := foldl (fun l g => if l <? bigRangeSize g then bigRangeSize g else l) 0 gaps in
      let unitPrefix := if 64 <? Bits pool then Bits pool else 64 in
      let unitSize := Z.shiftl 1 (128 - unitPrefix) in
      let totalUnits := totalFree / unitSize in
      let largestUnits := largest / unitSize in
      let fragScore := fragmentationScoreBig totalUnits largestUnits in
      hint "POOL_FRAGMENTATION_V6"
        ("pool " +:+ PrefixString pool +:+ ": free " +:+ formatBigInt totalUnits +:+ " /"
         +:+ itoa unitPrefix +:+ " blocks, gaps=" +:+ itoa (Z.of_nat (length gaps))
         +:+ ", fragmentation=" +:+ itoa fragScore +:+ "%")
      :: gapHintsV6 pool gaps unitPrefix 3.

(** Body of the [OVERSIZED] loop: the conflict a segment gets, if any. *)
Definition oversized (s : Segment) (rules : ProjectRules) : list Conflict :=
  match Hosts s, CIDR s with
  | Some hosts, Some cidr =>
      match ParsePrefix cidr with
      | None => []
      | Some prefix =>
          if negb (Is4 (PAddr prefix)) then []
          else
            let required := hostsToPrefixIPv4 hosts in
            if required <=? 0 then []
            else if required <=? Bits prefix then []
            else
              let actualSize := u64 (Z.shiftl 1 (32 - Bits prefix)) in
              let requiredSize := u64 (Z.shiftl 1 (32 - required)) in
              let unusedPct := i64 (u64 (u64 (actualSize - requiredSize) * 100) / actualSize) in
              if OversizeThreshold rules <=? unusedPct then
                [hint "OVERSIZED"
                   ("segment " +:+ Name s +:+ " site=" +:+ Site_ s +:+ " " +:+ PrefixString prefix
                    +:+ " exceeds hosts by " +:+ itoa unusedPct +:+ "% (need /" +:+ itoa required
                    +:+ ")")]
              else []
      end
  | _, _ => []
  end.

(** Body of the [OVERSIZED_V6] loop. *)
Definition oversizedV6 (s : Segment) (rules : ProjectRules) : list Conflict :=
  match PrefixV6 s, CIDRV6 s with
  | Some requested, Some cidr =>
      match ParsePrefix cidr with
      | None => []
      | Some prefix =>
          if negb (Is6 (PAddr prefix)) then []
          else if (requested <=? 0) || (128 <? requested) then []
          else if requested <=? Bits prefix then []
          else
            let actualSize := prefixSize prefix in
            let requestedSize := Z.shiftl 1 (128 - requested) in
            let unusedPct := percentBig (actualSize - requestedSize) actualSize in
            if OversizeThreshold rules <=? unusedPct then
              [hint "OVERSIZED_V6"
                 ("segment " +:+ Name s +:+ " site=" +:+ Site_ s +:+ " " +:+ PrefixString prefix
                  +:+ " exceeds v6 request by " +:+ itoa unusedPct +:+ "% (need /"
                  +:+ itoa requested +:+ ")")]
            else []
      end
  | _, _ => []
  end.

(** [for _, pool := range pools] of one site. *)
Fixpoint perPoolV4 (pools : list Prefix) (segments : list Segment) (reserved : list Prefix)
  : outcome (list Conflict) :=
  match pools with
  | [] => Ret []
  | pool :: pools' =>
      do h <- poolHintsV4 pool segments reserved;
      do hs <- perPoolV4 pools' segments reserved;
      Ret (h ++ hs)
  end.

(** [for siteID, pools := range poolsBySiteV4]. *)
Fixpoint siteHintsV4 (sites : list (Z * list Prefix)) (segmentsBySite : gmap Z (list Segment))
    (reservedV4 : gmap Z (list Prefix)) : outcome (list Conflict) :=
  match sites with
  | [] => Ret []
  | (siteID, pools) :: sites' =>
      do here <- perPoolV4 pools (default [] (segmentsBySite !! siteID))
                   (default [] (reservedV4 !! siteID));
      do rest <- siteHintsV4 sites' segmentsBySite reservedV4;
      Ret (here ++ rest)
  end.

Definition siteHintsV6 (sites : list (Z * list Prefix)) (segmentsBySite : gmap Z (list Segment))
    (reservedV6 : gmap Z (list Prefix)) : list Conflict :=
  flat_map
    (fun '(siteID, pools) =>
       flat_map (fun pool => poolHintsV6 pool (default [] (segmentsBySite !! siteID))
                               (default [] (reservedV6 !! siteID))) pools)
    sites.

Definition analyzeEfficiency (segs : list Segment)
    (poolsBySiteV4 poolsBySiteV6 reservedV4 reservedV6 : gmap Z (list Prefix))
    (rules : ProjectRules) : outcome (list Conflict) :=
  let segmentsBySite := segmentsBySiteID segs in
  do v4 <- siteHintsV4 (range_order (map_to_list poolsBySiteV4)) segmentsBySite reservedV4;
  let v6 := siteHintsV6 (range_order (map_to_list poolsBySiteV6)) segmentsBySite reservedV6 in
  Ret (v4 ++ v6 ++ flat_map (fun s => oversized s rules) segs
          ++ flat_map (fun s => oversizedV6 s rules) segs).

Definition analyzeAll (segs : list Segment) (pools : list Pool) (sites : list Site)
    (rules : ProjectRules) : outcome (gmap Z SegmentStatus * list Conflict) :=
  let '(poolsBySiteV4, poolsBySiteV6) := buildPoolIndex pools in
  let '(reservedV4, reservedV6, reservedConflicts) := buildReservedIndex sites in
  let '(statuses, conflicts) :=
    analyzeSegments segs poolsBySiteV4 poolsBySiteV6 reservedV4 reservedV6 rules in
  do hints <- analyzeEfficiency segs poolsBySiteV4 poolsBySiteV6 reservedV4 reservedV6 rules;
  let conflicts := reservedConflicts ++ conflicts in
  let conflicts := conflicts ++ hints in
  Ret (statuses, conflicts).

(** *** Capacity reporter *)

Definition sumIPv4Ranges (ranges : list ipv4Range) : Z :=
  foldl (fun out r => out + u64 (u32 (r_end r - r_start r + 1))) 0 ranges.

Definition sumBigRanges (ranges : list bigRange) : Z :=
  foldl (fun out r => out + (b_end r - b_start r + 1)) 0 ranges.

Definition divCeil (a b : Z) : Z :=
  if b =? 0 then 0
  else
    let q := Z.quot a b in
    let r := Z.rem a b in
    if r =? 0 then q else q + 1.

Definition formatUnits (total used unitPrefix poolBits : Z) : string :=
  if (unitPrefix <=? 0) || (128 <? unitPrefix) then EmptyString
  else if unitPrefix <? poolBits then EmptyString
  else
    let unitSize := Z.shiftl 1 (128 - unitPrefix) in
    let unitsTotal := total / unitSize in
    let unitsUsed := divCeil used unitSize in
    let unitsFree := unitsTotal - unitsUsed in
    if unitsTotal <=? 0 then EmptyString
    else formatBigInt unitsUsed +:+ "/" +:+ formatBigInt unitsTotal +:+ " free "
         +:+ formatBigInt unitsFree +:+ " (/" +:+ itoa unitPrefix +:+ ")".

Record CapacityPool : Type := mkCapacityPool {
  cp_Site : string;
  cp_Family : string;
  cp_Tier : string;
  cp_Priority : Z;
  cp_CIDR : string;
  cp_Total : string;
  cp_Used : string;
  cp_Free : string;
  cp_Utilization : string;
  cp_Units : string;
  cp_Forecast : string
}.

Record CapacitySummary : Type := mkSummary {
  sum_Total : string;
  sum_Used : string;
  sum_Free : string;
  sum_Utilization : string
}.

Record CapacityReport : Type := mkReport {
  Pools : list CapacityPool;
  SummaryV4 : CapacitySummary;
  SummaryV6 : CapacitySummary;
  GrowthRate : float64;
  Months : Z;
  V6Unit : Z
}.

Definition ratioPercent (used total : Z) : string :=
  if total =? 0 then "0%"%string else ratioPercentText used total.

Definition buildSummary (used total : Z) : CapacitySummary :=
  if total =? 0 then mkSummary "0" "0" "0" "0%"
  else mkSummary (formatBigInt total) (formatBigInt used) (formatBigInt (total - used))
         (ratioPercent used total).

(** [usedCount] and [totalCount] of one pool of the report.  *)
Definition poolCounts (family : string) (prefix : Prefix) (segments : list Segment)
    (reservedV4 reservedV6 : list Prefix) : Z * Z :=
  if String.eqb family "ipv4" then
    (sumIPv4Ranges (buildUsedRanges prefix segments reservedV4), prefixSize prefix)
  else
    (sumBigRanges (buildUsedRangesBig prefix (collectUsedPrefixesV6 segments reservedV6)),
     prefixSize prefix).

(** Body of the loop over [pools]: the entry of one pool and its counts,
    or nothing when the pool is skipped. *)
Definition capacityOfPool (p : Pool) (segmentsBySite : gmap Z (list Segment))
    (reservedV4 reservedV6 : gmap Z (list Prefix)) (growthRate : float64) (months v6Unit : Z)
  : option (CapacityPool * string * Z * Z) :=
  match ParsePrefix (TrimSpace (pool_CIDR p)) with
  | None => None
  | Some prefix =>
      let family := normalizePoolFamily (Family p) in
      if String.eqb family "ipv4" && negb (Is4 (PAddr prefix)) then None
      else if String.eqb family "ipv6" && negb (Is6 (PAddr prefix)) then None
      else
        let segments := default [] (segmentsBySite !! pool_SiteID p) in
        let '(usedCount, totalCount) :=
          poolCounts family prefix segments (default [] (reservedV4 !! pool_SiteID p))
            (default [] (reservedV6 !! pool_SiteID p)) in
        let units := if String.eqb family "ipv4" then EmptyString
                     else formatUnits totalCount usedCount v6Unit (Bits prefix) in
        let freeCount := totalCount - usedCount in
        Some ({| cp_Site := pool_Site p; cp_Family := family; cp_Tier := poolTierValue p;
                 cp_Priority := Priority p; cp_CIDR := PrefixString prefix;
                 cp_Total := formatBigInt totalCount;
                 cp_Used := formatBigInt usedCount;
                 cp_Free := formatBigInt freeCount;
                 cp_Utilization := ratioPercent usedCount totalCount;
                 cp_Units := units;
                 cp_Forecast := forecastSummary usedCount totalCount growthRate months |},
              family, usedCount, totalCount)
  end.

Definition capacity_less (a b : CapacityPool) : bool :=
  if negb (String.eqb (cp_Site a) (cp_Site b)) then String.ltb (cp_Site a) (cp_Site b)
  else if negb (String.eqb (cp_Family a) (cp_Family b))
  then String.ltb (cp_Family a) (cp_Family b)
  else if negb (cp_Priority a =? cp_Priority b) then cp_Priority a <? cp_Priority b
  else String.ltb (cp_CIDR a) (cp_CIDR b).

Definition buildCapacityReport (segs : list Segment) (pools : list Pool) (sites : list Site)
    (growthRate : float64) (months v6Unit : Z) : CapacityReport :=
  let '(reservedV4, reservedV6, _) := buildReservedIndex sites in
  let segmentsBySite := segmentsBySiteID segs in
  let '(entries, sumV4Total, sumV4Used, sumV6Total, sumV6Used) :=
    foldl
      (fun '(entries, t4, u4, t6, u6) p =>
         match capacityOfPool p segmentsBySite reservedV4 reservedV6 growthRate months v6Unit with
         | None => (entries, t4, u4, t6, u6)
         | Some (entry, family, usedCount, totalCount) =>
             if String.eqb family "ipv4"
             then (entries ++ [entry], t4 + totalCount, u4 + usedCount, t6, u6)
             else (entries ++ [entry], t4, u4, t6 + totalCount, u6 + usedCount)
         end)
      ([], 0, 0, 0, 0) pools in
  {| Pools := sort_SliceStable capacity_less entries;
     SummaryV4 := buildSummary sumV4Used sumV4Total;
     SummaryV6 := buildSummary sumV6Used sumV6Total;
     GrowthRate := growthRate; Months := months; V6Unit := v6Unit |}.

End Efficiency.

(** ** Predicates of the statements *)

Definition isKind (k : string) (c : Conflict) : bool := String.eqb (Kind c) k.

Definition notDup (c : Conflict) : Prop := isKind "VLAN_DUP" c = false.

Definition fail_warning (c : Conflict) : Prop :=
  Kind c = "ALLOCATE_FAIL"%string /\ Level c = Label statusWarning
  /\ Level c = "Warning"%string /\ Level c <> "Conflict"%string.

(** The conflict kinds of each stage of [analyzeAll]. *)
Definition kindIn (kinds : list string) (c : Conflict) : Prop := In (Kind c) kinds.

Definition segmentKinds : list string :=
  ["CIDR_PARSE"; "OUT_OF_POOL"; "RESERVED_OVERLAP";
   "CIDR6_PARSE"; "OUT_OF_POOL_V6"; "RESERVED_OVERLAP_V6"]%string.

Definition hintKinds : list string :=
  ["POOL_FRAGMENTATION"; "POOL_GAP"; "POOL_FRAGMENTATION_V6"; "POOL_GAP_V6";
   "OVERSIZED"; "OVERSIZED_V6"]%string.

(** A range within [lo, hi], first address not after the last. *)
Definition inside (lo hi : Z) (r : bigRange) : Prop :=
  lo <= b_start r /\ b_start r <= b_end r /\ b_end r <= hi.

(** [a] ends at least one address before [b] starts, both non-empty:
    consecutive ranges of a merged list. *)
Definition apart (a b : bigRange) : Prop :=
  b_start a <= b_end a /\ b_end a + 1 < b_start b /\ b_start b <= b_end b.

(** An IPv4 range read as a range of integers, and the ranges that stay
    below 255.255.255.255. *)
Definition toBig (r : ipv4Range) : bigRange := mkBig (r_start r) (r_end r).

Definition below_top (r : ipv4Range) : Prop :=
  0 <= r_start r /\ r_start r <= r_end r /\ r_end r < 2 ^ 32 - 1.

(** What [sort.Slice] promises for the IPv4 ranges compared by start, then
    end. *)
Definition sorts_ranges (sort : list ipv4Range -> list ipv4Range) : Prop :=
  forall l, Permutation l (sort l)
            /\ StronglySorted (fun a b => r_start a <= r_start b) (sort l).

(** What [sort.Slice] with the comparison by start promises. *)
Definition sorts_by_start (sort : list bigRange -> list bigRange) : Prop :=
  forall l, Permutation l (sort l)
            /\ StronglySorted (fun a b => b_start a <= b_start b) (sort l).

(** The state of an allocation run, as the strategies keep it: the
    prefixes in use at the start stay in use, every allocated prefix is
    in use, overlaps nothing in use at the start and has the property
    [G], and two segments never hold overlapping prefixes. *)
Definition kept_apart (used0 : list Prefix) (G : Prefix -> Prop) (alloc : gmap Z Prefix)
    (used : list Prefix) : Prop :=
  (forall u, In u used0 -> In u used)
  /\ (forall id q, alloc !! id = Some q ->
        In q used /\ overlapsAny q used0 = false /\ G q)
  /\ (forall id1 id2 q1 q2, id1 <> id2 -> alloc !! id1 = Some q1 -> alloc !! id2 = Some q2 ->
        prefixesOverlap q1 q2 = false).

(** The strict sweep of [allocateSpillover], segment by segment. *)
Section StrictSweep.
Context {L : GoLib}.

(** The pools the sweep tries for a segment: [poolList] in the source. *)
Definition poolListOf (items : list poolItem) (rules : ProjectRules) (s : Segment)
  : list poolItem :=
  if String.eqb (PoolStrategy rules) PoolStrategyTiered
  then filterPoolsByTier items (segmentTierValue s) (PoolTierFallback rules)
  else items.

(** Every segment of [segs] that asks for a prefix is placed, in the
    order of the list: it gets the block that the first pool with room
    gives it among the prefixes in use at its turn.  [alloc'] and [used']
    are the allocation and the prefixes in use after the last segment. *)
Fixpoint placesInTurn (items : list poolItem) (rules : ProjectRules) (family : string)
    (segs : list Segment) (alloc : gmap Z Prefix) (used : list Prefix)
    (alloc' : gmap Z Prefix) (used' : list Prefix) : Prop :=
  match segs with
  | [] => alloc' = alloc /\ used' = used
  | s :: segs' =>
      if desiredPrefixByFamily s family =? 0
      then placesInTurn items rules family segs' alloc used alloc' used'
      else exists p,
             firstFit (poolListOf items rules s) (desiredPrefixByFamily s family) used
             = Ret (Some p)
             /\ placesInTurn items rules family segs' (<[ID s := p]> alloc) (used ++ [p])
                  alloc' used'
  end.

End StrictSweep.

(** ** The VLAN loop read as a function of the segment list *)

(** What the VLAN loop does, segment by segment: [(firstID, s)] for every
    segment [s] whose key was already held by [firstID]. *)
Fixpoint vlanEvents (rules : ProjectRules) (seenVLAN : gmap string Z) (segs : list Segment)
  : list (Z * Segment) :=
  match segs with
  | [] => []
  | s :: segs' =>
      match seenVLAN !! vlanKey s rules with
      | Some firstID => (firstID, s) :: vlanEvents rules seenVLAN segs'
      | None => vlanEvents rules (<[vlanKey s rules := ID s]> seenVLAN) segs'
      end
  end.

(** [seenVLAN] after segments whose keys were all new. *)
Definition addKeys (rules : ProjectRules) (seenVLAN : gmap string Z) (segs : list Segment)
  : gmap string Z :=
  foldl (fun m s => <[vlanKey s rules := ID s]> m) seenVLAN segs.

(** The two status updates of one duplicate. *)
Definition raiseBoth (st : gmap Z SegmentStatus) (ev : Z * Segment) : gmap Z SegmentStatus :=
  addStatus (addStatus st (ID (snd ev)) statusConflict "duplicate VLAN")
    (fst ev) statusConflict "duplicate VLAN".

Definition level_is (st : gmap Z SegmentStatus) (id : Z) (level : statusLevel) : Prop :=
  exists v, st !! id = Some v /\ st_Level v = level.

(** ** Predicates of the further properties *)

(** A name that holds the separator of [vlanKey]. *)
Fixpoint hasBar (s : string) : bool :=
  match s with
  | EmptyString => false
  | String c s' => if Ascii.eqb c "|" then true else hasBar s'
  end.

(** The prefixes [ps] split the addresses from [lo] up to [hi] into
    consecutive aligned IPv4 blocks. *)
Fixpoint tiles (lo : Z) (ps : list Prefix) (hi : Z) : Prop :=
  match ps with
  | [] => lo = hi
  | p :: ps' =>
      PAddr p = Addr4 lo /\ 1 <= Bits p <= 32 /\ lo mod 2 ^ (32 - Bits p) = 0
      /\ tiles (lo + 2 ^ (32 - Bits p)) ps' hi
  end.

(** A range holds [x]; some range of a list holds [x]. *)
Definition covers (r : bigRange) (x : Z) : Prop := b_start r <= x <= b_end r.
Definition covered (x : Z) (l : list bigRange) : Prop := Exists (fun r => covers r x) l.
(** The block of a prefix as the big-integer code computes it. *)
Definition blockRange (p : Prefix) : bigRange :=
  let start := addrToBig (PAddr (Masked p)) in
  mkBig start (start + prefixSize (Masked p) - 1).

(** The segment has a prefix in the allocation. *)
Definition placed (alloc : gmap Z Prefix) (s : Segment) : Prop :=
  exists p, alloc !! ID s = Some p.

Section OverlapText.
Context {L : GoLib}.

(** The prefix a segment's IPv4 CIDR reads as, if it has one that parses. *)
Definition parsedCIDR (s : Segment) : option Prefix :=
  match CIDR s with
  | Some cidr => ParsePrefix cidr
  | None => None
  end.

(** The [OVERLAP] conflict of two segments, as [analyzeSegments] words it. *)
Definition OVERLAP (a b : Segment) (p1 p2 : Prefix) : Conflict :=
  {| Kind := "OVERLAP";
     Detail := "site=" +:+ Site_ a +:+ " vrf=" +:+ VRF a +:+ ": " +:+ Name a
               +:+ " " +:+ PrefixString p1 +:+ " overlaps " +:+ Name b
               +:+ " " +:+ PrefixString p2;
     Level := "Conflict" |}.

End OverlapText.

(** The ids a group of [groupBySiteVRF] holds: those of the marked
    segments of that site and VRF, in the order of the list. *)
Definition inGroup (ok : gmap Z bool) (k : string * string) (s : Segment) : bool :=
  default false (ok !! ID s) && bool_decide ((Site_ s, VRF s) = k).

(** A conflict is in the list and both segments stand at Conflict. *)
Definition reported (c : Conflict) (ida idb : Z) (sc : gmap Z SegmentStatus * list Conflict)
  : Prop :=
  In c (snd sc) /\ level_is (fst sc) ida statusConflict /\ level_is (fst sc) idb statusConflict.

(** ** A concrete library, for running the code on examples

    It reads and writes IPv4 CIDR text the way netip does (decimal octets
    without leading zeros, a length without leading zeros), trims and
    lowercases ASCII, sorts by insertion, and visits maps in key order
    ([golib_fwd]) or in reverse key order ([golib_rev]).  IPv6 text is
    outside it: parsing fails on it and it is written as its eight groups
    in full. *)
Module Demo.

Definition isDigit (c : ascii) : bool :=
  let n := N_of_ascii c in ((48 <=? n) && (n <=? 57))%N.

Fixpoint digitsValue (s : string) (acc : Z) : option Z :=
  match s with
  | EmptyString => Some acc
  | String c s' =>
      if isDigit c then digitsValue s' (acc * 10 + (Z.of_N (N_of_ascii c) - 48)) else None
  end.

(** A decimal number of at most three digits, no leading zero. *)
Definition parseField (s : string) : option Z :=
  match s with
  | EmptyString => None
  | String c rest =>
      if (3 <? String.length s)%nat then None
      else if Ascii.eqb c "0" && negb (isEmpty rest) then None
      else digitsValue s 0
  end.

Definition parseAddr4 (s : string) : option Z :=
  match map parseField (Split s "."%char) with
  | [Some a; Some b; Some c; Some d] =>
      if (a <=? 255) && (b <=? 255) && (c <=? 255) && (d <=? 255)
      then Some (((a * 256 + b) * 256 + c) * 256 + d)
      else None
  | _ => None
  end.

Definition parse (s : string) : option Prefix :=
  match Split s "/"%char with
  | [ip; bits] =>
      match parseAddr4 ip, parseField bits with
      | Some a, Some n => if n <=? 32 then Some (PrefixFrom (Addr4 a) n) else None
      | _, _ => None
      end
  | _ => None
  end.

Definition hexDigit (n : Z) : ascii :=
  ascii_of_N (Z.to_N (if n <? 10 then 48 + n else 87 + n)).

Fixpoint hexDigits (k : nat) (v : Z) (acc : string) : string :=
  match k with
  | O => acc
  | S k' => hexDigits k' (v / 16) (String (hexDigit (v mod 16)) acc)
  end.

Definition AddrString (a : Addr) : string :=
  match a with
  | Addr4 v =>
      itoa (v / 2 ^ 24 mod 256) +:+ "." +:+ itoa (v / 2 ^ 16 mod 256) +:+ "."
      +:+ itoa (v / 2 ^ 8 mod 256) +:+ "." +:+ itoa (v mod 256)
  | Addr6 v =>
      Join (map (fun i => hexDigits 4 (v / 2 ^ (16 * (7 - Z.of_nat i)) mod 2 ^ 16) EmptyString)
                (seq 0 8)) ":"
  end.

Definition print (p : Prefix) : string :=
  AddrString (PAddr p) +:+ "/" +:+ itoa (Bits p).

Definition isSpace (c : ascii) : bool :=
  let n := N_of_ascii c in ((n =? 32) || ((9 <=? n) && (n <=? 13)))%N.

Fixpoint trimLeft (s : string) : string :=
  match s with
  | EmptyString => EmptyString
  | String c s' => if isSpace c then trimLeft s' else s
  end.

Fixpoint trimRight (s : string) : string :=
  match s with
  | EmptyString => EmptyString
  | String c s' =>
      match trimRight s' with
      | EmptyString => if isSpace c then EmptyString else String c EmptyString
      | t => String c t
      end
  end.

Definition trim (s : string) : string := trimRight (trimLeft s).

Definition lowerChar (c : ascii) : ascii :=
  let n := N_of_ascii c in
  if ((65 <=? n) && (n <=? 90))%N then ascii_of_N (n + 32) else c.

Fixpoint lower (s : string) : string :=
  match s with
  | EmptyString => EmptyString
  | String c s' => String (lowerChar c) (lower s')
  end.

(** Stand-ins for the float64 results: the quotient truncated. *)
Definition pct (num denom : Z) : Z := num * 100 / denom.

Definition lib (order : forall A : Type, list A -> list A) : GoLib :=
  {| ParsePrefix := parse;
     PrefixString := print;
     TrimSpace := trim;
     ToLower := lower;
     sort_Slice := fun A less l => sort_SliceStable less l;
     range_order := order;
     float64 := Z;
     ratFloat100 := pct;
     ratioPercentText := fun used total => itoa (pct used total) +:+ "%";
     forecastSummary := fun _ _ _ _ => "n/a"%string |}.

Definition golib_fwd : GoLib := lib (fun A l => l).
Definition golib_rev : GoLib := lib (fun A l => rev l).

(** [a.b.c.d/n] *)
Definition cidr4 (a b c d n : Z) : Prefix :=
  PrefixFrom (Addr4 (((a * 256 + b) * 256 + c) * 256 + d)) n.

Definition seg (id : Z) (site vrf : string) (vlan : Z) (name : string)
    (hosts prefix : NullInt64) (cidr : NullString) (locked : bool) : Segment :=
  {| ID := id; SiteID := 1; Site_ := site; VRF := vrf; VLAN := vlan; Name := name;
     Hosts := hosts; Prefix_ := prefix; CIDR := cidr; PrefixV6 := None; CIDRV6 := None;
     Locked := locked; Tags := None; PoolTier := None |}.

(** A store that only records the writes it is sent. *)
#[export] Instance logStore : sqlExecer (list StoreOp) :=
  {| Exec := fun op log => (log ++ [op], None) |}.

Definition pool4 (cidr : string) : Pool :=
  {| pool_ID := 1; pool_SiteID := 1; pool_Site := "S"; pool_CIDR := cidr;
     Family := "ipv4"; Tier := None; Priority := 0 |}.

End Demo.

(** ** Theorems *)

Lemma i64_small z : - 2 ^ 63 <= z < 2 ^ 63 -> i64 z = z.
Proof.
  intros H. unfold i64. rewrite Z.mod_small; lia.
Qed.

Lemma pow2_le_31 k : 0 <= k <= 31 -> 1 <= 2 ^ k <= 2 ^ 31.
Proof.
  intros H. split.
  - apply (Z.pow_le_mono_r 2 0 k); lia.
  - apply Z.pow_le_mono_r; lia.
Qed.

Lemma hostsToPrefixIPv4_loop_spec (n : nat) (need : Z) :
  (n <= 32)%nat ->
  need <= 2 ^ 31 ->
  (forall p, Z.of_nat n < p <= 32 -> 2 ^ (32 - p) < need) ->
  let L := hostsToPrefixIPv4_loop n need in
  1 <= L <= 32 /\ need <= 2 ^ (32 - L) /\ (L < 32 -> 2 ^ (32 - (L + 1)) < need).
Proof.
  induction n as [|n IH]; intros Hn Hneed Hprev; simpl.
  - split; [lia|]. split; [exact Hneed|]. intros _. apply Hprev. lia.
  - rewrite Z.shiftl_1_l.
    assert (Hp : 1 <= 2 ^ (32 - Z.of_nat (S n)) <= 2 ^ 31) by (apply pow2_le_31; lia).
    rewrite i64_small by lia.
    destruct (Z.leb_spec need (2 ^ (32 - Z.of_nat (S n)))) as [Hle|Hgt].
    + split; [lia|]. split; [exact Hle|]. intros Hlt. apply Hprev. lia.
    + apply IH; [lia|exact Hneed|].
      intros p Hp'. destruct (Z.eq_dec p (Z.of_nat (S n))) as [->|Hne].
      * exact Hgt.
      * apply Hprev. lia.
Qed.

(** C3: for every host count [h] with [1 <= h <= 2^30] the length
    [L = hostsToPrefixIPv4 h] is in [1..32], a block of that length holds
    [h + 3] addresses, and a block of the next longer length does not. *)
Theorem C3_hostsToPrefixIPv4_minimal (h : Z) :
  1 <= h <= 2 ^ 30 ->
  let L := hostsToPrefixIPv4 h in
  1 <= L <= 32 /\ 2 ^ (32 - L) >= h + 3 /\ 2 ^ (32 - (L + 1)) < h + 3.
Proof.
  intros Hh L.
  assert (Hneed : i64 (h + 3) = h + 3) by (apply i64_small; lia).
  pose proof (hostsToPrefixIPv4_loop_spec 32 (h + 3)) as Hspec.
  assert (H31 : h + 3 <= 2 ^ 31) by lia.
  specialize (Hspec (le_n _) H31).
  assert (Hvac : forall p, Z.of_nat 32 < p <= 32 -> 2 ^ (32 - p) < h + 3) by (intros p Hp; lia).
  specialize (Hspec Hvac). cbv zeta in Hspec.
  unfold L, hostsToPrefixIPv4. rewrite Hneed.
  destruct Hspec as (Hr & Hfit & Hmin).
  split; [exact Hr|]. split; [lia|].
  destruct (Z.eq_dec (hostsToPrefixIPv4_loop 32 (h + 3)) 32) as [E|NE].
  - rewrite E. simpl. lia.
  - apply Hmin. lia.
Qed.

Lemma C3_hostsToPrefixIPv4_minimal_witness :
  1 <= 60 <= 2 ^ 30 /\
  (1 <= hostsToPrefixIPv4 60 <= 32 /\
   2 ^ (32 - hostsToPrefixIPv4 60) >= 60 + 3 /\
   2 ^ (32 - (hostsToPrefixIPv4 60 + 1)) < 60 + 3).
Proof.
  split; [lia|]. apply (C3_hostsToPrefixIPv4_minimal 60). lia.
Defined.

(** ** Running the code on the scenarios of the design notes *)

Example parse_print_v4 :
  Demo.parse "10.30.0.64/26" = Some (Demo.cidr4 10 30 0 64 26) /\
  Demo.print (Demo.cidr4 10 30 0 64 26) = "10.30.0.64/26"%string /\
  Demo.parse "010.30.0.64/26" = None.
Proof. vm_compute. auto. Qed.

(** Basic VLSM: pool 10.30.0.0/24, reserved 10.30.0.0/28, locked mgmt
    10.30.0.64/26; users (60 hosts) and voice (50 hosts) land in
    10.30.0.128/26 and 10.30.0.192/26. *)
Example scenario_basic_vlsm :
  let segs := [ Demo.seg 1 "SAI" "MGMT" 20 "mgmt" None (Some 26) (Some "10.30.0.64/26"%string) true;
                Demo.seg 2 "SAI" "PROD" 10 "users" (Some 60) None None false;
                Demo.seg 3 "SAI" "PROD" 11 "voice" (Some 50) None None false ] in
  planAllocateFamily (L := Demo.golib_fwd) segs [Demo.pool4 "10.30.0.0/24"]
    [Demo.cidr4 10 30 0 0 28] defaultProjectRules "ipv4"
  = Ret (<[3 := Demo.cidr4 10 30 0 192 26]>
           (<[2 := Demo.cidr4 10 30 0 128 26]> (<[1 := Demo.cidr4 10 30 0 64 26]> ∅)), []).
Proof. vm_compute. reflexivity. Qed.

(** ** Where the code leaves the specification: concrete runs *)

(** C1 (the code breaks it): with the single pool 192.0.0.0/8 and one
    segment that asks for a /2, [allocateSpillover] and
    [allocateContiguous] both return 192.0.0.0/2, which is not within the
    pool.  In [allocateInPoolIPv4] the bound [cur+step <= end] wraps in
    [uint32] (0xC0000000 + 0x40000000 = 0), and the guard
    [pool.Contains(cand.Addr())] looks at the first address only. *)
Theorem C1_allocation_leaves_pool (L : GoLib) :
  let pool := Demo.cidr4 192 0 0 0 8 in
  let items := [mkItem (Demo.pool4 "192.0.0.0/8") pool ""] in
  let segs := [Demo.seg 7 "S" "A" 10 "big" None (Some 2) None false] in
  let got := Demo.cidr4 192 0 0 0 2 in
  allocateSpillover items segs [] defaultProjectRules "ipv4" false = Ret ({[ 7 := got ]}, [])
  /\ allocateContiguous items segs [] defaultProjectRules "ipv4" false = Ret ({[ 7 := got ]}, [])
  /\ prefixWithin pool got = false
  /\ prefixInAnyPool got (map item_Prefix items) = false.
Proof. vm_compute. auto. Qed.

(** C2 (the code breaks it): a locked segment with the CIDR 10.30.0.64/26
    at a site without pools.  [planAllocateFamily] returns before it
    records locked segments, so the plan is empty, and [applyPlan] leaves
    the planned copy of the segment without CIDR. *)
Theorem C2_locked_lost_without_pools (L : GoLib) :
  let s := Demo.seg 1 "SAI" "MGMT" 20 "mgmt" None (Some 26) (Some "10.30.0.64/26"%string) true in
  Demo.parse "10.30.0.64/26" = Some (Demo.cidr4 10 30 0 64 26)
  /\ planAllocateFamily [s] [] [] defaultProjectRules "ipv4" = Ret (∅, [POOL_MISSING "ipv4"])
  /\ map CIDR (applyPlan [s] ∅ ∅) = [None].
Proof. vm_compute. auto. Qed.

(** C4 (the code breaks it): in the pool 255.255.255.0/24, for segments at
    255.255.255.0/24 and 255.255.255.128/25, [buildUsedRanges] returns two
    ranges that overlap.  [mergeRanges] compares with [last.end+1], which
    wraps to 0 when [last.end] is 255.255.255.255. *)
Theorem C4_used_ranges_overlap_at_top :
  let pool := Demo.cidr4 255 255 255 0 24 in
  let segs := [ Demo.seg 1 "S" "A" 10 "a" None None (Some "255.255.255.0/24"%string) false;
                Demo.seg 2 "S" "A" 11 "b" None None (Some "255.255.255.128/25"%string) false ] in
  exists r1 r2,
    buildUsedRanges (L := Demo.golib_fwd) pool segs [] = [r1; r2]
    /\ r1 = mkRange 4294967040 4294967295
    /\ r2 = mkRange 4294967168 4294967295
    /\ r_start r2 <= r_end r1.
Proof.
  eexists _, _. split; [vm_compute; reflexivity|].
  split; [reflexivity|]. split; [reflexivity|]. simpl. lia.
Qed.

(** C5 (the code breaks it): two (site, VRF) groups with one overlapping
    pair each.  [analyzeSegments] walks the groups with [range] over a Go
    map; visiting them in one order or the other, both of which the
    runtime may choose, gives the two [OVERLAP] conflicts in different
    orders. *)
Theorem C5_conflict_order_follows_map_order :
  let segs := [ Demo.seg 1 "S" "A" 10 "a1" None (Some 24) (Some "10.0.0.0/24"%string) true;
                Demo.seg 2 "S" "A" 11 "a2" None (Some 25) (Some "10.0.0.0/25"%string) true;
                Demo.seg 3 "S" "B" 12 "b1" None (Some 24) (Some "10.0.1.0/24"%string) true;
                Demo.seg 4 "S" "B" 13 "b2" None (Some 25) (Some "10.0.1.0/25"%string) true ] in
  let inA := mkConflict "OVERLAP" "site=S vrf=A: a1 10.0.0.0/24 overlaps a2 10.0.0.0/25" "Conflict" in
  let inB := mkConflict "OVERLAP" "site=S vrf=B: b1 10.0.1.0/24 overlaps b2 10.0.1.0/25" "Conflict" in
  (forall (A : Type) (l : list A), Permutation l (range_order (GoLib := Demo.golib_fwd) l))
  /\ (forall (A : Type) (l : list A), Permutation l (range_order (GoLib := Demo.golib_rev) l))
  /\ (exists st, analyzeAll (L := Demo.golib_fwd) segs [] [] defaultProjectRules = Ret (st, [inA; inB]))
  /\ (exists st, analyzeAll (L := Demo.golib_rev) segs [] [] defaultProjectRules = Ret (st, [inB; inA]))
  /\ [inA; inB] <> [inB; inA].
Proof.
  split; [intros A l; reflexivity|].
  split; [intros A l; apply Permutation_rev|].
  split; [eexists; vm_compute; reflexivity|].
  split; [eexists; vm_compute; reflexivity|].
  discriminate.
Qed.

(** C9 (the code breaks it): the pool 255.255.255.0/24 wholly used by one
    segment.  [freeRanges] still reports the whole pool as free, because
    [r.end+1] wraps to 0 in [uint32]; used and free add up to twice the
    size of the pool. *)
Theorem C9_free_ranges_not_complement_at_top :
  let pool := Demo.cidr4 255 255 255 0 24 in
  let segs := [ Demo.seg 1 "S" "A" 10 "a" None None (Some "255.255.255.0/24"%string) false ] in
  let used := buildUsedRanges (L := Demo.golib_fwd) pool segs [] in
  used = [mkRange 4294967040 4294967295]
  /\ freeRanges pool used = [mkRange 4294967040 4294967295]
  /\ prefixSize pool = 256
  /\ sumIPv4Ranges used + sumIPv4Ranges (freeRanges pool used) = 512.
Proof. vm_compute. auto. Qed.

(** ** The allocation strategies: conflicts and the strict stop *)

Section AllocatorFacts.
Context {L : GoLib}.

Lemma bind_Ret {A B : Type} (m : outcome A) (k : A -> outcome B) (b : B) :
  bind m k = Ret b -> exists a, m = Ret a /\ k a = Ret b.
Proof.
  destruct m as [a| |]; simpl; intros Hk; try discriminate. exists a. auto.
Qed.

Lemma ALLOCATE_FAIL_warning (s : Segment) (family : string) :
  fail_warning (ALLOCATE_FAIL s family).
Proof. repeat split. simpl. discriminate. Qed.

Lemma allocateSpillover_from_conflicts items segs alloc cf used rules family strict alloc' cf' :
  allocateSpillover_from items segs alloc cf used rules family strict = Ret (alloc', cf') ->
  Forall fail_warning cf -> Forall fail_warning cf'.
Proof.
  revert alloc cf used.
  induction segs as [|s segs IH]; intros alloc cf used Hrun Hcf; simpl in Hrun.
  - injection Hrun as <- <-. exact Hcf.
  - destruct (desiredPrefixByFamily s family =? 0); [eauto|].
    apply bind_Ret in Hrun as ([p|] & _ & Hrest).
    + eauto.
    + assert (Hcf' : Forall fail_warning (cf ++ [ALLOCATE_FAIL s family])).
      { apply Forall_app. split; [exact Hcf|]. constructor; [apply ALLOCATE_FAIL_warning|constructor]. }
      destruct strict; [injection Hrest as <- <-; exact Hcf'|eauto].
Qed.

Lemma contiguous_conflicts_warning pending family strict :
  Forall fail_warning (contiguous_conflicts pending family strict).
Proof.
  induction pending as [|s pending IH]; simpl; constructor.
  - apply ALLOCATE_FAIL_warning.
  - destruct strict; [constructor|exact IH].
Qed.

(** A list of segments that are all placed in turn runs to the end
    without a conflict. *)
Lemma placesInTurn_run items segs alloc cf used rules family strict alloc' used' :
  placesInTurn items rules family segs alloc used alloc' used' ->
  allocateSpillover_from items segs alloc cf used rules family strict = Ret (alloc', cf).
Proof.
  revert alloc used.
  induction segs as [|x segs IH]; intros alloc used Hall; cbn [placesInTurn] in Hall;
    cbn [allocateSpillover_from].
  - destruct Hall as [-> _]. reflexivity.
  - destruct (desiredPrefixByFamily x family =? 0); [apply IH, Hall|].
    destruct Hall as (p & Hfit & Hrest).
    fold (poolListOf items rules x). rewrite Hfit. cbn [bind]. apply IH, Hrest.
Qed.

(** In strict mode the run is read off the sweep: when every segment
    before [s] is placed and no pool has room for [s], the run returns
    there, whatever follows [s] in the list. *)
Lemma allocateSpillover_from_stops items pre s post alloc cf used rules family alloc' used' :
  placesInTurn items rules family pre alloc used alloc' used' ->
  desiredPrefixByFamily s family <> 0 ->
  firstFit (poolListOf items rules s) (desiredPrefixByFamily s family) used' = Ret None ->
  allocateSpillover_from items (pre ++ s :: post) alloc cf used rules family true
  = Ret (alloc', cf ++ [ALLOCATE_FAIL s family]).
Proof.
  intros Hpre Hwant Hnone. revert alloc used Hpre.
  induction pre as [|x pre IH]; intros alloc used Hpre; cbn [app allocateSpillover_from].
  - destruct Hpre as [-> ->].
    destruct (Z.eqb_spec (desiredPrefixByFamily s family) 0) as [H0|_]; [contradiction|].
    fold (poolListOf items rules s). rewrite Hnone. reflexivity.
  - cbn [placesInTurn] in Hpre.
    destruct (desiredPrefixByFamily x family =? 0); [apply IH, Hpre|].
    destruct Hpre as (p & Hfit & Hrest).
    fold (poolListOf items rules x). rewrite Hfit. cbn [bind]. apply IH, Hrest.
Qed.

(** A strict run that returns either placed every segment in turn, or
    returned at the first segment no pool had room for. *)
Lemma allocateSpillover_from_strict_sweep items segs alloc cf used rules family alloc' cf' :
  allocateSpillover_from items segs alloc cf used rules family true = Ret (alloc', cf') ->
  exists used',
    (cf' = cf /\ placesInTurn items rules family segs alloc used alloc' used')
    \/ exists pre s post,
         segs = pre ++ s :: post
         /\ cf' = cf ++ [ALLOCATE_FAIL s family]
         /\ placesInTurn items rules family pre alloc used alloc' used'
         /\ desiredPrefixByFamily s family <> 0
         /\ firstFit (poolListOf items rules s) (desiredPrefixByFamily s family) used'
            = Ret None.
Proof.
  revert alloc used.
  induction segs as [|s segs IH]; intros alloc used Hrun; cbn [allocateSpillover_from] in Hrun.
  - injection Hrun as <- <-. exists used. left. split; [reflexivity|]. split; reflexivity.
  - destruct (Z.eqb_spec (desiredPrefixByFamily s family) 0) as [Hwant|Hwant].
    + destruct (IH _ _ Hrun) as (used' & [[-> Hall]|(pre & s' & post & -> & -> & Hpre & Hs')]);
        exists used'.
      * left. split; [reflexivity|]. cbn [placesInTurn].
        rewrite (proj2 (Z.eqb_eq _ _) Hwant). exact Hall.
      * right. exists (s :: pre), s', post. split; [reflexivity|]. split; [reflexivity|].
        split; [|exact Hs']. cbn [placesInTurn].
        rewrite (proj2 (Z.eqb_eq _ _) Hwant). exact Hpre.
    + fold (poolListOf items rules s) in Hrun.
      apply bind_Ret in Hrun as ([p|] & Hfit & Hrest).
      * destruct (IH _ _ Hrest)
          as (used' & [[-> Hall]|(pre & s' & post & -> & -> & Hpre & Hs')]); exists used'.
        -- left. split; [reflexivity|]. cbn [placesInTurn].
           rewrite (proj2 (Z.eqb_neq _ _) Hwant). exists p. split; [exact Hfit|exact Hall].
        -- right. exists (s :: pre), s', post. split; [reflexivity|]. split; [reflexivity|].
           split; [|exact Hs']. cbn [placesInTurn].
           rewrite (proj2 (Z.eqb_neq _ _) Hwant). exists p. split; [exact Hfit|exact Hpre].
      * injection Hrest as <- <-. exists used. right. exists [], s, segs.
        split; [reflexivity|]. split; [reflexivity|].
        split; [split; reflexivity|]. split; [exact Hwant|exact Hfit].
Qed.

(** The segments placed in turn are the only ones the allocation gains,
    and each of them that asks for a prefix is in it. *)
Lemma placesInTurn_keys items rules family segs alloc used alloc' used' :
  placesInTurn items rules family segs alloc used alloc' used' ->
  (forall id, is_Some (alloc' !! id) -> is_Some (alloc !! id) \/ In id (map ID segs))
  /\ (forall id, is_Some (alloc !! id) -> is_Some (alloc' !! id))
  /\ (forall x, In x segs -> desiredPrefixByFamily x family <> 0 -> is_Some (alloc' !! ID x)).
Proof.
  revert alloc used.
  induction segs as [|s segs IH]; intros alloc used Hall; cbn [placesInTurn] in Hall.
  - destruct Hall as [-> ->]. split; [intros id Hid; left; exact Hid|].
    split; [intros id Hid; exact Hid|intros x []].
  - destruct (Z.eqb_spec (desiredPrefixByFamily s family) 0) as [Hwant|Hwant].
    + destruct (IH _ _ Hall) as (Hkeys & Hkeeps & Hin). split; [|split].
      * intros id Hid. destruct (Hkeys id Hid) as [H|H]; [left; exact H|right; right; exact H].
      * exact Hkeeps.
      * intros x [<-|Hx] Hx0; [contradiction|]. apply Hin; assumption.
    + destruct Hall as (p & _ & Hall). destruct (IH _ _ Hall) as (Hkeys & Hkeeps & Hin).
      split; [|split].
      * intros id Hid. destruct (Hkeys id Hid) as [H|H]; [|right; right; exact H].
        destruct (decide (id = ID s)) as [->|Hne]; [right; left; reflexivity|].
        left. rewrite lookup_insert_ne in H by congruence. exact H.
      * intros id Hid. apply Hkeeps.
        destruct (decide (id = ID s)) as [->|Hne].
        -- rewrite lookup_insert_eq. eauto.
        -- rewrite lookup_insert_ne by congruence. exact Hid.
      * intros x [<-|Hx] Hx0; [|apply Hin; assumption].
        apply Hkeeps. rewrite lookup_insert_eq. eauto.
Qed.

Lemma runStrategy_no_candidates items used rules family strict :
  items <> [] -> runStrategy items [] used rules family strict = Ret (∅, []).
Proof.
  intros Hitems. unfold runStrategy, allocateContiguous, allocateSpillover.
  destruct items as [|pool items]; [congruence|].
  destruct (String.eqb _ PoolStrategyContig); [reflexivity|].
  destruct (String.eqb _ PoolStrategyTiered); reflexivity.
Qed.

End AllocatorFacts.

(** C10: every conflict that [allocateSpillover] or [allocateContiguous]
    returns is an [ALLOCATE_FAIL] whose level is ["Warning"], the label of
    [statusWarning], and not ["Conflict"]; this holds for every input and
    in strict mode too. *)
Theorem C10_allocate_fail_is_warning (L : GoLib) (items : list poolItem) (segs : list Segment)
    (used : list Prefix) (rules : ProjectRules) (family : string) (strict : bool)
    (alloc : gmap Z Prefix) (cf : list Conflict) :
  allocateSpillover items segs used rules family strict = Ret (alloc, cf)
  \/ allocateContiguous items segs used rules family strict = Ret (alloc, cf) ->
  Forall (fun c => Kind c = "ALLOCATE_FAIL"%string /\ Level c = Label statusWarning
                   /\ Level c = "Warning"%string /\ Level c <> "Conflict"%string) cf.
Proof.
  intros [Hrun|Hrun].
  - unfold allocateSpillover in Hrun.
    apply (allocateSpillover_from_conflicts _ _ _ _ _ _ _ _ _ _ Hrun). constructor.
  - unfold allocateContiguous in Hrun.
    apply bind_Ret in Hrun as ([alloc0 pending] & _ & Hret).
    injection Hret as <- <-. apply contiguous_conflicts_warning.
Qed.

Lemma C10_allocate_fail_is_warning_witness :
  let items := [mkItem (Demo.pool4 "10.0.0.0/30") (Demo.cidr4 10 0 0 0 30) ""] in
  let s := Demo.seg 1 "S" "A" 10 "users" (Some 200) None None false in
  allocateSpillover (L := Demo.golib_fwd) items [s] [] defaultProjectRules "ipv4" true
    = Ret (∅, [ALLOCATE_FAIL s "ipv4"])
  /\ Forall (fun c => Kind c = "ALLOCATE_FAIL"%string /\ Level c = Label statusWarning
                      /\ Level c = "Warning"%string /\ Level c <> "Conflict"%string)
       [ALLOCATE_FAIL s "ipv4"].
Proof.
  intros items s.
  assert (Hrun : allocateSpillover (L := Demo.golib_fwd) items [s] [] defaultProjectRules "ipv4" true
                 = Ret (∅, [ALLOCATE_FAIL s "ipv4"])) by (vm_compute; reflexivity).
  split; [exact Hrun|].
  exact (C10_allocate_fail_is_warning Demo.golib_fwd items [s] [] defaultProjectRules "ipv4" true
           ∅ [ALLOCATE_FAIL s "ipv4"] (or_introl Hrun)).
Defined.

(** C6: in strict mode [allocateSpillover] stops at the first segment that
    cannot be placed.  When the segments before [s] are placed in turn
    and no pool tried for [s] has room among the prefixes then in use,
    the run returns the allocation of those segments and the single
    [ALLOCATE_FAIL] of [s], whatever follows [s].  Conversely a strict run
    that returns either reports nothing and has placed every segment that
    asks for a prefix, or reports exactly the [ALLOCATE_FAIL] of one
    segment [s] that asks for a prefix and for which no pool had room,
    has placed every segment before [s], and has allocated nothing else,
    so no later segment.  When the strategy run by [allocateFamily]
    returns a conflict, [allocateFamily] leaves the store as it was,
    whatever the store is, and returns the first conflict's detail as its
    error. *)
Theorem C6_strict_stop_no_partial_write (L : GoLib) :
  (forall items pre s post used rules family alloc used',
      placesInTurn items rules family pre ∅ used alloc used' ->
      desiredPrefixByFamily s family <> 0 ->
      firstFit (poolListOf items rules s) (desiredPrefixByFamily s family) used' = Ret None ->
      allocateSpillover items (pre ++ s :: post) used rules family true
      = Ret (alloc, [ALLOCATE_FAIL s family]))
  /\ (forall items segs used rules family alloc cf,
        allocateSpillover items segs used rules family true = Ret (alloc, cf) ->
        exists used',
          (cf = []
           /\ placesInTurn items rules family segs ∅ used alloc used'
           /\ forall x, In x segs -> desiredPrefixByFamily x family <> 0 ->
                         is_Some (alloc !! ID x))
          \/ exists pre s post,
               segs = pre ++ s :: post
               /\ cf = [ALLOCATE_FAIL s family]
               /\ allocateSpillover items pre used rules family true = Ret (alloc, [])
               /\ placesInTurn items rules family pre ∅ used alloc used'
               /\ desiredPrefixByFamily s family <> 0
               /\ firstFit (poolListOf items rules s) (desiredPrefixByFamily s family) used'
                  = Ret None
               /\ (forall x, In x pre -> desiredPrefixByFamily x family <> 0 ->
                              is_Some (alloc !! ID x))
               /\ (forall id, is_Some (alloc !! id) -> In id (map ID pre)))
  /\ (forall (Store : Type) (E : sqlExecer Store) (db : Store) siteID segs pools reserved
             rules family allocs c cs,
        let items := poolItemsForFamily pools family in
        let used := lockedPrefixes segs family ++ reserved in
        let candidates :=
          sort_SliceStable (candidate_less family) (strictCandidates segs family) in
        runStrategy items candidates used rules family true = Ret (allocs, c :: cs) ->
        exists err,
          allocateFamily db siteID segs pools reserved rules family = Ret (db, err)
          /\ (items <> [] -> err = Some (Detail c))).
Proof.
  split; [|split].
  - intros items pre s post used rules family alloc used' Hpre Hwant Hnone.
    unfold allocateSpillover.
    exact (allocateSpillover_from_stops items pre s post ∅ [] used rules family alloc used'
             Hpre Hwant Hnone).
  - intros items segs used rules family alloc cf Hrun.
    unfold allocateSpillover in *.
    destruct (allocateSpillover_from_strict_sweep _ _ _ _ _ _ _ _ _ Hrun)
      as (used' & [[-> Hall]|(pre & s & post & -> & -> & Hpre & Hwant & Hnone)]);
      exists used'.
    + left. split; [reflexivity|]. split; [exact Hall|].
      exact (proj2 (proj2 (placesInTurn_keys _ _ _ _ _ _ _ _ Hall))).
    + right. exists pre, s, post.
      destruct (placesInTurn_keys _ _ _ _ _ _ _ _ Hpre) as (Hkeys & _ & Hin).
      split; [reflexivity|]. split; [reflexivity|].
      split; [exact (placesInTurn_run _ _ _ _ _ _ _ _ _ _ Hpre)|].
      split; [exact Hpre|]. split; [exact Hwant|]. split; [exact Hnone|].
      split; [exact Hin|].
      intros id Hid. destruct (Hkeys id Hid) as [Hempty|Hpre_id]; [|exact Hpre_id].
      rewrite lookup_empty in Hempty. destruct Hempty as [? Hempty]. discriminate Hempty.
  - intros Store E db siteID segs pools reserved rules family allocs c cs items used candidates Hrun.
    unfold allocateFamily. fold items.
    destruct items as [|item items'] eqn:Hitems.
    + exists None. split; [reflexivity|]. congruence.
    + cbn [length]. rewrite Nat2Z.inj_succ.
      destruct (Z.eqb_spec (Z.succ (Z.of_nat (length items'))) 0) as [Hz|_]; [lia|].
      destruct (strictCandidates segs family) as [|cand cands] eqn:Hcands.
      * exfalso. subst candidates. simpl in Hrun.
        rewrite runStrategy_no_candidates in Hrun by discriminate. discriminate.
      * cbn [length]. rewrite Nat2Z.inj_succ.
        destruct (Z.eqb_spec (Z.succ (Z.of_nat (length cands))) 0) as [Hz|_]; [lia|].
        fold used. subst candidates. rewrite Hrun. simpl.
        exists (Some (Detail c)). auto.
Qed.

Lemma C6_strict_stop_no_partial_write_witness :
  let pool := Demo.pool4 "10.0.0.0/25" in
  let a := Demo.seg 1 "S" "A" 10 "a" None (Some 26) None false in
  let b := Demo.seg 2 "S" "A" 11 "b" None (Some 25) None false in
  let c := Demo.seg 3 "S" "A" 12 "c" None (Some 26) None false in
  let items := [mkItem pool (Demo.cidr4 10 0 0 0 25) ""] in
  let first := Demo.cidr4 10 0 0 0 26 in
  let alloc : gmap Z Prefix := <[1 := first]> ∅ in
  placesInTurn (L := Demo.golib_fwd) items defaultProjectRules "ipv4" [a] ∅ [] alloc [first]
  /\ desiredPrefixByFamily b "ipv4" <> 0
  /\ firstFit (L := Demo.golib_fwd) (poolListOf (L := Demo.golib_fwd) items defaultProjectRules b)
       (desiredPrefixByFamily b "ipv4") [first] = Ret None
  /\ allocateSpillover (L := Demo.golib_fwd) items ([a] ++ b :: [c]) [] defaultProjectRules
       "ipv4" true = Ret (alloc, [ALLOCATE_FAIL b "ipv4"])
  /\ (exists used' pre s post,
        [a] ++ b :: [c] = pre ++ s :: post
        /\ [ALLOCATE_FAIL b "ipv4"] = [ALLOCATE_FAIL s "ipv4"]
        /\ allocateSpillover (L := Demo.golib_fwd) items pre [] defaultProjectRules "ipv4" true
           = Ret (alloc, [])
        /\ placesInTurn (L := Demo.golib_fwd) items defaultProjectRules "ipv4" pre ∅ [] alloc used'
        /\ desiredPrefixByFamily s "ipv4" <> 0
        /\ firstFit (L := Demo.golib_fwd) (poolListOf (L := Demo.golib_fwd) items
                                            defaultProjectRules s)
             (desiredPrefixByFamily s "ipv4") used' = Ret None
        /\ (forall x, In x pre -> desiredPrefixByFamily x "ipv4" <> 0 ->
                      is_Some (alloc !! ID x))
        /\ (forall id, is_Some (alloc !! id) -> In id (map ID pre)))
  /\ (exists err,
         allocateFamily (L := Demo.golib_fwd) (E := Demo.logStore) [] 1 [b; a; c] [pool] []
           defaultProjectRules "ipv4" = Ret ([], err)
         /\ err = Some (Detail (ALLOCATE_FAIL a "ipv4"))).
Proof.
  intros pool a b c items first alloc.
  assert (Hpre : placesInTurn (L := Demo.golib_fwd) items defaultProjectRules "ipv4" [a] ∅ []
                   alloc [first]).
  { exists first. split; [vm_compute; reflexivity|]. split; reflexivity. }
  assert (Hwant : desiredPrefixByFamily b "ipv4" <> 0) by (vm_compute; discriminate).
  assert (Hnone : firstFit (L := Demo.golib_fwd)
                    (poolListOf (L := Demo.golib_fwd) items defaultProjectRules b)
                    (desiredPrefixByFamily b "ipv4") [first] = Ret None)
    by (vm_compute; reflexivity).
  pose proof (proj1 (C6_strict_stop_no_partial_write Demo.golib_fwd) items [a] b [c] []
                defaultProjectRules "ipv4"%string alloc [first] Hpre Hwant Hnone) as Hrun.
  split; [exact Hpre|]. split; [exact Hwant|]. split; [exact Hnone|]. split; [exact Hrun|].
  split.
  - destruct (proj1 (proj2 (C6_strict_stop_no_partial_write Demo.golib_fwd)) items
                ([a] ++ b :: [c]) [] defaultProjectRules "ipv4"%string alloc
                [ALLOCATE_FAIL b "ipv4"] Hrun) as (used' & [[Hnil _]|Hstop]).
    + discriminate Hnil.
    + exists used'. exact Hstop.
  - destruct (proj2 (proj2 (C6_strict_stop_no_partial_write Demo.golib_fwd)) (list StoreOp)
                Demo.logStore [] 1 [b; a; c] [pool] [] defaultProjectRules "ipv4"%string
                {[ 2 := Demo.cidr4 10 0 0 0 25 ]} (ALLOCATE_FAIL a "ipv4") [])
      as (err & Hfam & Herr).
    + vm_compute. reflexivity.
    + exists err. split; [exact Hfam|]. apply Herr. vm_compute. discriminate.
Defined.

(** ** The efficiency hints: [OVERSIZED] *)

Lemma u64_small z : 0 <= z < 2 ^ 64 -> u64 z = z.
Proof. intros Hz. unfold u64. apply Z.mod_small. exact Hz. Qed.

Lemma hostsToPrefixIPv4_loop_range (n : nat) (need : Z) :
  1 <= hostsToPrefixIPv4_loop n need <= Z.max 1 (Z.of_nat n).
Proof.
  induction n as [|n IH]; simpl hostsToPrefixIPv4_loop.
  - simpl. lia.
  - destruct (need <=? _); lia.
Qed.

Lemma hostsToPrefixIPv4_range (hosts : Z) : 1 <= hostsToPrefixIPv4 hosts <= 32.
Proof.
  unfold hostsToPrefixIPv4.
  pose proof (hostsToPrefixIPv4_loop_range 32 (i64 (hosts + 3))). lia.
Qed.

Lemma pow2_le_32 k : 0 <= k <= 32 -> 1 <= 2 ^ k <= 2 ^ 32.
Proof.
  intros Hk. split.
  - apply (Z.pow_le_mono_r 2 0 k); lia.
  - apply Z.pow_le_mono_r; lia.
Qed.

(** The percentage of [analyzeEfficiency], computed in [uint64], is the
    integer quotient when the block is the larger one. *)
Lemma unusedPct_exact (b r : Z) :
  0 <= b -> b < r -> r <= 32 ->
  i64 (u64 (u64 (u64 (Z.shiftl 1 (32 - b)) - u64 (Z.shiftl 1 (32 - r))) * 100)
       / u64 (Z.shiftl 1 (32 - b)))
  = (2 ^ (32 - b) - 2 ^ (32 - r)) * 100 / 2 ^ (32 - b).
Proof.
  intros Hb Hbr Hr.
  rewrite !Z.shiftl_1_l.
  pose proof (pow2_le_32 (32 - b) ltac:(lia)) as Ha.
  pose proof (pow2_le_32 (32 - r) ltac:(lia)) as Hq.
  assert (Hlt : 2 ^ (32 - r) < 2 ^ (32 - b)) by (apply Z.pow_lt_mono_r; lia).
  assert (H32 : 2 ^ 32 = 4294967296) by reflexivity.
  assert (H64 : 2 ^ 64 = 18446744073709551616) by reflexivity.
  rewrite (u64_small (2 ^ (32 - b))) by lia.
  rewrite (u64_small (2 ^ (32 - r))) by lia.
  rewrite (u64_small (2 ^ (32 - b) - 2 ^ (32 - r))) by lia.
  rewrite (u64_small ((2 ^ (32 - b) - 2 ^ (32 - r)) * 100)) by lia.
  apply i64_small.
  assert (Hq0 : 0 <= (2 ^ (32 - b) - 2 ^ (32 - r)) * 100 / 2 ^ (32 - b))
    by (apply Z.div_pos; lia).
  assert (Hq1 : (2 ^ (32 - b) - 2 ^ (32 - r)) * 100 / 2 ^ (32 - b) <= 100)
    by (apply Z.div_le_upper_bound; lia).
  lia.
Qed.

Lemma filter_none {A : Type} (f : A -> bool) (l : list A) :
  Forall (fun x => f x = false) l -> List.filter f l = [].
Proof.
  induction 1 as [|x l Hx _ IH]; simpl; [reflexivity|]. rewrite Hx. exact IH.
Qed.

Lemma filter_all {A : Type} (f : A -> bool) (l : list A) :
  Forall (fun x => f x = true) l -> List.filter f l = l.
Proof.
  induction 1 as [|x l Hx _ IH]; simpl; [reflexivity|]. rewrite Hx, IH. reflexivity.
Qed.

Section EfficiencyFacts.
Context {L : GoLib}.

Lemma gapHints_kind pool gaps limit out :
  gapHints pool gaps limit = Ret out -> Forall (fun c => Kind c = "POOL_GAP"%string) out.
Proof.
  revert limit out. induction gaps as [|g gaps IH]; intros limit out Hrun; simpl in Hrun.
  - injection Hrun as <-. constructor.
  - destruct (limit =? 0); [injection Hrun as <-; constructor|].
    apply bind_Ret in Hrun as (ps & _ & Hrun).
    apply bind_Ret in Hrun as (more & Hmore & Hret).
    injection Hret as <-. apply Forall_app. split; [|eauto].
    apply List.Forall_forall. intros c Hc. apply in_map_iff in Hc as (p & <- & _). reflexivity.
Qed.

Lemma poolHintsV4_kind pool segments reserved out :
  poolHintsV4 pool segments reserved = Ret out ->
  Forall (fun c => isKind "OVERSIZED" c = false) out.
Proof.
  unfold poolHintsV4. intros Hrun.
  destruct (negb (Is4 (PAddr pool))); [injection Hrun as <-; constructor|].
  destruct (Z.of_nat (length _) =? 0); [injection Hrun as <-; constructor|].
  apply bind_Ret in Hrun as (gapsOut & Hgaps & Hret). injection Hret as <-.
  constructor; [reflexivity|].
  apply gapHints_kind in Hgaps. eapply List.Forall_impl; [|exact Hgaps].
  intros c Hc. unfold isKind. rewrite Hc. reflexivity.
Qed.

Lemma perPoolV4_kind pools segments reserved out :
  perPoolV4 pools segments reserved = Ret out ->
  Forall (fun c => isKind "OVERSIZED" c = false) out.
Proof.
  revert out. induction pools as [|pool pools IH]; intros out Hrun; simpl in Hrun.
  - injection Hrun as <-. constructor.
  - apply bind_Ret in Hrun as (h & Hh & Hrun).
    apply bind_Ret in Hrun as (hs & Hhs & Hret). injection Hret as <-.
    apply Forall_app. split; [eapply poolHintsV4_kind; eauto|eauto].
Qed.

Lemma siteHintsV4_kind sites segmentsBySite reservedV4 out :
  siteHintsV4 sites segmentsBySite reservedV4 = Ret out ->
  Forall (fun c => isKind "OVERSIZED" c = false) out.
Proof.
  revert out. induction sites as [|[siteID pools] sites IH]; intros out Hrun; simpl in Hrun.
  - injection Hrun as <-. constructor.
  - apply bind_Ret in Hrun as (h & Hh & Hrun).
    apply bind_Ret in Hrun as (hs & Hhs & Hret). injection Hret as <-.
    apply Forall_app. split; [eapply perPoolV4_kind; eauto|eauto].
Qed.

Lemma gapHintsV6_kind pool gaps unitPrefix limit :
  Forall (fun c => isKind "OVERSIZED" c = false) (gapHintsV6 pool gaps unitPrefix limit).
Proof.
  revert limit. induction gaps as [|g gaps IH]; intros limit; simpl; [constructor|].
  destruct (limit =? 0); [constructor|].
  apply Forall_app. split; [|apply IH].
  apply List.Forall_forall. intros c Hc. apply in_map_iff in Hc as (p & <- & _). reflexivity.
Qed.

Lemma poolHintsV6_kind pool segments reserved :
  Forall (fun c => isKind "OVERSIZED" c = false) (poolHintsV6 pool segments reserved).
Proof.
  unfold poolHintsV6.
  destruct (negb (Is6 (PAddr pool))); [constructor|].
  destruct (Z.of_nat (length _) =? 0); [constructor|].
  constructor; [reflexivity|apply gapHintsV6_kind].
Qed.

Lemma siteHintsV6_kind sites segmentsBySite reservedV6 :
  Forall (fun c => isKind "OVERSIZED" c = false) (siteHintsV6 sites segmentsBySite reservedV6).
Proof.
  unfold siteHintsV6. apply List.Forall_flat_map, List.Forall_forall. intros [siteID pools] _.
  apply List.Forall_flat_map, List.Forall_forall. intros pool _. apply poolHintsV6_kind.
Qed.

Lemma oversized_kind s rules :
  Forall (fun c => isKind "OVERSIZED" c = true) (oversized s rules).
Proof.
  unfold oversized.
  repeat match goal with
         | |- context [match ?x with _ => _ end] => destruct x
         end; repeat constructor.
Qed.

Lemma oversizedV6_kind s rules :
  Forall (fun c => isKind "OVERSIZED" c = false) (oversizedV6 s rules).
Proof.
  unfold oversizedV6.
  repeat match goal with
         | |- context [match ?x with _ => _ end] => destruct x
         end; repeat constructor.
Qed.

Lemma analyzeEfficiency_oversized segs poolsV4 poolsV6 reservedV4 reservedV6 rules out :
  analyzeEfficiency segs poolsV4 poolsV6 reservedV4 reservedV6 rules = Ret out ->
  List.filter (isKind "OVERSIZED") out = flat_map (fun s => oversized s rules) segs.
Proof.
  unfold analyzeEfficiency. intros Hrun.
  apply bind_Ret in Hrun as (v4 & Hv4 & Hret). injection Hret as <-.
  rewrite !List.filter_app.
  rewrite (filter_none _ v4) by (eapply siteHintsV4_kind; eauto).
  rewrite (filter_none _ (siteHintsV6 _ _ _)) by apply siteHintsV6_kind.
  rewrite (filter_none _ (flat_map (fun s => oversizedV6 s rules) segs)).
  2:{ apply List.Forall_flat_map, List.Forall_forall. intros s _. apply oversizedV6_kind. }
  rewrite filter_all.
  2:{ apply List.Forall_flat_map, List.Forall_forall. intros s _. apply oversized_kind. }
  simpl. rewrite app_nil_r. reflexivity.
Qed.

End EfficiencyFacts.

(** C7 (amended): for a segment with a host count and a CIDR that parses
    as an IPv4 prefix, the [OVERSIZED] conflicts of [analyzeEfficiency]
    are those of its per-segment rule, taken segment by segment; the rule
    emits one [OVERSIZED] warning exactly when the actual prefix length is
    strictly smaller than the required length [hostsToPrefixIPv4 hosts]
    (the block is bigger than needed) and the wasted share
    [(actualSize - requiredSize) * 100 / actualSize], sizes being
    [2^(32-length)], reaches the rules' threshold; otherwise it emits
    nothing. *)
Theorem C7_oversized_iff_block_larger (L : GoLib) (segs : list Segment)
    (poolsV4 poolsV6 reservedV4 reservedV6 : gmap Z (list Prefix)) (rules : ProjectRules)
    (out : list Conflict) (s : Segment) (hosts : Z) (cidr : string) (p : Prefix) :
  analyzeEfficiency segs poolsV4 poolsV6 reservedV4 reservedV6 rules = Ret out ->
  Hosts s = Some hosts ->
  CIDR s = Some cidr ->
  ParsePrefix cidr = Some p ->
  Is4 (PAddr p) = true ->
  0 <= Bits p <= 32 ->
  let required := hostsToPrefixIPv4 hosts in
  let actualSize := 2 ^ (32 - Bits p) in
  let requiredSize := 2 ^ (32 - required) in
  let wasted := (actualSize - requiredSize) * 100 / actualSize in
  List.filter (isKind "OVERSIZED") out = flat_map (fun s => oversized s rules) segs
  /\ (Bits p < required /\ OversizeThreshold rules <= wasted ->
      exists c, oversized s rules = [c] /\ Kind c = "OVERSIZED"%string
                /\ Level c = "Warning"%string)
  /\ (~ (Bits p < required /\ OversizeThreshold rules <= wasted) -> oversized s rules = []).
Proof.
  intros Hrun Hhosts Hcidr Hparse H4 Hbits required actualSize requiredSize wasted.
  split; [eapply analyzeEfficiency_oversized; exact Hrun|].
  pose proof (hostsToPrefixIPv4_range hosts) as Hreq. fold required in Hreq.
  unfold oversized. rewrite Hhosts, Hcidr, Hparse, H4. cbn [negb]. fold required.
  destruct (Z.leb_spec required 0) as [Hle0|_]; [lia|].
  destruct (Z.leb_spec required (Bits p)) as [Hge|Hlt].
  - split; [intros [Hlt _]; lia|reflexivity].
  - rewrite unusedPct_exact by lia. fold actualSize requiredSize wasted.
    destruct (Z.leb_spec (OversizeThreshold rules) wasted) as [Hth|Hth].
    + split; [|intros Hno; exfalso; apply Hno; split; assumption].
      intros _. eexists. split; [reflexivity|]. split; reflexivity.
    + split; [intros [_ Hth']; lia|reflexivity].
Qed.

Lemma C7_oversized_iff_block_larger_witness :
  let s := Demo.seg 1 "S" "A" 10 "lab" (Some 10) None (Some "10.0.0.0/24"%string) false in
  let p := Demo.cidr4 10 0 0 0 24 in
  (Bits p < hostsToPrefixIPv4 10
   /\ OversizeThreshold defaultProjectRules
      <= (2 ^ (32 - Bits p) - 2 ^ (32 - hostsToPrefixIPv4 10)) * 100 / 2 ^ (32 - Bits p))
  /\ exists c, oversized (L := Demo.golib_fwd) s defaultProjectRules = [c]
               /\ Kind c = "OVERSIZED"%string /\ Level c = "Warning"%string.
Proof.
  intros s p.
  assert (Hcond : Bits p < hostsToPrefixIPv4 10
                  /\ OversizeThreshold defaultProjectRules
                     <= (2 ^ (32 - Bits p) - 2 ^ (32 - hostsToPrefixIPv4 10)) * 100
                        / 2 ^ (32 - Bits p)).
  { vm_compute. split; [reflexivity|discriminate]. }
  split; [exact Hcond|].
  refine (proj1 (proj2 (C7_oversized_iff_block_larger Demo.golib_fwd [s] ∅ ∅ ∅ ∅
                          defaultProjectRules
                          (oversized (L := Demo.golib_fwd) s defaultProjectRules)
                          s 10 "10.0.0.0/24"%string p _ _ _ _ _ _)) Hcond).
  - vm_compute. reflexivity.
  - reflexivity.
  - reflexivity.
  - vm_compute. reflexivity.
  - reflexivity.
  - vm_compute. split; discriminate.
Defined.

(** C7 as worded ("the actual prefix length is strictly larger than the
    required length") fails: a segment with 10 hosts needs a /28; at
    10.0.0.0/24 its length 24 is not larger than 28, and the code reports
    it [OVERSIZED] (93 per cent unused, threshold 50). *)
Lemma C7_counterexample :
  let s := Demo.seg 1 "S" "A" 10 "lab" (Some 10) None (Some "10.0.0.0/24"%string) false in
  let p := Demo.cidr4 10 0 0 0 24 in
  let c := mkConflict "OVERSIZED" "segment lab site=S 10.0.0.0/24 exceeds hosts by 93% (need /28)"
             "Warning" in
  ParsePrefix (GoLib := Demo.golib_fwd) "10.0.0.0/24" = Some p
  /\ analyzeEfficiency (L := Demo.golib_fwd) [s] ∅ ∅ ∅ ∅ defaultProjectRules = Ret [c]
  /\ ~ (Bits p > hostsToPrefixIPv4 10
        /\ (2 ^ (32 - Bits p) - 2 ^ (32 - hostsToPrefixIPv4 10)) * 100 / 2 ^ (32 - Bits p)
           >= OversizeThreshold defaultProjectRules).
Proof.
  split; [vm_compute; reflexivity|].
  split; [vm_compute; reflexivity|].
  intros [Hgt _]. vm_compute in Hgt. discriminate.
Qed.

(** ** The analyzer: VLAN duplicates *)

Section VlanFacts.
Context {L : GoLib}.

Lemma addStatus_conflict_at st id detail :
  level_is (addStatus st id statusConflict detail) id statusConflict.
Proof.
  unfold level_is, addStatus. rewrite lookup_insert_eq. eexists. split; [reflexivity|].
  destruct (st !! id) as [[level details]|]; simpl.
  - destruct level; simpl; destruct (negb (isEmpty detail)); reflexivity.
  - destruct (negb (isEmpty detail)); reflexivity.
Qed.

Lemma addStatus_keeps_conflict st id level detail x :
  level_is st x statusConflict -> level_is (addStatus st id level detail) x statusConflict.
Proof.
  intros (v & Hv & Hlevel). unfold level_is, addStatus.
  destruct (decide (id = x)) as [->|Hne].
  - rewrite lookup_insert_eq, Hv. eexists. split; [reflexivity|].
    destruct v as [lv details]. simpl in Hlevel. subst lv.
    destruct level; simpl; destruct (negb (isEmpty detail)); reflexivity.
  - rewrite lookup_insert_ne by exact Hne. eauto.
Qed.

Lemma raiseBoth_conflict st ev x :
  x = ID (snd ev) \/ x = fst ev -> level_is (raiseBoth st ev) x statusConflict.
Proof.
  unfold raiseBoth. intros [->| ->].
  - apply addStatus_keeps_conflict, addStatus_conflict_at.
  - apply addStatus_conflict_at.
Qed.

Lemma raiseBoth_keeps st ev x :
  level_is st x statusConflict -> level_is (raiseBoth st ev) x statusConflict.
Proof.
  intros Hx. unfold raiseBoth. apply addStatus_keeps_conflict, addStatus_keeps_conflict, Hx.
Qed.

Lemma foldl_raiseBoth_keeps events st x :
  level_is st x statusConflict -> level_is (foldl raiseBoth st events) x statusConflict.
Proof.
  revert st. induction events as [|ev events IH]; intros st Hx; simpl; [exact Hx|].
  apply IH, raiseBoth_keeps, Hx.
Qed.

Lemma foldl_raiseBoth_conflict events st ev x :
  In ev events -> x = ID (snd ev) \/ x = fst ev ->
  level_is (foldl raiseBoth st events) x statusConflict.
Proof.
  revert st. induction events as [|ev' events IH]; intros st Hin Hx; simpl; [destruct Hin|].
  destruct Hin as [->|Hin].
  - apply foldl_raiseBoth_keeps, raiseBoth_conflict, Hx.
  - apply IH; assumption.
Qed.

(** The VLAN loop: its conflicts and statuses are those of [vlanEvents]. *)
Lemma foldl_checkVLAN segByID rules segs seen st cf :
  exists seen',
    foldl (checkVLAN segByID rules) (seen, st, cf) segs
    = (seen', foldl raiseBoth st (vlanEvents rules seen segs),
       cf ++ map (fun ev => VLAN_DUP (default zeroSegment (segByID !! fst ev)) (snd ev))
                 (vlanEvents rules seen segs)).
Proof.
  revert seen st cf. induction segs as [|s segs IH]; intros seen st cf; simpl.
  - exists seen. rewrite app_nil_r. reflexivity.
  - destruct (seen !! vlanKey s rules) as [firstID|] eqn:Hseen.
    + destruct (IH seen
                  (addStatus (addStatus st (ID s) statusConflict "duplicate VLAN") firstID
                     statusConflict "duplicate VLAN")
                  (cf ++ [VLAN_DUP (default zeroSegment (segByID !! firstID)) s]))
        as (seen' & Hrun).
      exists seen'. rewrite Hrun. simpl. rewrite <- app_assoc. reflexivity.
    + apply IH.
Qed.

Lemma addKeys_lookup_other rules seen segs k :
  (forall s, In s segs -> vlanKey s rules <> k) -> addKeys rules seen segs !! k = seen !! k.
Proof.
  unfold addKeys. revert seen. induction segs as [|s segs IH]; intros seen Hk; simpl.
  - reflexivity.
  - rewrite IH by (intros s' Hs'; apply Hk; right; exact Hs').
    apply lookup_insert_ne. apply Hk. left. reflexivity.
Qed.

Lemma addKeys_lookup_in rules seen segs a :
  NoDup (map (fun s => vlanKey s rules) segs) -> In a segs ->
  addKeys rules seen segs !! vlanKey a rules = Some (ID a).
Proof.
  unfold addKeys. revert seen. induction segs as [|s segs IH]; intros seen Hnd Hin; simpl.
  - destruct Hin.
  - simpl in Hnd. apply NoDup_cons in Hnd as [Hs Hnd]. destruct Hin as [->|Hin].
    + fold (addKeys rules (<[vlanKey a rules := ID a]> seen) segs).
      rewrite addKeys_lookup_other; [apply lookup_insert_eq|].
      intros s' Hs' Heq. apply Hs. rewrite <- Heq.
      apply list_elem_of_In, (in_map (fun s => vlanKey s rules)). exact Hs'.
    + apply IH; assumption.
Qed.

(** Segments with new, pairwise different keys raise nothing. *)
Lemma vlanEvents_fresh rules seen l r :
  NoDup (map (fun s => vlanKey s rules) l) ->
  (forall s, In s l -> seen !! vlanKey s rules = None) ->
  vlanEvents rules seen (l ++ r) = vlanEvents rules (addKeys rules seen l) r.
Proof.
  revert seen. induction l as [|s l IH]; intros seen Hnd Hnew; simpl; [reflexivity|].
  simpl in Hnd. apply NoDup_cons in Hnd as [Hs Hnd].
  rewrite (Hnew s) by (left; reflexivity).
  unfold addKeys. simpl. fold (addKeys rules (<[vlanKey s rules := ID s]> seen) l).
  apply IH; [exact Hnd|].
  intros s' Hs'. rewrite lookup_insert_ne; [apply Hnew; right; exact Hs'|].
  intros Heq. apply Hs. rewrite Heq.
  apply list_elem_of_In, (in_map (fun s => vlanKey s rules)). exact Hs'.
Qed.

(** A key that is held stays held by the same segment. *)
Lemma vlanEvents_held rules seen l b r f :
  seen !! vlanKey b rules = Some f -> In (f, b) (vlanEvents rules seen (l ++ b :: r)).
Proof.
  revert seen. induction l as [|s l IH]; intros seen Hseen; simpl.
  - rewrite Hseen. left. reflexivity.
  - destruct (seen !! vlanKey s rules) as [g|] eqn:Hs.
    + right. apply IH, Hseen.
    + apply IH. rewrite lookup_insert_ne; [exact Hseen|]. congruence.
Qed.

(** Of two segments with one key, the later one raises a duplicate, and
    the earlier one either raised one itself or is the holder named by
    the later one's. *)
Lemma vlanEvents_pair rules seen l1 a l2 b l3 :
  vlanKey a rules = vlanKey b rules ->
  let events := vlanEvents rules seen (l1 ++ a :: l2 ++ b :: l3) in
  (exists f, In (f, b) events) /\ ((exists f, In (f, a) events) \/ In (ID a, b) events).
Proof.
  intros Hkey. revert seen. induction l1 as [|s l1 IH]; intros seen; simpl.
  - destruct (seen !! vlanKey a rules) as [f|] eqn:Ha.
    + assert (Hb : In (f, b) (vlanEvents rules seen (l2 ++ b :: l3)))
        by (apply vlanEvents_held; rewrite <- Hkey; exact Ha).
      split; [exists f; right; exact Hb|]. left. exists f. left. reflexivity.
    + assert (Hb : In (ID a, b)
                     (vlanEvents rules (<[vlanKey a rules := ID a]> seen) (l2 ++ b :: l3)))
        by (apply vlanEvents_held; rewrite <- Hkey; apply lookup_insert_eq).
      split; [exists (ID a); exact Hb|]. right. exact Hb.
  - destruct (seen !! vlanKey s rules) as [g|] eqn:Hs.
    + destruct (IH seen) as ((f & Hf) & Hrest).
      split; [exists f; right; exact Hf|].
      destruct Hrest as [(f' & Hf')|Hab]; [left; exists f'; right; exact Hf'|right; right; exact Hab].
    + apply IH.
Qed.

End VlanFacts.

Section AnalyzerFacts.
Context {L : GoLib}.

Lemma foldl_keeps {X Y : Type} (P : X -> Prop) (f : X -> Y -> X) :
  (forall x y, P x -> P (f x y)) -> forall l x, P x -> P (foldl f x l).
Proof.
  intros Hf l. induction l as [|y l IH]; intros x Hx; simpl; [exact Hx|]. apply IH, Hf, Hx.
Qed.

Lemma checkParsed_kinds t s p pools ranges rules st cf :
  t = textsV4 \/ t = textsV6 ->
  Forall notDup cf -> Forall notDup (snd (checkParsed t s p pools ranges rules st cf)).
Proof.
  intros Ht Hcf. unfold checkParsed.
  destruct (Z.of_nat (length pools) =? 0); [|destruct (negb (prefixInAnyPool p pools))];
    destruct (firstReservedOverlap ranges p); simpl;
    repeat (apply Forall_app; split); try exact Hcf;
    constructor; try constructor; destruct Ht as [-> | ->]; reflexivity.
Qed.

Lemma checkSegment_kinds poolsV4 poolsV6 reservedV4 reservedV6 rules a s :
  Forall notDup (conflicts a) ->
  Forall notDup (conflicts (checkSegment poolsV4 poolsV6 reservedV4 reservedV6 rules a s)).
Proof.
  intros Hcf. unfold checkSegment.
  set (st1 := if negb (Valid (Prefix_ s)) && negb (Valid (Hosts s)) then _ else _).
  set (st2 := if Valid (PrefixV6 s) && negb (Valid (CIDRV6 s)) then _ else _).
  assert (Hone : forall c, Kind c = "CIDR_PARSE"%string \/ Kind c = "CIDR6_PARSE"%string ->
                           Forall notDup (conflicts a ++ [c])).
  { intros c Hc. apply Forall_app. split; [exact Hcf|]. constructor; [|constructor].
    unfold notDup, isKind. destruct Hc as [-> | ->]; reflexivity. }
  destruct (CIDR s) as [cidr|]; [destruct (ParsePrefix cidr) as [p|]|].
  - destruct (checkParsed textsV4 s p _ _ rules st2 (conflicts a)) as [st3 cf3] eqn:E4.
    assert (Hcf3 : Forall notDup cf3).
    { change cf3 with (snd (st3, cf3)). rewrite <- E4. apply checkParsed_kinds; auto. }
    destruct (CIDRV6 s) as [cidr6|]; [destruct (ParsePrefix cidr6) as [p6|]|]; simpl.
    + destruct (checkParsed textsV6 s p6 _ _ rules st3 cf3) as [st4 cf4] eqn:E6.
      simpl. change cf4 with (snd (st4, cf4)). rewrite <- E6. apply checkParsed_kinds; auto.
    + apply Forall_app. split; [exact Hcf3|]. constructor; [reflexivity|constructor].
    + exact Hcf3.
  - destruct (CIDRV6 s) as [cidr6|]; [destruct (ParsePrefix cidr6) as [p6|]|]; simpl.
    + destruct (checkParsed textsV6 s p6 _ _ rules _ _) as [st4 cf4] eqn:E6.
      simpl. change cf4 with (snd (st4, cf4)). rewrite <- E6.
      apply checkParsed_kinds; [auto|]. apply Hone. left. reflexivity.
    + apply Forall_app. split; [apply Hone; left; reflexivity|].
      constructor; [reflexivity|constructor].
    + apply Hone. left. reflexivity.
  - destruct (CIDRV6 s) as [cidr6|]; [destruct (ParsePrefix cidr6) as [p6|]|]; simpl.
    + destruct (checkParsed textsV6 s p6 _ _ rules _ _) as [st4 cf4] eqn:E6.
      simpl. change cf4 with (snd (st4, cf4)). rewrite <- E6. apply checkParsed_kinds; auto.
    + apply Hone. right. reflexivity.
    + exact Hcf.
Qed.

Lemma checkPair_kinds v6 segByID byID k sc ab :
  Forall notDup (snd sc) -> Forall notDup (snd (checkPair v6 segByID byID k sc ab)).
Proof.
  intros Hcf. unfold checkPair. destruct sc as [st cf], ab as [a b]. simpl in Hcf.
  destruct (byID !! a) as [p1|]; [|exact Hcf].
  destruct (byID !! b) as [p2|]; [|exact Hcf].
  destruct (prefixesOverlap p1 p2); [|exact Hcf]. simpl.
  apply Forall_app. split; [exact Hcf|]. constructor; [|constructor].
  destruct v6; reflexivity.
Qed.

Lemma checkOverlaps_kinds v6 segByID byID group sc :
  Forall notDup (snd sc) -> Forall notDup (snd (checkOverlaps v6 segByID byID group sc)).
Proof.
  unfold checkOverlaps.
  apply (foldl_keeps (fun sc => Forall notDup (snd sc))).
  intros sc' [k ids]. apply (foldl_keeps (fun sc => Forall notDup (snd sc))).
  intros sc'' ab. apply checkPair_kinds.
Qed.

Lemma foldl_insert_notin {V : Type} (val : Segment -> V) segs (acc : gmap Z V) x :
  ~ In x (map ID segs) ->
  foldl (fun m s => <[ID s := val s]> m) acc segs !! x = acc !! x.
Proof.
  revert acc. induction segs as [|s segs IH]; intros acc Hx; simpl; [reflexivity|].
  rewrite IH by (intros Hin; apply Hx; right; exact Hin).
  apply lookup_insert_ne. intros Heq. apply Hx. left. exact Heq.
Qed.

Lemma foldl_insert_in {V : Type} (val : Segment -> V) segs (acc : gmap Z V) a :
  In a segs ->
  (forall b, In b segs -> ID b = ID a -> val b = val a) ->
  foldl (fun m s => <[ID s := val s]> m) acc segs !! ID a = Some (val a).
Proof.
  revert acc a. induction segs as [|s segs IH]; intros acc a Hin Hval; simpl; [destruct Hin|].
  destruct (in_dec Z.eq_dec (ID a) (map ID segs)) as [Hlater|Hlast].
  - apply in_map_iff in Hlater as (b & Hid & Hb).
    rewrite <- Hid, (IH _ b Hb).
    + f_equal. apply Hval; [right; exact Hb|exact Hid].
    + intros c Hc Hcb. rewrite (Hval c), (Hval b); auto; [right; exact Hb|right; exact Hc|congruence].
  - rewrite foldl_insert_notin by exact Hlast.
    destruct Hin as [->|Hin]; [apply lookup_insert_eq|].
    exfalso. apply Hlast, in_map, Hin.
Qed.

Lemma NoDup_ID_inj segs a b :
  NoDup (map ID segs) -> In a segs -> In b segs -> ID b = ID a -> b = a.
Proof.
  induction segs as [|s segs IH]; intros Hnd Ha Hb Hid; [destruct Ha|].
  simpl in Hnd. apply NoDup_cons in Hnd as [Hs Hnd].
  destruct Ha as [->|Ha], Hb as [->|Hb]; auto.
  - exfalso. apply Hs. rewrite <- Hid. apply list_elem_of_In, in_map, Hb.
  - exfalso. apply Hs. rewrite Hid. apply list_elem_of_In, in_map, Ha.
Qed.

(** [analyzeSegments] in terms of the VLAN loop read as a function: the
    conflicts of the earlier loops, none of them a [VLAN_DUP], then one
    [VLAN_DUP] per duplicate; the statuses are read off the statuses
    after the duplicates' updates. *)
Lemma analyzeSegments_vlan segs poolsV4 poolsV6 reservedV4 reservedV6 rules out cf :
  analyzeSegments segs poolsV4 poolsV6 reservedV4 reservedV6 rules = (out, cf) ->
  let segByID : gmap Z Segment := foldl (fun m s => <[ID s := s]> m) ∅ segs in
  let events := vlanEvents rules ∅ segs in
  exists pre st,
    Forall notDup pre
    /\ cf = pre ++ map (fun ev => VLAN_DUP (default zeroSegment (segByID !! fst ev)) (snd ev))
                       events
    /\ out = foldl (fun out s =>
                      <[ID s := default (mkStatus statusOK [])
                                  (foldl raiseBoth st events !! ID s)]> out) ∅ segs.
Proof.
  intros Hrun segByID events. unfold analyzeSegments in Hrun.
  set (a := foldl (checkSegment poolsV4 poolsV6 reservedV4 reservedV6 rules) _ segs) in Hrun.
  set (sc := checkOverlaps true _ _ _ _) in Hrun.
  fold segByID in Hrun.
  destruct (foldl_checkVLAN segByID rules segs ∅ (fst sc) (snd sc)) as (seen' & Hvlan).
  rewrite Hvlan in Hrun. injection Hrun as <- <-.
  exists (snd sc), (fst sc). split; [|split; reflexivity].
  subst sc. apply checkOverlaps_kinds, checkOverlaps_kinds. simpl.
  subst a. apply (foldl_keeps (fun a => Forall notDup (conflicts a))).
  - intros a s. apply checkSegment_kinds.
  - constructor.
Qed.

End AnalyzerFacts.

(** C8: [analyzeSegments] keys a segment by the rules' VLAN scope (the
    VLAN alone, site|VLAN, or site|VRF|VLAN).  For two segments at
    different places of the list with the same key, a [VLAN_DUP] conflict
    of level ["Conflict"] is emitted for the later one and both segments
    end with status [statusConflict].  When they are the only two with a
    common key (and ids are unique), the [VLAN_DUP] conflicts are exactly
    one, whose detail names both.  When all keys differ there is no
    [VLAN_DUP]. *)
Theorem C8_vlan_duplicates (L : GoLib) (segs : list Segment)
    (poolsV4 poolsV6 reservedV4 reservedV6 : gmap Z (list Prefix)) (rules : ProjectRules)
    (out : gmap Z SegmentStatus) (cf : list Conflict) :
  analyzeSegments segs poolsV4 poolsV6 reservedV4 reservedV6 rules = (out, cf) ->
  let key := fun s => vlanKey s rules in
  let dups := List.filter (isKind "VLAN_DUP") cf in
  (forall s,
      key s = if String.eqb (VLANScope rules) "global" then itoa (VLAN s)
              else if String.eqb (VLANScope rules) "site"
                   then Site_ s +:+ "|" +:+ itoa (VLAN s)
                   else Site_ s +:+ "|" +:+ VRF s +:+ "|" +:+ itoa (VLAN s))
  /\ (forall l1 a l2 b l3,
         segs = l1 ++ a :: l2 ++ b :: l3 -> key a = key b ->
         (exists first c, c = VLAN_DUP first b /\ In c dups /\ Level c = "Conflict"%string)
         /\ level_is out (ID a) statusConflict
         /\ level_is out (ID b) statusConflict)
  /\ (forall l1 a l2 b l3,
         segs = l1 ++ a :: l2 ++ b :: l3 -> key a = key b ->
         NoDup (map key (l1 ++ a :: l2 ++ l3)) -> NoDup (map ID segs) ->
         dups = [VLAN_DUP a b])
  /\ (NoDup (map key segs) -> dups = []).
Proof.
  intros Hrun key dups.
  destruct (analyzeSegments_vlan _ _ _ _ _ _ _ _ Hrun) as (pre & st & Hpre & Hcf & Hout).
  set (segByID := foldl (fun m s => <[ID s := s]> m) (∅ : gmap Z Segment) segs) in *.
  set (events := vlanEvents rules ∅ segs) in *.
  assert (Hdups : dups = map (fun ev => VLAN_DUP (default zeroSegment (segByID !! fst ev)) (snd ev))
                             events).
  { unfold dups. rewrite Hcf, List.filter_app, (filter_none _ pre) by exact Hpre.
    simpl. apply filter_all. apply List.Forall_forall. intros c Hc.
    apply in_map_iff in Hc as (ev & <- & _). reflexivity. }
  assert (Hstatus : forall s x, In s segs -> x = ID s ->
                      level_is (foldl raiseBoth st events) x statusConflict ->
                      level_is out x statusConflict).
  { intros s x Hs -> (v & Hv & Hlevel). exists v. split; [|exact Hlevel].
    rewrite Hout.
    rewrite (foldl_insert_in
               (fun s => default (mkStatus statusOK []) (foldl raiseBoth st events !! ID s))
               segs ∅ s Hs).
    - rewrite Hv. reflexivity.
    - intros b _ Hid. rewrite Hid. reflexivity. }
  split; [intros s; reflexivity|].
  split; [|split].
  - intros l1 a l2 b l3 Hsegs Hkey.
    assert (Ha : In a segs) by (rewrite Hsegs; apply in_or_app; right; left; reflexivity).
    assert (Hb : In b segs).
    { rewrite Hsegs. apply in_or_app. right. right. apply in_or_app. right. left. reflexivity. }
    destruct (vlanEvents_pair rules ∅ l1 a l2 b l3 Hkey) as ((f & Hf) & Hfirst).
    rewrite <- Hsegs in Hf, Hfirst. fold events in Hf, Hfirst.
    split; [|split].
    + exists (default zeroSegment (segByID !! f)), (VLAN_DUP (default zeroSegment (segByID !! f)) b).
      split; [reflexivity|]. split; [|reflexivity].
      rewrite Hdups. apply in_map_iff. exists (f, b). split; [reflexivity|exact Hf].
    + apply (Hstatus a _ Ha eq_refl).
      destruct Hfirst as [(f' & Hf')|Hab].
      * apply (foldl_raiseBoth_conflict _ _ (f', a)); [exact Hf'|left; reflexivity].
      * apply (foldl_raiseBoth_conflict _ _ (ID a, b)); [exact Hab|right; reflexivity].
    + apply (Hstatus b _ Hb eq_refl).
      apply (foldl_raiseBoth_conflict _ _ (f, b)); [exact Hf|left; reflexivity].
  - intros l1 a l2 b l3 Hsegs Hkey Hnd Hids.
    assert (Ha : In a segs) by (rewrite Hsegs; apply in_or_app; right; left; reflexivity).
    assert (Hsplit : l1 ++ a :: l2 ++ l3 = (l1 ++ a :: l2) ++ l3)
      by (rewrite <- app_assoc; reflexivity).
    rewrite Hsplit, List.map_app in Hnd.
    apply NoDup_app in Hnd as (Hnd12 & Hdisj & Hnd3).
    assert (Hevents : events = [(ID a, b)]).
    { unfold events. rewrite Hsegs.
      replace (l1 ++ a :: l2 ++ b :: l3) with ((l1 ++ a :: l2) ++ b :: l3)
        by (rewrite <- app_assoc; reflexivity).
      rewrite vlanEvents_fresh; [|exact Hnd12|intros s _; apply lookup_empty].
      simpl. fold (key b). rewrite <- Hkey. unfold key.
      rewrite addKeys_lookup_in; [|exact Hnd12|apply in_or_app; right; left; reflexivity].
      f_equal.
      rewrite <- (app_nil_r l3), vlanEvents_fresh; [reflexivity|exact Hnd3|].
      intros s Hs. rewrite addKeys_lookup_other; [apply lookup_empty|].
      intros s' Hs' Heq. apply (Hdisj (vlanKey s' rules)).
      - apply list_elem_of_In, (in_map (fun s => vlanKey s rules)). exact Hs'.
      - rewrite Heq. apply list_elem_of_In, (in_map (fun s => vlanKey s rules)). exact Hs. }
    rewrite Hdups, Hevents. simpl. f_equal. f_equal.
    unfold segByID.
    rewrite (foldl_insert_in (fun s => s) segs ∅ a Ha); [reflexivity|].
    intros b' Hb' Hid. apply (NoDup_ID_inj segs); assumption.
  - intros Hnd. rewrite Hdups. unfold events.
    rewrite <- (app_nil_r segs), vlanEvents_fresh; [reflexivity|exact Hnd|].
    intros s _. apply lookup_empty.
Qed.

Lemma C8_vlan_duplicates_witness :
  let a := Demo.seg 1 "R1" "A" 10 "seg-a" None (Some 26) (Some "10.20.0.0/26"%string) true in
  let b := Demo.seg 2 "R1" "B" 10 "seg-b" None (Some 26) (Some "10.20.0.64/26"%string) true in
  let pools : gmap Z (list Prefix) := {[ 1 := [Demo.cidr4 10 20 0 0 24] ]} in
  let bySite := mkRules VlanScopeSite true false 50 PoolStrategySpillover true in
  let run := analyzeSegments (L := Demo.golib_fwd) [a; b] pools ∅ ∅ ∅ bySite in
  let run' := analyzeSegments (L := Demo.golib_fwd) [a; b] pools ∅ ∅ ∅ defaultProjectRules in
  vlanKey a bySite = vlanKey b bySite
  /\ List.filter (isKind "VLAN_DUP") (snd run)
     = [mkConflict "VLAN_DUP" "site=R1 vrf=B vlan=10 duplicated: seg-a, seg-b" "Conflict"]
  /\ level_is (fst run) 1 statusConflict
  /\ level_is (fst run) 2 statusConflict
  /\ NoDup (map (fun s => vlanKey s defaultProjectRules) [a; b])
  /\ List.filter (isKind "VLAN_DUP") (snd run') = [].
Proof.
  intros a b pools bySite run run'.
  assert (Hkey : vlanKey a bySite = vlanKey b bySite) by (vm_compute; reflexivity).
  assert (Hkeys : NoDup (map (fun s => vlanKey s defaultProjectRules) [a; b])).
  { vm_compute. repeat constructor; [|apply not_elem_of_nil].
    intros Hin. apply list_elem_of_In in Hin. destruct Hin as [Heq|[]]. discriminate Heq. }
  destruct (C8_vlan_duplicates Demo.golib_fwd [a; b] pools ∅ ∅ ∅ bySite (fst run) (snd run))
    as (_ & Hpair & Hone & _).
  { vm_compute. reflexivity. }
  destruct (C8_vlan_duplicates Demo.golib_fwd [a; b] pools ∅ ∅ ∅ defaultProjectRules
              (fst run') (snd run')) as (_ & _ & _ & Hnone).
  { vm_compute. reflexivity. }
  destruct (Hpair [] a [] b [] eq_refl Hkey) as (_ & Ha & Hb).
  split; [exact Hkey|].
  split.
  { rewrite (Hone [] a [] b [] eq_refl Hkey).
    - vm_compute. reflexivity.
    - vm_compute. repeat constructor; [apply not_elem_of_nil].
    - vm_compute. repeat constructor; [|apply not_elem_of_nil].
      intros Hin. apply list_elem_of_In in Hin. destruct Hin as [Heq|[]]. discriminate Heq. }
  split; [exact Ha|]. split; [exact Hb|]. split; [exact Hkeys|].
  apply Hnone. exact Hkeys.
Defined.

(** ** Loops: reasoning by invariant and by measure *)

Lemma loop_rounds_invariant {S R : Type} (Inv : S -> Prop) (Post : R -> Prop)
    (body : S -> S + R) :
  (forall s s', Inv s -> body s = inl s' -> Inv s') ->
  (forall s r, Inv s -> body s = inr r -> Post r) ->
  forall bound s, Inv s ->
    match loop_rounds bound body s with
    | inl s' => Inv s'
    | inr r => Post r
    end.
Proof.
  intros Hstep Hexit bound.
  induction bound as [b IH|b IH|]; intros s Hs; simpl.
  - destruct (body s) as [s1|r] eqn:E1; [|eauto].
    pose proof (IH s1 (Hstep _ _ Hs E1)) as H1.
    destruct (loop_rounds b body s1) as [s2|r]; [apply IH, H1|exact H1].
  - pose proof (IH s Hs) as H1.
    destruct (loop_rounds b body s) as [s1|r]; [apply IH, H1|exact H1].
  - destruct (body s) as [s1|r] eqn:E1; eauto.
Qed.

Lemma go_loop_invariant {S R : Type} (Inv : S -> Prop) (Post : R -> Prop)
    (body : S -> S + R) (bound : positive) (s : S) (r : R) :
  (forall s s', Inv s -> body s = inl s' -> Inv s') ->
  (forall s r, Inv s -> body s = inr r -> Post r) ->
  Inv s -> go_loop bound body s = Ret r -> Post r.
Proof.
  intros Hstep Hexit Hs Hrun. unfold go_loop in Hrun.
  pose proof (loop_rounds_invariant Inv Post body Hstep Hexit bound s Hs) as Hinv.
  destruct (loop_rounds bound body s); [discriminate|]. injection Hrun as <-. exact Hinv.
Qed.

(** A loop whose every round lowers a measure leaves within as many
    rounds as the measure allows. *)
Lemma loop_rounds_measure {S R : Type} (m : S -> nat) (body : S -> S + R) :
  (forall s s', body s = inl s' -> (m s' < m s)%nat) ->
  forall bound s,
    match loop_rounds bound body s with
    | inl s' => (m s' + Pos.to_nat bound <= m s)%nat
    | inr _ => True
    end.
Proof.
  intros Hdec bound.
  induction bound as [b IH|b IH|]; intros s; simpl.
  - destruct (body s) as [s1|r] eqn:E1; [|exact I].
    pose proof (Hdec _ _ E1) as H0. pose proof (IH s1) as H1.
    destruct (loop_rounds b body s1) as [s2|r]; [|exact I].
    pose proof (IH s2) as H2.
    destruct (loop_rounds b body s2) as [s3|r]; [|exact I].
    rewrite Pos2Nat.inj_xI. lia.
  - pose proof (IH s) as H1.
    destruct (loop_rounds b body s) as [s1|r]; [|exact I].
    pose proof (IH s1) as H2.
    destruct (loop_rounds b body s1) as [s2|r]; [|exact I].
    rewrite Pos2Nat.inj_xO. lia.
  - destruct (body s) as [s1|r] eqn:E1; [|exact I].
    pose proof (Hdec _ _ E1). change (Pos.to_nat 1) with 1%nat. lia.
Qed.

Lemma go_loop_returns {S R : Type} (m : S -> nat) (body : S -> S + R) (bound : positive) (s : S) :
  (forall s s', body s = inl s' -> (m s' < m s)%nat) ->
  (m s < Pos.to_nat bound)%nat ->
  exists r, go_loop bound body s = Ret r.
Proof.
  intros Hdec Hm. unfold go_loop.
  pose proof (loop_rounds_measure m body Hdec bound s) as Hrun.
  destruct (loop_rounds bound body s) as [s'|r]; [lia|]. exists r. reflexivity.
Qed.

Lemma alignUp_ge (n step : Z) : 0 < step -> n <= alignUp n step.
Proof.
  intros Hstep. unfold alignUp.
  destruct (Z.eqb_spec step 0) as [Hz|_]; [lia|].
  pose proof (Z.quot_rem' n step) as Hqr.
  pose proof (Z.rem_bound_abs n step ltac:(lia)) as Hr.
  destruct (Z.eqb_spec (Z.rem n step) 0) as [H0|_]; nia.
Qed.

Lemma skipUsed_length (cur : Z) (rest : list bigRange) :
  (length (skipUsed cur rest) <= length rest)%nat.
Proof.
  induction rest as [|r rest IH]; simpl; [lia|].
  destruct (b_end r <? cur); simpl; lia.
Qed.

(** The IPv6 sweep always returns: each round that goes on has passed one
    more used range. *)
Lemma allocateInPoolIPv6_returns (L : GoLib) (pool : Prefix) (want : Z) (used : list Prefix) :
  allocateInPoolIPv6 pool want used <> Diverge.
Proof.
  unfold allocateInPoolIPv6.
  destruct (negb (Is6 (PAddr pool))); [discriminate|].
  destruct (want <? Bits (Masked pool)); [discriminate|].
  destruct (Z.ltb_spec 128 want) as [_|Hwant]; [discriminate|].
  set (step := Z.shiftl 1 (128 - want)).
  assert (Hstep : 0 < step).
  { unfold step. rewrite Z.shiftl_1_l. apply Z.pow_pos_nonneg; lia. }
  match goal with
  | |- go_loop ?bound ?body ?s <> Diverge =>
      destruct (go_loop_returns (fun st => length (skipUsed (fst st) (snd st))) body bound s)
        as (r & ->); [| |discriminate]
  end.
  - intros [cur rest] [cur' rest'] Hbody. simpl in *.
    destruct (_ <? cur + step - 1); [discriminate|].
    destruct (skipUsed cur rest) as [|r tl] eqn:Hskip; [discriminate|].
    destruct (cur + step - 1 <? b_start r); [discriminate|].
    injection Hbody as <- <-. simpl.
    pose proof (alignUp_ge (b_end r + 1) step Hstep) as Hge.
    destruct (Z.ltb_spec (b_end r) (alignUp (b_end r + 1) step)) as [_|Hle]; [|lia].
    pose proof (skipUsed_length (alignUp (b_end r + 1) step) tl). lia.
  - cbn [fst snd]. rewrite SuccNat2Pos.id_succ.
    pose proof (skipUsed_length (alignUp (addrToBig (PAddr (Masked pool))) step)
                  (buildUsedRangesBig (Masked pool) used)). lia.
Qed.

(** ** Used and free ranges over big integers *)

Lemma prefixSize_pos (p : Prefix) : 1 <= prefixSize p.
Proof.
  unfold prefixSize. destruct (Z.leb_spec (addrBitLen (PAddr p) - Bits p) 0) as [_|Hpos]; [lia|].
  rewrite Z.shiftl_1_l. apply (Z.pow_le_mono_r 2 0); lia.
Qed.

Lemma usedBig_collect_inside (lo hi : Z) (used : list Prefix) :
  lo <= hi -> Forall (inside lo hi) (usedBig_collect lo hi used).
Proof.
  intros Hpool. induction used as [|p used IH]; cbn [usedBig_collect]; [constructor|].
  cbv zeta.
  pose proof (prefixSize_pos (Masked p)) as Hsize.
  set (start := addrToBig (PAddr (Masked p))) in *.
  set (size := prefixSize (Masked p)) in *.
  destruct (Z.ltb_spec (start + size - 1) lo) as [_|H1]; [exact IH|].
  destruct (Z.ltb_spec hi start) as [_|H2]; [exact IH|].
  cbn [orb]. constructor; [|exact IH].
  unfold inside. cbn [b_start b_end].
  destruct (Z.ltb_spec start lo); destruct (Z.ltb_spec hi (start + size - 1)); lia.
Qed.

Lemma apart_trans (a b c : bigRange) : apart a b -> apart b c -> apart a c.
Proof. unfold apart. lia. Qed.

(** Merging a list sorted by start: the result begins where [last]
    begins, stays inside the bounds, and its consecutive ranges are
    apart. *)
Lemma mergeBig_from_spec (lo hi : Z) (rest : list bigRange) (last : bigRange) :
  inside lo hi last ->
  Forall (inside lo hi) rest ->
  Forall (fun r => b_start last <= b_start r) rest ->
  StronglySorted (fun a b => b_start a <= b_start b) rest ->
  exists x tl,
    mergeBig_from last rest = x :: tl
    /\ b_start x = b_start last
    /\ Forall (inside lo hi) (x :: tl)
    /\ Sorted apart (x :: tl).
Proof.
  revert last. induction rest as [|r rest IH]; intros last Hlast Hin Hge Hsorted; simpl.
  - exists last, []. split; [reflexivity|]. split; [reflexivity|].
    split; [constructor; [exact Hlast|constructor]|]. constructor; constructor.
  - apply Forall_cons in Hin as [Hr Hin]. apply Forall_cons in Hge as [Hlr Hge].
    apply StronglySorted_inv in Hsorted as [Hsorted Hrest].
    destruct (Z.leb_spec (b_start r) (b_end last + 1)) as [Hmerge|Hgap].
    + set (last' := if b_end last <? b_end r then mkBig (b_start last) (b_end r) else last).
      assert (Hstart : b_start last' = b_start last)
        by (unfold last'; destruct (b_end last <? b_end r); reflexivity).
      destruct (IH last') as (x & tl & Hout & Hx & Hins & Hap).
      * unfold last', inside in *. destruct (Z.ltb_spec (b_end last) (b_end r)); simpl; lia.
      * exact Hin.
      * rewrite Hstart. exact Hge.
      * exact Hsorted.
      * exists x, tl. rewrite Hx, Hstart. auto.
    + destruct (IH r Hr Hin Hrest Hsorted) as (x & tl & Hout & Hx & Hins & Hap).
      exists last, (x :: tl). rewrite Hout. repeat split.
      * constructor; [exact Hlast|exact Hins].
      * constructor; [exact Hap|]. constructor.
        apply Forall_cons in Hins as [Hxin _].
        unfold apart, inside in *. lia.
Qed.

(** For the big-integer builder the invariant of the used-range list
    holds, whatever order [sort.Slice] leaves ranges with equal starts in:
    every range lies inside the span the code computes for the pool, and
    the ranges are in increasing order, each at least one address after
    the one before. *)
Theorem buildUsedRangesBig_sorted_apart_inside (L : GoLib) (pool : Prefix) (used : list Prefix) :
  sorts_by_start (sort_Slice (fun a b => b_start a <? b_start b)) ->
  let lo := addrToBig (PAddr pool) in
  let hi := lo + prefixSize pool - 1 in
  Forall (inside lo hi) (buildUsedRangesBig pool used)
  /\ StronglySorted apart (buildUsedRangesBig pool used).
Proof.
  intros Hsort lo hi. unfold buildUsedRangesBig. fold lo. fold hi.
  destruct (Z.of_nat (length used) =? 0); [split; constructor|].
  pose proof (prefixSize_pos pool) as Hsize.
  destruct (Hsort (usedBig_collect lo hi used)) as [Hperm Hsorted].
  assert (Hin : Forall (inside lo hi)
                  (sort_Slice (fun a b => b_start a <? b_start b) (usedBig_collect lo hi used))).
  { eapply Permutation_Forall; [exact Hperm|]. apply usedBig_collect_inside. unfold hi. lia. }
  destruct (sort_Slice _ _) as [|r0 rest]; [split; constructor|]. simpl.
  apply Forall_cons in Hin as [Hr0 Hin].
  apply StronglySorted_inv in Hsorted as [Hsorted Hge].
  destruct (mergeBig_from_spec lo hi rest r0 Hr0 Hin Hge Hsorted)
    as (x & tl & -> & _ & Hins & Hap).
  split; [exact Hins|].
  apply Sorted_StronglySorted; [|exact Hap].
  intros a b c. apply apart_trans.
Qed.

Lemma sumBigRanges_acc (ranges : list bigRange) (acc : Z) :
  foldl (fun out r => out + (b_end r - b_start r + 1)) acc ranges
  = acc + sumBigRanges ranges.
Proof.
  unfold sumBigRanges. revert acc.
  induction ranges as [|r ranges IH]; intros acc; simpl; [lia|].
  rewrite IH, (IH (0 + _)). lia.
Qed.

Lemma sumBigRanges_cons (r : bigRange) (ranges : list bigRange) :
  sumBigRanges (r :: ranges) = (b_end r - b_start r + 1) + sumBigRanges ranges.
Proof. unfold sumBigRanges at 1. simpl. rewrite sumBigRanges_acc. lia. Qed.

Lemma sumBigRanges_app (l1 l2 : list bigRange) :
  sumBigRanges (l1 ++ l2) = sumBigRanges l1 + sumBigRanges l2.
Proof.
  induction l1 as [|r l1 IH]; simpl; [reflexivity|].
  rewrite !sumBigRanges_cons, IH. lia.
Qed.

(** The loop of [freeRangesBig] on a merged list: gaps and used ranges
    together cover exactly what the cursor has passed. *)
Lemma freeRangesBig_loop_spec (hi : Z) (used : list bigRange) (cur : Z)
    (gaps : list bigRange) (cur' : Z) :
  StronglySorted apart used ->
  Forall (fun r => cur <= b_start r /\ b_start r <= b_end r /\ b_end r <= hi) used ->
  cur <= hi + 1 ->
  freeRangesBig_loop hi cur used = (gaps, cur') ->
  sumBigRanges gaps + sumBigRanges used = cur' - cur /\ cur <= cur' <= hi + 1.
Proof.
  revert cur gaps cur'. induction used as [|r used IH]; intros cur gaps cur' Hap Hin Hcur Hrun.
  - simpl in Hrun. injection Hrun as <- <-. unfold sumBigRanges. simpl. lia.
  - apply StronglySorted_inv in Hap as [Hap Hr]. apply Forall_cons in Hin as [Hrin Hin].
    cbn [freeRangesBig_loop] in Hrun. cbv zeta in Hrun.
    assert (Hgap : sumBigRanges (if cur <? b_start r then [mkBig cur (b_start r - 1)] else [])
                   = b_start r - cur).
    { destruct (Z.ltb_spec cur (b_start r)); unfold sumBigRanges; simpl; lia. }
    destruct (Z.ltb_spec cur (b_end r + 1)) as [_|Hno]; [|lia].
    destruct (Z.ltb_spec hi (b_end r + 1)) as [Hend|Hmore].
    + injection Hrun as <- <-.
      assert (Hlast : used = []).
      { destruct used as [|r' used']; [reflexivity|]. exfalso.
        apply Forall_cons in Hr as [Hrr' _]. apply Forall_cons in Hin as [Hr'in _].
        unfold apart in Hrr'. lia. }
      subst used. rewrite Hgap, sumBigRanges_cons. unfold sumBigRanges. simpl. lia.
    + destruct (freeRangesBig_loop hi (b_end r + 1) used) as [gaps' cur''] eqn:Hrest.
      injection Hrun as <- <-.
      destruct (IH (b_end r + 1) gaps' cur'' Hap) as [Hsum Hle]; [|lia|exact Hrest|].
      * rewrite List.Forall_forall in Hr, Hin |- *. intros r' Hr'.
        specialize (Hr r' Hr'). specialize (Hin r' Hr'). unfold apart in Hr. lia.
      * rewrite sumBigRanges_app, Hgap, sumBigRanges_cons. lia.
Qed.

(** For the big-integer ranges capacity is conserved: over a merged used
    list that lies inside the pool, used and free sizes add up to the
    size of the pool. *)
Theorem freeRangesBig_conserves (pool : Prefix) (used : list bigRange) :
  let lo := addrToBig (PAddr (Masked pool)) in
  let hi := lo + prefixSize (Masked pool) - 1 in
  StronglySorted apart used ->
  Forall (inside lo hi) used ->
  sumBigRanges used + sumBigRanges (freeRangesBig pool used) = prefixSize (Masked pool).
Proof.
  intros lo hi Hap Hin. unfold freeRangesBig. fold lo. fold hi.
  pose proof (prefixSize_pos (Masked pool)) as Hsize.
  destruct used as [|r used]; [unfold sumBigRanges; simpl; unfold hi; lia|].
  cbn [length]. rewrite Nat2Z.inj_succ.
  destruct (Z.eqb_spec (Z.succ (Z.of_nat (length used))) 0) as [Hz|_]; [lia|].
  destruct (freeRangesBig_loop hi lo (r :: used)) as [gaps cur] eqn:Hloop.
  destruct (freeRangesBig_loop_spec hi (r :: used) lo gaps cur Hap) as [Hsum Hle];
    [|unfold hi; lia|exact Hloop|].
  - eapply List.Forall_impl; [|exact Hin]. unfold inside. intros; lia.
  - destruct (Z.leb_spec cur hi) as [Hfree|Hfull].
    + rewrite sumBigRanges_app. unfold sumBigRanges at 3. simpl. unfold hi in *. lia.
    + unfold hi in *. lia.
Qed.

(** Insertion sort by a key does what [sort.Slice] promises, so the
    assumption on the library's sort can be met. *)
Section SortFacts.
Context {A : Type} (k : A -> Z).

Lemma insert_sorted_perm (x : A) (l : list A) :
  Permutation (x :: l) (insert_sorted (fun a b => k a <? k b) x l).
Proof.
  induction l as [|y l IH]; simpl; [reflexivity|].
  destruct (k y <? k x); [|reflexivity].
  rewrite perm_swap. apply perm_skip, IH.
Qed.

Lemma insert_sorted_sorted (x : A) (l : list A) :
  StronglySorted (fun a b => k a <= k b) l ->
  StronglySorted (fun a b => k a <= k b) (insert_sorted (fun a b => k a <? k b) x l).
Proof.
  induction l as [|y l IH]; intros Hl; simpl.
  - repeat constructor.
  - apply StronglySorted_inv in Hl as [Hl Hy].
    destruct (Z.ltb_spec (k y) (k x)) as [Hlt|Hge].
    + constructor; [apply IH, Hl|].
      eapply Permutation_Forall; [apply insert_sorted_perm|].
      constructor; [lia|exact Hy].
    + constructor; [constructor; assumption|].
      constructor; [exact Hge|].
      eapply List.Forall_impl; [|exact Hy]. intros b Hb. simpl in Hb. lia.
Qed.

Lemma sort_SliceStable_by_key (l : list A) :
  Permutation l (sort_SliceStable (fun a b => k a <? k b) l)
  /\ StronglySorted (fun a b => k a <= k b) (sort_SliceStable (fun a b => k a <? k b) l).
Proof.
  unfold sort_SliceStable. induction l as [|x l [IHp IHs]]; simpl.
  - split; constructor.
  - split.
    + rewrite <- insert_sorted_perm. apply perm_skip, IHp.
    + apply insert_sorted_sorted, IHs.
Qed.

End SortFacts.

Lemma demo_sorts_by_start :
  sorts_by_start (sort_Slice (GoLib := Demo.golib_fwd) (fun a b => b_start a <? b_start b)).
Proof. intros l. apply (sort_SliceStable_by_key b_start). Qed.

(** Big-integer capacity conservation end to end, on a masked IPv6 pool
    and the concrete library: used and free add up to the pool. *)
Example big_ranges_conserve_2001_db8 :
  let pool := PrefixFrom (Addr6 (0x20010db8 * 2 ^ 96)) 32 in
  let used := buildUsedRangesBig (L := Demo.golib_fwd) pool
                [ PrefixFrom (Addr6 (0x20010db8 * 2 ^ 96)) 48;
                  PrefixFrom (Addr6 (0x20010db8 * 2 ^ 96 + 2 * 2 ^ 80)) 47;
                  PrefixFrom (Addr6 (0x20010db8 * 2 ^ 96 + 3 * 2 ^ 80)) 48 ] in
  Masked pool = pool
  /\ sumBigRanges used + sumBigRanges (freeRangesBig pool used) = prefixSize pool.
Proof.
  intros pool used.
  assert (Hmasked : Masked pool = pool) by (vm_compute; reflexivity).
  split; [exact Hmasked|].
  destruct (buildUsedRangesBig_sorted_apart_inside Demo.golib_fwd pool
              [ PrefixFrom (Addr6 (0x20010db8 * 2 ^ 96)) 48;
                PrefixFrom (Addr6 (0x20010db8 * 2 ^ 96 + 2 * 2 ^ 80)) 47;
                PrefixFrom (Addr6 (0x20010db8 * 2 ^ 96 + 3 * 2 ^ 80)) 48 ]
              demo_sorts_by_start) as [Hin Hap].
  fold used in Hin, Hap.
  pose proof (freeRangesBig_conserves pool used) as Hcons.
  rewrite Hmasked in Hcons. apply Hcons; assumption.
Qed.

(** ** Planning: locked segments when the site has pools *)

Section PlanFacts.
Context {L : GoLib}.

Lemma allocateSpillover_from_keys items segs alloc cf used rules family strict alloc' cf' id q :
  allocateSpillover_from items segs alloc cf used rules family strict = Ret (alloc', cf') ->
  alloc' !! id = Some q -> alloc !! id = Some q \/ In id (map ID segs).
Proof.
  revert alloc cf used. induction segs as [|s segs IH]; intros alloc cf used Hrun Hid;
    simpl in Hrun.
  - injection Hrun as <- <-. left. exact Hid.
  - destruct (desiredPrefixByFamily s family =? 0).
    + destruct (IH _ _ _ Hrun Hid) as [Hold|Hin]; [left; exact Hold|right; right; exact Hin].
    + apply bind_Ret in Hrun as ([p|] & _ & Hrest).
      * destruct (IH _ _ _ Hrest Hid) as [Hold|Hin]; [|right; right; exact Hin].
        destruct (decide (ID s = id)) as [Heq|Hne]; [right; left; exact Heq|].
        left. rewrite lookup_insert_ne in Hold by exact Hne. exact Hold.
      * destruct strict.
        -- injection Hrest as <- <-. left. exact Hid.
        -- destruct (IH _ _ _ Hrest Hid) as [Hold|Hin]; [left; exact Hold|right; right; exact Hin].
Qed.

Lemma contiguous_pool_keys pool pending alloc used next rules family alloc' used' next' :
  contiguous_pool pool pending alloc used next rules family = Ret (alloc', used', next') ->
  (forall id q, alloc' !! id = Some q -> alloc !! id = Some q \/ In id (map ID pending))
  /\ (forall s, In s next' -> In s next \/ In s pending).
Proof.
  revert alloc used next. induction pending as [|s pending IH]; intros alloc used next Hrun;
    simpl in Hrun.
  - injection Hrun as <- <- <-. split; auto.
  - assert (Hskip : forall alloc0 used0 next0,
               contiguous_pool pool pending alloc0 used0 next0 rules family
               = Ret (alloc', used', next') ->
               (forall id q, alloc' !! id = Some q ->
                             alloc0 !! id = Some q \/ In id (map ID (s :: pending)))
               /\ (forall s', In s' next' -> In s' next0 \/ In s' (s :: pending))).
    { intros alloc0 used0 next0 Hrest. destruct (IH _ _ _ Hrest) as [Hk Hn]. split.
      - intros id q Hid. destruct (Hk id q Hid); [left|right; right]; assumption.
      - intros s' Hs'. destruct (Hn s' Hs'); [left|right; right]; assumption. }
    assert (Hnext : forall alloc0 used0,
               contiguous_pool pool pending alloc0 used0 (next ++ [s]) rules family
               = Ret (alloc', used', next') ->
               (forall id q, alloc' !! id = Some q ->
                             alloc0 !! id = Some q \/ In id (map ID (s :: pending)))
               /\ (forall s', In s' next' -> In s' next \/ In s' (s :: pending))).
    { intros alloc0 used0 Hrest. destruct (Hskip _ _ _ Hrest) as [Hk Hn]. split; [exact Hk|].
      intros s' Hs'. destruct (Hn s' Hs') as [Hin|Hin]; [|right; exact Hin].
      apply in_app_or in Hin as [Hin|[<-|[]]]; [left; exact Hin|right; left; reflexivity]. }
    destruct (desiredPrefixByFamily s family =? 0); [apply (Hskip _ _ _ Hrun)|].
    destruct (_ && _); [apply (Hnext _ _ Hrun)|].
    apply bind_Ret in Hrun as ([p|] & _ & Hrest); [|apply (Hnext _ _ Hrest)].
    destruct (Hskip _ _ _ Hrest) as [Hk Hn]. split; [|exact Hn].
    intros id q Hid. destruct (Hk id q Hid) as [Hold|Hin]; [|right; exact Hin].
    destruct (decide (ID s = id)) as [Heq|Hne]; [right; left; exact Heq|].
    left. rewrite lookup_insert_ne in Hold by exact Hne. exact Hold.
Qed.

Lemma contiguous_pools_keys items pending alloc used rules family alloc' pending' id q :
  contiguous_pools items pending alloc used rules family = Ret (alloc', pending') ->
  alloc' !! id = Some q -> alloc !! id = Some q \/ In id (map ID pending).
Proof.
  revert pending alloc used. induction items as [|pool items IH]; intros pending alloc used Hrun Hid;
    simpl in Hrun.
  - injection Hrun as <- <-. left. exact Hid.
  - destruct (Z.of_nat (length pending) =? 0); [injection Hrun as <- <-; left; exact Hid|].
    apply bind_Ret in Hrun as ([[alloc1 used1] next1] & Hpool & Hrest).
    destruct (contiguous_pool_keys _ _ _ _ _ _ _ _ _ _ Hpool) as [Hk Hn].
    destruct (IH _ _ _ Hrest Hid) as [Hold|Hin]; [apply (Hk id q Hold)|].
    right. apply in_map_iff in Hin as (s & <- & Hs).
    destruct (Hn s Hs) as [[]|Hp]. apply in_map, Hp.
Qed.

Lemma runStrategy_keys items candidates used rules family strict alloc cf id q :
  runStrategy items candidates used rules family strict = Ret (alloc, cf) ->
  alloc !! id = Some q -> In id (map ID candidates).
Proof.
  unfold runStrategy, allocateContiguous, allocateSpillover. intros Hrun Hid.
  assert (Hspill : allocateSpillover_from items candidates ∅ [] used rules family strict
                   = Ret (alloc, cf) -> In id (map ID candidates)).
  { intros Hs. destruct (allocateSpillover_from_keys _ _ _ _ _ _ _ _ _ _ _ _ Hs Hid) as [He|Hin];
      [rewrite lookup_empty in He; discriminate|exact Hin]. }
  destruct (String.eqb _ PoolStrategyContig).
  - apply bind_Ret in Hrun as ([alloc0 pending] & Hpools & Hret). injection Hret as <- <-.
    destruct (contiguous_pools_keys _ _ _ _ _ _ _ _ _ _ Hpools Hid) as [He|Hin];
      [rewrite lookup_empty in He; discriminate|exact Hin].
  - destruct (String.eqb _ PoolStrategyTiered); apply Hspill, Hrun.
Qed.

Lemma planLocked_other segs family used plan cf used' plan' cf' id :
  planLocked segs family used plan cf = (used', plan', cf') ->
  ~ In id (map ID segs) -> plan' !! id = plan !! id.
Proof.
  revert used plan cf. induction segs as [|s segs IH]; intros used plan cf Hrun Hid;
    simpl in Hrun.
  - injection Hrun as <- <- <-. reflexivity.
  - assert (Hrest : ~ In id (map ID segs)) by (intros Hin; apply Hid; right; exact Hin).
    destruct (negb (Locked s)); [eauto|].
    destruct (segmentCIDRByFamily s family) as [cidr|]; [|eauto].
    destruct (ParsePrefix cidr) as [p|]; [|eauto].
    rewrite (IH _ _ _ Hrun Hrest). apply lookup_insert_ne.
    intros Heq. apply Hid. left. exact Heq.
Qed.

Lemma planLocked_lookup segs family used plan cf used' plan' cf' s cidr p :
  planLocked segs family used plan cf = (used', plan', cf') ->
  NoDup (map ID segs) -> In s segs -> Locked s = true ->
  segmentCIDRByFamily s family = Some cidr -> ParsePrefix cidr = Some p ->
  plan' !! ID s = Some p.
Proof.
  intros Hrun Hnd Hin Hlocked Hcidr Hparse.
  revert used plan cf Hrun. induction segs as [|s0 segs IH]; intros used plan cf Hrun;
    [destruct Hin|].
  simpl in Hnd. apply NoDup_cons in Hnd as [Hs0 Hnd]. simpl in Hrun.
  destruct Hin as [->|Hin].
  - rewrite Hlocked, Hcidr, Hparse in Hrun. simpl in Hrun.
    rewrite (planLocked_other _ _ _ _ _ _ _ _ _ Hrun); [apply lookup_insert_eq|].
    intros Hin. apply Hs0, list_elem_of_In, Hin.
  - destruct (negb (Locked s0)); [eauto|].
    destruct (segmentCIDRByFamily s0 family) as [cidr0|]; [|eauto].
    destruct (ParsePrefix cidr0) as [p0|]; eauto.
Qed.

Lemma planCandidates_in segs family candidates cf candidates' cf' c :
  planCandidates segs family candidates cf = (candidates', cf') ->
  In c candidates' -> In c candidates \/ (In c segs /\ Locked c = false).
Proof.
  revert candidates cf. induction segs as [|s segs IH]; intros candidates cf Hrun Hc;
    simpl in Hrun.
  - injection Hrun as <- <-. left. exact Hc.
  - destruct (Locked s) eqn:Hlocked.
    + destruct (IH _ _ Hrun Hc) as [Hold|[Hin Hl]]; [left; exact Hold|right; split; [right|]; assumption].
    + destruct (desiredPrefixByFamily s family =? 0).
      * destruct (IH _ _ Hrun Hc) as [Hold|[Hin Hl]];
          [left; exact Hold|right; split; [right|]; assumption].
      * destruct (IH _ _ Hrun Hc) as [Hold|[Hin Hl]]; [|right; split; [right|]; assumption].
        apply in_app_or in Hold as [Hold|[<-|[]]]; [left; exact Hold|].
        right. split; [left; reflexivity|exact Hlocked].
Qed.

Lemma mergePlan_other plan entries id :
  ~ In id (map fst entries) -> mergePlan plan entries !! id = plan !! id.
Proof.
  unfold mergePlan. revert plan. induction entries as [|[k v] entries IH]; intros plan Hid;
    simpl; [reflexivity|].
  rewrite IH by (intros Hin; apply Hid; right; exact Hin).
  apply lookup_insert_ne. intros Heq. apply Hid. left. exact Heq.
Qed.

(** X1: with at least one pool of the family, unique segment ids and a
    [range] that visits each map entry, the plan that [planAllocateFamily]
    returns maps every locked segment whose CIDR parses to that prefix,
    and [applyPlan] writes the prefix's text back. *)
Theorem planAllocateFamily_keeps_locked segs pools reserved rules family plan cf s cidr p :
  poolItemsForFamily pools family <> [] ->
  NoDup (map ID segs) ->
  (forall entries : list (Z * Prefix), Permutation entries (range_order entries)) ->
  In s segs -> Locked s = true ->
  segmentCIDRByFamily s family = Some cidr -> ParsePrefix cidr = Some p ->
  planAllocateFamily segs pools reserved rules family = Ret (plan, cf) ->
  plan !! ID s = Some p
  /\ (forall planV6, CIDR (applyPlan_one plan planV6 s) = Some (PrefixString p))
  /\ (forall planV4, CIDRV6 (applyPlan_one planV4 plan s) = Some (PrefixString p)).
Proof.
  intros Hitems Hnd Hrange Hin Hlocked Hcidr Hparse Hrun.
  assert (Hplan : plan !! ID s = Some p).
  { unfold planAllocateFamily in Hrun.
    destruct (poolItemsForFamily pools family) as [|item items]; [congruence|].
    cbn [length] in Hrun. rewrite Nat2Z.inj_succ in Hrun.
    destruct (Z.eqb_spec (Z.succ (Z.of_nat (length items))) 0) as [Hz|_]; [lia|].
    destruct (planLocked segs family [] ∅ []) as [[used0 plan0] cf0] eqn:Hlock.
    destruct (planCandidates segs family [] cf0) as [candidates cf1] eqn:Hcand.
    apply bind_Ret in Hrun as ([alloc cfs] & Hstrategy & Hret). injection Hret as <- <-.
    rewrite mergePlan_other.
    - eapply planLocked_lookup; eauto.
    - intros Hkey. apply in_map_iff in Hkey as ([id q] & Hid & Hentry). simpl in Hid. subst id.
      apply (Permutation_in _ (Permutation_sym (Hrange _))) in Hentry.
      apply list_elem_of_In, elem_of_map_to_list in Hentry.
      apply (runStrategy_keys _ _ _ _ _ _ _ _ _ _ Hstrategy) in Hentry.
      apply in_map_iff in Hentry as (c & Hc & Hsorted).
      apply (Permutation_in _ (Permutation_sym
               (proj1 (sort_SliceStable_by_key (fun s => desiredPrefixByFamily s family) _))))
        in Hsorted.
      destruct (planCandidates_in _ _ _ _ _ _ _ Hcand Hsorted) as [[]|[Hcin Hunlocked]].
      assert (c = s) by (apply (NoDup_ID_inj segs); assumption).
      subst c. congruence. }
  split; [exact Hplan|].
  split; intros other; simpl; rewrite Hplan; reflexivity.
Qed.

End PlanFacts.

(** ** The order of the analyzer's stages *)

Section PhaseFacts.
Context {L : GoLib}.

Lemma foldl_appends {X Y : Type} (proj : X -> list Conflict) (K : Conflict -> Prop)
    (f : X -> Y -> X) :
  (forall x y, exists new, proj (f x y) = proj x ++ new /\ Forall K new) ->
  forall l x, exists new, proj (foldl f x l) = proj x ++ new /\ Forall K new.
Proof.
  intros Hf l. induction l as [|y l IH]; intros x; simpl.
  - exists []. rewrite app_nil_r. split; [reflexivity|constructor].
  - destruct (Hf x y) as (new1 & H1 & K1). destruct (IH (f x y)) as (new2 & H2 & K2).
    exists (new1 ++ new2). rewrite H2, H1, app_assoc. split; [reflexivity|].
    apply Forall_app. split; assumption.
Qed.

Lemma appends_nil (K : Conflict -> Prop) (cf : list Conflict) :
  exists new, cf = cf ++ new /\ Forall K new.
Proof. exists []. rewrite app_nil_r. split; [reflexivity|constructor]. Qed.

Lemma appends_one (K : Conflict -> Prop) (cf : list Conflict) (c : Conflict) :
  K c -> exists new, cf ++ [c] = cf ++ new /\ Forall K new.
Proof. intros Hc. exists [c]. split; [reflexivity|]. constructor; [exact Hc|constructor]. Qed.

Lemma appends_trans (K : Conflict -> Prop) (cf cf1 cf2 : list Conflict) :
  (exists new, cf1 = cf ++ new /\ Forall K new) ->
  (exists new, cf2 = cf1 ++ new /\ Forall K new) ->
  exists new, cf2 = cf ++ new /\ Forall K new.
Proof.
  intros (n1 & -> & K1) (n2 & -> & K2). exists (n1 ++ n2). rewrite app_assoc.
  split; [reflexivity|]. apply Forall_app. split; assumption.
Qed.

Lemma reservedPart_appends s acc part :
  exists new, snd (reservedPart s acc part) = snd acc ++ new
              /\ Forall (kindIn ["RESERVED_PARSE"%string]) new.
Proof.
  unfold reservedPart. destruct acc as [[outV4 outV6] cf]. simpl.
  destruct (isEmpty (TrimSpace part)); [apply appends_nil|].
  destruct (ParsePrefix (TrimSpace part)) as [prefix|].
  - destruct (Is4 (PAddr prefix)); [apply appends_nil|].
    destruct (Is6 (PAddr prefix)); apply appends_nil.
  - apply appends_one. left. reflexivity.
Qed.

Lemma buildReservedIndex_kinds sites :
  Forall (kindIn ["RESERVED_PARSE"%string]) (snd (buildReservedIndex sites)).
Proof.
  unfold buildReservedIndex.
  destruct (foldl_appends snd (kindIn ["RESERVED_PARSE"%string])
              (fun acc s =>
                 match ReservedRanges s with
                 | None => acc
                 | Some ranges =>
                     if isEmpty (TrimSpace ranges) then acc
                     else foldl (reservedPart s) acc (Split (TrimSpace ranges) ","%char)
                 end)) with (l := sites) (x := (∅ : gmap Z (list Prefix), ∅ : gmap Z (list Prefix),
                                                 [] : list Conflict))
    as (new & Hnew & Hk).
  - intros acc s. destruct (ReservedRanges s) as [ranges|]; [|apply appends_nil].
    destruct (isEmpty (TrimSpace ranges)); [apply appends_nil|].
    apply foldl_appends. intros acc' part. apply reservedPart_appends.
  - rewrite Hnew. exact Hk.
Qed.

Lemma checkParsed_appends t s p pools ranges rules st cf :
  t = textsV4 \/ t = textsV6 ->
  exists new, snd (checkParsed t s p pools ranges rules st cf) = cf ++ new
              /\ Forall (kindIn segmentKinds) new.
Proof.
  intros Ht. unfold checkParsed.
  assert (Hout : kindIn segmentKinds
                   {| Kind := t_outKind t;
                      Detail := "segment " +:+ Name s +:+ " site=" +:+ Site_ s +:+ t_cidr t
                                +:+ PrefixString p +:+ t_outside t +:+ joinPrefixes pools;
                      Level := Label (if RequireInPool rules then statusConflict
                                      else statusWarning) |})
    by (destruct Ht as [-> | ->]; unfold kindIn, segmentKinds; simpl; tauto).
  assert (Hres : forall r,
             kindIn segmentKinds
               {| Kind := t_resKind t;
                  Detail := "segment " +:+ Name s +:+ " site=" +:+ Site_ s +:+ t_cidr t
                            +:+ PrefixString p +:+ " overlaps reserved " +:+ PrefixString r;
                  Level := Label (if negb (AllowReservedOverlap rules) then statusConflict
                                  else statusWarning) |})
    by (intros r; destruct Ht as [-> | ->]; unfold kindIn, segmentKinds; simpl; tauto).
  destruct (Z.of_nat (length pools) =? 0); [|destruct (negb (prefixInAnyPool p pools))];
    destruct (firstReservedOverlap ranges p) as [r|]; simpl;
    try apply appends_nil; try (apply appends_one; auto).
  eapply appends_trans; [apply appends_one, Hout|apply appends_one, Hres].
Qed.

Lemma checkSegment_appends poolsV4 poolsV6 reservedV4 reservedV6 rules a s :
  exists new,
    conflicts (checkSegment poolsV4 poolsV6 reservedV4 reservedV6 rules a s)
    = conflicts a ++ new /\ Forall (kindIn segmentKinds) new.
Proof.
  unfold checkSegment.
  set (st1 := if negb (Valid (Prefix_ s)) && negb (Valid (Hosts s)) then _ else _).
  set (st2 := if Valid (PrefixV6 s) && negb (Valid (CIDRV6 s)) then _ else _).
  assert (H4 : forall cidr, kindIn segmentKinds
                 {| Kind := "CIDR_PARSE";
                    Detail := "segment " +:+ Name s +:+ " site=" +:+ Site_ s +:+ " cidr="
                              +:+ cidr +:+ " parse error";
                    Level := Label statusConflict |})
    by (intros; unfold kindIn, segmentKinds; simpl; tauto).
  assert (H6 : forall cidr, kindIn segmentKinds
                 {| Kind := "CIDR6_PARSE";
                    Detail := "segment " +:+ Name s +:+ " site=" +:+ Site_ s +:+ " cidr_v6="
                              +:+ cidr +:+ " parse error";
                    Level := Label statusConflict |})
    by (intros; unfold kindIn, segmentKinds; simpl; tauto).
  assert (Hv6 : forall st cf, exists new,
             conflicts
               (let '(st', cf', byID6, ok6) :=
                  match CIDRV6 s with
                  | None => (st, cf, prefixByIDV6 a, prefixOKV6 a)
                  | Some cidr =>
                      match ParsePrefix cidr with
                      | None =>
                          (addStatus st (ID s) statusConflict "invalid CIDR v6",
                           cf ++ [ {| Kind := "CIDR6_PARSE";
                                      Detail := "segment " +:+ Name s +:+ " site=" +:+ Site_ s
                                                +:+ " cidr_v6=" +:+ cidr +:+ " parse error";
                                      Level := Label statusConflict |} ],
                           prefixByIDV6 a, prefixOKV6 a)
                      | Some p6 =>
                          let '(st', cf') :=
                            checkParsed textsV6 s p6 (default [] (poolsV6 !! SiteID s))
                              (default [] (reservedV6 !! SiteID s)) rules st cf in
                          (st', cf', <[ID s := p6]> (prefixByIDV6 a), <[ID s := true]> (prefixOKV6 a))
                      end
                  end in
                mkAnalysis st' cf' ∅ byID6 ∅ ok6)
             = cf ++ new /\ Forall (kindIn segmentKinds) new).
  { intros st cf. destruct (CIDRV6 s) as [cidr6|]; [|apply appends_nil].
    destruct (ParsePrefix cidr6) as [p6|]; [|apply appends_one, H6].
    destruct (checkParsed_appends textsV6 s p6 (default [] (poolsV6 !! SiteID s))
                (default [] (reservedV6 !! SiteID s)) rules st cf) as (new & Hnew & Hk); [auto|].
    destruct (checkParsed textsV6 s p6 _ _ rules st cf) as [st' cf']. simpl in *.
    exists new. auto. }
  destruct (CIDR s) as [cidr|]; [destruct (ParsePrefix cidr) as [p|]|].
  - destruct (checkParsed_appends textsV4 s p (default [] (poolsV4 !! SiteID s))
                (default [] (reservedV4 !! SiteID s)) rules st2 (conflicts a))
      as (new & Hnew & Hk); [auto|].
    destruct (checkParsed textsV4 s p _ _ rules st2 (conflicts a)) as [st3 cf3]. simpl in Hnew.
    destruct (Hv6 st3 cf3) as (new' & Hnew' & Hk').
    eapply appends_trans; [exists new; split; [exact Hnew|exact Hk]|].
    exists new'. split; [|exact Hk'].
    rewrite <- Hnew'. clear. destruct (CIDRV6 s) as [cidr6|]; [|reflexivity].
    destruct (ParsePrefix cidr6) as [p6|]; [|reflexivity].
    destruct (checkParsed textsV6 s p6 _ _ rules st3 cf3). reflexivity.
  - destruct (Hv6 (addStatus st2 (ID s) statusConflict "invalid CIDR")
                (conflicts a ++ [ {| Kind := "CIDR_PARSE";
                                     Detail := "segment " +:+ Name s +:+ " site=" +:+ Site_ s
                                               +:+ " cidr=" +:+ cidr +:+ " parse error";
                                     Level := Label statusConflict |} ]))
      as (new' & Hnew' & Hk').
    eapply appends_trans; [apply appends_one, (H4 cidr)|].
    exists new'. split; [|exact Hk'].
    rewrite <- Hnew'. clear. destruct (CIDRV6 s) as [cidr6|]; [|reflexivity].
    destruct (ParsePrefix cidr6) as [p6|]; [|reflexivity].
    destruct (checkParsed textsV6 s p6 _ _ rules _ _). reflexivity.
  - destruct (Hv6 (addStatus st2 (ID s) statusWarning "not allocated") (conflicts a))
      as (new' & Hnew' & Hk').
    exists new'. split; [|exact Hk'].
    rewrite <- Hnew'. clear. destruct (CIDRV6 s) as [cidr6|]; [|reflexivity].
    destruct (ParsePrefix cidr6) as [p6|]; [|reflexivity].
    destruct (checkParsed textsV6 s p6 _ _ rules _ _). reflexivity.
Qed.

Lemma checkOverlaps_appends v6 segByID byID group sc :
  exists new,
    snd (checkOverlaps v6 segByID byID group sc) = snd sc ++ new
    /\ Forall (kindIn [if v6 then "OVERLAP_V6" else "OVERLAP"]%string) new.
Proof.
  unfold checkOverlaps. apply foldl_appends. intros sc' [k ids].
  apply foldl_appends. intros [st cf] [a b]. unfold checkPair. simpl.
  destruct (byID !! a) as [p1|]; [|apply appends_nil].
  destruct (byID !! b) as [p2|]; [|apply appends_nil].
  destruct (prefixesOverlap p1 p2); [|apply appends_nil].
  simpl. apply appends_one. left. reflexivity.
Qed.

Lemma gapHints_hint pool gaps limit out :
  gapHints pool gaps limit = Ret out -> Forall (kindIn hintKinds) out.
Proof.
  intros Hrun. apply gapHints_kind in Hrun.
  eapply List.Forall_impl; [|exact Hrun]. intros c Hc. unfold kindIn, hintKinds.
  rewrite Hc. simpl. tauto.
Qed.

Lemma perPoolV4_hint pools segments reserved out :
  perPoolV4 pools segments reserved = Ret out -> Forall (kindIn hintKinds) out.
Proof.
  revert out. induction pools as [|pool pools IH]; intros out Hrun; simpl in Hrun.
  - injection Hrun as <-. constructor.
  - apply bind_Ret in Hrun as (h & Hh & Hrun).
    apply bind_Ret in Hrun as (hs & Hhs & Hret). injection Hret as <-.
    apply Forall_app. split; [|eauto].
    unfold poolHintsV4 in Hh.
    destruct (negb (Is4 (PAddr pool))); [injection Hh as <-; constructor|].
    destruct (Z.of_nat (length _) =? 0); [injection Hh as <-; constructor|].
    apply bind_Ret in Hh as (gapsOut & Hgaps & Hret). injection Hret as <-.
    constructor; [unfold kindIn, hintKinds; simpl; tauto|eapply gapHints_hint; eauto].
Qed.

Lemma siteHintsV4_hint sites segmentsBySite reservedV4 out :
  siteHintsV4 sites segmentsBySite reservedV4 = Ret out -> Forall (kindIn hintKinds) out.
Proof.
  revert out. induction sites as [|[siteID pools] sites IH]; intros out Hrun; simpl in Hrun.
  - injection Hrun as <-. constructor.
  - apply bind_Ret in Hrun as (h & Hh & Hrun).
    apply bind_Ret in Hrun as (hs & Hhs & Hret). injection Hret as <-.
    apply Forall_app. split; [eapply perPoolV4_hint; eauto|eauto].
Qed.

Lemma siteHintsV6_hint sites segmentsBySite reservedV6 :
  Forall (kindIn hintKinds) (siteHintsV6 sites segmentsBySite reservedV6).
Proof.
  unfold siteHintsV6. apply List.Forall_flat_map, List.Forall_forall. intros [siteID pools] _.
  apply List.Forall_flat_map, List.Forall_forall. intros pool _.
  unfold poolHintsV6.
  destruct (negb (Is6 (PAddr pool))); [constructor|].
  destruct (Z.of_nat (length _) =? 0); [constructor|].
  constructor; [unfold kindIn, hintKinds; simpl; tauto|].
  generalize 3 at 1.
  induction (freeRangesBig _ _) as [|g gaps IH]; intros limit; simpl; [constructor|].
  destruct (limit =? 0); [constructor|].
  apply Forall_app. split; [|apply IH].
  apply List.Forall_forall. intros c Hc. apply in_map_iff in Hc as (p & <- & _).
  unfold kindIn, hintKinds; simpl; tauto.
Qed.

Lemma analyzeEfficiency_hint segs poolsV4 poolsV6 reservedV4 reservedV6 rules out :
  analyzeEfficiency segs poolsV4 poolsV6 reservedV4 reservedV6 rules = Ret out ->
  Forall (kindIn hintKinds) out.
Proof.
  unfold analyzeEfficiency. intros Hrun.
  apply bind_Ret in Hrun as (v4 & Hv4 & Hret). injection Hret as <-.
  repeat (apply Forall_app; split).
  - eapply siteHintsV4_hint; eauto.
  - apply siteHintsV6_hint.
  - apply List.Forall_flat_map, List.Forall_forall. intros s _.
    eapply List.Forall_impl; [|apply oversized_kind]. intros c Hc.
    unfold isKind in Hc. apply String.eqb_eq in Hc. unfold kindIn, hintKinds.
    rewrite Hc. simpl. tauto.
  - apply List.Forall_flat_map, List.Forall_forall. intros s _.
    unfold oversizedV6.
    repeat match goal with
           | |- context [match ?x with _ => _ end] => destruct x
           end; repeat constructor; unfold kindIn, hintKinds; simpl; tauto.
Qed.

(** X2: within one call of [analyzeAll] the conflicts come stage by stage:
    unreadable reserved ranges, the per-segment checks, the pairwise
    [OVERLAP] conflicts, the [OVERLAP_V6] ones, the [VLAN_DUP] ones, and
    the efficiency hints last. *)
Theorem analyzeAll_stages segs pools sites rules st cf :
  analyzeAll segs pools sites rules = Ret (st, cf) ->
  exists reserved perSegment overlaps overlapsV6 dups hints,
    cf = reserved ++ perSegment ++ overlaps ++ overlapsV6 ++ dups ++ hints
    /\ Forall (kindIn ["RESERVED_PARSE"%string]) reserved
    /\ Forall (kindIn segmentKinds) perSegment
    /\ Forall (kindIn ["OVERLAP"%string]) overlaps
    /\ Forall (kindIn ["OVERLAP_V6"%string]) overlapsV6
    /\ Forall (kindIn ["VLAN_DUP"%string]) dups
    /\ Forall (kindIn hintKinds) hints.
Proof.
  unfold analyzeAll. intros Hrun.
  destruct (buildPoolIndex pools) as [poolsV4 poolsV6].
  pose proof (buildReservedIndex_kinds sites) as Hreserved.
  destruct (buildReservedIndex sites) as [[reservedV4 reservedV6] reservedConflicts].
  simpl in Hreserved.
  destruct (analyzeSegments segs poolsV4 poolsV6 reservedV4 reservedV6 rules)
    as [statuses cfs] eqn:Hsegs.
  apply bind_Ret in Hrun as (hints & Hhints & Hret). injection Hret as <- <-.
  unfold analyzeSegments in Hsegs.
  set (segByID := foldl (fun m s => <[ID s := s]> m) (∅ : gmap Z Segment) segs) in Hsegs.
  set (a := foldl (checkSegment poolsV4 poolsV6 reservedV4 reservedV6 rules) _ segs) in Hsegs.
  set (sc1 := checkOverlaps false segByID (prefixByID a) _ _) in Hsegs.
  set (sc2 := checkOverlaps true segByID (prefixByIDV6 a) _ sc1) in Hsegs.
  destruct (foldl_checkVLAN segByID rules segs ∅ (fst sc2) (snd sc2)) as (seen' & Hvlan).
  rewrite Hvlan in Hsegs. injection Hsegs as <- <-.
  destruct (foldl_appends conflicts (kindIn segmentKinds)
              (checkSegment poolsV4 poolsV6 reservedV4 reservedV6 rules)
              (checkSegment_appends poolsV4 poolsV6 reservedV4 reservedV6 rules)
              segs (mkAnalysis ∅ [] ∅ ∅ ∅ ∅)) as (perSegment & Hper & Kper).
  fold a in Hper. simpl in Hper.
  destruct (checkOverlaps_appends false segByID (prefixByID a)
              (groupBySiteVRF segs (prefixOK a)) (statuses a, conflicts a))
    as (overlaps & Hov & Kov).
  fold sc1 in Hov. simpl in Hov.
  destruct (checkOverlaps_appends true segByID (prefixByIDV6 a)
              (groupBySiteVRF segs (prefixOKV6 a)) sc1) as (overlapsV6 & Hov6 & Kov6).
  fold sc2 in Hov6.
  exists reservedConflicts, perSegment, overlaps, overlapsV6,
    (map (fun ev => VLAN_DUP (default zeroSegment (segByID !! fst ev)) (snd ev))
       (vlanEvents rules ∅ segs)), hints.
  split.
  - rewrite Hov6, Hov, Hper. rewrite <- !app_assoc. reflexivity.
  - repeat split; try assumption.
    + apply List.Forall_forall. intros c Hc. apply in_map_iff in Hc as (ev & <- & _).
      left. reflexivity.
    + eapply analyzeEfficiency_hint; eauto.
Qed.

End PhaseFacts.

(** ** IPv4 ranges below the top of the address space *)

Lemma u32_small z : 0 <= z < 2 ^ 32 -> u32 z = z.
Proof. intros Hz. unfold u32. apply Z.mod_small. exact Hz. Qed.

(** A valid IPv4 prefix, masked: its first address is a multiple of the
    block size and the block ends within 32 bits. *)
Lemma masked_v4 (p : Prefix) :
  valid p -> Is4 (PAddr p) = true ->
  let size := 2 ^ (32 - Bits p) in
  let first := ipv4ToU32 (PAddr (Masked p)) in
  1 <= size /\ 0 <= first /\ first + size <= 2 ^ 32
  /\ lastOfBlock first (Bits p) = first + size - 1
  /\ prefixSize p = size.
Proof.
  intros [Hv Hb] H4. destruct p as [[v|v] bits]; [|discriminate]. simpl in Hv, Hb |- *.
  unfold ipv4ToU32, lastOfBlock, prefixSize, host_bits. simpl.
  assert (Hsize : 1 <= 2 ^ (32 - bits) <= 2 ^ 32) by (apply pow2_le_32; lia).
  assert (H32 : 2 ^ 32 = 2 ^ bits * 2 ^ (32 - bits))
    by (rewrite <- Z.pow_add_r by lia; f_equal; lia).
  assert (Hbits : 1 <= 2 ^ bits) by (apply (Z.pow_le_mono_r 2 0 bits); lia).
  rewrite Z.shiftl_mul_pow2, Z.shiftr_div_pow2 by lia.
  assert (Hq : 0 <= v / 2 ^ (32 - bits) < 2 ^ bits).
  { split; [apply Z.div_pos; lia|]. apply Z.div_lt_upper_bound; lia. }
  set (q := v / 2 ^ (32 - bits)) in *. clearbody q.
  assert (Hfirst : 0 <= q * 2 ^ (32 - bits) /\ q * 2 ^ (32 - bits) + 2 ^ (32 - bits) <= 2 ^ 32)
    by nia.
  rewrite (u32_small (q * 2 ^ (32 - bits))) by lia.
  rewrite Z.shiftl_1_l.
  split; [lia|]. split; [lia|]. split; [lia|]. split.
  - destruct (Z.eq_dec bits 0) as [->|Hne].
    + assert (q = 0) by (simpl in Hq; lia). subst q. vm_compute. reflexivity.
    + assert (Hlt : 2 ^ (32 - bits) < 2 ^ 32) by (apply Z.pow_lt_mono_r; lia).
      rewrite (u32_small (2 ^ (32 - bits))) by lia.
      rewrite (u32_small (2 ^ (32 - bits) - 1)) by lia.
      rewrite u32_small by lia. lia.
  - change (addrBitLen (Addr4 v)) with 32.
    destruct (Z.leb_spec (32 - bits) 0) as [Hz|_]; [|apply Z.shiftl_1_l].
    replace (32 - bits) with 0 by lia. reflexivity.
Qed.

(** Clipping a valid IPv4 prefix to a valid IPv4 pool gives a non-empty
    range inside the pool. *)
Lemma prefixRangeWithin_inside (pool p : Prefix) (r : ipv4Range) :
  valid pool -> Is4 (PAddr pool) = true -> valid p -> Is4 (PAddr p) = true ->
  prefixRangeWithin pool p = Some r ->
  let lo := ipv4ToU32 (PAddr (Masked pool)) in
  let hi := lastOfBlock lo (Bits pool) in
  lo <= r_start r /\ r_start r <= r_end r /\ r_end r <= hi.
Proof.
  intros Hpool Hpool4 Hp Hp4 Hr lo hi.
  destruct (masked_v4 pool Hpool Hpool4) as (Hs & H0 & Htop & Hlast & _).
  destruct (masked_v4 p Hp Hp4) as (Hs' & H0' & Htop' & Hlast' & _).
  unfold prefixRangeWithin in Hr. fold lo in Hr, H0, Htop, Hlast. fold hi in Hr, Hlast.
  rewrite Hlast' in Hr.
  set (pStart := ipv4ToU32 (PAddr (Masked p))) in *.
  set (pEnd := pStart + 2 ^ (32 - Bits p) - 1) in *.
  destruct (Z.ltb_spec pEnd lo); [discriminate|].
  destruct (Z.ltb_spec hi pStart); [discriminate|].
  injection Hr as <-. simpl.
  destruct (Z.ltb_spec pStart lo); destruct (Z.ltb_spec hi pEnd); lia.
Qed.

Section RangeFacts.
Context {L : GoLib}.

Lemma usedOfSegments_inside pool segs :
  valid pool -> Is4 (PAddr pool) = true ->
  (forall text p, ParsePrefix text = Some p -> valid p) ->
  let lo := ipv4ToU32 (PAddr (Masked pool)) in
  let hi := lastOfBlock lo (Bits pool) in
  Forall (fun r => lo <= r_start r /\ r_start r <= r_end r /\ r_end r <= hi)
    (usedOfSegments pool segs).
Proof.
  intros Hpool Hpool4 Hparse lo hi.
  induction segs as [|s segs IH]; simpl; [constructor|].
  destruct (CIDR s) as [cidr|]; [|exact IH].
  destruct (ParsePrefix cidr) as [p|] eqn:Hp; [|exact IH].
  destruct (Is4 (PAddr p)) eqn:Hp4; [|exact IH]. simpl.
  destruct (prefixRangeWithin pool p) as [r|] eqn:Hr; [|exact IH].
  constructor; [|exact IH].
  apply (prefixRangeWithin_inside pool p r); eauto.
Qed.

Lemma usedOfReserved_inside pool reserved :
  valid pool -> Is4 (PAddr pool) = true ->
  Forall valid reserved ->
  let lo := ipv4ToU32 (PAddr (Masked pool)) in
  let hi := lastOfBlock lo (Bits pool) in
  Forall (fun r => lo <= r_start r /\ r_start r <= r_end r /\ r_end r <= hi)
    (usedOfReserved pool reserved).
Proof.
  intros Hpool Hpool4 Hvalid lo hi.
  induction Hvalid as [|p reserved Hp _ IH]; simpl; [constructor|].
  destruct (Is4 (PAddr p)) eqn:Hp4; [|exact IH]. simpl.
  destruct (prefixRangeWithin pool p) as [r|] eqn:Hr; [|exact IH].
  constructor; [|exact IH].
  apply (prefixRangeWithin_inside pool p r); auto.
Qed.

End RangeFacts.

(** Below the top, the [uint32] merge is the integer merge. *)
Lemma merge_from_big (rest : list ipv4Range) (last : ipv4Range) :
  below_top last -> Forall below_top rest ->
  map toBig (merge_from last rest) = mergeBig_from (toBig last) (map toBig rest)
  /\ Forall below_top (merge_from last rest).
Proof.
  revert last. induction rest as [|r rest IH]; intros last Hlast Hrest; simpl.
  - split; [reflexivity|]. constructor; [exact Hlast|constructor].
  - apply Forall_cons in Hrest as [Hr Hrest].
    unfold below_top in Hlast, Hr.
    rewrite (u32_small (r_end last + 1)) by lia.
    destruct (Z.leb_spec (r_start r) (r_end last + 1)) as [Hmerge|Hgap].
    + destruct (Z.ltb_spec (r_end last) (r_end r)) as [Hlonger|Hshorter].
      * apply (IH (mkRange (r_start last) (r_end r))); [|exact Hrest].
        unfold below_top. simpl. lia.
      * apply IH; [exact Hlast|exact Hrest].
    + destruct (IH r Hr Hrest) as [Heq Hbelow]. simpl. rewrite Heq.
      split; [reflexivity|]. constructor; [exact Hlast|exact Hbelow].
Qed.

(** X3: for every valid IPv4 pool that ends below 255.255.255.255, the used
    ranges that [buildUsedRanges] returns lie inside the pool, in
    increasing order, each at least one address after the one before. *)
Theorem buildUsedRanges_sorted_apart_inside_below_top (L : GoLib) (pool : Prefix)
    (segs : list Segment) (reserved : list Prefix) :
  valid pool -> Is4 (PAddr pool) = true ->
  (forall text p, ParsePrefix text = Some p -> valid p) ->
  Forall valid reserved ->
  sorts_ranges (sort_Slice range_less) ->
  let lo := ipv4ToU32 (PAddr (Masked pool)) in
  let hi := lastOfBlock lo (Bits pool) in
  hi < 2 ^ 32 - 1 ->
  Forall (inside lo hi) (map toBig (buildUsedRanges pool segs reserved))
  /\ StronglySorted apart (map toBig (buildUsedRanges pool segs reserved)).
Proof.
  intros Hpool Hpool4 Hparse Hreserved Hsort lo hi Htop.
  destruct (masked_v4 pool Hpool Hpool4) as (_ & H0 & _).
  fold lo in H0.
  unfold buildUsedRanges.
  destruct (Hsort (usedOfSegments pool segs ++ usedOfReserved pool reserved)) as [Hperm Hsorted].
  assert (Hin : Forall (fun r => lo <= r_start r /\ r_start r <= r_end r /\ r_end r <= hi)
                  (sort_Slice range_less
                     (usedOfSegments pool segs ++ usedOfReserved pool reserved))).
  { eapply Permutation_Forall; [exact Hperm|]. apply Forall_app. split.
    - apply usedOfSegments_inside; assumption.
    - apply usedOfReserved_inside; assumption. }
  destruct (sort_Slice range_less _) as [|r0 rest]; [split; constructor|].
  assert (Hbelow : Forall below_top (r0 :: rest)).
  { eapply List.Forall_impl; [|exact Hin]. unfold below_top. intros r Hr. simpl in Hr. lia. }
  assert (Hinside : Forall (inside lo hi) (map toBig (r0 :: rest))).
  { apply List.Forall_map. eapply List.Forall_impl; [|exact Hin]. intros r Hr. exact Hr. }
  apply Forall_cons in Hbelow as [Hb0 Hbrest].
  destruct (merge_from_big rest r0 Hb0 Hbrest) as [Heq _].
  cbn [mergeRanges]. rewrite Heq.
  simpl in Hinside. apply Forall_cons in Hinside as [Hi0 Hirest].
  apply StronglySorted_inv in Hsorted as [Hsorted Hge].
  destruct (mergeBig_from_spec lo hi (map toBig rest) (toBig r0) Hi0 Hirest)
    as (x & tl & -> & _ & Hins & Hap).
  - apply List.Forall_map. exact Hge.
  - clear - Hsorted. induction Hsorted as [|r l Hl IH Hr]; simpl; constructor; [exact IH|].
    apply List.Forall_map. exact Hr.
  - split; [exact Hins|].
    apply Sorted_StronglySorted; [|exact Hap]. intros a b c. apply apart_trans.
Qed.
Lemma freeRangesBig_loop_inside (hi : Z) (used : list bigRange) (cur : Z)
    (gaps : list bigRange) (cur' : Z) :
  StronglySorted apart used ->
  Forall (fun r => cur <= b_start r /\ b_start r <= b_end r /\ b_end r <= hi) used ->
  freeRangesBig_loop hi cur used = (gaps, cur') ->
  Forall (inside cur hi) gaps.
Proof.
  revert cur gaps cur'. induction used as [|r used IH]; intros cur gaps cur' Hap Hin Hrun.
  - simpl in Hrun. injection Hrun as <- <-. constructor.
  - apply StronglySorted_inv in Hap as [Hap Hr]. apply Forall_cons in Hin as [Hrin Hin].
    cbn [freeRangesBig_loop] in Hrun. cbv zeta in Hrun.
    assert (Hgap : Forall (inside cur hi)
                     (if cur <? b_start r then [mkBig cur (b_start r - 1)] else [])).
    { destruct (Z.ltb_spec cur (b_start r)); constructor; [|constructor].
      unfold inside. simpl. lia. }
    destruct (Z.ltb_spec cur (b_end r + 1)) as [_|Hno]; [|lia].
    destruct (Z.ltb_spec hi (b_end r + 1)) as [Hend|Hmore].
    + injection Hrun as <- <-. exact Hgap.
    + destruct (freeRangesBig_loop hi (b_end r + 1) used) as [gaps' cur''] eqn:Hrest.
      injection Hrun as <- <-.
      apply Forall_app. split; [exact Hgap|].
      eapply List.Forall_impl; [|apply (IH (b_end r + 1) gaps' cur'' Hap); [|exact Hrest]].
      * unfold inside. intros g Hg. lia.
      * rewrite List.Forall_forall in Hr, Hin |- *. intros r' Hr'.
        specialize (Hr r' Hr'). specialize (Hin r' Hr'). unfold apart in Hr. lia.
Qed.

(** Below the top, the [uint32] loop of [freeRanges] is the integer loop. *)
Lemma freeRanges_loop_big (hi : Z) (used : list ipv4Range) (cur : Z) :
  0 <= cur -> Forall below_top used ->
  freeRangesBig_loop hi cur (map toBig used)
  = (map toBig (fst (freeRanges_loop hi cur used)), snd (freeRanges_loop hi cur used)).
Proof.
  revert cur. induction used as [|r used IH]; intros cur Hcur Hused; [reflexivity|].
  apply Forall_cons in Hused as [Hr Hused]. unfold below_top in Hr.
  cbn [map freeRangesBig_loop freeRanges_loop toBig b_start b_end]. cbv zeta.
  rewrite (u32_small (r_end r + 1)) by lia.
  assert (Hgap : (if cur <? r_start r then [mkBig cur (r_start r - 1)] else [])
                 = map toBig (if cur <? r_start r then [mkRange cur (u32 (r_start r - 1))]
                              else [])).
  { destruct (Z.ltb_spec cur (r_start r)); [|reflexivity].
    rewrite u32_small by lia. reflexivity. }
  rewrite Hgap.
  set (cur1 := if cur <? r_end r + 1 then r_end r + 1 else cur).
  assert (Hcur1 : 0 <= cur1) by (unfold cur1; destruct (cur <? r_end r + 1); lia).
  destruct (hi <? cur1); [reflexivity|].
  rewrite (IH cur1 Hcur1 Hused).
  destruct (freeRanges_loop hi cur1 used) as [gaps cur']. simpl.
  rewrite List.map_app. reflexivity.
Qed.

Lemma sumIPv4Ranges_acc (ranges : list ipv4Range) (acc : Z) :
  foldl (fun out r => out + u64 (u32 (r_end r - r_start r + 1))) acc ranges
  = acc + foldl (fun out r => out + u64 (u32 (r_end r - r_start r + 1))) 0 ranges.
Proof.
  revert acc. induction ranges as [|r ranges IH]; intros acc; simpl; [lia|].
  rewrite IH, (IH (0 + _)). lia.
Qed.

Lemma sumIPv4Ranges_big (ranges : list ipv4Range) :
  Forall (fun r => 0 <= r_end r - r_start r + 1 < 2 ^ 32) ranges ->
  sumIPv4Ranges ranges = sumBigRanges (map toBig ranges).
Proof.
  induction 1 as [|r ranges Hr _ IH]; [reflexivity|].
  cbn [map]. rewrite sumBigRanges_cons. unfold sumIPv4Ranges in *. cbn [foldl].
  rewrite sumIPv4Ranges_acc, IH, u32_small by exact Hr.
  rewrite u64_small; [reflexivity|].
  assert (2 ^ 32 < 2 ^ 64) by reflexivity. lia.
Qed.

(** X4: for every valid IPv4 pool that ends below 255.255.255.255 capacity
    is conserved: over a merged used list inside the pool, the sizes of
    the used ranges and of the ranges [freeRanges] returns add up to the
    size of the pool. *)
Theorem freeRanges_conserves_below_top (pool : Prefix) (used : list ipv4Range) :
  valid pool -> Is4 (PAddr pool) = true ->
  let lo := ipv4ToU32 (PAddr (Masked pool)) in
  let hi := lastOfBlock lo (Bits pool) in
  hi < 2 ^ 32 - 1 ->
  StronglySorted apart (map toBig used) ->
  Forall (inside lo hi) (map toBig used) ->
  sumIPv4Ranges used + sumIPv4Ranges (freeRanges pool used) = prefixSize pool.
Proof.
  intros Hpool Hpool4 lo hi Htop Hap Hin.
  destruct (masked_v4 pool Hpool Hpool4) as (Hsize & H0 & Hfit & Hlast & Hps).
  fold lo in H0, Hfit, Hlast. fold hi in Hlast.
  assert (H32 : 2 ^ 32 = 4294967296) by reflexivity.
  assert (Hbelow : Forall below_top used).
  { apply (proj1 (List.Forall_map _ _ _)) in Hin. eapply List.Forall_impl; [|exact Hin].
    unfold inside, below_top, toBig. simpl. intros r Hr. lia. }
  assert (Hsmall : forall l, Forall (inside lo hi) (map toBig l) ->
                             Forall (fun r => 0 <= r_end r - r_start r + 1 < 2 ^ 32) l).
  { intros l Hl. apply (proj1 (List.Forall_map _ _ _)) in Hl. eapply List.Forall_impl; [|exact Hl].
    unfold inside, toBig. simpl. intros r Hr. lia. }
  rewrite (sumIPv4Ranges_big used) by (apply Hsmall, Hin).
  unfold freeRanges. fold lo. fold hi.
  destruct used as [|r used].
  - simpl. unfold sumIPv4Ranges, sumBigRanges. simpl.
    rewrite u32_small, u64_small; lia.
  - cbn [length]. rewrite Nat2Z.inj_succ.
    destruct (Z.eqb_spec (Z.succ (Z.of_nat (length used))) 0) as [Hz|_]; [lia|].
    pose proof (freeRanges_loop_big hi (r :: used) lo H0 Hbelow) as Hbig.
    destruct (freeRanges_loop hi lo (r :: used)) as [gaps cur]. simpl in Hbig.
    assert (Hin' : Forall (fun r0 => lo <= b_start r0 /\ b_start r0 <= b_end r0 /\ b_end r0 <= hi)
                     (map toBig (r :: used))).
    { eapply List.Forall_impl; [|exact Hin]. unfold inside. intros; lia. }
    destruct (freeRangesBig_loop_spec hi (map toBig (r :: used)) lo (map toBig gaps) cur
                Hap Hin' ltac:(lia) Hbig) as [Hsum Hle].
    pose proof (freeRangesBig_loop_inside hi (map toBig (r :: used)) lo (map toBig gaps) cur
                  Hap Hin' Hbig) as Hgaps.
    destruct (Z.leb_spec cur hi) as [Hfree|Hfull].
    + rewrite (sumIPv4Ranges_big (gaps ++ [mkRange cur hi])).
      * rewrite List.map_app, sumBigRanges_app.
        change (sumBigRanges (map toBig [mkRange cur hi])) with (0 + (hi - cur + 1)). lia.
      * apply Hsmall. rewrite List.map_app. apply Forall_app. split; [exact Hgaps|].
        constructor; [|constructor]. unfold inside. simpl. lia.
    + rewrite (sumIPv4Ranges_big gaps) by (apply Hsmall, Hgaps). lia.
Qed.

(** ** IPv4 allocation: what holds of the prefixes handed out *)

Lemma prefixesOverlap_sym a b : prefixesOverlap a b = prefixesOverlap b a.
Proof. unfold prefixesOverlap. apply orb_comm. Qed.

Lemma overlapsAny_false p used :
  overlapsAny p used = false <-> forall u, In u used -> prefixesOverlap u p = false.
Proof.
  induction used as [|u used IH]; simpl.
  - split; [intros _ u []|reflexivity].
  - destruct (prefixesOverlap u p) eqn:E.
    + split; [discriminate|]. intros H. rewrite <- E. apply H. left. reflexivity.
    + rewrite IH. split.
      * intros H v [<-|Hv]; [exact E|apply H, Hv].
      * intros H v Hv. apply H. right. exact Hv.
Qed.

(** What the IPv4 sweep returns: a block of the wanted length, aligned,
    whose first address the pool contains and which overlaps no used
    prefix. *)
Lemma allocateInPoolIPv4_found pool want used q :
  allocateInPoolIPv4 pool want used = Ret (Some q) ->
  1 <= want <= 32
  /\ (exists cur, q = Masked (PrefixFrom (u32ToIPv4 cur) want))
  /\ Contains pool (PAddr q) = true
  /\ overlapsAny q used = false.
Proof.
  unfold allocateInPoolIPv4. intros Hrun.
  destruct ((want <? 1) || (32 <? want)) eqn:Hw; [discriminate|].
  apply orb_false_elim in Hw as [Hw1 Hw2]. apply Z.ltb_ge in Hw1, Hw2.
  split; [lia|].
  revert Hrun.
  apply (go_loop_invariant (fun _ => True)
           (fun r => match r with
                     | Some q => (exists cur, q = Masked (PrefixFrom (u32ToIPv4 cur) want))
                                 /\ Contains pool (PAddr q) = true
                                 /\ overlapsAny q used = false
                     | None => True
                     end)); [auto| |exact I].
  intros cur r _ Hbody.
  destruct (_ <=? _); [|injection Hbody as <-; exact I].
  destruct (Contains pool _) eqn:Hc; cbn [negb] in Hbody; [|discriminate].
  destruct (overlapsAny _ used) eqn:Ho; [discriminate|].
  injection Hbody as <-. split; [exists cur; reflexivity|]. split; assumption.
Qed.

Lemma Contains_v4 pool x :
  Is4 (PAddr pool) = true -> 0 <= host_bits pool ->
  Contains pool (Addr4 x) = true <->
  x / 2 ^ host_bits pool = value (PAddr pool) / 2 ^ host_bits pool.
Proof.
  intros H4 Hhb. unfold Contains. rewrite H4. simpl.
  rewrite Z.shiftr_lxor, Z.eqb_eq, Z.lxor_eq_0_iff, !Z.shiftr_div_pow2 by exact Hhb.
  reflexivity.
Qed.

(** With the wanted length no shorter than the pool's, a block whose
    first address the pool contains lies inside the pool. *)
Lemma aligned_block_within pool cur want :
  valid pool -> Is4 (PAddr pool) = true -> Bits pool <= want <= 32 ->
  let q := Masked (PrefixFrom (u32ToIPv4 cur) want) in
  Contains pool (PAddr q) = true -> prefixWithin pool q = true.
Proof.
  intros [Hv Hb] H4 Hw q Hc.
  assert (Hhb : host_bits pool = 32 - Bits pool).
  { unfold host_bits. destruct pool as [[v|v] bits]; [reflexivity|discriminate]. }
  assert (Hbl : BitLen (PAddr pool) = 32).
  { destruct pool as [[v|v] bits]; [reflexivity|discriminate]. }
  rewrite Hbl in Hb.
  unfold prefixWithin. rewrite Hc. simpl.
  unfold prefixLastAddr.
  set (k := 32 - want).
  assert (Hk : 0 <= k <= host_bits pool) by (unfold k; lia).
  assert (Hc0 : 0 <= u32 cur < 2 ^ 32) by (unfold u32; apply Z.mod_pos_bound; lia).
  assert (Hq : q = PrefixFrom (Addr4 (u32 cur / 2 ^ k * 2 ^ k)) want).
  { unfold q, Masked, u32ToIPv4, host_bits. simpl. fold k.
    rewrite Z.shiftl_mul_pow2, Z.shiftr_div_pow2 by lia. reflexivity. }
  set (m := u32 cur / 2 ^ k) in *.
  assert (Hpk : 1 <= 2 ^ k <= 2 ^ 32) by (apply pow2_le_32; unfold k; lia).
  assert (Hm : 0 <= m * 2 ^ k /\ m * 2 ^ k + 2 ^ k <= 2 ^ 32).
  { assert (H32 : 2 ^ 32 = 2 ^ want * 2 ^ k)
      by (rewrite <- Z.pow_add_r by lia; f_equal; unfold k; lia).
    assert (1 <= 2 ^ want) by (apply (Z.pow_le_mono_r 2 0 want); lia).
    assert (0 <= m < 2 ^ want).
    { unfold m. split; [apply Z.div_pos; lia|]. apply Z.div_lt_upper_bound; lia. }
    clearbody m. nia. }
  assert (Hmq : Masked q = q).
  { rewrite Hq. unfold Masked, host_bits. simpl. fold k.
    rewrite Z.shiftl_mul_pow2, Z.shiftr_div_pow2 by lia.
    rewrite Z.div_mul by lia. reflexivity. }
  rewrite Hmq. rewrite Hq. unfold addrToBig, prefixSize. simpl.
  change (addrBitLen (Addr4 (m * 2 ^ k))) with 32. fold k.
  assert (Hsize : (if k <=? 0 then 1 else Z.shiftl 1 k) = 2 ^ k).
  { destruct (Z.leb_spec k 0); [|apply Z.shiftl_1_l]. replace k with 0 by lia. reflexivity. }
  rewrite Hsize. unfold bigToAddr. simpl.
  destruct (Z.ltb_spec (m * 2 ^ k + 2 ^ k - 1) 0); [lia|].
  destruct (Z.leb_spec (2 ^ 32) (m * 2 ^ k + 2 ^ k - 1)); [lia|]. simpl.
  rewrite Hq in Hc. simpl in Hc.
  apply Contains_v4 in Hc; [|exact H4|lia].
  apply Contains_v4; [exact H4|lia|]. rewrite <- Hc.
  assert (Hsplit : 2 ^ host_bits pool = 2 ^ k * 2 ^ (host_bits pool - k))
    by (rewrite <- Z.pow_add_r by lia; f_equal; lia).
  assert (Hrest : 0 < 2 ^ (host_bits pool - k)) by (apply Z.pow_pos_nonneg; lia).
  rewrite Hsplit, <- !Z.div_div by lia. f_equal.
  rewrite Z.div_mul by lia. symmetry. apply (Z.div_unique _ _ m (2 ^ k - 1)); lia.
Qed.

Lemma kept_apart_start used0 G : kept_apart used0 G ∅ used0.
Proof.
  split; [auto|]. split.
  - intros id q Hid. rewrite lookup_empty in Hid. discriminate.
  - intros id1 id2 q1 q2 _ Hid. rewrite lookup_empty in Hid. discriminate.
Qed.

Lemma kept_apart_insert used0 (G : Prefix -> Prop) alloc used key q :
  kept_apart used0 G alloc used -> overlapsAny q used = false -> G q ->
  kept_apart used0 G (<[key := q]> alloc) (used ++ [q]).
Proof.
  intros (Hincl & Hval & Hpair) Hq HG.
  pose proof (proj1 (overlapsAny_false q used) Hq) as Hfree.
  split; [|split].
  - intros u Hu. apply in_or_app. left. apply Hincl, Hu.
  - intros id' q' Hid. destruct (decide (key = id')) as [->|Hne].
    + rewrite lookup_insert_eq in Hid. injection Hid as <-.
      split; [apply in_or_app; right; left; reflexivity|]. split; [|exact HG].
      apply overlapsAny_false. intros u Hu. apply Hfree, Hincl, Hu.
    + rewrite lookup_insert_ne in Hid by exact Hne.
      destruct (Hval _ _ Hid) as (Hin & Hfree0 & HG'). split; [|split; assumption].
      apply in_or_app. left. exact Hin.
  - intros id1 id2 q1 q2 Hne H1 H2.
    destruct (decide (key = id1)) as [E1|Hne1]; destruct (decide (key = id2)) as [E2|Hne2].
    + congruence.
    + subst id1. rewrite lookup_insert_eq in H1. injection H1 as <-.
      rewrite lookup_insert_ne in H2 by exact Hne2.
      rewrite prefixesOverlap_sym. apply Hfree. apply (Hval _ _ H2).
    + subst id2. rewrite lookup_insert_eq in H2. injection H2 as <-.
      rewrite lookup_insert_ne in H1 by exact Hne1.
      apply Hfree. apply (Hval _ _ H1).
    + rewrite lookup_insert_ne in H1 by exact Hne1.
      rewrite lookup_insert_ne in H2 by exact Hne2.
      apply (Hpair _ _ _ _ Hne H1 H2).
Qed.

Lemma filterPoolsByTier_In items tier fallback pool :
  In pool (filterPoolsByTier items tier fallback) -> In pool items.
Proof.
  unfold filterPoolsByTier. intros Hin.
  destruct (isEmpty tier).
  - destruct (0 <? _); [apply List.filter_In in Hin as [Hin _]; exact Hin|].
    destruct fallback; [exact Hin|destruct Hin].
  - destruct (_ && _); [exact Hin|]. apply List.filter_In in Hin as [Hin _]. exact Hin.
Qed.

Section AllocationFacts.
Context {L : GoLib}.

Lemma firstFit_found poolList want used q :
  firstFit poolList want used = Ret (Some q) ->
  exists pool, In pool poolList /\ allocateInPool (item_Prefix pool) want used = Ret (Some q).
Proof.
  induction poolList as [|pool poolList IH]; simpl; intros Hrun; [discriminate|].
  apply bind_Ret in Hrun as ([p|] & Hpool & Hrest).
  - injection Hrest as ->. exists pool. split; [left; reflexivity|exact Hpool].
  - destruct (IH Hrest) as (pool' & Hin & Hfit). exists pool'. split; [right|]; assumption.
Qed.

Variables (items : list poolItem) (segs0 : list Segment) (family : string).
Variables (used0 : list Prefix) (G : Prefix -> Prop).
Hypothesis Hfit : forall s pool used q,
  In s segs0 -> In pool items -> desiredPrefixByFamily s family <> 0 ->
  allocateInPool (item_Prefix pool) (desiredPrefixByFamily s family) used = Ret (Some q) ->
  overlapsAny q used = false /\ G q.

Lemma allocateSpillover_from_apart segs alloc cf used rules strict alloc' cf' :
  (forall s, In s segs -> In s segs0) ->
  kept_apart used0 G alloc used ->
  allocateSpillover_from items segs alloc cf used rules family strict = Ret (alloc', cf') ->
  exists used', kept_apart used0 G alloc' used'.
Proof.
  revert alloc cf used. induction segs as [|s segs IH]; intros alloc cf used Hsub Hinv Hrun;
    simpl in Hrun.
  - injection Hrun as <- <-. exists used. exact Hinv.
  - assert (Hsub' : forall s', In s' segs -> In s' segs0) by (intros s' Hs'; apply Hsub; right; exact Hs').
    destruct (Z.eqb_spec (desiredPrefixByFamily s family) 0) as [|Hwant];
      [apply (IH _ _ _ Hsub' Hinv Hrun)|].
    apply bind_Ret in Hrun as ([p|] & Hfirst & Hrest).
    + apply (IH _ _ _ Hsub') in Hrest; [exact Hrest|].
      apply firstFit_found in Hfirst as (pool & Hpool & Hfound).
      assert (Hin : In pool items).
      { destruct (String.eqb _ _); [apply filterPoolsByTier_In in Hpool|]; exact Hpool. }
      destruct (Hfit s pool used p (Hsub s (or_introl eq_refl)) Hin Hwant Hfound) as [Hfree HG].
      apply kept_apart_insert; assumption.
    + destruct strict; [injection Hrest as <- <-; exists used; exact Hinv|].
      apply (IH _ _ _ Hsub' Hinv Hrest).
Qed.

Lemma contiguous_pool_apart pool pending alloc used next rules alloc' used' next' :
  In pool items -> (forall s, In s pending -> In s segs0) ->
  kept_apart used0 G alloc used ->
  contiguous_pool pool pending alloc used next rules family = Ret (alloc', used', next') ->
  kept_apart used0 G alloc' used'.
Proof.
  intros Hpool. revert alloc used next.
  induction pending as [|s pending IH]; intros alloc used next Hsub Hinv Hrun; simpl in Hrun.
  - injection Hrun as <- <- <-. exact Hinv.
  - assert (Hsub' : forall s', In s' pending -> In s' segs0) by (intros s' Hs'; apply Hsub; right; exact Hs').
    destruct (Z.eqb_spec (desiredPrefixByFamily s family) 0) as [|Hwant];
      [apply (IH _ _ _ Hsub' Hinv Hrun)|].
    destruct (_ && _); [apply (IH _ _ _ Hsub' Hinv Hrun)|].
    apply bind_Ret in Hrun as ([p|] & Hfound & Hrest); [|apply (IH _ _ _ Hsub' Hinv Hrest)].
    apply (IH _ _ _ Hsub') in Hrest; [exact Hrest|].
    destruct (Hfit s pool used p (Hsub s (or_introl eq_refl)) Hpool Hwant Hfound) as [Hfree HG].
    apply kept_apart_insert; assumption.
Qed.

Lemma contiguous_pools_apart pools pending alloc used rules alloc' pending' :
  (forall pool, In pool pools -> In pool items) -> (forall s, In s pending -> In s segs0) ->
  kept_apart used0 G alloc used ->
  contiguous_pools pools pending alloc used rules family = Ret (alloc', pending') ->
  exists used', kept_apart used0 G alloc' used'.
Proof.
  revert pending alloc used.
  induction pools as [|pool pools IH]; intros pending alloc used Hpools Hsub Hinv Hrun;
    simpl in Hrun.
  - injection Hrun as <- <-. exists used. exact Hinv.
  - destruct (Z.of_nat (length pending) =? 0); [injection Hrun as <- <-; exists used; exact Hinv|].
    apply bind_Ret in Hrun as ([[alloc1 used1] next1] & Hpool & Hrest).
    apply (IH _ _ _) in Hrest; [exact Hrest| | |].
    + intros pool' Hin. apply Hpools. right. exact Hin.
    + intros s Hs.
      destruct (contiguous_pool_keys _ _ _ _ _ _ _ _ _ _ Hpool) as [_ Hn].
      destruct (Hn s Hs) as [[]|Hp]. apply Hsub, Hp.
    + eapply contiguous_pool_apart; [|exact Hsub|exact Hinv|exact Hpool].
      apply Hpools. left. reflexivity.
Qed.

Lemma runStrategy_apart rules strict alloc cf :
  runStrategy items segs0 used0 rules family strict = Ret (alloc, cf) ->
  exists used', kept_apart used0 G alloc used'.
Proof.
  unfold runStrategy, allocateContiguous, allocateSpillover. intros Hrun.
  assert (Hspill : allocateSpillover_from items segs0 ∅ [] used0 rules family strict
                   = Ret (alloc, cf) -> exists used', kept_apart used0 G alloc used').
  { apply allocateSpillover_from_apart; [auto|apply kept_apart_start]. }
  destruct (String.eqb _ PoolStrategyContig).
  - apply bind_Ret in Hrun as ([alloc1 pending1] & Hpools & Hret). injection Hret as <- _.
    eapply contiguous_pools_apart; [| |apply kept_apart_start|exact Hpools]; auto.
  - destruct (String.eqb _ _); apply Hspill, Hrun.
Qed.

End AllocationFacts.

(** X5: over IPv4 pools, whatever strategy runs (the [switch] of
    [allocateFamily] and [planAllocateFamily]): no allocated prefix
    overlaps a prefix in use before the run, and no two segments are
    given overlapping prefixes. *)
Theorem runStrategy_v4_apart {L : GoLib} items segs used rules family strict alloc cf :
  Forall (fun pool => Is4 (PAddr (item_Prefix pool)) = true) items ->
  runStrategy items segs used rules family strict = Ret (alloc, cf) ->
  (forall id q, alloc !! id = Some q -> overlapsAny q used = false)
  /\ (forall id1 id2 q1 q2, id1 <> id2 -> alloc !! id1 = Some q1 -> alloc !! id2 = Some q2 ->
        prefixesOverlap q1 q2 = false).
Proof.
  intros H4 Hrun.
  destruct (fun Hfit => runStrategy_apart items segs family used (fun _ => True) Hfit
                          rules strict alloc cf Hrun) as (used' & _ & Hval & Hpair).
  - intros s pool u q _ Hpool _ Hfound. split; [|exact I].
    unfold allocateInPool in Hfound.
    rewrite (proj1 (List.Forall_forall _ _) H4 pool Hpool) in Hfound.
    apply allocateInPoolIPv4_found in Hfound. apply Hfound.
  - split; [|exact Hpair]. intros id q Hid. apply (Hval _ _ Hid).
Qed.

(** X6: over valid IPv4 pools, when no segment asks for a prefix shorter
    than a pool's, every allocated prefix lies inside a pool. *)
Theorem runStrategy_v4_within {L : GoLib} items segs used rules family strict alloc cf :
  Forall (fun pool => valid (item_Prefix pool) /\ Is4 (PAddr (item_Prefix pool)) = true) items ->
  (forall s pool, In s segs -> In pool items ->
     desiredPrefixByFamily s family = 0
     \/ Bits (item_Prefix pool) <= desiredPrefixByFamily s family) ->
  runStrategy items segs used rules family strict = Ret (alloc, cf) ->
  forall id q, alloc !! id = Some q ->
    exists pool, In pool items /\ prefixWithin (item_Prefix pool) q = true.
Proof.
  intros Hpools Hlen Hrun id q Hid.
  destruct (fun Hfit => runStrategy_apart items segs family used
              (fun q => exists pool, In pool items /\ prefixWithin (item_Prefix pool) q = true)
              Hfit rules strict alloc cf Hrun) as (used' & _ & Hval & _).
  - intros s pool u p Hs Hpool Hwant Hfound.
    destruct (proj1 (List.Forall_forall _ _) Hpools pool Hpool) as [Hv H4].
    unfold allocateInPool in Hfound. rewrite H4 in Hfound.
    apply allocateInPoolIPv4_found in Hfound as (Hw & (cur & ->) & Hc & Hfree).
    split; [exact Hfree|]. exists pool. split; [exact Hpool|].
    apply aligned_block_within; [exact Hv|exact H4| |exact Hc].
    destruct (Hlen s pool Hs Hpool); lia.
  - apply (Hval _ _ Hid).
Qed.

(** ** Further properties of the code *)

(** *** Decimal text and VLAN keys *)

Lemma string_append_nil_l (s : string) : (EmptyString +:+ s)%string = s.
Proof. reflexivity. Qed.

Lemma string_append_cons (c : ascii) (a b : string) : (String c a +:+ b = String c (a +:+ b))%string.
Proof. reflexivity. Qed.

Lemma string_append_assoc (a b c : string) : ((a +:+ b) +:+ c = a +:+ (b +:+ c))%string.
Proof.
  induction a as [|x a IH]; [reflexivity|].
  change (String x ((a +:+ b) +:+ c) = String x (a +:+ (b +:+ c)))%string. f_equal. exact IH.
Qed.

Lemma itoa_digits_buf (n : nat) (i : Z) (buf : string) :
  itoa_digits n i buf = (itoa_digits n i EmptyString +:+ buf)%string.
Proof.
  revert i buf. induction n as [|n IH]; intros i buf; cbn [itoa_digits]; [reflexivity|].
  destruct (0 <? i); [|reflexivity].
  rewrite (IH (i / 10) (String _ buf)), (IH (i / 10) (String _ EmptyString)).
  rewrite string_append_assoc. reflexivity.
Qed.

Lemma digitsValue_snoc (s : string) (c : ascii) (acc : Z) :
  Demo.digitsValue (s +:+ String c EmptyString) acc
  = match Demo.digitsValue s acc with
    | Some v => if Demo.isDigit c then Some (v * 10 + (Z.of_N (N_of_ascii c) - 48)) else None
    | None => None
    end.
Proof.
  revert acc. induction s as [|d s IH]; intros acc.
  - rewrite string_append_nil_l. cbn [Demo.digitsValue]. destruct (Demo.isDigit c); reflexivity.
  - rewrite string_append_cons. cbn [Demo.digitsValue]. destruct (Demo.isDigit d); [apply IH|reflexivity].
Qed.

Lemma digit_char (d : Z) :
  0 <= d < 10 ->
  let c := ascii_of_N (Z.to_N (48 + d)) in
  Demo.isDigit c = true /\ Z.of_N (N_of_ascii c) - 48 = d.
Proof.
  intros Hd c.
  assert (Hc : N_of_ascii c = Z.to_N (48 + d)).
  { unfold c. apply N_ascii_embedding. lia. }
  unfold Demo.isDigit. rewrite Hc. split.
  - apply andb_true_iff. split; apply N.leb_le; lia.
  - lia.
Qed.

Lemma itoa_digits_value (n : nat) (i : Z) :
  0 <= i < 10 ^ Z.of_nat n ->
  Demo.digitsValue (itoa_digits n i EmptyString) 0 = Some i.
Proof.
  revert i. induction n as [|n IH]; intros i Hi.
  - simpl in Hi. assert (i = 0) by lia. subst. reflexivity.
  - cbn [itoa_digits]. destruct (Z.ltb_spec 0 i) as [Hpos|Hzero].
    + rewrite itoa_digits_buf, digitsValue_snoc.
      assert (Hpow : 10 ^ Z.of_nat (S n) = 10 * 10 ^ Z.of_nat n).
      { rewrite Nat2Z.inj_succ, Z.pow_succ_r by lia. reflexivity. }
      rewrite IH.
      * pose proof (Z.mod_pos_bound i 10 ltac:(lia)) as Hm.
        destruct (digit_char (i mod 10) Hm) as [-> ->].
        rewrite (Z.div_mod i 10) at 3 by lia. f_equal. lia.
      * split; [apply Z.div_pos; lia|]. apply Z.div_lt_upper_bound; lia.
    + assert (i = 0) by lia. subst. reflexivity.
Qed.

(** The digits of a number from 0 to 2^63 - 1 read back as the number. *)
Lemma itoa64_reads_back (i : Z) :
  0 <= i < 2 ^ 63 -> Demo.digitsValue (itoa64 i) 0 = Some i.
Proof.
  intros Hi. unfold itoa64.
  destruct (Z.eqb_spec i 0) as [->|Hne]; [reflexivity|].
  destruct (Z.ltb_spec i 0); [lia|].
  apply itoa_digits_value. split; [lia|].
  assert (2 ^ 63 < 10 ^ Z.of_nat 32) by reflexivity. lia.
Qed.

(** A negative number above -2^63 is written as its absolute value after
    a minus sign. *)
Lemma itoa64_minus (i : Z) :
  - 2 ^ 63 < i < 0 -> itoa64 i = String "-"%char (itoa64 (- i)).
Proof.
  intros Hi. unfold itoa64.
  destruct (Z.eqb_spec i 0); [lia|]. destruct (Z.ltb_spec i 0); [|lia].
  destruct (Z.eqb_spec (- i) 0); [lia|]. destruct (Z.ltb_spec (- i) 0); [lia|].
  rewrite i64_small by lia. reflexivity.
Qed.

(** X7: [itoa64] writes a number from 0 to 2^63 - 1 as decimal digits that
    read back as that number, and a negative number above -2^63 as a
    minus sign before the text of its absolute value; for -2^63 the
    negation wraps and the text is the minus sign alone. *)
Theorem itoa64_decimal (i : Z) :
  (0 <= i < 2 ^ 63 -> Demo.digitsValue (itoa64 i) 0 = Some i)
  /\ (- 2 ^ 63 < i < 0 -> itoa64 i = String "-"%char (itoa64 (- i)))
  /\ itoa64 (- 2 ^ 63) = "-"%string.
Proof.
  split; [exact (itoa64_reads_back i)|].
  split; [exact (itoa64_minus i)|].
  unfold itoa64. change (- 2 ^ 63 =? 0) with false. change (- 2 ^ 63 <? 0) with true.
  cbv iota zeta. change (i64 (- - 2 ^ 63)) with (- 2 ^ 63). reflexivity.
Qed.

Lemma itoa64_injective (a b : Z) :
  - 2 ^ 63 < a < 2 ^ 63 -> - 2 ^ 63 < b < 2 ^ 63 -> itoa64 a = itoa64 b -> a = b.
Proof.
  assert (Hmixed : forall x y, 0 <= x < 2 ^ 63 -> - 2 ^ 63 < y < 0 -> itoa64 x <> itoa64 y).
  { intros x y Hx Hy Heq.
    pose proof (itoa64_reads_back x Hx) as Hval.
    rewrite Heq, (itoa64_minus y Hy) in Hval. discriminate. }
  intros Ha Hb Heq.
  destruct (Z.lt_ge_cases a 0) as [Han|Hap]; destruct (Z.lt_ge_cases b 0) as [Hbn|Hbp].
  - rewrite (itoa64_minus a), (itoa64_minus b) in Heq by lia.
    injection Heq as Heq.
    pose proof (itoa64_reads_back (- a) ltac:(lia)) as Hva.
    rewrite Heq, (itoa64_reads_back (- b)) in Hva by lia. injection Hva as Hva. lia.
  - exfalso. apply (Hmixed b a); [lia|lia|]. symmetry. exact Heq.
  - exfalso. apply (Hmixed a b); [lia|lia|exact Heq].
  - pose proof (itoa64_reads_back a ltac:(lia)) as Hva.
    rewrite Heq, (itoa64_reads_back b) in Hva by lia. injection Hva as Hva. lia.
Qed.

Lemma split_at_bar (a b x y : string) :
  hasBar a = false -> hasBar b = false ->
  (a +:+ String "|" x = b +:+ String "|" y)%string -> a = b /\ x = y.
Proof.
  revert b. induction a as [|c a IH]; intros b Ha Hb Heq.
  - destruct b as [|d b]; rewrite ?string_append_nil_l, ?string_append_cons in Heq.
    + injection Heq as ->. split; reflexivity.
    + injection Heq as <- _. cbn in Hb. discriminate.
  - destruct b as [|d b]; rewrite ?string_append_nil_l, ?string_append_cons in Heq.
    + injection Heq as -> _. cbn in Ha. discriminate.
    + injection Heq as -> Heq. cbn [hasBar] in Ha, Hb.
      destruct (Ascii.eqb d "|"); [discriminate|].
      destruct (IH b Ha Hb Heq) as [-> ->]. split; reflexivity.
Qed.

(** X8: when site and VRF names hold no [|] and the VLAN numbers fit in
    [int64] above its minimum, two segments with the same [vlanKey] have
    the same VLAN, the same site unless the scope is global, and the same
    VRF when the scope is neither global nor site. *)
Theorem vlanKey_injective (rules : ProjectRules) (s1 s2 : Segment) :
  hasBar (Site_ s1) = false -> hasBar (Site_ s2) = false ->
  hasBar (VRF s1) = false -> hasBar (VRF s2) = false ->
  - 2 ^ 63 < VLAN s1 < 2 ^ 63 -> - 2 ^ 63 < VLAN s2 < 2 ^ 63 ->
  vlanKey s1 rules = vlanKey s2 rules ->
  VLAN s1 = VLAN s2
  /\ (VLANScope rules <> VlanScopeGlobal -> Site_ s1 = Site_ s2)
  /\ (VLANScope rules <> VlanScopeGlobal -> VLANScope rules <> VlanScopeSite -> VRF s1 = VRF s2).
Proof.
  intros Hs1 Hs2 Hv1 Hv2 Hn1 Hn2. unfold vlanKey, itoa.
  destruct (String.eqb_spec (VLANScope rules) VlanScopeGlobal) as [Hg|Hg].
  - intros Heq. apply itoa64_injective in Heq; [|lia|lia].
    split; [exact Heq|]. split; intros; contradiction.
  - destruct (String.eqb_spec (VLANScope rules) VlanScopeSite) as [Hsite|Hsite].
    + intros Heq. apply split_at_bar in Heq as [Hsite_eq Hvlan]; [|assumption|assumption].
      apply itoa64_injective in Hvlan; [|lia|lia].
      split; [exact Hvlan|]. split; [intros; exact Hsite_eq|intros; contradiction].
    + intros Heq. apply split_at_bar in Heq as [Hsite_eq Hrest]; [|assumption|assumption].
      apply split_at_bar in Hrest as [Hvrf Hvlan]; [|assumption|assumption].
      apply itoa64_injective in Hvlan; [|lia|lia].
      split; [exact Hvlan|]. split; intros; assumption.
Qed.

(** *** Sizing, rules and arithmetic helpers *)

Lemma hostsToPrefixIPv4_loop_antitone (n : nat) (need1 need2 : Z) :
  need1 <= need2 -> hostsToPrefixIPv4_loop n need2 <= hostsToPrefixIPv4_loop n need1.
Proof.
  intros Hle. induction n as [|n IH]; [simpl; lia|].
  cbn [hostsToPrefixIPv4_loop]. cbv zeta.
  destruct (Z.leb_spec need2 (i64 (Z.shiftl 1 (32 - Z.of_nat (S n))))) as [H2|H2];
    destruct (Z.leb_spec need1 (i64 (Z.shiftl 1 (32 - Z.of_nat (S n))))) as [H1|H1]; try lia.
  pose proof (hostsToPrefixIPv4_loop_range n need2). lia.
Qed.

(** X9: for host counts whose sum with 3 fits in [int64],
    [hostsToPrefixIPv4] lies in 1..32 and more hosts never give a longer
    prefix. *)
Theorem hostsToPrefixIPv4_bounded_antitone (h1 h2 : Z) :
  - 2 ^ 63 <= h1 + 3 -> h1 <= h2 -> h2 + 3 < 2 ^ 63 ->
  1 <= hostsToPrefixIPv4 h2
  /\ hostsToPrefixIPv4 h2 <= hostsToPrefixIPv4 h1
  /\ hostsToPrefixIPv4 h1 <= 32.
Proof.
  intros Hlo Hle Hhi.
  pose proof (hostsToPrefixIPv4_range h1). pose proof (hostsToPrefixIPv4_range h2).
  split; [lia|]. split; [|lia].
  unfold hostsToPrefixIPv4. apply hostsToPrefixIPv4_loop_antitone.
  rewrite !i64_small by lia. lia.
Qed.

(** X10: [normalizeRules] is idempotent; its result has one of the three
    VLAN scopes, an oversize threshold in 1..95 and one of the three pool
    strategies, and it leaves the three boolean rules as they are. *)
Theorem normalizeRules_idempotent_valid (rules : ProjectRules) :
  normalizeRules (normalizeRules rules) = normalizeRules rules
  /\ In (VLANScope (normalizeRules rules)) [VlanScopeSite; VlanScopeGlobal; VlanScopeSiteVRF]
  /\ 1 <= OversizeThreshold (normalizeRules rules) <= 95
  /\ In (PoolStrategy (normalizeRules rules))
        [PoolStrategyContig; PoolStrategyTiered; PoolStrategySpillover]
  /\ RequireInPool (normalizeRules rules) = RequireInPool rules
  /\ AllowReservedOverlap (normalizeRules rules) = AllowReservedOverlap rules
  /\ PoolTierFallback (normalizeRules rules) = PoolTierFallback rules.
Proof.
  destruct rules as [scope rip aro thr strat fb]. unfold normalizeRules. cbn [VLANScope RequireInPool AllowReservedOverlap OversizeThreshold PoolStrategy PoolTierFallback].
  destruct (String.eqb_spec scope VlanScopeSite) as [->|Hs1];
    [|destruct (String.eqb_spec scope VlanScopeGlobal) as [->|Hs2]];
    (destruct (String.eqb_spec strat PoolStrategyContig) as [->|Hp1];
       [|destruct (String.eqb_spec strat PoolStrategyTiered) as [->|Hp2]]);
    cbn [orb];
    destruct (Z.leb_spec thr 0) as [Ht0|Ht0];
    try (destruct (Z.ltb_spec 95 thr) as [Ht1|Ht1]);
    cbn;
    repeat match goal with
           | |- context [Z.leb ?a ?b] => destruct (Z.leb_spec a b); try lia
           | |- context [Z.ltb ?a ?b] => destruct (Z.ltb_spec a b); try lia
           end;
    (split; [reflexivity|]); repeat split; try lia; cbn; tauto.
Qed.

(** X11: for [a >= 0] and [b > 0], [divCeil a b] is the ceiling of [a / b]:
    the least [q] with [a <= b * q]; and [divCeil a 0] is 0. *)
Theorem divCeil_ceiling (a b : Z) :
  0 <= a -> 0 < b ->
  b * (divCeil a b - 1) < a <= b * divCeil a b /\ divCeil a 0 = 0.
Proof.
  intros Ha Hb. split; [|reflexivity]. unfold divCeil.
  destruct (Z.eqb_spec b 0) as [Hz|_]; [lia|].
  rewrite Z.quot_div_nonneg, Z.rem_mod_nonneg by lia.
  pose proof (Z.div_mod a b ltac:(lia)) as Hdm.
  pose proof (Z.mod_pos_bound a b Hb) as Hm.
  destruct (Z.eqb_spec (a mod b) 0) as [H0|H0]; nia.
Qed.

(** X12: when the largest free block is at most the total and
    [total * 100] fits in [uint64], [fragmentationScore] is
    [(total - largest) * 100 / total] rounded down, a value in 0..100
    that no clamp changes. *)
Theorem fragmentationScore_exact (total largest : Z) :
  0 <= largest <= total -> total * 100 < 2 ^ 64 ->
  fragmentationScore total largest = (total - largest) * 100 / total
  /\ 0 <= fragmentationScore total largest <= 100.
Proof.
  intros Hl Ht. unfold fragmentationScore.
  assert (H64 : 2 ^ 64 = 18446744073709551616) by reflexivity.
  assert (H63 : 2 ^ 63 = 9223372036854775808) by reflexivity.
  destruct (Z.eqb_spec total 0) as [->|Hne].
  - assert (largest = 0) by lia. subst. split; [reflexivity|lia].
  - rewrite (u64_small (total - largest)) by lia.
    rewrite (u64_small ((total - largest) * 100)) by nia.
    assert (Hq : 0 <= (total - largest) * 100 / total <= 100).
    { split; [apply Z.div_pos; nia|]. apply Z.div_le_upper_bound; nia. }
    rewrite i64_small by lia.
    destruct (Z.ltb_spec ((total - largest) * 100 / total) 0); [lia|].
    destruct (Z.ltb_spec 100 ((total - largest) * 100 / total)); [lia|].
    split; [reflexivity|lia].
Qed.

Lemma alignUp_multiple (n step : Z) :
  0 <= n -> 0 < step ->
  n <= alignUp n step < n + step /\ alignUp n step mod step = 0.
Proof.
  intros Hn Hstep. unfold alignUp.
  destruct (Z.eqb_spec step 0) as [Hz|_]; [lia|].
  rewrite Z.quot_div_nonneg, Z.rem_mod_nonneg by lia.
  pose proof (Z.div_mod n step ltac:(lia)) as Hdm.
  pose proof (Z.mod_pos_bound n step Hstep) as Hm.
  destruct (Z.eqb_spec (n mod step) 0) as [H0|H0].
  - split; [nia|]. apply Z.mod_mul. lia.
  - split; [nia|]. apply Z.mod_mul. lia.
Qed.

(** X13: for [n >= 0] and [step > 0], [alignUp n step] is the least multiple
    of [step] that is not below [n]; with step 0 it returns [n]. *)
Theorem alignUp_least_multiple (n step : Z) :
  0 <= n -> 0 < step ->
  n <= alignUp n step < n + step /\ alignUp n step mod step = 0 /\ alignUp n 0 = n.
Proof.
  intros Hn Hstep. destruct (alignUp_multiple n step Hn Hstep) as [Hr Hm].
  split; [exact Hr|]. split; [exact Hm|reflexivity].
Qed.

(** *** Addresses and prefixes *)

Lemma BitLen_addrBitLen a : addrBitLen a = BitLen a.
Proof. destruct a; reflexivity. Qed.

Lemma Contains_div (q : Prefix) (ip : Addr) :
  0 <= host_bits q ->
  Contains q ip = true <->
  Is4 (PAddr q) = Is4 ip
  /\ value ip / 2 ^ host_bits q = value (PAddr q) / 2 ^ host_bits q.
Proof.
  intros Hhb. unfold Contains.
  rewrite andb_true_iff, Z.eqb_eq, Z.shiftr_lxor, Z.lxor_eq_0_iff,
    !Z.shiftr_div_pow2 by exact Hhb.
  split; intros [Hf Hv]; (split; [|exact Hv]).
  - apply eqb_prop in Hf. exact Hf.
  - rewrite Hf. apply eqb_reflx.
Qed.

Lemma valid_host_bits (p : Prefix) : valid p -> 0 <= host_bits p <= BitLen (PAddr p).
Proof. intros [_ Hb]. unfold host_bits. lia. Qed.

(** The first and last address of a valid prefix's block. *)
Lemma masked_block (p : Prefix) :
  valid p ->
  let hb := host_bits p in
  let first := value (PAddr p) / 2 ^ hb * 2 ^ hb in
  PAddr (Masked p) = with_value (PAddr p) first
  /\ Bits (Masked p) = Bits p
  /\ 0 <= first /\ first + 2 ^ hb <= 2 ^ BitLen (PAddr p)
  /\ prefixSize (Masked p) = 2 ^ hb.
Proof.
  intros Hv hb first. pose proof (valid_host_bits p Hv) as Hhb. fold hb in Hhb.
  destruct Hv as [Hval Hbits].
  assert (Hpk : 0 < 2 ^ hb) by (apply Z.pow_pos_nonneg; lia).
  assert (Hw : 2 ^ BitLen (PAddr p) = 2 ^ Bits p * 2 ^ hb).
  { rewrite <- Z.pow_add_r by lia. f_equal. unfold hb, host_bits. lia. }
  assert (Hpb : 0 < 2 ^ Bits p) by (apply Z.pow_pos_nonneg; lia).
  assert (Hq : 0 <= value (PAddr p) / 2 ^ hb < 2 ^ Bits p).
  { split; [apply Z.div_pos; lia|]. apply Z.div_lt_upper_bound; lia. }
  split.
  { unfold Masked. cbn [PAddr]. fold hb.
    rewrite Z.shiftl_mul_pow2, Z.shiftr_div_pow2 by lia. reflexivity. }
  split; [reflexivity|].
  split; [unfold first; nia|]. split; [unfold first; nia|].
  unfold prefixSize, Masked. cbn [PAddr Bits].
  rewrite BitLen_addrBitLen.
  assert (Hbl : BitLen (with_value (PAddr p)
                   (Z.shiftl (Z.shiftr (value (PAddr p)) (host_bits p)) (host_bits p)))
                = BitLen (PAddr p)) by (destruct (PAddr p); reflexivity).
  rewrite Hbl. change (BitLen (PAddr p) - Bits p) with hb.
  destruct (Z.leb_spec hb 0) as [Hz|_]; [|apply Z.shiftl_1_l].
  replace hb with 0 by lia. reflexivity.
Qed.

Lemma Contains_self (p : Prefix) : Contains p (PAddr p) = true.
Proof.
  unfold Contains. rewrite eqb_reflx, Z.lxor_nilpotent, Z.shiftr_0_l. reflexivity.
Qed.

Lemma div_pow2_coarser (x y a b : Z) :
  0 <= a <= b -> x / 2 ^ a = y / 2 ^ a -> x / 2 ^ b = y / 2 ^ b.
Proof.
  intros Hab Hxy.
  assert (Hsplit : 2 ^ b = 2 ^ a * 2 ^ (b - a))
    by (rewrite <- Z.pow_add_r by lia; f_equal; lia).
  assert (0 < 2 ^ a) by (apply Z.pow_pos_nonneg; lia).
  assert (0 < 2 ^ (b - a)) by (apply Z.pow_pos_nonneg; lia).
  rewrite Hsplit, <- !Z.div_div by lia. rewrite Hxy. reflexivity.
Qed.

(** X14: [bigToAddr] undoes [addrToBig] on every address; it refuses
    negative numbers and numbers of more bits than the family has; and an
    address it returns is of the family asked for and converts back to
    the number. *)
Theorem bigToAddr_addrToBig (a : Addr) (i bits : Z) :
  (0 <= value a < 2 ^ BitLen a -> bigToAddr (addrToBig a) (addrBitLen a) = Some a)
  /\ (i < 0 \/ 2 ^ (if bits =? 32 then 32 else 128) <= i -> bigToAddr i bits = None)
  /\ (forall b, bigToAddr i bits = Some b ->
        addrToBig b = i /\ Is4 b = (bits =? 32) /\ 0 <= i < 2 ^ BitLen b).
Proof.
  split; [|split].
  - intros Hv. unfold bigToAddr, addrToBig. destruct a as [v|v]; simpl in *.
    + destruct (Z.ltb_spec v 0); [lia|]. destruct (Z.leb_spec (2 ^ 32) v); [lia|]. reflexivity.
    + destruct (Z.ltb_spec v 0); [lia|]. destruct (Z.leb_spec (2 ^ 128) v); [lia|]. reflexivity.
  - intros Hi. unfold bigToAddr. destruct (bits =? 32).
    + destruct (Z.ltb_spec i 0); [reflexivity|]. destruct (Z.leb_spec (2 ^ 32) i); [reflexivity|lia].
    + destruct (Z.ltb_spec i 0); [reflexivity|]. destruct (Z.leb_spec (2 ^ 128) i); [reflexivity|lia].
  - intros b Hb. unfold bigToAddr in Hb. destruct (bits =? 32).
    + destruct (Z.ltb_spec i 0); [discriminate|]. destruct (Z.leb_spec (2 ^ 32) i); [discriminate|].
      injection Hb as <-. simpl. repeat split; lia.
    + destruct (Z.ltb_spec i 0); [discriminate|]. destruct (Z.leb_spec (2 ^ 128) i); [discriminate|].
      injection Hb as <-. simpl. repeat split; lia.
Qed.

Lemma overlap_common (a b : Prefix) :
  valid a -> valid b ->
  (prefixesOverlap a b = true <-> exists ip, Contains a ip = true /\ Contains b ip = true).
Proof.
  intros Ha Hb.
  pose proof (valid_host_bits a Ha) as Hha. pose proof (valid_host_bits b Hb) as Hhb.
  unfold prefixesOverlap. rewrite orb_true_iff. split.
  - intros [H|H].
    + exists (PAddr b). split; [exact H|apply Contains_self].
    + exists (PAddr a). split; [apply Contains_self|exact H].
  - intros (ip & Hia & Hib).
    apply Contains_div in Hia as [Hfa Hva]; [|lia].
    apply Contains_div in Hib as [Hfb Hvb]; [|lia].
    destruct (Z.le_gt_cases (host_bits b) (host_bits a)) as [Hle|Hgt].
    + left. apply Contains_div; [lia|]. split; [congruence|].
      rewrite <- Hva. apply div_pow2_coarser with (a := host_bits b); [lia|].
      symmetry. exact Hvb.
    + right. apply Contains_div; [lia|]. split; [congruence|].
      rewrite <- Hvb. apply div_pow2_coarser with (a := host_bits a); [lia|].
      symmetry. exact Hva.
Qed.

(** X15: for valid prefixes, [prefixesOverlap] is true exactly when some
    address lies in both, and it is symmetric. *)
Theorem prefixesOverlap_common_address (a b : Prefix) :
  valid a -> valid b ->
  (prefixesOverlap a b = true <-> exists ip, Contains a ip = true /\ Contains b ip = true)
  /\ prefixesOverlap a b = prefixesOverlap b a.
Proof.
  intros Ha Hb. split; [apply overlap_common; assumption|].
  unfold prefixesOverlap. apply orb_comm.
Qed.

Lemma prefixLastAddr_in (p : Prefix) :
  valid p -> exists last, prefixLastAddr p = Some last /\ Contains p last = true.
Proof.
  intros Hv. pose proof (valid_host_bits p Hv) as Hhb.
  destruct (masked_block p Hv) as (Haddr & Hbits & H0 & Htop & Hsize).
  unfold prefixLastAddr. rewrite Hsize, Haddr. cbv zeta.
  set (hb := host_bits p) in *.
  set (first := value (PAddr p) / 2 ^ hb * 2 ^ hb) in *.
  assert (Hpk : 0 < 2 ^ hb) by (apply Z.pow_pos_nonneg; lia).
  assert (Hlast : bigToAddr (addrToBig (with_value (PAddr p) first) + 2 ^ hb - 1)
                    (addrBitLen (with_value (PAddr p) first))
                  = Some (with_value (PAddr p) (first + 2 ^ hb - 1))).
  { unfold bigToAddr, addrToBig. destruct (PAddr p) as [v|v]; simpl in *.
    - destruct (Z.ltb_spec (first + 2 ^ hb - 1) 0); [lia|].
      destruct (Z.leb_spec (2 ^ 32) (first + 2 ^ hb - 1)); [lia|]. reflexivity.
    - destruct (Z.ltb_spec (first + 2 ^ hb - 1) 0); [lia|].
      destruct (Z.leb_spec (2 ^ 128) (first + 2 ^ hb - 1)); [lia|]. reflexivity. }
  rewrite Hlast. eexists. split; [reflexivity|].
  apply Contains_div; [lia|]. fold hb. split; [destruct (PAddr p); reflexivity|].
  assert (Hv' : value (with_value (PAddr p) (first + 2 ^ hb - 1)) = first + 2 ^ hb - 1)
    by (destruct (PAddr p); reflexivity).
  rewrite Hv'. unfold first. symmetry.
  apply (Z.div_unique _ _ _ (2 ^ hb - 1)); lia.
Qed.

Lemma prefixWithin_block (pool p : Prefix) :
  valid pool -> valid p ->
  ((forall ip, Contains p ip = true -> Contains pool ip = true) -> prefixWithin pool p = true)
  /\ (prefixWithin pool p = true -> Bits pool <= Bits p ->
      forall ip, Contains p ip = true -> Contains pool ip = true).
Proof.
  intros Hpool Hp.
  pose proof (valid_host_bits pool Hpool) as Hhpool. pose proof (valid_host_bits p Hp) as Hhp.
  split.
  - intros Hall. unfold prefixWithin.
    rewrite (Hall (PAddr p) (Contains_self p)). cbn [negb].
    destruct (prefixLastAddr_in p Hp) as (last & -> & Hlast). apply Hall, Hlast.
  - intros Hwithin Hbits ip Hip. unfold prefixWithin in Hwithin.
    destruct (Contains pool (PAddr p)) eqn:Hfirst; [|discriminate].
    apply Contains_div in Hfirst as [Hf1 Hv1]; [|lia].
    apply Contains_div in Hip as [Hf2 Hv2]; [|lia].
    apply Contains_div; [lia|]. split; [congruence|].
    rewrite <- Hv1. apply div_pow2_coarser with (a := host_bits p); [|exact Hv2].
    assert (BitLen (PAddr pool) = BitLen (PAddr p)).
    { destruct (PAddr pool), (PAddr p); try reflexivity; discriminate. }
    unfold host_bits in *. lia.
Qed.

(** X16: for valid prefixes: if every address of [p] is in [pool] then
    [prefixWithin pool p] is true; and if [prefixWithin pool p] is true
    and [p] is at least as long as [pool], every address of [p] is in
    [pool]. *)
Theorem prefixWithin_contains_block (pool p : Prefix) :
  valid pool -> valid p ->
  ((forall ip, Contains p ip = true -> Contains pool ip = true) -> prefixWithin pool p = true)
  /\ (prefixWithin pool p = true -> Bits pool <= Bits p ->
      forall ip, Contains p ip = true -> Contains pool ip = true).
Proof. apply prefixWithin_block. Qed.

(** The addresses a valid prefix contains are those of its block. *)
Lemma Contains_range (p : Prefix) (ip : Addr) :
  valid p ->
  let first := value (PAddr (Masked p)) in
  Contains p ip = true <->
  Is4 (PAddr p) = Is4 ip /\ first <= value ip < first + 2 ^ host_bits p.
Proof.
  intros Hv first. pose proof (valid_host_bits p Hv) as Hhb.
  destruct (masked_block p Hv) as (Haddr & _ & _ & _ & _).
  assert (Hfirst : first = value (PAddr p) / 2 ^ host_bits p * 2 ^ host_bits p).
  { unfold first. rewrite Haddr. destruct (PAddr p); reflexivity. }
  rewrite Contains_div by lia. rewrite Hfirst.
  assert (Hpk : 0 < 2 ^ host_bits p) by (apply Z.pow_pos_nonneg; lia).
  set (d := 2 ^ host_bits p) in *. set (x := value ip). set (v := value (PAddr p)).
  pose proof (Z.div_mod x d ltac:(lia)) as Hx. pose proof (Z.mod_pos_bound x d Hpk) as Hxm.
  split; intros [Hf Hr]; (split; [exact Hf|]).
  - rewrite <- Hr. nia.
  - symmetry. apply (Z.div_unique x d (v / d) (x - v / d * d)); lia.
Qed.

(** X17: every pool that [filterPoolsByTier] returns is one of the pools
    given and matches the tier in the sense of [poolTierMatches]; without
    fallback its tier is the tier asked for; with fallback the result is
    empty only when no pool was given. *)
Theorem filterPoolsByTier_matches (items : list poolItem) (tier : string) (fallback : bool) :
  Forall (fun pool => In pool items
                      /\ poolTierMatches pool tier fallback = true
                      /\ (fallback = false -> item_Tier pool = tier))
         (filterPoolsByTier items tier fallback)
  /\ (fallback = true -> items <> [] -> filterPoolsByTier items tier fallback <> []).
Proof.
  unfold filterPoolsByTier, poolTierMatches, isEmpty.
  destruct (String.eqb_spec tier EmptyString) as [->|Hne]; cbn [negb].
  - set (empty := List.filter (fun p => String.eqb (item_Tier p) "") items).
    assert (Hempty : Forall (fun pool => In pool items /\ item_Tier pool = EmptyString) empty).
    { apply List.Forall_forall. intros pool Hin. apply List.filter_In in Hin as [Hin Ht].
      apply String.eqb_eq in Ht. split; assumption. }
    destruct (Z.ltb_spec 0 (Z.of_nat (length empty))) as [Hpos|Hzero].
    + split.
      * eapply List.Forall_impl; [|exact Hempty]. intros pool [Hin Ht]. rewrite Ht. cbn. auto.
      * intros _ _ Hnil. rewrite Hnil in Hpos. simpl in Hpos. lia.
    + destruct fallback.
      * split; [|auto]. apply List.Forall_forall. intros pool Hin. split; [exact Hin|].
        split; [|discriminate]. destruct (String.eqb (item_Tier pool) ""); reflexivity.
      * split; [constructor|discriminate].
  - set (out := List.filter (fun p => String.eqb (item_Tier p) tier) items).
    assert (Hout : Forall (fun pool => In pool items /\ item_Tier pool = tier) out).
    { apply List.Forall_forall. intros pool Hin. apply List.filter_In in Hin as [Hin Ht].
      apply String.eqb_eq in Ht. split; assumption. }
    destruct (Z.eqb_spec (Z.of_nat (length out)) 0) as [Hzero|Hpos]; cbn [andb].
    + destruct fallback.
      * split; [|auto]. apply List.Forall_forall. intros pool Hin. split; [exact Hin|].
        split; [|discriminate]. destruct (String.eqb (item_Tier pool) tier); reflexivity.
      * split; [|discriminate].
        eapply List.Forall_impl; [|exact Hout]. intros pool [Hin Ht]. rewrite Ht, String.eqb_refl. auto.
    + split.
      * eapply List.Forall_impl; [|exact Hout]. intros pool [Hin Ht]. rewrite Ht, String.eqb_refl. auto.
      * intros _ _ Hnil. rewrite Hnil in Hpos. simpl in Hpos. lia.
Qed.

(** X18: after [addStatus] the entry of the id exists, its level is the
    higher of the old level and the one given (the one given for a new
    entry), the detail is appended to the old details unless it is empty,
    and the entries of other ids are as before. *)
Theorem addStatus_raises_only (statuses : gmap Z SegmentStatus) (id : Z) (level : statusLevel)
    (detail : string) :
  (exists v, addStatus statuses id level detail !! id = Some v
     /\ level_rank level <= level_rank (st_Level v)
     /\ match statuses !! id with
        | Some old =>
            level_rank (st_Level v) = Z.max (level_rank (st_Level old)) (level_rank level)
            /\ Details v = Details old ++ (if isEmpty detail then [] else [detail])
        | None => st_Level v = level /\ Details v = if isEmpty detail then [] else [detail]
        end)
  /\ (forall other, other <> id -> addStatus statuses id level detail !! other = statuses !! other).
Proof.
  unfold addStatus. split.
  - rewrite lookup_insert_eq. eexists. split; [reflexivity|].
    destruct (statuses !! id) as [[old ds]|]; cbn [st_Level Details].
    + destruct (Z.ltb_spec (level_rank old) (level_rank level)) as [Hlt|Hge];
        destruct (isEmpty detail); cbn [negb st_Level Details];
        (split; [lia|]); (split; [lia|]); rewrite ?app_nil_r; reflexivity.
    + destruct (Z.ltb_spec (level_rank level) (level_rank level)) as [Hlt|Hge]; [lia|].
      destruct (isEmpty detail); cbn [negb st_Level Details]; (split; [lia|]); split; reflexivity.
  - intros other Hne. apply lookup_insert_ne. congruence.
Qed.

(** *** The pool catalogue *)

Section StableSort.
Context {A : Type} (less : A -> A -> bool) (R : A -> A -> Prop).
Hypothesis less_R : forall a b, less a b = true -> R a b.
Hypothesis not_less_R : forall a b, less a b = false -> R b a.
Hypothesis R_trans : forall a b c, R a b -> R b c -> R a c.

Lemma insert_sorted_permutation (x : A) (l : list A) :
  Permutation (x :: l) (insert_sorted less x l).
Proof.
  induction l as [|y l IH]; simpl; [reflexivity|].
  destruct (less y x); [|reflexivity].
  rewrite perm_swap. apply perm_skip, IH.
Qed.

Lemma insert_sorted_keeps_order (x : A) (l : list A) :
  StronglySorted R l -> StronglySorted R (insert_sorted less x l).
Proof.
  induction l as [|y l IH]; intros Hl; simpl.
  - repeat constructor.
  - apply StronglySorted_inv in Hl as [Hl Hy].
    destruct (less y x) eqn:Hyx.
    + constructor; [apply IH, Hl|].
      eapply Permutation_Forall; [apply insert_sorted_permutation|].
      constructor; [apply less_R, Hyx|exact Hy].
    + constructor; [constructor; assumption|].
      constructor; [apply not_less_R, Hyx|].
      eapply List.Forall_impl; [|exact Hy]. intros b Hb.
      apply (R_trans x y b); [apply not_less_R, Hyx|exact Hb].
Qed.

Lemma sort_SliceStable_sorts (l : list A) :
  Permutation l (sort_SliceStable less l) /\ StronglySorted R (sort_SliceStable less l).
Proof.
  unfold sort_SliceStable. induction l as [|x l [IHp IHs]]; simpl.
  - split; constructor.
  - split.
    + rewrite <- insert_sorted_permutation. apply perm_skip, IHp.
    + apply insert_sorted_keeps_order, IHs.
Qed.

End StableSort.

Section PoolItems.
Context {L : GoLib}.

Lemma poolItems_collect_spec (pools : list Pool) (family : string) (it : poolItem) :
  In it (poolItems_collect pools family) <->
  In (item_Pool it) pools
  /\ normalizePoolFamily (Family (item_Pool it)) = family
  /\ ParsePrefix (TrimSpace (pool_CIDR (item_Pool it))) = Some (item_Prefix it)
  /\ item_Tier it = poolTierValue (item_Pool it)
  /\ (family = "ipv4"%string -> Is4 (PAddr (item_Prefix it)) = true)
  /\ (family = "ipv6"%string -> Is6 (PAddr (item_Prefix it)) = true).
Proof.
  induction pools as [|p pools IH]; cbn [poolItems_collect].
  - split; [intros []|intros [[] _]].
  - assert (Hskip : (forall prefix, ParsePrefix (TrimSpace (pool_CIDR p)) = Some prefix ->
                       normalizePoolFamily (Family p) = family ->
                       (family = "ipv4"%string -> Is4 (PAddr prefix) = true) ->
                       (family = "ipv6"%string -> Is6 (PAddr prefix) = true) -> False) ->
              (In it (poolItems_collect pools family) <->
               In (item_Pool it) (p :: pools)
               /\ normalizePoolFamily (Family (item_Pool it)) = family
               /\ ParsePrefix (TrimSpace (pool_CIDR (item_Pool it))) = Some (item_Prefix it)
               /\ item_Tier it = poolTierValue (item_Pool it)
               /\ (family = "ipv4"%string -> Is4 (PAddr (item_Prefix it)) = true)
               /\ (family = "ipv6"%string -> Is6 (PAddr (item_Prefix it)) = true))).
    { intros Hno. rewrite IH. split.
      - intros (Hin & Hrest). split; [right; exact Hin|exact Hrest].
      - intros ([<-|Hin] & Hf & Hp & Ht & H4 & H6); [|tauto].
        exfalso. apply (Hno _ Hp Hf H4 H6). }
    destruct (String.eqb_spec (normalizePoolFamily (Family p)) family) as [Hfam|Hfam];
      cbn [negb]; [|apply Hskip; intros; contradiction].
    destruct (ParsePrefix (TrimSpace (pool_CIDR p))) as [prefix|] eqn:Hparse;
      [|apply Hskip; intros; discriminate].
    destruct (String.eqb_spec family "ipv4") as [H4|H4]; cbn [andb].
    + destruct (Is4 (PAddr prefix)) eqn:Hv4; cbn [negb].
      * assert (H6 : String.eqb family "ipv6" = false) by (rewrite H4; reflexivity).
        rewrite H6. cbn [andb]. cbn [In]. rewrite IH. split.
        -- intros [<-|(Hin & Hrest)]; [|split; [right; exact Hin|exact Hrest]].
           cbn [item_Pool item_Prefix item_Tier].
           split; [left; reflexivity|]. split; [exact Hfam|]. split; [exact Hparse|].
           split; [reflexivity|]. split; [intros _; exact Hv4|]. rewrite H4. discriminate.
        -- intros ([Heq|Hin] & Hf & Hp & Ht & Hi4 & Hi6); [left|right; tauto].
           destruct it as [ip ipre it]. cbn [item_Pool item_Prefix item_Tier] in *.
           subst ip. rewrite Hparse in Hp. injection Hp as <-. rewrite Ht. reflexivity.
      * apply Hskip. intros prefix' Hp _ Hi4 _. injection Hp as <-.
        rewrite (Hi4 H4) in Hv4. discriminate.
    + destruct (String.eqb_spec family "ipv6") as [H6|H6]; cbn [andb].
      * destruct (Is6 (PAddr prefix)) eqn:Hv6; cbn [negb].
        -- cbn [In]. rewrite IH. split.
           ++ intros [<-|(Hin & Hrest)]; [|split; [right; exact Hin|exact Hrest]].
              cbn [item_Pool item_Prefix item_Tier].
              split; [left; reflexivity|]. split; [exact Hfam|]. split; [exact Hparse|].
              split; [reflexivity|]. split; [intros; contradiction|intros _; exact Hv6].
           ++ intros ([Heq|Hin] & Hf & Hp & Ht & Hi4 & Hi6); [left|right; tauto].
              destruct it as [ip ipre it]. cbn [item_Pool item_Prefix item_Tier] in *.
              subst ip. rewrite Hparse in Hp. injection Hp as <-. rewrite Ht. reflexivity.
        -- apply Hskip. intros prefix' Hp _ _ Hi6. injection Hp as <-.
           rewrite (Hi6 H6) in Hv6. discriminate.
      * cbn [In]. rewrite IH. split.
        -- intros [<-|(Hin & Hrest)]; [|split; [right; exact Hin|exact Hrest]].
           cbn [item_Pool item_Prefix item_Tier].
           split; [left; reflexivity|]. split; [exact Hfam|]. split; [exact Hparse|].
           split; [reflexivity|]. split; intros; contradiction.
        -- intros ([Heq|Hin] & Hf & Hp & Ht & Hi4 & Hi6); [left|right; tauto].
           destruct it as [ip ipre it]. cbn [item_Pool item_Prefix item_Tier] in *.
           subst ip. rewrite Hparse in Hp. injection Hp as <-. rewrite Ht. reflexivity.
Qed.

(** X19: [poolItemsForFamily] returns the pools in non-decreasing priority;
    an item is returned exactly when its pool is among the pools given,
    is of the family, has a CIDR that parses (after trimming) to the
    item's prefix, which is an IPv4 prefix for [ipv4] and an IPv6 one for
    [ipv6], and the item's tier is the pool's tier value. *)
Theorem poolItemsForFamily_by_priority (pools : list Pool) (family : string) :
  StronglySorted (fun a b => Priority (item_Pool a) <= Priority (item_Pool b))
    (poolItemsForFamily pools family)
  /\ (forall it, In it (poolItemsForFamily pools family) <->
        In (item_Pool it) pools
        /\ normalizePoolFamily (Family (item_Pool it)) = family
        /\ ParsePrefix (TrimSpace (pool_CIDR (item_Pool it))) = Some (item_Prefix it)
        /\ item_Tier it = poolTierValue (item_Pool it)
        /\ (family = "ipv4"%string -> Is4 (PAddr (item_Prefix it)) = true)
        /\ (family = "ipv6"%string -> Is6 (PAddr (item_Prefix it)) = true)).
Proof.
  unfold poolItemsForFamily.
  destruct (sort_SliceStable_sorts poolItem_less
              (fun a b => Priority (item_Pool a) <= Priority (item_Pool b)))
    with (l := poolItems_collect pools family) as [Hperm Hsorted].
  - intros a b. unfold poolItem_less.
    destruct (Z.eqb_spec (Priority (item_Pool a)) (Priority (item_Pool b))); cbn [negb];
      [lia|]. intros H. apply Z.ltb_lt in H. lia.
  - intros a b. unfold poolItem_less.
    destruct (Z.eqb_spec (Priority (item_Pool a)) (Priority (item_Pool b))); cbn [negb];
      [lia|]. intros H. apply Z.ltb_ge in H. lia.
  - intros a b c. lia.
  - split; [exact Hsorted|].
    intros it. rewrite <- poolItems_collect_spec. split; intros Hin.
    + eapply Permutation_in; [symmetry; exact Hperm|exact Hin].
    + eapply Permutation_in; [exact Hperm|exact Hin].
Qed.

End PoolItems.

(** *** Store writes, the IPv6 sweep, IPv6 block lists *)

Section Writes.
Context {L : GoLib}.

Lemma updateAll_log (entries : list (Z * Prefix)) (family : string) (log : list StoreOp) :
  updateAll (E := Demo.logStore) entries family log
  = (log ++ map (fun e => UpdateCIDR (fst e) family (PrefixString (snd e))) entries, None).
Proof.
  revert log. induction entries as [|[id p] entries IH]; intros log; cbn [updateAll map].
  - rewrite app_nil_r. reflexivity.
  - unfold updateSegmentCIDRByFamily. cbn [Exec Demo.logStore].
    rewrite IH, <- app_assoc. reflexivity.
Qed.

(** X20: through a store that records the statements it is sent and
    never fails, [allocateFamily] either writes nothing, or returns no
    error after one clearing of the site's CIDRs of the family followed
    only by updates of segments of the list that are not locked and ask
    for a prefix of the family. *)
Theorem allocateFamily_writes (siteID : Z) (segs : list Segment) (pools : list Pool)
    (reserved : list Prefix) (rules : ProjectRules) (family : string)
    (log : list StoreOp) (err : option string) :
  (forall entries : list (Z * Prefix), Permutation entries (range_order entries)) ->
  allocateFamily (E := Demo.logStore) [] siteID segs pools reserved rules family
  = Ret (log, err) ->
  log = []
  \/ err = None
     /\ exists updates,
          log = ClearCIDRs siteID family :: updates
          /\ Forall (fun op => exists s p,
                       op = UpdateCIDR (ID s) family (PrefixString p)
                       /\ In s segs /\ Locked s = false
                       /\ desiredPrefixByFamily s family <> 0) updates.
Proof.
  intros Hrange Hrun. unfold allocateFamily in Hrun.
  destruct (Z.of_nat (length (poolItemsForFamily pools family)) =? 0);
    [injection Hrun as <- _; left; reflexivity|].
  destruct (Z.of_nat (length (strictCandidates segs family)) =? 0);
    [injection Hrun as <- _; left; reflexivity|].
  apply bind_Ret in Hrun as ([alloc cf] & Hstrategy & Hrest).
  destruct cf as [|c cf]; [|injection Hrest as <- _; left; reflexivity].
  unfold clearCIDRsByFamily in Hrest. cbn [Exec Demo.logStore app] in Hrest.
  rewrite updateAll_log in Hrest. injection Hrest as <- <-.
  right. split; [reflexivity|]. eexists. split; [reflexivity|].
  apply List.Forall_map, List.Forall_forall. intros [id p] Hin. cbn [fst snd].
  apply (Permutation_in _ (Permutation_sym (Hrange _))) in Hin.
  apply list_elem_of_In, elem_of_map_to_list in Hin.
  pose proof (runStrategy_keys _ _ _ _ _ _ _ _ _ _ Hstrategy Hin) as Hkey.
  apply in_map_iff in Hkey as (s & <- & Hs).
  apply (Permutation_in _ (Permutation_sym
           (proj1 (sort_SliceStable_by_key (fun s => desiredPrefixByFamily s family) _)))) in Hs.
  unfold strictCandidates in Hs. apply List.filter_In in Hs as [Hs Hok].
  apply andb_true_iff in Hok as [Hl Hw].
  exists s, p. split; [reflexivity|]. split; [exact Hs|].
  split; [destruct (Locked s); [discriminate|reflexivity]|].
  destruct (Z.eqb_spec (desiredPrefixByFamily s family) 0); [discriminate|assumption].
Qed.

(** X21: for a requested length up to 128 the sweep of
    [allocateInPoolIPv6] ends, whatever the pool and the prefixes in use. *)
Theorem allocateInPoolIPv6_total (pool : Prefix) (want : Z) (used : list Prefix) :
  want <= 128 -> exists r, allocateInPoolIPv6 pool want used = Ret r.
Proof.
  intros Hwant.
  pose proof (allocateInPoolIPv6_returns L pool want used) as Hret.
  unfold allocateInPoolIPv6 in *.
  destruct (negb (Is6 (PAddr pool))); [eexists; reflexivity|].
  destruct (want <? Bits (Masked pool)); [eexists; reflexivity|].
  destruct (Z.ltb_spec 128 want); [lia|].
  unfold go_loop in *.
  destruct (loop_rounds _ _ _) as [s|r]; [contradiction|]. eexists. reflexivity.
Qed.

End Writes.

Lemma bigRangeToPrefixes_loop_blocks (n : nat) (start step end_ unitPrefix : Z) :
  1 <= unitPrefix <= 128 -> step = 2 ^ (128 - unitPrefix) ->
  0 <= start -> start mod step = 0 ->
  let out := bigRangeToPrefixes_loop n start step end_ unitPrefix in
  (length out <= n)%nat
  /\ forall k p, nth_error out k = Some p ->
       p = PrefixFrom (Addr6 (start + Z.of_nat k * step)) unitPrefix
       /\ start + Z.of_nat k * step + step - 1 <= end_
       /\ start + Z.of_nat k * step + step <= 2 ^ 128.
Proof.
  intros Hunit Hstep. assert (Hpos : 0 < step) by (subst step; apply Z.pow_pos_nonneg; lia).
  revert start. induction n as [|n IH]; intros start H0 Hal; cbn [bigRangeToPrefixes_loop].
  - split; [simpl; lia|]. intros [|k] p Hk; discriminate.
  - cbv zeta. destruct (Z.ltb_spec end_ (start + step - 1)) as [Hout|Hin].
    { split; [simpl; lia|]. intros [|k] p Hk; discriminate. }
    unfold bigToAddr. change (128 =? 32) with false. cbv iota.
    destruct (Z.ltb_spec start 0); [lia|].
    destruct (Z.leb_spec (2 ^ 128) start) as [Hbig|Hsmall]; cbn [orb].
    { split; [simpl; lia|]. intros [|k] p Hk; discriminate. }
    destruct (IH (start + step)) as [Hlen Hnth]; [lia| |].
    { rewrite <- (Z.mul_1_l step) at 1. rewrite Z.mod_add by lia. exact Hal. }
    split; [cbn [length]; lia|].
    intros [|k] p Hk; cbn [nth_error] in Hk.
    + injection Hk as <-. rewrite Z.mul_0_l, Z.add_0_r.
      assert (Hmasked : Masked (PrefixFrom (Addr6 start) unitPrefix)
                        = PrefixFrom (Addr6 start) unitPrefix).
      { unfold Masked, host_bits. cbn [PAddr Bits BitLen with_value value].
        rewrite Z.shiftl_mul_pow2, Z.shiftr_div_pow2 by lia. f_equal. f_equal.
        rewrite <- Hstep. pose proof (Z.div_mod start step ltac:(lia)). lia. }
      rewrite Hmasked. split; [reflexivity|]. split; [lia|].
      (* the block ends within 128 bits: start < 2^128 and both are multiples of step *)
      assert (H128 : 2 ^ 128 = step * 2 ^ unitPrefix).
      { subst step. rewrite <- Z.pow_add_r by lia. f_equal. lia. }
      pose proof (Z.div_mod start step ltac:(lia)) as Hdm. rewrite Hal in Hdm.
      assert (start / step < 2 ^ unitPrefix) by nia. nia.
    + destruct (Hnth k p Hk) as (-> & Hend & Htop).
      rewrite Nat2Z.inj_succ. split; [f_equal; f_equal; lia|]. split; lia.
Qed.

(** X22: for a unit length in 1..128 and a range that starts at 0 or
    above, [bigRangeToPrefixes] returns at most [limit] prefixes; the
    [k]-th is the block of the unit length at the first aligned address
    of the range plus [k] steps, and it lies inside the range. *)
Theorem bigRangeToPrefixes_blocks (r : bigRange) (unitPrefix limit : Z) :
  1 <= unitPrefix <= 128 -> 0 <= b_start r ->
  let step := 2 ^ (128 - unitPrefix) in
  let out := bigRangeToPrefixes r unitPrefix limit in
  Z.of_nat (length out) <= Z.max 0 limit
  /\ forall k p, nth_error out k = Some p ->
       p = PrefixFrom (Addr6 (alignUp (b_start r) step + Z.of_nat k * step)) unitPrefix
       /\ b_start r <= value (PAddr p)
       /\ value (PAddr p) + step - 1 <= b_end r
       /\ value (PAddr p) mod step = 0.
Proof.
  intros Hunit H0 step out. unfold out, bigRangeToPrefixes.
  assert (Hpos : 0 < step) by (apply Z.pow_pos_nonneg; lia).
  destruct (Z.leb_spec unitPrefix 0); [lia|].
  destruct (Z.ltb_spec 128 unitPrefix); [lia|]. cbn [orb].
  destruct (Z.leb_spec limit 0) as [Hl|Hl].
  { split; [simpl; lia|]. intros [|k] p Hk; discriminate. }
  rewrite Z.shiftl_1_l. fold step.
  destruct (alignUp_multiple (b_start r) step H0 Hpos) as [Hge Hmod].
  destruct (bigRangeToPrefixes_loop_blocks (Z.to_nat limit) (alignUp (b_start r) step) step
              (b_end r) unitPrefix Hunit eq_refl) as [Hlen Hnth]; [lia|exact Hmod|].
  split; [lia|].
  intros k p Hk. destruct (Hnth k p Hk) as (-> & Hend & _). cbn [PAddr value].
  split; [reflexivity|]. split; [nia|]. split; [lia|].
  rewrite Z.mod_add by lia. exact Hmod.
Qed.

(** *** Splitting an IPv4 range into prefixes *)

Lemma loop_rounds_inv_measure {S R : Type} (Inv : S -> Prop) (Post : R -> Prop) (m : S -> Z)
    (body : S -> S + R) :
  (forall s s', Inv s -> body s = inl s' -> Inv s' /\ m s' < m s) ->
  (forall s r, Inv s -> body s = inr r -> Post r) ->
  forall bound s, Inv s ->
    match loop_rounds bound body s with
    | inl s' => Inv s' /\ m s' + Z.pos bound <= m s
    | inr r => Post r
    end.
Proof.
  intros Hstep Hexit bound.
  induction bound as [b IH|b IH|]; intros s Hs; cbn [loop_rounds].
  - destruct (body s) as [s1|r] eqn:E1; [|eauto].
    destruct (Hstep _ _ Hs E1) as [Hs1 Hm1]. pose proof (IH s1 Hs1) as H1.
    destruct (loop_rounds b body s1) as [s2|r]; [|exact H1].
    destruct H1 as [Hs2 Hm2]. pose proof (IH s2 Hs2) as H2.
    destruct (loop_rounds b body s2) as [s3|r]; [|exact H2].
    destruct H2 as [Hs3 Hm3]. split; [exact Hs3|]. rewrite Pos2Z.inj_xI. lia.
  - pose proof (IH s Hs) as H1.
    destruct (loop_rounds b body s) as [s1|r]; [|exact H1].
    destruct H1 as [Hs1 Hm1]. pose proof (IH s1 Hs1) as H2.
    destruct (loop_rounds b body s1) as [s2|r]; [|exact H2].
    destruct H2 as [Hs2 Hm2]. split; [exact Hs2|]. rewrite Pos2Z.inj_xO. lia.
  - destruct (body s) as [s1|r] eqn:E1; [|eauto].
    destruct (Hstep _ _ Hs E1) as [Hs1 Hm1]. split; [exact Hs1|lia].
Qed.

(** A loop that keeps an invariant and lowers a non-negative measure
    returns, within the rounds the measure allows, a value the invariant
    vouches for. *)
Lemma go_loop_total {S R : Type} (Inv : S -> Prop) (Post : R -> Prop) (m : S -> Z)
    (body : S -> S + R) (bound : positive) (s : S) :
  (forall s s', Inv s -> body s = inl s' -> Inv s' /\ m s' < m s) ->
  (forall s r, Inv s -> body s = inr r -> Post r) ->
  (forall s, Inv s -> 0 <= m s) ->
  Inv s -> m s < Z.pos bound ->
  exists r, go_loop bound body s = Ret r /\ Post r.
Proof.
  intros Hstep Hexit Hpos Hs Hm. unfold go_loop.
  pose proof (loop_rounds_inv_measure Inv Post m body Hstep Hexit bound s Hs) as Hrun.
  destruct (loop_rounds bound body s) as [s'|r].
  - destruct Hrun as [Hs' Hm']. pose proof (Hpos s' Hs'). lia.
  - exists r. split; [reflexivity|exact Hrun].
Qed.

Lemma trailingZeros_divides (n : nat) (x : Z) :
  0 <= trailingZeros n x <= Z.of_nat n /\ x mod 2 ^ trailingZeros n x = 0.
Proof.
  revert x. induction n as [|n IH]; intros x; cbn [trailingZeros].
  - split; [lia|]. apply Z.mod_1_r.
  - destruct (Z.odd x) eqn:Hodd.
    + split; [lia|]. apply Z.mod_1_r.
    + destruct (IH (x / 2)) as [Hr Hd]. split; [lia|].
      rewrite Z.pow_add_r, Z.pow_1_r by lia.
      assert (Hx : x = 2 * (x / 2)).
      { pose proof (Z.div_mod x 2 ltac:(lia)) as Hdm.
        rewrite Zmod_odd, Hodd in Hdm. lia. }
      rewrite Hx at 1.
      rewrite Z.mul_mod_distr_l by (try apply Z.pow_nonzero; lia). lia.
Qed.

Lemma TrailingZeros32_divides (x : Z) :
  0 <= TrailingZeros32 x <= 32 /\ x mod 2 ^ TrailingZeros32 x = 0.
Proof.
  unfold TrailingZeros32. destruct (Z.eqb_spec x 0) as [->|_].
  - split; [lia|reflexivity].
  - apply (trailingZeros_divides 32 x).
Qed.

Lemma mod_pow2_finer (x a b : Z) : 0 <= b <= a -> x mod 2 ^ a = 0 -> x mod 2 ^ b = 0.
Proof.
  intros Hab Hx.
  assert (Hsplit : 2 ^ a = 2 ^ b * 2 ^ (a - b))
    by (rewrite <- Z.pow_add_r by lia; f_equal; lia).
  assert (0 < 2 ^ a) by (apply Z.pow_pos_nonneg; lia).
  assert (0 < 2 ^ b) by (apply Z.pow_pos_nonneg; lia).
  apply Z.mod_divide in Hx; [|lia]. destruct Hx as [q Hq].
  apply Z.mod_divide; [lia|]. exists (q * 2 ^ (a - b)). rewrite Hq, Hsplit. ring.
Qed.

Lemma shrinkBlock_fits (n : nat) (maxPref remaining : Z) :
  0 <= maxPref <= 32 -> 32 - maxPref < Z.of_nat n -> 1 <= remaining ->
  maxPref <= shrinkBlock n maxPref remaining <= 32
  /\ 2 ^ (32 - shrinkBlock n maxPref remaining) <= remaining.
Proof.
  revert maxPref. induction n as [|n IH]; intros maxPref Hmp Hfuel Hrem; [simpl in Hfuel; lia|].
  cbn [shrinkBlock].
  destruct (Z.ltb_spec maxPref 32) as [Hlt|Hge].
  - assert (Hblock : u64 (Z.shiftl 1 (32 - maxPref)) = 2 ^ (32 - maxPref)).
    { rewrite Z.shiftl_1_l. apply u64_small.
      pose proof (pow2_le_32 (32 - maxPref) ltac:(lia)).
      assert (2 ^ 32 < 2 ^ 64) by reflexivity. lia. }
    cbv zeta. rewrite Hblock.
    destruct (Z.leb_spec (2 ^ (32 - maxPref)) remaining) as [Hfit|Hbig]; [lia|].
    destruct (IH (maxPref + 1)) as [Hr Hf]; [lia|lia|exact Hrem|]. split; [lia|exact Hf].
  - assert (maxPref = 32) by lia. subst. split; [lia|]. simpl. lia.
Qed.

Lemma tiles_snoc (lo mid : Z) (ps : list Prefix) (p : Prefix) :
  tiles lo ps mid -> PAddr p = Addr4 mid -> 1 <= Bits p <= 32 ->
  mid mod 2 ^ (32 - Bits p) = 0 ->
  tiles lo (ps ++ [p]) (mid + 2 ^ (32 - Bits p)).
Proof.
  revert lo. induction ps as [|q ps IH]; intros lo Ht Ha Hb Hm; cbn [tiles app] in *.
  - subst lo. repeat split; try assumption; lia.
  - destruct Ht as (Hqa & Hqb & Hqm & Hrest). repeat split; try assumption; try lia.
    apply IH; assumption.
Qed.

(** X23: for a non-empty IPv4 range that ends below 255.255.255.255,
    [rangeToPrefixes] ends and returns aligned blocks that follow one
    another from the first address of the range to its last. *)
Theorem rangeToPrefixes_tiles (r : ipv4Range) :
  below_top r ->
  exists out, rangeToPrefixes r = Ret out /\ tiles (r_start r) out (r_end r + 1).
Proof.
  intros (H0 & Hle & Htop). unfold rangeToPrefixes.
  set (lo := r_start r) in *. set (hi := r_end r) in *.
  assert (H32 : 2 ^ 32 = 4294967296) by reflexivity.
  assert (H64 : 2 ^ 64 = 18446744073709551616) by reflexivity.
  match goal with
  | |- exists out, go_loop ?bound ?body ?s = Ret out /\ _ =>
      destruct (go_loop_total
                  (fun st : Z * list Prefix =>
                     lo <= fst st <= hi + 1 /\ tiles lo (snd st) (fst st))
                  (fun out => tiles lo out (hi + 1))
                  (fun st => hi + 1 - fst st)
                  body bound s) as (out & Hrun & Hpost)
  end.
  - intros [start out] [start' out'] [Hst Ht] Hbody. cbn [fst snd] in *.
    destruct (Z.leb_spec start hi) as [Hin|Hout]; [|discriminate].
    destruct (TrailingZeros32_divides start) as [Htz Hdiv].
    assert (Hrem : u64 (u32 (hi - start) + 1) = hi - start + 1).
    { rewrite (u32_small (hi - start)) by lia. apply u64_small. lia. }
    rewrite Hrem in Hbody.
    destruct (shrinkBlock_fits 33 (32 - TrailingZeros32 start) (hi - start + 1))
      as [Hmp Hfit]; [lia|simpl; lia|lia|].
    set (mp := shrinkBlock 33 (32 - TrailingZeros32 start) (hi - start + 1)) in *.
    assert (Hpow : 1 <= 2 ^ (32 - mp) <= 2 ^ 32) by (apply pow2_le_32; lia).
    assert (Hmp1 : 1 <= mp).
    { destruct (Z.eq_dec mp 0) as [Hz|Hnz]; [|lia].
      rewrite Hz in Hfit. change (2 ^ (32 - 0)) with 4294967296 in Hfit. lia. }
    destruct (Z.eqb_spec mp 0) as [Hz|_]; [lia|].
    injection Hbody as <- <-.
    assert (Hlt : 2 ^ (32 - mp) < 2 ^ 32) by (apply Z.pow_lt_mono_r; lia).
    assert (Hblock : u32 (u64 (Z.shiftl 1 (32 - mp))) = 2 ^ (32 - mp)).
    { rewrite Z.shiftl_1_l, u64_small by lia. apply u32_small. lia. }
    rewrite Hblock, (u32_small (start + 2 ^ (32 - mp))) by lia.
    assert (Halign : start mod 2 ^ (32 - mp) = 0).
    { apply (mod_pow2_finer start (TrailingZeros32 start)); [lia|exact Hdiv]. }
    split; [|lia]. split; [lia|].
    apply (tiles_snoc lo start out (Masked (PrefixFrom (u32ToIPv4 start) mp)));
      [exact Ht| |cbn [Masked Bits]; lia|cbn [Masked Bits]; exact Halign].
    unfold Masked, u32ToIPv4, host_bits. cbn [PAddr Bits BitLen with_value value].
      rewrite (u32_small start) by lia.
    rewrite Z.shiftl_mul_pow2, Z.shiftr_div_pow2 by lia. f_equal.
    pose proof (Z.div_mod start (2 ^ (32 - mp)) ltac:(lia)). lia.
  - intros [start out] out' [Hst Ht] Hbody. cbn [fst snd] in *.
    destruct (Z.leb_spec start hi) as [Hin|Hout].
    + exfalso. revert Hbody.
      rewrite (u32_small (hi - start)), (u64_small (hi - start + 1)) by lia.
      destruct (TrailingZeros32_divides start) as [Htz _].
      destruct (shrinkBlock_fits 33 (32 - TrailingZeros32 start) (hi - start + 1))
        as [Hmp Hfit]; [lia|simpl; lia|lia|].
      destruct (Z.eqb_spec (shrinkBlock 33 (32 - TrailingZeros32 start) (hi - start + 1)) 0)
        as [Hz|_]; [|discriminate].
      rewrite Hz in Hfit. change (2 ^ (32 - 0)) with 4294967296 in Hfit. lia.
    + injection Hbody as <-. replace (hi + 1) with start by lia. exact Ht.
  - intros [start out] [Hst _]. cbn [fst] in *. lia.
  - cbn [fst snd tiles]. split; [lia|reflexivity].
  - cbn [fst]. rewrite Pos2Z.inj_pow. change (Z.pos 2 ^ Z.pos 33) with 8589934592. lia.
  - exists out. split; [exact Hrun|exact Hpost].
Qed.

(** *** Big-integer ranges as sets of addresses *)

Lemma covered_cons x r l : covered x (r :: l) <-> covers r x \/ covered x l.
Proof. unfold covered. apply Exists_cons. Qed.

Lemma covered_nil x : ~ covered x [].
Proof. unfold covered. intros H. apply Exists_nil in H. exact H. Qed.

Lemma covered_app x l1 l2 : covered x (l1 ++ l2) <-> covered x l1 \/ covered x l2.
Proof. unfold covered. apply Exists_app. Qed.

Lemma covered_perm x l1 l2 : Permutation l1 l2 -> covered x l1 -> covered x l2.
Proof.
  unfold covered. intros Hp H. apply List.Exists_exists in H as (r & Hin & Hr).
  apply List.Exists_exists. exists r. split; [|exact Hr]. eapply Permutation_in; eassumption.
Qed.

Lemma usedBig_collect_points (lo hi : Z) (used : list Prefix) (x : Z) :
  covered x (usedBig_collect lo hi used) <->
  lo <= x <= hi /\ exists u, In u used /\ covers (blockRange u) x.
Proof.
  induction used as [|p used IH]; cbn [usedBig_collect].
  - split; [intros H; destruct (covered_nil _ H)|intros [_ (u & [] & _)]].
  - cbv zeta. unfold blockRange, covers in *. cbn [b_start b_end] in *.
    set (start := addrToBig (PAddr (Masked p))) in *.
    set (size := prefixSize (Masked p)) in *.
    assert (Hsplit : (exists u, In u (p :: used)
                        /\ addrToBig (PAddr (Masked u)) <= x
                           <= addrToBig (PAddr (Masked u)) + prefixSize (Masked u) - 1)
                     <-> start <= x <= start + size - 1
                         \/ exists u, In u used
                              /\ addrToBig (PAddr (Masked u)) <= x
                                 <= addrToBig (PAddr (Masked u)) + prefixSize (Masked u) - 1).
    { split.
      - intros (u & [<-|Hin] & Hu); [left; exact Hu|right; exists u; split; assumption].
      - intros [Hp|(u & Hin & Hu)]; [exists p; split; [left; reflexivity|exact Hp]|].
        exists u. split; [right; exact Hin|exact Hu]. }
    rewrite Hsplit.
    destruct (Z.ltb_spec (start + size - 1) lo) as [H1|H1]; cbn [orb].
    { rewrite IH. split; [intros [Hx Hu]; split; [exact Hx|right; exact Hu]|].
      intros [Hx [Hp|Hu]]; [lia|split; assumption]. }
    destruct (Z.ltb_spec hi start) as [H2|H2].
    { rewrite IH. split; [intros [Hx Hu]; split; [exact Hx|right; exact Hu]|].
      intros [Hx [Hp|Hu]]; [lia|split; assumption]. }
    rewrite covered_cons, IH. unfold covers. cbn [b_start b_end].
    destruct (Z.ltb_spec start lo); destruct (Z.ltb_spec hi (start + size - 1));
      split; (intros [Hp|[Hx Hu]]; [split; [lia|left; lia]|split; [exact Hx|right; exact Hu]])
      || (intros [Hx [Hp|Hu]]; [left; lia|right; split; assumption]).
Qed.

Lemma mergeBig_from_points (rest : list bigRange) (last : bigRange) (x : Z) :
  b_start last <= b_end last ->
  Forall (fun r => b_start last <= b_start r /\ b_start r <= b_end r) rest ->
  StronglySorted (fun a b => b_start a <= b_start b) rest ->
  covered x (mergeBig_from last rest) <-> covered x (last :: rest).
Proof.
  revert last. induction rest as [|r rest IH]; intros last Hlast Hge Hsorted;
    cbn [mergeBig_from]; [reflexivity|].
  apply Forall_cons in Hge as [[Hlr Hr] Hge].
  apply StronglySorted_inv in Hsorted as [Hsorted Hrest].
  destruct (Z.leb_spec (b_start r) (b_end last + 1)) as [Hmerge|Hgap].
  - set (last' := if b_end last <? b_end r then mkBig (b_start last) (b_end r) else last).
    assert (Hstart : b_start last' = b_start last)
      by (unfold last'; destruct (b_end last <? b_end r); reflexivity).
    assert (Hc : covers last' x <-> covers last x \/ covers r x).
    { unfold covers, last'.
      destruct (Z.ltb_spec (b_end last) (b_end r)); cbn [b_start b_end]; lia. }
    rewrite (IH last').
    + rewrite !covered_cons, Hc. tauto.
    + unfold last'. destruct (Z.ltb_spec (b_end last) (b_end r)); cbn [b_start b_end]; lia.
    + rewrite Hstart. eapply List.Forall_impl; [|exact Hge]. intros; assumption.
    + exact Hsorted.
  - rewrite covered_cons, (IH r), !covered_cons; [tauto|exact Hr| |exact Hsorted].
    apply List.Forall_forall. intros r' Hr'.
    split; [apply (proj1 (List.Forall_forall _ _) Hrest r' Hr')|].
    apply (proj1 (List.Forall_forall _ _) Hge r' Hr').
Qed.

Section BigRanges.
Context {L : GoLib}.

Lemma buildUsedRangesBig_points (pool : Prefix) (used : list Prefix) (x : Z) :
  sorts_by_start (sort_Slice (fun a b => b_start a <? b_start b)) ->
  let lo := addrToBig (PAddr pool) in
  let hi := lo + prefixSize pool - 1 in
  covered x (buildUsedRangesBig pool used) <->
  lo <= x <= hi /\ exists u, In u used /\ covers (blockRange u) x.
Proof.
  intros Hsort lo hi. unfold buildUsedRangesBig. fold lo. fold hi.
  pose proof (prefixSize_pos pool) as Hsize.
  destruct used as [|u0 used'] eqn:Hused.
  { cbn. split; [intros H; destruct (covered_nil _ H)|intros [_ (u & [] & _)]]. }
  rewrite <- Hused in *. assert (Hlen : (Z.of_nat (length used) =? 0) = false).
  { rewrite Hused. cbn [length]. apply Z.eqb_neq. lia. }
  rewrite Hlen. rewrite <- usedBig_collect_points.
  destruct (Hsort (usedBig_collect lo hi used)) as [Hperm Hsorted].
  assert (Hin : Forall (inside lo hi)
                  (sort_Slice (fun a b => b_start a <? b_start b) (usedBig_collect lo hi used))).
  { eapply Permutation_Forall; [exact Hperm|]. apply usedBig_collect_inside. unfold hi. lia. }
  transitivity (covered x (sort_Slice (fun a b => b_start a <? b_start b)
                             (usedBig_collect lo hi used))).
  - destruct (sort_Slice _ _) as [|r0 rest]; [reflexivity|]. cbn [mergeBigRanges].
    apply Forall_cons in Hin as [Hr0 Hin].
    apply StronglySorted_inv in Hsorted as [Hsorted Hge].
    apply mergeBig_from_points; [unfold inside in Hr0; lia| |exact Hsorted].
    apply List.Forall_forall. intros r Hr.
    split; [apply (proj1 (List.Forall_forall _ _) Hge r Hr)|].
    pose proof (proj1 (List.Forall_forall _ _) Hin r Hr) as Hi. unfold inside in Hi. lia.
  - split; apply covered_perm; [symmetry|]; exact Hperm.
Qed.

(** X24: the ranges that [buildUsedRangesBig] returns lie inside the
    pool's range, in increasing order and apart, and a number is in one
    of them exactly when it is in the pool's range and in the block of a
    prefix in use. *)
Theorem buildUsedRangesBig_exact (pool : Prefix) (used : list Prefix) :
  sorts_by_start (sort_Slice (fun a b => b_start a <? b_start b)) ->
  let lo := addrToBig (PAddr pool) in
  let hi := lo + prefixSize pool - 1 in
  let out := buildUsedRangesBig pool used in
  Forall (inside lo hi) out
  /\ StronglySorted apart out
  /\ forall x, covered x out <->
                lo <= x <= hi /\ exists u, In u used /\ covers (blockRange u) x.
Proof.
  intros Hsort lo hi out.
  destruct (buildUsedRangesBig_sorted_apart_inside L pool used Hsort) as [Hin Hap].
  split; [exact Hin|]. split; [exact Hap|].
  intros x. apply buildUsedRangesBig_points, Hsort.
Qed.

End BigRanges.

Lemma freeRangesBig_loop_points (hi : Z) (used : list bigRange) (cur : Z)
    (gaps : list bigRange) (cur' : Z) :
  StronglySorted apart used ->
  Forall (fun r => cur <= b_start r /\ b_start r <= b_end r /\ b_end r <= hi) used ->
  cur <= hi + 1 ->
  freeRangesBig_loop hi cur used = (gaps, cur') ->
  cur <= cur' <= hi + 1
  /\ (forall x, covered x gaps <-> cur <= x < cur' /\ ~ covered x used)
  /\ (forall x, cur' <= x <= hi -> ~ covered x used).
Proof.
  revert cur gaps cur'. induction used as [|r used IH]; intros cur gaps cur' Hap Hin Hcur Hrun;
    cbn [freeRangesBig_loop] in Hrun.
  - injection Hrun as <- <-. split; [lia|]. split.
    + intros x. split; [intros H; destruct (covered_nil _ H)|lia].
    + intros x _. apply covered_nil.
  - apply Forall_cons in Hin as [(Hrs & Hrne & Hre) Hin].
    apply StronglySorted_inv in Hap as [Hap Hr].
    assert (Hlater : forall r', In r' used -> b_end r + 1 < b_start r' /\ b_start r' <= b_end r'
                                              /\ b_end r' <= hi).
    { intros r' Hr'. pose proof (proj1 (List.Forall_forall _ _) Hr r' Hr') as Ha.
      pose proof (proj1 (List.Forall_forall _ _) Hin r' Hr') as Hi.
      cbv beta in Ha, Hi. unfold apart in Ha. lia. }
    assert (Hnot : forall x, x <= b_end r + 1 -> ~ covered x used).
    { intros x Hx Hc. apply List.Exists_exists in Hc as (r' & Hr' & Hcov).
      destruct (Hlater r' Hr'). unfold covers in Hcov. lia. }
    cbv zeta in Hrun.
    assert (Hnext : (if cur <? b_end r + 1 then b_end r + 1 else cur) = b_end r + 1).
    { destruct (Z.ltb_spec cur (b_end r + 1)); lia. }
    rewrite Hnext in Hrun.
    assert (Hgap : forall x,
              covered x (if cur <? b_start r then [mkBig cur (b_start r - 1)] else [])
              <-> cur <= x < b_start r).
    { intros x. destruct (Z.ltb_spec cur (b_start r)).
      - rewrite covered_cons. unfold covers. cbn [b_start b_end].
        split; [intros [H'|H']; [lia|destruct (covered_nil _ H')]|intros; left; lia].
      - split; [intros H'; destruct (covered_nil _ H')|lia]. }
    destruct (Z.ltb_spec hi (b_end r + 1)) as [Hfull|Hmore].
    + injection Hrun as <- <-. split; [lia|]. split.
      * intros x. rewrite Hgap, covered_cons. unfold covers. split.
        -- intros Hx. split; [lia|]. intros [Hc|Hc]; [lia|]. apply (Hnot x); [lia|exact Hc].
        -- intros [Hx Hn]. destruct (Z.lt_ge_cases x (b_start r)); [lia|].
           exfalso. apply Hn. left. lia.
      * intros x Hx. lia.
    + destruct (freeRangesBig_loop hi (b_end r + 1) used) as [gaps' cur''] eqn:Hrest.
      injection Hrun as <- <-.
      destruct (IH (b_end r + 1) gaps' cur'' Hap) as (Hc' & Hpts & Htail); [|lia|exact Hrest|].
      { apply List.Forall_forall. intros r' Hr'. destruct (Hlater r' Hr'). lia. }
      split; [lia|]. split.
      * intros x. rewrite covered_app, Hgap, Hpts, covered_cons. unfold covers. split.
        -- intros [Hx|[Hx Hn]].
           ++ split; [lia|]. intros [Hc|Hc]; [lia|]. apply (Hnot x); [lia|exact Hc].
           ++ split; [lia|]. intros [Hc|Hc]; [lia|]. apply Hn, Hc.
        -- intros [Hx Hn]. destruct (Z.lt_ge_cases x (b_start r)); [left; lia|].
           right. split; [|intros Hc; apply Hn; right; exact Hc].
           destruct (Z.le_gt_cases x (b_end r)); [exfalso; apply Hn; left; lia|lia].
      * intros x Hx Hc. apply covered_cons in Hc as [Hc|Hc]; [unfold covers in Hc; lia|].
        apply (Htail x Hx Hc).
Qed.

Lemma freeRangesBig_points (pool : Prefix) (used : list bigRange) (x : Z) :
  let lo := addrToBig (PAddr (Masked pool)) in
  let hi := lo + prefixSize (Masked pool) - 1 in
  StronglySorted apart used ->
  Forall (inside lo hi) used ->
  covered x (freeRangesBig pool used) <-> lo <= x <= hi /\ ~ covered x used.
Proof.
  intros lo hi Hap Hin. unfold freeRangesBig. fold lo. fold hi.
  pose proof (prefixSize_pos (Masked pool)) as Hsize.
  destruct used as [|r used].
  { cbn [length]. change (Z.of_nat 0 =? 0) with true. cbv iota.
    rewrite covered_cons. unfold covers. cbn [b_start b_end]. split.
    - intros [Hx|Hx]; [split; [lia|apply covered_nil]|destruct (covered_nil _ Hx)].
    - intros [Hx _]. left. lia. }
  cbn [length]. rewrite Nat2Z.inj_succ.
  destruct (Z.eqb_spec (Z.succ (Z.of_nat (length used))) 0) as [Hz|_]; [lia|].
  destruct (freeRangesBig_loop hi lo (r :: used)) as [gaps cur] eqn:Hloop.
  destruct (freeRangesBig_loop_points hi (r :: used) lo gaps cur Hap) as (Hc & Hpts & Htail);
    [|unfold hi; lia|exact Hloop|].
  { eapply List.Forall_impl; [|exact Hin]. unfold inside. intros; lia. }
  destruct (Z.leb_spec cur hi) as [Hfree|Hfull].
  - rewrite covered_app, Hpts, (covered_cons x (mkBig cur hi) []).
    unfold covers. cbn [b_start b_end]. split.
    + intros [[Hx Hn]|[Hx|Hx]]; [split; [lia|exact Hn]| |destruct (covered_nil _ Hx)].
      split; [lia|]. apply Htail. lia.
    + intros [Hx Hn]. destruct (Z.lt_ge_cases x cur); [left; split; [lia|exact Hn]|].
      right. left. lia.
  - rewrite Hpts. split; intros [Hx Hn]; (split; [lia|exact Hn]).
Qed.

(** X25: over a merged used list inside the pool, a number is in a range
    that [freeRangesBig] returns exactly when it is in the pool and in no
    used range, and the sizes of used and free ranges add up to the size
    of the pool. *)
Theorem freeRangesBig_complement (pool : Prefix) (used : list bigRange) :
  let lo := addrToBig (PAddr (Masked pool)) in
  let hi := lo + prefixSize (Masked pool) - 1 in
  StronglySorted apart used ->
  Forall (inside lo hi) used ->
  (forall x, covered x (freeRangesBig pool used) <-> lo <= x <= hi /\ ~ covered x used)
  /\ sumBigRanges used + sumBigRanges (freeRangesBig pool used) = prefixSize (Masked pool).
Proof.
  intros lo hi Hap Hin. split.
  - intros x. apply freeRangesBig_points; assumption.
  - apply freeRangesBig_conserves; assumption.
Qed.

Lemma alignUp_aligned (n step : Z) : 0 < step -> n mod step = 0 -> alignUp n step = n.
Proof.
  intros Hstep Hn. unfold alignUp.
  destruct (Z.eqb_spec step 0) as [Hz|_]; [lia|].
  apply Z.mod_divide in Hn; [|lia]. destruct Hn as [q ->].
  rewrite Z.rem_mul, Z.quot_mul by lia. reflexivity.
Qed.

Lemma skipUsed_split (cur : Z) (rest : list bigRange) :
  exists dropped,
    rest = dropped ++ skipUsed cur rest
    /\ Forall (fun r => b_end r < cur) dropped
    /\ match skipUsed cur rest with
       | r :: _ => cur <= b_end r
       | [] => True
       end.
Proof.
  induction rest as [|r rest (dropped & Heq & Hd & Hhead)]; cbn [skipUsed].
  - exists []. repeat split; constructor.
  - destruct (Z.ltb_spec (b_end r) cur) as [Hlt|Hge].
    + exists (r :: dropped). split; [cbn [app]; rewrite <- Heq; reflexivity|].
      split; [constructor; assumption|exact Hhead].
    + exists []. split; [reflexivity|]. split; [constructor|exact Hge].
Qed.

Lemma StronglySorted_suffix {A : Type} (R : A -> A -> Prop) (l1 l2 : list A) :
  StronglySorted R (l1 ++ l2) -> StronglySorted R l2.
Proof.
  induction l1 as [|x l1 IH]; cbn [app]; [auto|].
  intros H. apply StronglySorted_inv in H as [H _]. apply IH, H.
Qed.

Section IPv6Sweep.
Context {L : GoLib}.

(** X26: a prefix that [allocateInPoolIPv6] returns has the length asked
    for, which is between the pool's length and 128, is masked, lies
    within the pool and overlaps no prefix in use. *)
Theorem allocateInPoolIPv6_sound (pool : Prefix) (want : Z) (used : list Prefix) (q : Prefix) :
  sorts_by_start (sort_Slice (fun a b => b_start a <? b_start b)) ->
  valid pool -> Forall valid used ->
  allocateInPoolIPv6 pool want used = Ret (Some q) ->
  Bits q = want /\ Bits pool <= want <= 128 /\ Masked q = q
  /\ prefixWithin pool q = true
  /\ overlapsAny q used = false.
Proof.
  intros Hsort Hpool Hused Hrun. unfold allocateInPoolIPv6 in Hrun.
  destruct (Is6 (PAddr pool)) eqn:H6; cbn [negb] in Hrun; [|discriminate].
  assert (H4 : Is4 (PAddr pool) = false) by (destruct (PAddr pool); [discriminate|reflexivity]).
  assert (Hbl : BitLen (PAddr pool) = 128) by (destruct (PAddr pool); [discriminate|reflexivity]).
  pose proof (valid_host_bits pool Hpool) as Hhb.
  destruct (masked_block pool Hpool) as (Haddr & Hbits & H0 & Htop & Hsize).
  destruct (Z.ltb_spec want (Bits (Masked pool))) as [|Hwant]; [discriminate|].
  destruct (Z.ltb_spec 128 want) as [|Hw128]; [discriminate|].
  rewrite Hbits in Hwant. rewrite Hbl in Htop.
  set (hb := host_bits pool) in *.
  set (lo := addrToBig (PAddr (Masked pool))) in *.
  assert (Hlo : lo = value (PAddr pool) / 2 ^ hb * 2 ^ hb).
  { unfold lo, addrToBig. rewrite Haddr. destruct (PAddr pool); reflexivity. }
  rewrite <- Hlo in H0, Htop. rewrite Hsize in Hrun.
  set (hi := lo + 2 ^ hb - 1) in *.
  assert (Hhbv : hb = 128 - Bits pool) by (unfold hb, host_bits; lia).
  rewrite Z.shiftl_1_l in Hrun.
  set (step := 2 ^ (128 - want)) in *.
  assert (Hstep : 0 < step) by (apply Z.pow_pos_nonneg; lia).
  assert (Hblock : 2 ^ hb = step * 2 ^ (want - Bits pool)).
  { unfold step. rewrite <- Z.pow_add_r by lia. f_equal. lia. }
  assert (Hpk : 0 < 2 ^ (want - Bits pool)) by (apply Z.pow_pos_nonneg; lia).
  assert (Hloal : lo mod step = 0).
  { rewrite Hlo, Hblock. apply Z.mod_divide; [lia|].
    exists (value (PAddr pool) / (step * 2 ^ (want - Bits pool)) * 2 ^ (want - Bits pool)). ring. }
  rewrite (alignUp_aligned lo step Hstep Hloal) in Hrun.
  set (usedRanges := buildUsedRangesBig (Masked pool) used) in *.
  destruct (buildUsedRangesBig_sorted_apart_inside L (Masked pool) used Hsort) as [Hin Hap].
  fold lo in Hin. rewrite Hsize in Hin. fold hi in Hin. fold usedRanges in Hin, Hap.
  assert (Hpost :
    match Some q with
    | None => True
    | Some q' =>
        exists cur, q' = Masked (PrefixFrom (Addr6 cur) want)
          /\ lo <= cur /\ cur + step - 1 <= hi /\ cur mod step = 0
          /\ Forall (fun r => b_end r < cur \/ cur + step - 1 < b_start r) usedRanges
    end).
  { revert Hrun.
    apply (go_loop_invariant
             (fun st : Z * list bigRange =>
                lo <= fst st /\ fst st mod step = 0
                /\ exists done, usedRanges = done ++ snd st
                                /\ Forall (fun r => b_end r < fst st) done)
             (fun r : option Prefix =>
                match r with
                | None => True
                | Some q' =>
                    exists cur, q' = Masked (PrefixFrom (Addr6 cur) want)
                      /\ lo <= cur /\ cur + step - 1 <= hi /\ cur mod step = 0
                      /\ Forall (fun r => b_end r < cur \/ cur + step - 1 < b_start r) usedRanges
                end)).
    - intros [cur rest] [cur' rest'] (Hc & Hal & done & Hsplit & Hdone) Hbody.
      cbn [fst snd] in *.
      destruct (Z.ltb_spec hi (cur + step - 1)); [discriminate|].
      destruct (skipUsed_split cur rest) as (dropped & Hrest & Hdropped & Hhead).
      destruct (skipUsed cur rest) as [|r tl]; [discriminate|].
      destruct (Z.ltb_spec (cur + step - 1) (b_start r)); [discriminate|].
      injection Hbody as <- <-.
      destruct (alignUp_multiple (b_end r + 1) step ltac:(lia) Hstep) as [Hge Hmod].
      split; [lia|]. split; [exact Hmod|].
      exists (done ++ dropped). split; [rewrite Hsplit, Hrest, app_assoc; reflexivity|].
      apply Forall_app. split; (eapply List.Forall_impl; [|eassumption]); cbv beta; intros; lia.
    - intros [cur rest] r (Hc & Hal & done & Hsplit & Hdone) Hbody. cbn [fst snd] in *.
      destruct (Z.ltb_spec hi (cur + step - 1)) as [|Hfit]; [injection Hbody as <-; exact I|].
      destruct (skipUsed_split cur rest) as (dropped & Hrest & Hdropped & Hhead).
      assert (Hfound : forall tl,
                skipUsed cur rest = tl ->
                Forall (fun r => cur + step - 1 < b_start r) tl ->
                match (match bigToAddr cur 128 with
                       | Some addr => Some (Masked (PrefixFrom addr want))
                       | None => None
                       end) with
                | None => True
                | Some q' =>
                    exists cur, q' = Masked (PrefixFrom (Addr6 cur) want)
                      /\ lo <= cur /\ cur + step - 1 <= hi /\ cur mod step = 0
                      /\ Forall (fun r => b_end r < cur \/ cur + step - 1 < b_start r) usedRanges
                end).
      { intros tl Htl Hafter. unfold bigToAddr. change (128 =? 32) with false. cbv iota.
        destruct ((cur <? 0) || (2 ^ 128 <=? cur)); [exact I|].
        exists cur. split; [reflexivity|]. split; [lia|]. split; [lia|]. split; [exact Hal|].
        rewrite Hsplit, Hrest, Htl. apply Forall_app. split; [|apply Forall_app; split].
        - eapply List.Forall_impl; [|exact Hdone]. cbv beta. intros; lia.
        - eapply List.Forall_impl; [|exact Hdropped]. cbv beta. intros; lia.
        - eapply List.Forall_impl; [|exact Hafter]. cbv beta. intros; lia. }
      destruct (skipUsed cur rest) as [|r0 tl] eqn:Hskip.
      + injection Hbody as <-. apply (Hfound []); [reflexivity|constructor].
      + destruct (Z.ltb_spec (cur + step - 1) (b_start r0)) as [Hgap|]; [|discriminate].
        injection Hbody as <-. apply (Hfound (r0 :: tl)); [reflexivity|].
        assert (Hsuffix : StronglySorted apart (r0 :: tl)).
        { apply (StronglySorted_suffix apart (done ++ dropped)).
          rewrite <- app_assoc, <- Hrest, <- Hsplit. exact Hap. }
        apply StronglySorted_inv in Hsuffix as [_ Hr0].
        constructor; [exact Hgap|].
        eapply List.Forall_impl; [|exact Hr0]. unfold apart. intros; lia.
    - cbn [fst snd]. split; [lia|]. split; [exact Hloal|].
      exists []. split; [reflexivity|constructor]. }
  destruct Hpost as (cur & Hq & Hc & Hfit & Hal & Hfree).
  assert (Hqm : Masked (PrefixFrom (Addr6 cur) want) = PrefixFrom (Addr6 cur) want).
  { unfold Masked, host_bits. cbn [PAddr Bits BitLen with_value value].
    rewrite Z.shiftl_mul_pow2, Z.shiftr_div_pow2 by lia. fold step. f_equal. f_equal.
    pose proof (Z.div_mod cur step ltac:(lia)). lia. }
  rewrite Hqm in Hq. subst q.
  assert (Hqv : valid (PrefixFrom (Addr6 cur) want)).
  { unfold valid. cbn [PAddr Bits BitLen value]. unfold hi in Hfit. lia. }
  assert (Hrange : forall ip, Contains (PrefixFrom (Addr6 cur) want) ip = true ->
             Is4 ip = false /\ cur <= value ip <= cur + step - 1).
  { intros ip Hip. apply (Contains_range _ _ Hqv) in Hip as [Hf Hr].
    rewrite Hqm in Hr. cbn [PAddr value Is4] in Hf, Hr. unfold host_bits in Hr.
    cbn [PAddr Bits BitLen] in Hr. fold step in Hr. split; [congruence|lia]. }
  split; [reflexivity|]. split; [lia|]. split; [exact Hqm|]. split.
  - apply (proj1 (prefixWithin_block pool _ Hpool Hqv)). intros ip Hip.
    destruct (Hrange ip Hip) as [Hf Hr].
    apply (Contains_range _ _ Hpool). split; [congruence|].
    fold lo. change (addrToBig (PAddr (Masked pool))) with lo. fold hb. unfold hi in Hfit.
    unfold lo, addrToBig in *. lia.
  - apply overlapsAny_false. intros u Hu.
    destruct (prefixesOverlap u (PrefixFrom (Addr6 cur) want)) eqn:Hover; [|reflexivity].
    exfalso.
    pose proof (proj1 (List.Forall_forall _ _) Hused u Hu) as Huv.
    apply (overlap_common u _ Huv Hqv) in Hover as (ip & Hiu & Hiq).
    destruct (Hrange ip Hiq) as [Hf Hr].
    apply (Contains_range _ _ Huv) in Hiu as [Hfu Hru].
    destruct (masked_block u Huv) as (_ & _ & _ & _ & Husize).
    assert (Hcov : covered (value ip) usedRanges).
    { apply (buildUsedRangesBig_points (Masked pool) used (value ip) Hsort).
      fold lo. rewrite Hsize. fold hi. split; [lia|].
      exists u. split; [exact Hu|]. unfold covers, blockRange. cbn [b_start b_end].
      rewrite Husize. unfold addrToBig. lia. }
    apply List.Exists_exists in Hcov as (r & Hr' & Hcr).
    pose proof (proj1 (List.Forall_forall _ _) Hfree r Hr') as Hfr.
    unfold covers in Hcr. cbv beta in Hfr. lia.
Qed.

End IPv6Sweep.

(** *** Every segment is accounted for; planning warnings *)

Section Accounting.
Context {L : GoLib}.

Lemma placed_insert alloc id p s : placed alloc s -> placed (<[id := p]> alloc) s.
Proof.
  intros (q & Hq). unfold placed. destruct (decide (id = ID s)) as [->|Hne].
  - exists p. apply lookup_insert_eq.
  - exists q. rewrite lookup_insert_ne by exact Hne. exact Hq.
Qed.

Lemma allocateSpillover_from_grows items segs alloc cf used rules family strict alloc' cf' :
  allocateSpillover_from items segs alloc cf used rules family strict = Ret (alloc', cf') ->
  (forall s, placed alloc s -> placed alloc' s) /\ (forall c, In c cf -> In c cf').
Proof.
  revert alloc cf used. induction segs as [|s segs IH]; intros alloc cf used Hrun;
    cbn [allocateSpillover_from] in Hrun.
  - injection Hrun as <- <-. split; auto.
  - cbv zeta in Hrun. destruct (desiredPrefixByFamily s family =? 0); [apply (IH _ _ _ Hrun)|].
    apply bind_Ret in Hrun as ([p|] & _ & Hrest).
    + destruct (IH _ _ _ Hrest) as [Ha Hc]. split; [|exact Hc].
      intros x Hx. apply Ha, placed_insert, Hx.
    + destruct strict.
      * injection Hrest as <- <-. split; [auto|]. intros c Hc. apply in_or_app. left. exact Hc.
      * destruct (IH _ _ _ Hrest) as [Ha Hc]. split; [exact Ha|].
        intros c Hin. apply Hc, in_or_app. left. exact Hin.
Qed.

Lemma allocateSpillover_from_accounts items segs alloc cf used rules family alloc' cf' s :
  allocateSpillover_from items segs alloc cf used rules family false = Ret (alloc', cf') ->
  In s segs -> desiredPrefixByFamily s family <> 0 ->
  placed alloc' s \/ In (ALLOCATE_FAIL s family) cf'.
Proof.
  revert alloc cf used. induction segs as [|x segs IH]; intros alloc cf used Hrun Hin Hwant;
    [destruct Hin|]. cbn [allocateSpillover_from] in Hrun. cbv zeta in Hrun.
  destruct Hin as [->|Hin].
  - destruct (Z.eqb_spec (desiredPrefixByFamily s family) 0) as [|_]; [contradiction|].
    apply bind_Ret in Hrun as ([p|] & _ & Hrest).
    + left. apply (proj1 (allocateSpillover_from_grows _ _ _ _ _ _ _ _ _ _ Hrest)).
      exists p. apply lookup_insert_eq.
    + right. apply (proj2 (allocateSpillover_from_grows _ _ _ _ _ _ _ _ _ _ Hrest)).
      apply in_or_app. right. left. reflexivity.
  - destruct (desiredPrefixByFamily x family =? 0); [apply (IH _ _ _ Hrun Hin Hwant)|].
    apply bind_Ret in Hrun as ([p|] & _ & Hrest); apply (IH _ _ _ Hrest Hin Hwant).
Qed.

Lemma contiguous_pool_accounts pool pending alloc used next rules family alloc' used' next' :
  contiguous_pool pool pending alloc used next rules family = Ret (alloc', used', next') ->
  (forall s, placed alloc s -> placed alloc' s)
  /\ (forall s, In s next -> In s next')
  /\ (forall s, In s pending -> desiredPrefixByFamily s family <> 0 ->
        placed alloc' s \/ In s next').
Proof.
  revert alloc used next. induction pending as [|x pending IH]; intros alloc used next Hrun;
    cbn [contiguous_pool] in Hrun.
  - injection Hrun as <- <- <-. split; [auto|]. split; [auto|]. intros s [].
  - cbv zeta in Hrun.
    assert (Hskip : forall alloc0 used0,
              contiguous_pool pool pending alloc0 used0 (next ++ [x]) rules family
              = Ret (alloc', used', next') ->
              (forall s, placed alloc s -> placed alloc0 s) ->
              (forall s, placed alloc s -> placed alloc' s)
              /\ (forall s, In s next -> In s next')
              /\ (forall s, In s (x :: pending) -> desiredPrefixByFamily s family <> 0 ->
                    placed alloc' s \/ In s next')).
    { intros alloc0 used0 Hrest Hmono. destruct (IH _ _ _ Hrest) as (Ha & Hn & Hp).
      split; [intros s Hs; apply Ha, Hmono, Hs|].
      split; [intros s Hs; apply Hn, in_or_app; left; exact Hs|].
      intros s [<-|Hs] Hw; [right; apply Hn, in_or_app; right; left; reflexivity|].
      apply Hp; assumption. }
    destruct (Z.eqb_spec (desiredPrefixByFamily x family) 0) as [Hzero|Hwant].
    { destruct (IH _ _ _ Hrun) as (Ha & Hn & Hp). split; [exact Ha|]. split; [exact Hn|].
      intros s [<-|Hs] Hw; [contradiction|apply Hp; assumption]. }
    destruct (_ && _); [apply (Hskip _ _ Hrun); auto|].
    apply bind_Ret in Hrun as ([p|] & _ & Hrest); [|apply (Hskip _ _ Hrest); auto].
    destruct (IH _ _ _ Hrest) as (Ha & Hn & Hp).
    split; [intros s Hs; apply Ha, placed_insert, Hs|]. split; [exact Hn|].
    intros s [<-|Hs] Hw; [|apply Hp; assumption].
    left. apply Ha. exists p. apply lookup_insert_eq.
Qed.

Lemma contiguous_pools_accounts items pending alloc used rules family alloc' pending' :
  contiguous_pools items pending alloc used rules family = Ret (alloc', pending') ->
  (forall s, placed alloc s -> placed alloc' s)
  /\ (forall s, In s pending -> desiredPrefixByFamily s family <> 0 ->
        placed alloc' s \/ In s pending').
Proof.
  revert pending alloc used. induction items as [|pool items IH]; intros pending alloc used Hrun;
    cbn [contiguous_pools] in Hrun.
  - injection Hrun as <- <-. split; auto.
  - destruct (Z.of_nat (length pending) =? 0); [injection Hrun as <- <-; split; auto|].
    apply bind_Ret in Hrun as ([[alloc1 used1] next1] & Hpool & Hrest).
    destruct (contiguous_pool_accounts _ _ _ _ _ _ _ _ _ _ Hpool) as (Ha1 & _ & Hp1).
    destruct (IH _ _ _ Hrest) as (Ha & Hp).
    split; [intros s Hs; apply Ha, Ha1, Hs|].
    intros s Hs Hw. destruct (Hp1 s Hs Hw) as [Hplaced|Hnext]; [left; apply Ha, Hplaced|].
    apply Hp; assumption.
Qed.

Lemma contiguous_conflicts_all pending family s :
  In s pending -> In (ALLOCATE_FAIL s family) (contiguous_conflicts pending family false).
Proof.
  induction pending as [|x pending IH]; intros Hin; [destruct Hin|].
  cbn [contiguous_conflicts]. destruct Hin as [->|Hin]; [left; reflexivity|right; apply IH, Hin].
Qed.

(** X27: outside strict mode, whatever strategy runs, every segment
    handed to it that asks for a prefix either has a prefix in the
    allocation or has its [ALLOCATE_FAIL] among the conflicts. *)
Theorem runStrategy_accounts_for_every_segment (items : list poolItem) (segs : list Segment)
    (used : list Prefix) (rules : ProjectRules) (family : string)
    (alloc : gmap Z Prefix) (cf : list Conflict) (s : Segment) :
  runStrategy items segs used rules family false = Ret (alloc, cf) ->
  In s segs -> desiredPrefixByFamily s family <> 0 ->
  (exists p, alloc !! ID s = Some p) \/ In (ALLOCATE_FAIL s family) cf.
Proof.
  unfold runStrategy, allocateContiguous, allocateSpillover. intros Hrun Hin Hwant.
  assert (Hspill : allocateSpillover_from items segs ∅ [] used rules family false
                   = Ret (alloc, cf) ->
                   (exists p, alloc !! ID s = Some p) \/ In (ALLOCATE_FAIL s family) cf).
  { intros H. apply (allocateSpillover_from_accounts _ _ _ _ _ _ _ _ _ _ H Hin Hwant). }
  destruct (String.eqb _ PoolStrategyContig).
  - apply bind_Ret in Hrun as ([alloc1 pending1] & Hpools & Hret). injection Hret as <- <-.
    destruct (contiguous_pools_accounts _ _ _ _ _ _ _ _ Hpools) as [_ Hp].
    destruct (Hp s Hin Hwant) as [Hplaced|Hpending]; [left; exact Hplaced|].
    right. apply contiguous_conflicts_all, Hpending.
  - destruct (String.eqb _ _); apply Hspill, Hrun.
Qed.

End Accounting.

Section PlanWarnings.
Context {L : GoLib}.

Lemma planLocked_conflicts segs family used plan cf used' plan' cf' :
  planLocked segs family used plan cf = (used', plan', cf') ->
  (forall c, In c cf -> In c cf')
  /\ (Forall (fun c => Level c = "Warning"%string) cf ->
      Forall (fun c => Level c = "Warning"%string) cf')
  /\ (forall s, In s segs -> Locked s = true -> segmentCIDRByFamily s family = None ->
        In (LOCKED_NO_CIDR s family) cf').
Proof.
  revert used plan cf. induction segs as [|x segs IH]; intros used plan cf Hrun;
    cbn [planLocked] in Hrun.
  - injection Hrun as <- <- <-. split; [auto|]. split; [auto|]. intros s [].
  - destruct (Locked x) eqn:Hlocked; cbn [negb] in Hrun.
    + destruct (segmentCIDRByFamily x family) as [cidr|] eqn:Hcidr.
      * assert (Hsame : forall used0 plan0,
                  planLocked segs family used0 plan0 cf = (used', plan', cf') ->
                  (forall c, In c cf -> In c cf')
                  /\ (Forall (fun c => Level c = "Warning"%string) cf ->
                      Forall (fun c => Level c = "Warning"%string) cf')
                  /\ (forall s, In s (x :: segs) -> Locked s = true ->
                        segmentCIDRByFamily s family = None ->
                        In (LOCKED_NO_CIDR s family) cf')).
        { intros used0 plan0 Hrest. destruct (IH _ _ _ Hrest) as (Hc & Hw & Hs).
          split; [exact Hc|]. split; [exact Hw|].
          intros s [<-|Hin] Hl Hn; [congruence|apply Hs; assumption]. }
        destruct (ParsePrefix cidr); apply (Hsame _ _ Hrun).
      * destruct (IH _ _ _ Hrun) as (Hc & Hw & Hs).
        split; [intros c Hin; apply Hc, in_or_app; left; exact Hin|].
        split.
        -- intros Hcf. apply Hw, Forall_app. split; [exact Hcf|]. repeat constructor.
        -- intros s [<-|Hin] Hl Hn; [apply Hc, in_or_app; right; left; reflexivity|].
           apply Hs; assumption.
    + destruct (IH _ _ _ Hrun) as (Hc & Hw & Hs). split; [exact Hc|]. split; [exact Hw|].
      intros s [<-|Hin] Hl Hn; [congruence|apply Hs; assumption].
Qed.

Lemma planCandidates_conflicts segs family cands cf cands' cf' :
  planCandidates segs family cands cf = (cands', cf') ->
  (forall c, In c cf -> In c cf')
  /\ (Forall (fun c => Level c = "Warning"%string) cf ->
      Forall (fun c => Level c = "Warning"%string) cf')
  /\ (forall s, In s segs -> Locked s = false -> desiredPrefixByFamily s family = 0 ->
        In (SIZE_MISSING s family) cf')
  /\ (forall s, In s cands' ->
        In s cands \/ In s segs /\ Locked s = false /\ desiredPrefixByFamily s family <> 0).
Proof.
  revert cands cf. induction segs as [|x segs IH]; intros cands cf Hrun;
    cbn [planCandidates] in Hrun.
  - injection Hrun as <- <-. split; [auto|]. split; [auto|]. split; [intros s []|auto].
  - destruct (Locked x) eqn:Hlocked.
    + destruct (IH _ _ Hrun) as (Hc & Hw & Hs & Hk). split; [exact Hc|]. split; [exact Hw|].
      split; [intros s [<-|Hin] Hl Hn; [congruence|apply Hs; assumption]|].
      intros s Hin. destruct (Hk s Hin) as [H|(H1 & H2 & H3)]; [left; exact H|].
      right. split; [right; exact H1|split; assumption].
    + destruct (Z.eqb_spec (desiredPrefixByFamily x family) 0) as [Hzero|Hwant].
      * destruct (IH _ _ Hrun) as (Hc & Hw & Hs & Hk).
        split; [intros c Hin; apply Hc, in_or_app; left; exact Hin|].
        split; [intros Hcf; apply Hw, Forall_app; split; [exact Hcf|repeat constructor]|].
        split.
        -- intros s [<-|Hin] Hl Hn; [apply Hc, in_or_app; right; left; reflexivity|].
           apply Hs; assumption.
        -- intros s Hin. destruct (Hk s Hin) as [H|(H1 & H2 & H3)]; [left; exact H|].
           right. split; [right; exact H1|split; assumption].
      * destruct (IH _ _ Hrun) as (Hc & Hw & Hs & Hk). split; [exact Hc|]. split; [exact Hw|].
        split; [intros s [<-|Hin] Hl Hn; [contradiction|apply Hs; assumption]|].
        intros s Hin. destruct (Hk s Hin) as [H|(H1 & H2 & H3)].
        -- apply in_app_or in H as [H|[<-|[]]]; [left; exact H|].
           right. split; [left; reflexivity|split; assumption].
        -- right. split; [right; exact H1|split; assumption].
Qed.

(** X28: every conflict that [planAllocateFamily] returns is at level
    Warning; without pools of the family the plan is empty and the only
    conflict is [POOL_MISSING], present when some segment needs the
    family; with pools, every locked segment without CIDR has its
    [LOCKED_NO_CIDR] and every unlocked segment without size its
    [SIZE_MISSING]. *)
Theorem planAllocateFamily_warnings (segs : list Segment) (pools : list Pool)
    (reserved : list Prefix) (rules : ProjectRules) (family : string)
    (plan : gmap Z Prefix) (cf : list Conflict) :
  planAllocateFamily segs pools reserved rules family = Ret (plan, cf) ->
  Forall (fun c => Level c = "Warning"%string) cf
  /\ (poolItemsForFamily pools family = [] ->
      plan = ∅
      /\ cf = if segmentsNeedFamily segs family then [POOL_MISSING family] else [])
  /\ (poolItemsForFamily pools family <> [] ->
      forall s, In s segs ->
        (Locked s = true -> segmentCIDRByFamily s family = None ->
         In (LOCKED_NO_CIDR s family) cf)
        /\ (Locked s = false -> desiredPrefixByFamily s family = 0 ->
            In (SIZE_MISSING s family) cf)).
Proof.
  unfold planAllocateFamily. intros Hrun.
  destruct (poolItemsForFamily pools family) as [|item items] eqn:Hitems.
  - cbn [length] in Hrun. change (Z.of_nat 0 =? 0) with true in Hrun. cbv iota in Hrun.
    destruct (segmentsNeedFamily segs family); cbn [negb] in Hrun; injection Hrun as <- <-.
    + split; [repeat constructor|]. split; [auto|congruence].
    + split; [constructor|]. split; [auto|congruence].
  - cbn [length] in Hrun. rewrite Nat2Z.inj_succ in Hrun.
    destruct (Z.eqb_spec (Z.succ (Z.of_nat (length items))) 0) as [Hz|_]; [lia|].
    destruct (planLocked segs family [] ∅ []) as [[used0 plan0] cf0] eqn:Hlocked.
    destruct (planCandidates segs family [] cf0) as [cands cf1] eqn:Hcands.
    apply bind_Ret in Hrun as ([alloc cf2] & Hstrategy & Hret). injection Hret as <- <-.
    destruct (planLocked_conflicts _ _ _ _ _ _ _ _ Hlocked) as (Hc0 & Hw0 & Hs0).
    destruct (planCandidates_conflicts _ _ _ _ _ _ Hcands) as (Hc1 & Hw1 & Hs1 & _).
    split; [|split; [discriminate|]].
    + apply Forall_app. split; [apply Hw1, Hw0; constructor|].
      assert (Hfw : Forall fail_warning cf2).
      { unfold runStrategy, allocateContiguous, allocateSpillover in Hstrategy.
        assert (Hspill : allocateSpillover_from (item :: items)
                           (sort_SliceStable (candidate_less family) cands) ∅ []
                           (used0 ++ reserved) rules family false = Ret (alloc, cf2) ->
                         Forall fail_warning cf2).
        { intros H. apply (allocateSpillover_from_conflicts _ _ _ _ _ _ _ _ _ _ H). constructor. }
        destruct (String.eqb _ PoolStrategyContig).
        - apply bind_Ret in Hstrategy as ([alloc1 pending1] & _ & Hret).
          injection Hret as <- <-. apply contiguous_conflicts_warning.
        - destruct (String.eqb _ _); apply Hspill, Hstrategy. }
      eapply List.Forall_impl; [|exact Hfw]. intros c (_ & _ & Hl & _). exact Hl.
    + intros _ s Hin. split.
      * intros Hl Hn. apply in_or_app. left. apply Hc1, Hs0; assumption.
      * intros Hl Hn. apply in_or_app. left. apply Hs1; assumption.
Qed.

End PlanWarnings.

(** *** Overlapping segments are reported *)

Section OverlapFacts.
Context {L : GoLib}.

Lemma checkSegment_prefixByID poolsV4 poolsV6 reservedV4 reservedV6 rules a s :
  prefixByID (checkSegment poolsV4 poolsV6 reservedV4 reservedV6 rules a s)
  = match parsedCIDR s with
    | Some p => <[ID s := p]> (prefixByID a)
    | None => prefixByID a
    end
  /\ prefixOK (checkSegment poolsV4 poolsV6 reservedV4 reservedV6 rules a s)
     = match parsedCIDR s with
       | Some p => <[ID s := true]> (prefixOK a)
       | None => prefixOK a
       end.
Proof.
  unfold checkSegment, parsedCIDR.
  destruct (CIDR s) as [cidr|]; [destruct (ParsePrefix cidr) as [p|]|];
    repeat match goal with
           | |- context [checkParsed ?t ?x ?p ?pools ?ranges ?r ?st ?cf] =>
               destruct (checkParsed t x p pools ranges r st cf)
           | |- context [match CIDRV6 s with _ => _ end] => destruct (CIDRV6 s)
           | |- context [match ParsePrefix ?c with _ => _ end] => destruct (ParsePrefix c)
           end; split; reflexivity.
Qed.

Lemma foldl_mark {V : Type} (upd : Segment -> option V) (segs : list Segment) (m : gmap Z V)
    (s : Segment) (v : V) :
  NoDup (map ID segs) -> In s segs -> upd s = Some v ->
  foldl (fun m s => match upd s with Some v => <[ID s := v]> m | None => m end) m segs !! ID s
  = Some v.
Proof.
  revert m. induction segs as [|x segs IH]; intros m Hnd Hin Hs; [destruct Hin|].
  cbn [map] in Hnd. apply NoDup_cons in Hnd as [Hx Hnd]. cbn [foldl].
  destruct Hin as [->|Hin]; [|apply IH; assumption].
  rewrite Hs.
  assert (Hkeep : forall l (m' : gmap Z V), ~ In (ID s) (map ID l) ->
            foldl (fun m s => match upd s with Some v => <[ID s := v]> m | None => m end) m' l
              !! ID s = m' !! ID s).
  { induction l as [|y l IHl]; intros m' Hy; [reflexivity|]. cbn [foldl].
    rewrite IHl by (intros H; apply Hy; right; exact H).
    destruct (upd y); [|reflexivity]. apply lookup_insert_ne.
    intros Heq. apply Hy. left. exact Heq. }
  rewrite Hkeep; [apply lookup_insert_eq|].
  intros H. apply Hx, list_elem_of_In, H.
Qed.

Lemma analysis_marks poolsV4 poolsV6 reservedV4 reservedV6 rules segs a0 :
  let a := foldl (checkSegment poolsV4 poolsV6 reservedV4 reservedV6 rules) a0 segs in
  prefixByID a
  = foldl (fun m s => match parsedCIDR s with Some p => <[ID s := p]> m | None => m end)
      (prefixByID a0) segs
  /\ prefixOK a
     = foldl (fun m s => match (match parsedCIDR s with Some _ => Some true | None => None end)
                         with Some v => <[ID s := v]> m | None => m end)
         (prefixOK a0) segs.
Proof.
  revert a0. induction segs as [|s segs IH]; intros a0; cbn [foldl]; [split; reflexivity|].
  destruct (IH (checkSegment poolsV4 poolsV6 reservedV4 reservedV6 rules a0 s)) as [H1 H2].
  destruct (checkSegment_prefixByID poolsV4 poolsV6 reservedV4 reservedV6 rules a0 s) as [E1 E2].
  cbv zeta in *. rewrite H1, H2, E1, E2. destruct (parsedCIDR s); split; reflexivity.
Qed.

Lemma groupBySiteVRF_ids (segs : list Segment) (ok : gmap Z bool) (k : string * string) :
  default [] (groupBySiteVRF segs ok !! k) = map ID (List.filter (inGroup ok k) segs).
Proof.
  unfold groupBySiteVRF.
  assert (Hgen : forall l (g : gmap (string * string) (list Z)),
            default [] (foldl
              (fun group s =>
                 if default false (ok !! ID s)
                 then <[(Site_ s, VRF s) := default [] (group !! (Site_ s, VRF s)) ++ [ID s]]> group
                 else group) g l !! k)
            = default [] (g !! k) ++ map ID (List.filter (inGroup ok k) l)).
  { induction l as [|s l IH]; intros g; cbn [foldl List.filter map].
    - rewrite app_nil_r. reflexivity.
    - rewrite IH. destruct (inGroup ok k s) eqn:Hin; unfold inGroup in Hin.
      + apply andb_true_iff in Hin as [Hok Hk]. apply bool_decide_eq_true in Hk.
        rewrite Hok, Hk, lookup_insert_eq. cbn [from_option id map].
        rewrite <- app_assoc. reflexivity.
      + destruct (default false (ok !! ID s)); [|reflexivity]. cbn [andb] in Hin.
        apply bool_decide_eq_false in Hin. rewrite lookup_insert_ne by exact Hin. reflexivity. }
  rewrite Hgen, lookup_empty. reflexivity.
Qed.

Lemma pairsOf_in {A : Type} (l1 l2 l3 : list A) (x y : A) :
  In (x, y) (pairsOf (l1 ++ x :: l2 ++ y :: l3)).
Proof.
  induction l1 as [|z l1 IH]; cbn [app pairsOf].
  - apply in_or_app. left. apply in_map. apply in_or_app. right. left. reflexivity.
  - apply in_or_app. right. exact IH.
Qed.

Lemma foldl_reaches {X Y : Type} (P : X -> Prop) (f : X -> Y -> X) (y0 : Y) :
  (forall x y, P x -> P (f x y)) -> (forall x, P (f x y0)) ->
  forall l x, In y0 l -> P (foldl f x l).
Proof.
  intros Hkeep Hhit l. induction l as [|y l IH]; intros x Hin; [destruct Hin|]. cbn [foldl].
  destruct Hin as [->|Hin]; [|apply IH, Hin].
  apply (foldl_keeps P f Hkeep), Hhit.
Qed.

Lemma checkPair_keeps v6 segByID byID k c ida idb sc ab :
  reported c ida idb sc -> reported c ida idb (checkPair v6 segByID byID k sc ab).
Proof.
  intros (Hc & Ha & Hb). unfold checkPair. destruct sc as [st cf], ab as [x y].
  cbn [fst snd] in *.
  destruct (byID !! x) as [p1|]; [|repeat split; assumption].
  destruct (byID !! y) as [p2|]; [|repeat split; assumption].
  destruct (prefixesOverlap p1 p2); [|repeat split; assumption].
  split; [cbn [snd]; apply in_or_app; left; exact Hc|].
  cbn [fst]. split; apply addStatus_keeps_conflict, addStatus_keeps_conflict; assumption.
Qed.

Lemma checkOverlaps_keeps v6 segByID byID group c ida idb sc :
  reported c ida idb sc -> reported c ida idb (checkOverlaps v6 segByID byID group sc).
Proof.
  unfold checkOverlaps. apply (foldl_keeps (reported c ida idb)).
  intros sc' [k ids]. apply (foldl_keeps (reported c ida idb)).
  intros sc'' ab. apply checkPair_keeps.
Qed.

(** X29: with unique segment ids and a [range] that visits each map
    entry, two segments of the same site and VRF whose IPv4 CIDRs parse
    to overlapping prefixes get their [OVERLAP] conflict, worded with the
    earlier segment first, and both stand at Conflict. *)
Theorem analyzeSegments_reports_overlap (l1 l2 l3 : list Segment) (a b : Segment)
    (poolsV4 poolsV6 reservedV4 reservedV6 : gmap Z (list Prefix)) (rules : ProjectRules)
    (out : gmap Z SegmentStatus) (cf : list Conflict) (p1 p2 : Prefix) :
  let segs := l1 ++ a :: l2 ++ b :: l3 in
  NoDup (map ID segs) ->
  (forall entries : list (string * string * list Z), Permutation entries (range_order entries)) ->
  Site_ a = Site_ b -> VRF a = VRF b ->
  parsedCIDR a = Some p1 -> parsedCIDR b = Some p2 ->
  prefixesOverlap p1 p2 = true ->
  analyzeSegments segs poolsV4 poolsV6 reservedV4 reservedV6 rules = (out, cf) ->
  In (OVERLAP a b p1 p2) cf
  /\ level_is out (ID a) statusConflict /\ level_is out (ID b) statusConflict.
Proof.
  intros segs Hnd Hrange Hsite Hvrf Hpa Hpb Hover Hrun.
  assert (Hina : In a segs) by (unfold segs; apply in_or_app; right; left; reflexivity).
  assert (Hinb : In b segs).
  { unfold segs. apply in_or_app. right. right. apply in_or_app. right. left. reflexivity. }
  unfold analyzeSegments in Hrun.
  set (segByID := foldl (fun m s => <[ID s := s]> m) (∅ : gmap Z Segment) segs) in *.
  set (a0 := foldl (checkSegment poolsV4 poolsV6 reservedV4 reservedV6 rules)
               (mkAnalysis ∅ [] ∅ ∅ ∅ ∅) segs) in *.
  set (sc1 := checkOverlaps false segByID (prefixByID a0)
                (groupBySiteVRF segs (prefixOK a0)) (statuses a0, conflicts a0)) in *.
  set (sc2 := checkOverlaps true segByID (prefixByIDV6 a0)
                (groupBySiteVRF segs (prefixOKV6 a0)) sc1) in *.
  destruct (foldl_checkVLAN segByID rules segs ∅ (fst sc2) (snd sc2)) as (seen' & Hvlan).
  rewrite Hvlan in Hrun. injection Hrun as <- <-.
  destruct (analysis_marks poolsV4 poolsV6 reservedV4 reservedV6 rules segs
              (mkAnalysis ∅ [] ∅ ∅ ∅ ∅)) as [HbyID Hok].
  fold a0 in HbyID, Hok. cbn [prefixByID prefixOK] in HbyID, Hok.
  assert (Hba : prefixByID a0 !! ID a = Some p1)
    by (rewrite HbyID; apply (foldl_mark parsedCIDR); assumption).
  assert (Hbb : prefixByID a0 !! ID b = Some p2)
    by (rewrite HbyID; apply (foldl_mark parsedCIDR); assumption).
  assert (Hoka : prefixOK a0 !! ID a = Some true).
  { rewrite Hok.
    apply (foldl_mark (fun s => match parsedCIDR s with Some _ => Some true | None => None end));
      [assumption|assumption|]. rewrite Hpa. reflexivity. }
  assert (Hokb : prefixOK a0 !! ID b = Some true).
  { rewrite Hok.
    apply (foldl_mark (fun s => match parsedCIDR s with Some _ => Some true | None => None end));
      [assumption|assumption|]. rewrite Hpb. reflexivity. }
  assert (Hsa : segByID !! ID a = Some a).
  { apply (foldl_insert_in (fun s => s)); [exact Hina|].
    intros x Hx Hid. apply (NoDup_ID_inj segs); assumption. }
  assert (Hsb : segByID !! ID b = Some b).
  { apply (foldl_insert_in (fun s => s)); [exact Hinb|].
    intros x Hx Hid. apply (NoDup_ID_inj segs); assumption. }
  set (k := (Site_ a, VRF a)).
  set (ids := map ID (List.filter (inGroup (prefixOK a0) k) segs)).
  assert (Hga : inGroup (prefixOK a0) k a = true).
  { unfold inGroup. rewrite Hoka. apply andb_true_iff. split; [reflexivity|].
    apply bool_decide_eq_true. reflexivity. }
  assert (Hgb : inGroup (prefixOK a0) k b = true).
  { unfold inGroup. rewrite Hokb. apply andb_true_iff. split; [reflexivity|].
    apply bool_decide_eq_true. unfold k. rewrite Hsite, Hvrf. reflexivity. }
  assert (Hids : exists i1 i2 i3, ids = i1 ++ ID a :: i2 ++ ID b :: i3).
  { unfold ids, segs.
    rewrite List.filter_app. cbn [List.filter]. rewrite Hga, List.filter_app.
    cbn [List.filter]. rewrite Hgb.
    rewrite List.map_app. cbn [map]. rewrite List.map_app. cbn [map].
    eexists _, _, _. reflexivity. }
  assert (Hgroup : In (k, ids) (range_order (map_to_list (groupBySiteVRF segs (prefixOK a0))))).
  { eapply Permutation_in; [apply Hrange|].
    apply list_elem_of_In, elem_of_map_to_list.
    pose proof (groupBySiteVRF_ids segs (prefixOK a0) k) as Hd. fold ids in Hd.
    destruct (groupBySiteVRF segs (prefixOK a0) !! k) as [g|]; cbn [from_option id] in Hd.
    - rewrite Hd. reflexivity.
    - destruct Hids as (i1 & i2 & i3 & Hi). rewrite Hi in Hd.
      destruct i1; discriminate. }
  assert (H1 : reported (OVERLAP a b p1 p2) (ID a) (ID b) sc1).
  { unfold sc1, checkOverlaps.
    apply (foldl_reaches (reported (OVERLAP a b p1 p2) (ID a) (ID b)) _ (k, ids));
      [| |exact Hgroup].
    - intros sc' [k' ids']. apply (foldl_keeps (reported (OVERLAP a b p1 p2) (ID a) (ID b))).
      intros sc'' ab. apply checkPair_keeps.
    - intros sc'.
      apply (foldl_reaches (reported (OVERLAP a b p1 p2) (ID a) (ID b)) _ (ID a, ID b)).
      + intros sc'' ab. apply checkPair_keeps.
      + intros [st0 cf0]. unfold checkPair. rewrite Hba, Hbb, Hover, Hsa, Hsb.
        cbn [from_option id]. split; [|split]; cbn [fst snd].
        * apply in_or_app. right. left. reflexivity.
        * apply addStatus_keeps_conflict, addStatus_conflict_at.
        * apply addStatus_conflict_at.
      + destruct Hids as (i1 & i2 & i3 & ->). apply pairsOf_in. }
  assert (H2 : reported (OVERLAP a b p1 p2) (ID a) (ID b) sc2)
    by (apply checkOverlaps_keeps, H1).
  destruct H2 as (Hc & Hla & Hlb).
  split; [apply in_or_app; left; exact Hc|].
  assert (Hout : forall x, In x segs -> level_is (fst sc2) (ID x) statusConflict ->
            level_is
              (foldl (fun out s =>
                        <[ID s := default (mkStatus statusOK [])
                                    (foldl raiseBoth (fst sc2) (vlanEvents rules ∅ segs) !! ID s)]>
                          out) ∅ segs) (ID x) statusConflict).
  { intros x Hx Hlevel.
    apply (foldl_raiseBoth_keeps (vlanEvents rules ∅ segs)) in Hlevel.
    destruct Hlevel as (v & Hv & Hl). exists v. split; [|exact Hl].
    rewrite (foldl_insert_in
               (fun s => default (mkStatus statusOK [])
                           (foldl raiseBoth (fst sc2) (vlanEvents rules ∅ segs) !! ID s))
               segs ∅ x Hx).
    - rewrite Hv. reflexivity.
    - intros y _ Hid. rewrite Hid. reflexivity. }
  split; apply Hout; assumption.
Qed.

End OverlapFacts.

(** ** The properties above at concrete inputs *)

Lemma hostsToPrefixIPv4_bounded_antitone_witness :
  - 2 ^ 63 <= 10 + 3 /\ 10 <= 100 /\ 100 + 3 < 2 ^ 63
  /\ 1 <= hostsToPrefixIPv4 100
  /\ hostsToPrefixIPv4 100 <= hostsToPrefixIPv4 10
  /\ hostsToPrefixIPv4 10 <= 32.
Proof.
  assert (H1 : - 2 ^ 63 <= 10 + 3) by lia.
  assert (H2 : 10 <= 100) by lia.
  assert (H3 : 100 + 3 < 2 ^ 63) by lia.
  split; [exact H1|]. split; [exact H2|]. split; [exact H3|].
  exact (hostsToPrefixIPv4_bounded_antitone 10 100 H1 H2 H3).
Defined.

Lemma itoa64_decimal_witness :
  0 <= 2026 < 2 ^ 63 /\ Demo.digitsValue (itoa64 2026) 0 = Some 2026.
Proof.
  assert (H : 0 <= 2026 < 2 ^ 63) by lia.
  split; [exact H|]. exact (proj1 (itoa64_decimal 2026) H).
Defined.

Lemma vlanKey_injective_witness :
  let a := Demo.seg 1 "R1" "A" 10 "seg-a" None (Some 26) None false in
  let b := Demo.seg 2 "R1" "A" 10 "seg-b" None (Some 26) None false in
  hasBar (Site_ a) = false /\ hasBar (Site_ b) = false
  /\ hasBar (VRF a) = false /\ hasBar (VRF b) = false
  /\ - 2 ^ 63 < VLAN a < 2 ^ 63 /\ - 2 ^ 63 < VLAN b < 2 ^ 63
  /\ vlanKey a defaultProjectRules = vlanKey b defaultProjectRules
  /\ VLAN a = VLAN b
  /\ (VLANScope defaultProjectRules <> VlanScopeGlobal -> Site_ a = Site_ b)
  /\ (VLANScope defaultProjectRules <> VlanScopeGlobal ->
      VLANScope defaultProjectRules <> VlanScopeSite -> VRF a = VRF b).
Proof.
  intros a b.
  assert (Ha : - 2 ^ 63 < VLAN a < 2 ^ 63) by (simpl; lia).
  assert (Hb : - 2 ^ 63 < VLAN b < 2 ^ 63) by (simpl; lia).
  assert (Hk : vlanKey a defaultProjectRules = vlanKey b defaultProjectRules) by reflexivity.
  split; [reflexivity|]. split; [reflexivity|]. split; [reflexivity|]. split; [reflexivity|].
  split; [exact Ha|]. split; [exact Hb|]. split; [exact Hk|].
  exact (vlanKey_injective defaultProjectRules a b eq_refl eq_refl eq_refl eq_refl Ha Hb Hk).
Defined.

Lemma alignUp_least_multiple_witness :
  0 <= 10 /\ 0 < 4
  /\ 10 <= alignUp 10 4 < 10 + 4 /\ alignUp 10 4 mod 4 = 0 /\ alignUp 10 0 = 10.
Proof.
  assert (H1 : 0 <= 10) by lia. assert (H2 : 0 < 4) by lia.
  split; [exact H1|]. split; [exact H2|]. exact (alignUp_least_multiple 10 4 H1 H2).
Defined.

Lemma divCeil_ceiling_witness :
  0 <= 10 /\ 0 < 4 /\ 4 * (divCeil 10 4 - 1) < 10 <= 4 * divCeil 10 4 /\ divCeil 10 0 = 0.
Proof.
  assert (H1 : 0 <= 10) by lia. assert (H2 : 0 < 4) by lia.
  split; [exact H1|]. split; [exact H2|]. exact (divCeil_ceiling 10 4 H1 H2).
Defined.

Lemma fragmentationScore_exact_witness :
  0 <= 64 <= 200 /\ 200 * 100 < 2 ^ 64
  /\ fragmentationScore 200 64 = (200 - 64) * 100 / 200
  /\ 0 <= fragmentationScore 200 64 <= 100.
Proof.
  assert (H1 : 0 <= 64 <= 200) by lia. assert (H2 : 200 * 100 < 2 ^ 64) by lia.
  split; [exact H1|]. split; [exact H2|]. exact (fragmentationScore_exact 200 64 H1 H2).
Defined.

Lemma bigToAddr_addrToBig_witness :
  let a := Addr4 167772160 in
  0 <= value a < 2 ^ BitLen a /\ bigToAddr (addrToBig a) (addrBitLen a) = Some a.
Proof.
  intros a. assert (H : 0 <= value a < 2 ^ BitLen a) by (simpl; lia).
  split; [exact H|]. exact (proj1 (bigToAddr_addrToBig a 0 32) H).
Defined.

Lemma prefixesOverlap_common_address_witness :
  let a := Demo.cidr4 10 0 0 0 24 in
  let b := Demo.cidr4 10 0 0 128 25 in
  valid a /\ valid b
  /\ (prefixesOverlap a b = true <-> exists ip, Contains a ip = true /\ Contains b ip = true)
  /\ prefixesOverlap a b = prefixesOverlap b a.
Proof.
  intros a b.
  assert (Ha : valid a) by (unfold valid; simpl; lia).
  assert (Hb : valid b) by (unfold valid; simpl; lia).
  split; [exact Ha|]. split; [exact Hb|]. exact (prefixesOverlap_common_address a b Ha Hb).
Defined.

Lemma prefixWithin_contains_block_witness :
  let pool := Demo.cidr4 10 0 0 0 24 in
  let p := Demo.cidr4 10 0 0 128 25 in
  valid pool /\ valid p
  /\ ((forall ip, Contains p ip = true -> Contains pool ip = true) -> prefixWithin pool p = true)
  /\ (prefixWithin pool p = true -> Bits pool <= Bits p ->
      forall ip, Contains p ip = true -> Contains pool ip = true).
Proof.
  intros pool p.
  assert (Hpool : valid pool) by (unfold valid; simpl; lia).
  assert (Hp : valid p) by (unfold valid; simpl; lia).
  split; [exact Hpool|]. split; [exact Hp|]. exact (prefixWithin_contains_block pool p Hpool Hp).
Defined.

Lemma allocateInPoolIPv6_total_witness :
  let pool := PrefixFrom (Addr6 (0x20010db8 * 2 ^ 96)) 32 in
  let used := [PrefixFrom (Addr6 (0x20010db8 * 2 ^ 96)) 48] in
  48 <= 128 /\ exists r, allocateInPoolIPv6 (L := Demo.golib_fwd) pool 48 used = Ret r.
Proof.
  intros pool used. assert (H : 48 <= 128) by lia.
  split; [exact H|]. exact (allocateInPoolIPv6_total (L := Demo.golib_fwd) pool 48 used H).
Defined.

Lemma allocateInPoolIPv6_sound_witness :
  let pool := PrefixFrom (Addr6 (0x20010db8 * 2 ^ 96)) 32 in
  let used := [PrefixFrom (Addr6 (0x20010db8 * 2 ^ 96)) 48] in
  let q := PrefixFrom (Addr6 (0x20010db8 * 2 ^ 96 + 2 ^ 80)) 48 in
  sorts_by_start (sort_Slice (GoLib := Demo.golib_fwd) (fun a b => b_start a <? b_start b))
  /\ valid pool /\ Forall valid used
  /\ allocateInPoolIPv6 (L := Demo.golib_fwd) pool 48 used = Ret (Some q)
  /\ Bits q = 48 /\ Bits pool <= 48 <= 128 /\ Masked q = q
  /\ prefixWithin pool q = true
  /\ overlapsAny q used = false.
Proof.
  intros pool used q.
  assert (Hpool : valid pool) by (unfold valid; simpl; lia).
  assert (Hused : Forall valid used) by (repeat constructor; simpl; lia).
  assert (Hrun : allocateInPoolIPv6 (L := Demo.golib_fwd) pool 48 used = Ret (Some q))
    by (vm_compute; reflexivity).
  split; [exact demo_sorts_by_start|]. split; [exact Hpool|]. split; [exact Hused|].
  split; [exact Hrun|].
  exact (allocateInPoolIPv6_sound (L := Demo.golib_fwd) pool 48 used q demo_sorts_by_start
           Hpool Hused Hrun).
Defined.

Lemma buildUsedRangesBig_exact_witness :
  let pool := PrefixFrom (Addr6 (0x20010db8 * 2 ^ 96)) 32 in
  let used := [ PrefixFrom (Addr6 (0x20010db8 * 2 ^ 96 + 2 * 2 ^ 80)) 47;
                PrefixFrom (Addr6 (0x20010db8 * 2 ^ 96)) 48 ] in
  let lo := addrToBig (PAddr pool) in
  let hi := lo + prefixSize pool - 1 in
  let out := buildUsedRangesBig (L := Demo.golib_fwd) pool used in
  sorts_by_start (sort_Slice (GoLib := Demo.golib_fwd) (fun a b => b_start a <? b_start b))
  /\ Forall (inside lo hi) out
  /\ StronglySorted apart out
  /\ forall x, covered x out <->
               lo <= x <= hi /\ exists u, In u used /\ covers (blockRange u) x.
Proof.
  intros pool used lo hi out.
  split; [exact demo_sorts_by_start|].
  exact (buildUsedRangesBig_exact (L := Demo.golib_fwd) pool used demo_sorts_by_start).
Defined.

Lemma freeRangesBig_complement_witness :
  let pool := PrefixFrom (Addr6 (0x20010db8 * 2 ^ 96)) 32 in
  let lo := addrToBig (PAddr (Masked pool)) in
  let hi := lo + prefixSize (Masked pool) - 1 in
  let used := [ mkBig lo (lo + 2 ^ 80 - 1); mkBig (lo + 2 * 2 ^ 80) (lo + 4 * 2 ^ 80 - 1) ] in
  StronglySorted apart used
  /\ Forall (inside lo hi) used
  /\ (forall x, covered x (freeRangesBig pool used) <-> lo <= x <= hi /\ ~ covered x used)
  /\ sumBigRanges used + sumBigRanges (freeRangesBig pool used) = prefixSize (Masked pool).
Proof.
  intros pool lo hi used.
  assert (Hlo : lo = 0x20010db8 * 2 ^ 96) by (vm_compute; reflexivity).
  assert (Hhi : hi = 0x20010db8 * 2 ^ 96 + 2 ^ 96 - 1) by (vm_compute; reflexivity).
  assert (Hap : StronglySorted apart used).
  { repeat constructor; unfold apart; cbn [b_start b_end]; rewrite ?Hlo; lia. }
  assert (Hin : Forall (inside lo hi) used).
  { repeat constructor; unfold inside; cbn [b_start b_end]; rewrite ?Hlo, ?Hhi; lia. }
  split; [exact Hap|]. split; [exact Hin|].
  exact (freeRangesBig_complement pool used Hap Hin).
Defined.

Lemma rangeToPrefixes_tiles_witness :
  let r := mkRange 167772176 167772255 in
  below_top r
  /\ exists out, rangeToPrefixes r = Ret out /\ tiles (r_start r) out (r_end r + 1).
Proof.
  intros r. assert (H : below_top r) by (unfold below_top; simpl; lia).
  split; [exact H|]. exact (rangeToPrefixes_tiles r H).
Defined.

Lemma bigRangeToPrefixes_blocks_witness :
  let r := mkBig (0x20010db8 * 2 ^ 96 + 5) (0x20010db8 * 2 ^ 96 + 3 * 2 ^ 64) in
  let step := 2 ^ (128 - 64) in
  let out := bigRangeToPrefixes r 64 3 in
  1 <= 64 <= 128 /\ 0 <= b_start r
  /\ Z.of_nat (length out) <= Z.max 0 3
  /\ forall k p, nth_error out k = Some p ->
       p = PrefixFrom (Addr6 (alignUp (b_start r) step + Z.of_nat k * step)) 64
       /\ b_start r <= value (PAddr p)
       /\ value (PAddr p) + step - 1 <= b_end r
       /\ value (PAddr p) mod step = 0.
Proof.
  intros r step out.
  assert (H1 : 1 <= 64 <= 128) by lia.
  assert (H2 : 0 <= b_start r) by (simpl; lia).
  split; [exact H1|]. split; [exact H2|]. exact (bigRangeToPrefixes_blocks r 64 3 H1 H2).
Defined.

Ltac distinct_ids :=
  vm_compute;
  repeat (constructor;
          [let H := fresh in
           intros H; apply list_elem_of_In in H; cbn [In] in H;
           repeat (destruct H as [H|H]; [discriminate H|]); exact H
          |]);
  constructor.

Lemma runStrategy_v4_apart_witness :
  let items := [mkItem (Demo.pool4 "10.30.0.0/24") (Demo.cidr4 10 30 0 0 24) ""] in
  let segs := [ Demo.seg 2 "SAI" "PROD" 10 "users" (Some 60) None None false;
                Demo.seg 3 "SAI" "PROD" 11 "voice" (Some 50) None None false ] in
  let used := [Demo.cidr4 10 30 0 0 28; Demo.cidr4 10 30 0 64 26] in
  let alloc : gmap Z Prefix :=
    <[3 := Demo.cidr4 10 30 0 192 26]> (<[2 := Demo.cidr4 10 30 0 128 26]> ∅) in
  Forall (fun pool => Is4 (PAddr (item_Prefix pool)) = true) items
  /\ runStrategy (L := Demo.golib_fwd) items segs used defaultProjectRules "ipv4" false
     = Ret (alloc, [])
  /\ (forall id q, alloc !! id = Some q -> overlapsAny q used = false)
  /\ (forall id1 id2 q1 q2, id1 <> id2 -> alloc !! id1 = Some q1 -> alloc !! id2 = Some q2 ->
        prefixesOverlap q1 q2 = false).
Proof.
  intros items segs used alloc.
  assert (H4 : Forall (fun pool => Is4 (PAddr (item_Prefix pool)) = true) items)
    by (repeat constructor).
  assert (Hrun : runStrategy (L := Demo.golib_fwd) items segs used defaultProjectRules
                   "ipv4" false = Ret (alloc, []))
    by (vm_compute; reflexivity).
  split; [exact H4|]. split; [exact Hrun|].
  exact (runStrategy_v4_apart (L := Demo.golib_fwd) items segs used defaultProjectRules
           "ipv4" false alloc [] H4 Hrun).
Defined.

Lemma runStrategy_v4_within_witness :
  let items := [mkItem (Demo.pool4 "10.30.0.0/24") (Demo.cidr4 10 30 0 0 24) ""] in
  let segs := [ Demo.seg 2 "SAI" "PROD" 10 "users" (Some 60) None None false;
                Demo.seg 3 "SAI" "PROD" 11 "voice" (Some 50) None None false ] in
  let used := [Demo.cidr4 10 30 0 0 28; Demo.cidr4 10 30 0 64 26] in
  let alloc : gmap Z Prefix :=
    <[3 := Demo.cidr4 10 30 0 192 26]> (<[2 := Demo.cidr4 10 30 0 128 26]> ∅) in
  Forall (fun pool => valid (item_Prefix pool) /\ Is4 (PAddr (item_Prefix pool)) = true) items
  /\ (forall s pool, In s segs -> In pool items ->
        desiredPrefixByFamily s "ipv4" = 0
        \/ Bits (item_Prefix pool) <= desiredPrefixByFamily s "ipv4")
  /\ runStrategy (L := Demo.golib_fwd) items segs used defaultProjectRules "ipv4" false
     = Ret (alloc, [])
  /\ forall id q, alloc !! id = Some q ->
       exists pool, In pool items /\ prefixWithin (item_Prefix pool) q = true.
Proof.
  intros items segs used alloc.
  assert (Hpools : Forall (fun pool => valid (item_Prefix pool)
                                       /\ Is4 (PAddr (item_Prefix pool)) = true) items).
  { constructor; [|constructor]. split; [|reflexivity]. unfold valid. simpl. lia. }
  assert (Hlen : forall s pool, In s segs -> In pool items ->
                   desiredPrefixByFamily s "ipv4" = 0
                   \/ Bits (item_Prefix pool) <= desiredPrefixByFamily s "ipv4").
  { intros s pool [<-|[<-|[]]] [<-|[]]; right; vm_compute; discriminate. }
  assert (Hrun : runStrategy (L := Demo.golib_fwd) items segs used defaultProjectRules
                   "ipv4" false = Ret (alloc, []))
    by (vm_compute; reflexivity).
  split; [exact Hpools|]. split; [exact Hlen|]. split; [exact Hrun|].
  exact (runStrategy_v4_within (L := Demo.golib_fwd) items segs used defaultProjectRules
           "ipv4" false alloc [] Hpools Hlen Hrun).
Defined.

Lemma runStrategy_accounts_for_every_segment_witness :
  let items := [mkItem (Demo.pool4 "10.0.0.0/30") (Demo.cidr4 10 0 0 0 30) ""] in
  let s := Demo.seg 1 "S" "A" 10 "users" (Some 200) None None false in
  runStrategy (L := Demo.golib_fwd) items [s] [] defaultProjectRules "ipv4" false
  = Ret (∅, [ALLOCATE_FAIL s "ipv4"])
  /\ In s [s]
  /\ ((exists p, (∅ : gmap Z Prefix) !! ID s = Some p)
      \/ In (ALLOCATE_FAIL s "ipv4") [ALLOCATE_FAIL s "ipv4"]).
Proof.
  intros items s.
  assert (Hrun : runStrategy (L := Demo.golib_fwd) items [s] [] defaultProjectRules "ipv4" false
                 = Ret (∅, [ALLOCATE_FAIL s "ipv4"])) by (vm_compute; reflexivity).
  assert (Hin : In s [s]) by (left; reflexivity).
  assert (Hwant : desiredPrefixByFamily s "ipv4" <> 0) by (vm_compute; discriminate).
  split; [exact Hrun|]. split; [exact Hin|].
  exact (runStrategy_accounts_for_every_segment (L := Demo.golib_fwd) items [s] []
           defaultProjectRules "ipv4" ∅ [ALLOCATE_FAIL s "ipv4"] s Hrun Hin Hwant).
Defined.

Lemma planAllocateFamily_keeps_locked_witness :
  let mgmt := Demo.seg 1 "SAI" "MGMT" 20 "mgmt" None (Some 26) (Some "10.30.0.64/26"%string) true in
  let segs := [ mgmt; Demo.seg 2 "SAI" "PROD" 10 "users" (Some 60) None None false ] in
  let pools := [Demo.pool4 "10.30.0.0/24"] in
  let p := Demo.cidr4 10 30 0 64 26 in
  exists plan cf,
    planAllocateFamily (L := Demo.golib_fwd) segs pools [] defaultProjectRules "ipv4"
    = Ret (plan, cf)
    /\ In mgmt segs /\ Locked mgmt = true
    /\ plan !! ID mgmt = Some p
    /\ (forall planV6,
          CIDR (applyPlan_one (L := Demo.golib_fwd) plan planV6 mgmt)
          = Some (PrefixString (GoLib := Demo.golib_fwd) p))
    /\ (forall planV4,
          CIDRV6 (applyPlan_one (L := Demo.golib_fwd) planV4 plan mgmt)
          = Some (PrefixString (GoLib := Demo.golib_fwd) p)).
Proof.
  intros mgmt segs pools p.
  assert (Hrun : exists plan cf,
            planAllocateFamily (L := Demo.golib_fwd) segs pools [] defaultProjectRules "ipv4"
            = Ret (plan, cf)) by (eexists; eexists; vm_compute; reflexivity).
  destruct Hrun as (plan & cf & Hrun).
  assert (Hitems : poolItemsForFamily (L := Demo.golib_fwd) pools "ipv4" <> [])
    by (vm_compute; discriminate).
  assert (Hnd : NoDup (map ID segs)) by distinct_ids.
  assert (Hin : In mgmt segs) by (left; reflexivity).
  exists plan, cf. split; [exact Hrun|]. split; [exact Hin|]. split; [reflexivity|].
  exact (planAllocateFamily_keeps_locked (L := Demo.golib_fwd) segs pools [] defaultProjectRules
           "ipv4" plan cf mgmt "10.30.0.64/26" p Hitems Hnd
           (fun entries => Permutation_refl entries) Hin eq_refl eq_refl eq_refl Hrun).
Defined.

Lemma planAllocateFamily_warnings_witness :
  let orphan := Demo.seg 1 "SAI" "MGMT" 20 "mgmt" None None None true in
  let unsized := Demo.seg 2 "SAI" "PROD" 10 "users" None None None false in
  let segs := [orphan; unsized] in
  let pools := [Demo.pool4 "10.30.0.0/24"] in
  exists plan cf,
    planAllocateFamily (L := Demo.golib_fwd) segs pools [] defaultProjectRules "ipv4"
    = Ret (plan, cf)
    /\ Forall (fun c => Level c = "Warning"%string) cf
    /\ In (LOCKED_NO_CIDR orphan "ipv4") cf
    /\ In (SIZE_MISSING unsized "ipv4") cf.
Proof.
  intros orphan unsized segs pools.
  assert (Hrun : exists plan cf,
            planAllocateFamily (L := Demo.golib_fwd) segs pools [] defaultProjectRules "ipv4"
            = Ret (plan, cf)) by (eexists; eexists; vm_compute; reflexivity).
  destruct Hrun as (plan & cf & Hrun).
  destruct (planAllocateFamily_warnings (L := Demo.golib_fwd) segs pools [] defaultProjectRules
              "ipv4" plan cf Hrun) as (Hwarn & _ & Hin).
  assert (Hitems : poolItemsForFamily (L := Demo.golib_fwd) pools "ipv4" <> [])
    by (vm_compute; discriminate).
  exists plan, cf. split; [exact Hrun|]. split; [exact Hwarn|]. split.
  - apply (Hin Hitems orphan); [left; reflexivity|reflexivity|reflexivity].
  - apply (Hin Hitems unsized); [right; left; reflexivity|reflexivity|reflexivity].
Defined.

Lemma allocateFamily_writes_witness :
  let segs := [ Demo.seg 1 "SAI" "MGMT" 20 "mgmt" None (Some 26) (Some "10.30.0.64/26"%string) true;
                Demo.seg 2 "SAI" "PROD" 10 "users" (Some 60) None None false ] in
  let pools := [Demo.pool4 "10.30.0.0/24"] in
  exists log err,
    allocateFamily (L := Demo.golib_fwd) (E := Demo.logStore) [] 1 segs pools []
      defaultProjectRules "ipv4" = Ret (log, err)
    /\ (log = []
        \/ err = None
           /\ exists updates,
                log = ClearCIDRs 1 "ipv4" :: updates
                /\ Forall (fun op => exists s p,
                             op = UpdateCIDR (ID s) "ipv4"
                                    (PrefixString (GoLib := Demo.golib_fwd) p)
                             /\ In s segs /\ Locked s = false
                             /\ desiredPrefixByFamily s "ipv4" <> 0) updates).
Proof.
  intros segs pools.
  assert (Hrun : exists log err,
            allocateFamily (L := Demo.golib_fwd) (E := Demo.logStore) [] 1 segs pools []
              defaultProjectRules "ipv4" = Ret (log, err))
    by (eexists; eexists; vm_compute; reflexivity).
  destruct Hrun as (log & err & Hrun).
  exists log, err. split; [exact Hrun|].
  exact (allocateFamily_writes (L := Demo.golib_fwd) 1 segs pools [] defaultProjectRules "ipv4"
           log err (fun entries => Permutation_refl entries) Hrun).
Defined.

Lemma analyzeAll_stages_witness :
  let segs := [ Demo.seg 1 "R1" "A" 10 "seg-a" None (Some 25) (Some "10.0.0.0/25"%string) false;
                Demo.seg 2 "R1" "A" 10 "seg-b" None (Some 26) (Some "10.0.0.64/26"%string) false ] in
  let pools := [Demo.pool4 "10.0.1.0/24"] in
  exists st cf,
    analyzeAll (L := Demo.golib_fwd) segs pools [] defaultProjectRules = Ret (st, cf)
    /\ exists reserved perSegment overlaps overlapsV6 dups hints,
         cf = reserved ++ perSegment ++ overlaps ++ overlapsV6 ++ dups ++ hints
         /\ Forall (kindIn ["RESERVED_PARSE"%string]) reserved
         /\ Forall (kindIn segmentKinds) perSegment
         /\ Forall (kindIn ["OVERLAP"%string]) overlaps
         /\ Forall (kindIn ["OVERLAP_V6"%string]) overlapsV6
         /\ Forall (kindIn ["VLAN_DUP"%string]) dups
         /\ Forall (kindIn hintKinds) hints.
Proof.
  intros segs pools.
  assert (Hrun : exists st cf,
            analyzeAll (L := Demo.golib_fwd) segs pools [] defaultProjectRules = Ret (st, cf))
    by (eexists; eexists; vm_compute; reflexivity).
  destruct Hrun as (st & cf & Hrun).
  exists st, cf. split; [exact Hrun|].
  exact (analyzeAll_stages (L := Demo.golib_fwd) segs pools [] defaultProjectRules st cf Hrun).
Defined.

Lemma analyzeSegments_reports_overlap_witness :
  let a := Demo.seg 1 "R1" "A" 10 "seg-a" None (Some 25) (Some "10.0.0.0/25"%string) false in
  let b := Demo.seg 2 "R1" "A" 11 "seg-b" None (Some 26) (Some "10.0.0.64/26"%string) false in
  let p1 := Demo.cidr4 10 0 0 0 25 in
  let p2 := Demo.cidr4 10 0 0 64 26 in
  let run := analyzeSegments (L := Demo.golib_fwd) ([] ++ a :: [] ++ b :: []) ∅ ∅ ∅ ∅
               defaultProjectRules in
  NoDup (map ID ([] ++ a :: [] ++ b :: []))
  /\ Site_ a = Site_ b /\ VRF a = VRF b
  /\ parsedCIDR (L := Demo.golib_fwd) a = Some p1
  /\ parsedCIDR (L := Demo.golib_fwd) b = Some p2
  /\ prefixesOverlap p1 p2 = true
  /\ In (OVERLAP (L := Demo.golib_fwd) a b p1 p2) (snd run)
  /\ level_is (fst run) (ID a) statusConflict /\ level_is (fst run) (ID b) statusConflict.
Proof.
  intros a b p1 p2 run.
  assert (Hnd : NoDup (map ID ([] ++ a :: [] ++ b :: []))) by distinct_ids.
  assert (Hpa : parsedCIDR (L := Demo.golib_fwd) a = Some p1) by (vm_compute; reflexivity).
  assert (Hpb : parsedCIDR (L := Demo.golib_fwd) b = Some p2) by (vm_compute; reflexivity).
  assert (Hover : prefixesOverlap p1 p2 = true) by (vm_compute; reflexivity).
  split; [exact Hnd|]. split; [reflexivity|]. split; [reflexivity|].
  split; [exact Hpa|]. split; [exact Hpb|]. split; [exact Hover|].
  exact (analyzeSegments_reports_overlap (L := Demo.golib_fwd) [] [] [] a b ∅ ∅ ∅ ∅
           defaultProjectRules (fst run) (snd run) p1 p2 Hnd
           (fun entries => Permutation_refl entries) eq_refl eq_refl Hpa Hpb Hover
           (surjective_pairing run)).
Defined.

Lemma demo_digitsValue_nonneg (s : string) (acc v : Z) :
  0 <= acc -> Demo.digitsValue s acc = Some v -> 0 <= v.
Proof.
  revert acc. induction s as [|c s IH]; intros acc Hacc Hv; simpl in Hv.
  - injection Hv as <-. exact Hacc.
  - destruct (Demo.isDigit c) eqn:Hd; [|discriminate].
    refine (IH _ _ Hv).
    unfold Demo.isDigit in Hd. apply andb_true_iff in Hd as [Hlo _].
    apply N.leb_le in Hlo. lia.
Qed.

Lemma demo_parseField_nonneg (s : string) (v : Z) : Demo.parseField s = Some v -> 0 <= v.
Proof.
  unfold Demo.parseField. destruct s as [|c rest]; [discriminate|].
  destruct (3 <? String.length (String c rest))%nat; [discriminate|].
  destruct (Ascii.eqb c "0" && negb (isEmpty rest)); [discriminate|].
  apply demo_digitsValue_nonneg. lia.
Qed.

Lemma demo_parse_valid (text : string) (p : Prefix) :
  ParsePrefix (GoLib := Demo.golib_fwd) text = Some p -> valid p.
Proof.
  cbn [ParsePrefix Demo.golib_fwd Demo.lib]. unfold Demo.parse.
  destruct (Split text "/") as [|ip [|bits [|? ?]]]; try discriminate.
  destruct (Demo.parseAddr4 ip) as [a|] eqn:Ha; [|discriminate].
  destruct (Demo.parseField bits) as [n|] eqn:Hn; [|discriminate].
  destruct (Z.leb_spec n 32) as [Hn32|]; [|discriminate].
  intros [= <-]. apply demo_parseField_nonneg in Hn.
  unfold Demo.parseAddr4 in Ha.
  assert (Hall : forall v, In (Some v) (map Demo.parseField (Split ip ".")) -> 0 <= v).
  { intros v Hv. apply in_map_iff in Hv as (field & Hfield & _).
    exact (demo_parseField_nonneg field v Hfield). }
  destruct (map Demo.parseField (Split ip ".")) as [|[x|] [|[y|] [|[z|] [|[w|] [|? ?]]]]];
    try discriminate.
  assert (Hx := Hall x ltac:(cbn [In]; auto)).
  assert (Hy := Hall y ltac:(cbn [In]; auto)).
  assert (Hz := Hall z ltac:(cbn [In]; auto)).
  assert (Hw := Hall w ltac:(cbn [In]; auto)).
  destruct (Z.leb_spec x 255); [|discriminate].
  destruct (Z.leb_spec y 255); [|discriminate].
  destruct (Z.leb_spec z 255); [|discriminate].
  destruct (Z.leb_spec w 255); [|discriminate].
  injection Ha as <-. unfold valid. cbn [PAddr Bits value BitLen].
  assert (2 ^ 32 = 4294967296) by reflexivity. lia.
Qed.

Lemma demo_sorts_ranges : sorts_ranges (sort_Slice (GoLib := Demo.golib_fwd) range_less).
Proof.
  intros l. cbn [sort_Slice Demo.golib_fwd Demo.lib].
  apply sort_SliceStable_sorts.
  - intros a b. unfold range_less.
    destruct (Z.eqb_spec (r_start a) (r_start b)); [lia|]. intros H%Z.ltb_lt. lia.
  - intros a b. unfold range_less.
    destruct (Z.eqb_spec (r_start a) (r_start b)); [lia|]. intros H%Z.ltb_ge. lia.
  - intros a b c. lia.
Qed.

Lemma buildUsedRanges_sorted_apart_inside_below_top_witness :
  let pool := Demo.cidr4 10 30 0 0 24 in
  let segs := [ Demo.seg 1 "SAI" "MGMT" 20 "mgmt" None (Some 26) (Some "10.30.0.64/26"%string) true;
                Demo.seg 2 "SAI" "PROD" 10 "users" None (Some 28) (Some "10.30.0.0/28"%string) false ] in
  let reserved := [Demo.cidr4 10 30 0 16 28] in
  let lo := ipv4ToU32 (PAddr (Masked pool)) in
  let hi := lastOfBlock lo (Bits pool) in
  let out := buildUsedRanges (L := Demo.golib_fwd) pool segs reserved in
  valid pool /\ Is4 (PAddr pool) = true /\ Forall valid reserved /\ hi < 2 ^ 32 - 1
  /\ out = [mkRange 169738240 169738271; mkRange 169738304 169738367]
  /\ Forall (inside lo hi) (map toBig out)
  /\ StronglySorted apart (map toBig out).
Proof.
  intros pool segs reserved lo hi out.
  assert (Hpool : valid pool) by (unfold valid; simpl; lia).
  assert (H4 : Is4 (PAddr pool) = true) by reflexivity.
  assert (Hres : Forall valid reserved) by (repeat constructor; simpl; lia).
  assert (Htop : hi < 2 ^ 32 - 1) by (vm_compute; reflexivity).
  split; [exact Hpool|]. split; [exact H4|]. split; [exact Hres|]. split; [exact Htop|].
  split; [vm_compute; reflexivity|].
  exact (buildUsedRanges_sorted_apart_inside_below_top Demo.golib_fwd pool segs reserved
           Hpool H4 demo_parse_valid Hres demo_sorts_ranges Htop).
Defined.

Lemma freeRanges_conserves_below_top_witness :
  let pool := Demo.cidr4 10 30 0 0 24 in
  let used := [mkRange 169738240 169738271; mkRange 169738304 169738367] in
  let lo := ipv4ToU32 (PAddr (Masked pool)) in
  let hi := lastOfBlock lo (Bits pool) in
  valid pool /\ Is4 (PAddr pool) = true /\ hi < 2 ^ 32 - 1
  /\ StronglySorted apart (map toBig used)
  /\ Forall (inside lo hi) (map toBig used)
  /\ freeRanges pool used = [mkRange 169738272 169738303; mkRange 169738368 169738495]
  /\ sumIPv4Ranges used + sumIPv4Ranges (freeRanges pool used) = prefixSize pool.
Proof.
  intros pool used lo hi.
  assert (Hpool : valid pool) by (unfold valid; simpl; lia).
  assert (H4 : Is4 (PAddr pool) = true) by reflexivity.
  assert (Htop : hi < 2 ^ 32 - 1) by (vm_compute; reflexivity).
  assert (Hap : StronglySorted apart (map toBig used)).
  { repeat constructor; simpl; lia. }
  assert (Hin : Forall (inside lo hi) (map toBig used)).
  { repeat constructor; vm_compute; discriminate. }
  split; [exact Hpool|]. split; [exact H4|]. split; [exact Htop|].
  split; [exact Hap|]. split; [exact Hin|]. split; [vm_compute; reflexivity|].
  exact (freeRanges_conserves_below_top pool used Hpool H4 Htop Hap Hin).
Defined.
